(** * EMMM: the parser, the expansion engine and the strip pass

    A shallow embedding of [parser.ts] and [util.ts] (the parser and
    expander, [stripDocument]) and of the [define-block] system modifier,
    together with the properties the specification states about them.

    JavaScript numbers that hold positions and depths are modelled by [Z],
    strings by [string], arrays by [list].  Nodes that the source mutates
    in place are passed through the functions and returned updated. *)

From Stdlib Require Import List String Ascii ZArith Lia Bool Arith Sorted.
Import ListNotations.

Set Warnings "-register-all".

Local Open Scope string_scope.
Local Open Scope list_scope.
Local Open Scope Z_scope.

(** ** Tokens (parser.ts, lines 6-16) *)

Definition GROUP_BEGIN : string := ":--".
Definition GROUP_END : string := "--:".
Definition MODIFIER_BLOCK_OPEN : string := "[.".
Definition MODIFIER_CLOSE_SIGN : string := "]".
Definition MODIFIER_END_SIGN : string := ";".
Definition MODIFIER_INLINE_OPEN : string := "[/".
Definition MODIFIER_INLINE_END_TAG : string := "[;]".
Definition MODIFIER_SYSTEM_OPEN : string := "[-".

Definition slen (s : string) : Z := Z.of_nat (String.length s).

(** ** Data model *)

(** The [type] argument of [Parser.MODIFIER] and the [type] tag of a
    modifier node. *)
Inductive ModType := block | system | inline.

Definition ModType_eqb (a b : ModType) : bool :=
  match a, b with
  | block, block | system, system | inline, inline => true
  | _, _ => false
  end.

(** [ModifierFlags]: a bit set tested with [has]. *)
Module ModifierFlags.
Definition Normal : Z := 0.
Definition Preformatted : Z := 1.
Definition Marker : Z := 2.
End ModifierFlags.

(** util.ts, [has]. *)
Definition has (v f : Z) : bool := Z.land v f =? f.

Record PositionRange := { start : Z; end_ : Z }.

(** Messages.  The classes of messages.ts the parser constructs, the two
    that define-block constructs, and [CustomMessage] for whatever else a
    definition's hook returns. *)
Inductive Message :=
| ExpectedMessage (position : Z) (what : string)
| UnknownModifierMessage (position length : Z)
| UnclosedInlineModifierMessage (position : Z) (what : string)
| UnnecessaryNewlineMessage (pos len : Z)
| NewBlockShouldBeOnNewlineMessage (pos : Z)
| ContentShouldBeOnNewlineMessage (pos : Z)
| ReachedReparseLimitMessage (position length limit : Z) (name : string)
| InvalidArgumentMessage (position length : Z)
| NameAlreadyDefinedMessage (position length : Z) (name : string)
| CustomMessage (code position length : Z) (info : string)
| ReferredMessage (original : Message) (position length : Z).

Section Model.

(** Identities of the definition objects a configuration can hold, and the
    types a definition chooses for its node state and for the context
    store. *)
Variable DefId : Type.
Variable InterpId : Type.
Variable NodeState : Type.
Variable Store : Type.

(** A node's [mod] is a registered definition or one of the three
    [UnknownModifier] objects (parser.ts, lines 18-22). *)
Inductive ModRef :=
| UnknownModifier (t : ModType)
| Registered (d : DefId).

Inductive ArgumentEntity :=
| ArgText (a_start a_end : Z) (content : string)
| ArgEscaped (a_start a_end : Z) (content : string)
| ArgInterp (definition : InterpId) (arg : ModifierArgument) (a_start a_end : Z)
with ModifierArgument :=
| mkArgument (arg_start arg_end : Z) (arg_content : list ArgumentEntity).

Definition arg_content (a : ModifierArgument) : list ArgumentEntity :=
  match a with mkArgument _ _ c => c end.

(** The fields of a [ModifierNode]; [N] is the type of entities. *)
Record ModifierData (N : Type) := mkModifier {
  m_type : ModType;
  m_mod : ModRef;
  m_head : PositionRange;
  m_arguments : list ModifierArgument;
  m_start : Z;
  m_end : Z;
  m_state : option NodeState;
  m_content : list N;
  m_expansion : option (list N)
}.
Arguments mkModifier {N}.
Arguments m_type {N}.
Arguments m_mod {N}.
Arguments m_head {N}.
Arguments m_arguments {N}.
Arguments m_start {N}.
Arguments m_end {N}.
Arguments m_state {N}.
Arguments m_content {N}.
Arguments m_expansion {N}.

(** [BlockEntity | InlineEntity]. *)
Inductive Node :=
| ParagraphNode (n_start n_end : Z) (content : list Node)
| PreNode (n_start n_end : Z) (c_start c_end : Z) (text : string)
| TextNode (n_start n_end : Z) (content : string)
| EscapedNode (n_start n_end : Z) (content : string)
| ModifierNode (m : ModifierData Node).

Definition Modifier := ModifierData Node.

Record RootNode := mkRoot {
  root_start : Z;
  root_end : Z;
  root_content : list Node
}.

Definition set_content (m : Modifier) (c : list Node) : Modifier :=
  mkModifier (m_type m) (m_mod m) (m_head m) (m_arguments m) (m_start m)
             (m_end m) (m_state m) c (m_expansion m).

Definition set_expansion (m : Modifier) (e : option (list Node)) : Modifier :=
  mkModifier (m_type m) (m_mod m) (m_head m) (m_arguments m) (m_start m)
             (m_end m) (m_state m) (m_content m) e.

Definition set_end (m : Modifier) (e : Z) : Modifier :=
  mkModifier (m_type m) (m_mod m) (m_head m) (m_arguments m) (m_start m)
             e (m_state m) (m_content m) (m_expansion m).

(** Modelled from the spec: the [Configuration] class is not among the
    sources.  Four registries that keep insertion order ([entries()] of a
    JavaScript [Map]) and the scalar [reparseDepthLimit]. *)
Record Configuration := mkConfig {
  blockModifiers : list (string * DefId);
  inlineModifiers : list (string * DefId);
  systemModifiers : list (string * DefId);
  argumentInterpolators : list (string * InterpId);
  reparseDepthLimit : Z
}.

(** Modelled from the spec: [ParseContext] owns the live configuration,
    [delayDepth] and the typed store. *)
Record ParseContext := mkContext {
  config : Configuration;
  delayDepth : Z;
  store : Store
}.

Definition set_delayDepth (c : ParseContext) (d : Z) : ParseContext :=
  mkContext (config c) d (store c).

(** A lifecycle hook receives the node and the context, may mutate both,
    and returns messages. *)
Definition Hook : Type :=
  Modifier -> ParseContext -> list Message * Modifier * ParseContext.

(** [expand] returns the expansion, or [undefined]. *)
Definition ExpandHook : Type :=
  Modifier -> ParseContext -> option (list Node) * Modifier * ParseContext.

(** [ModifierBase] as parser.ts uses it. *)
Record ModifierDefinition := mkDefinition {
  name : string;
  flags : Z;
  delayContentExpansion : bool;
  alwaysTryExpand : bool;
  beforeParseContent : option Hook;
  afterParseContent : option Hook;
  beforeProcessExpansion : option Hook;
  afterProcessExpansion : option Hook;
  prepareExpand : option Hook;
  expand : option ExpandHook
}.

(** [ArgumentInterpolatorDefinition]: [expand] is an optional function. *)
Record ArgumentInterpolatorDefinition := mkInterpolator {
  i_name : string;
  i_postfix : string;
  i_alwaysTryExpand : bool;
  i_expand : option (string -> ParseContext -> bool -> option string)
}.

(** The objects behind the identities. *)
Variable definition_of : DefId -> ModifierDefinition.
Variable interpolator_of : InterpId -> ArgumentInterpolatorDefinition.

(** [new XModifierDefinition('UNKNOWN', ModifierFlags.Normal)]. *)
Definition unknown_definition : ModifierDefinition :=
  mkDefinition "UNKNOWN" ModifierFlags.Normal false false
               None None None None None None.

Definition definition (r : ModRef) : ModifierDefinition :=
  match r with
  | UnknownModifier _ => unknown_definition
  | Registered d => definition_of d
  end.

(** ** Scanner *)

(** Modelled from the spec: the scanner class is not among the sources.
    An immutable source with a cursor, kept as the cursor position and the
    text that is left. *)
Record Scanner := mkScanner {
  position : Z;
  rest : string
}.

Definition newline : ascii := "010"%char.
Definition backslash : string := String "\"%char "".
Definition NL : string := String newline "".

(** Non-newline whitespace. *)
Definition is_whitespace (c : ascii) : bool :=
  (Ascii.eqb c " "%char || Ascii.eqb c "009"%char)%bool.

(** [strip_prefix p s] is what follows [p] in [s], when [s] begins with
    [p]. *)
Fixpoint strip_prefix (p s : string) : option string :=
  match p with
  | EmptyString => Some s
  | String a p' =>
      match s with
      | EmptyString => None
      | String b s' => if Ascii.eqb a b then strip_prefix p' s' else None
      end
  end.

Definition isEOF (sc : Scanner) : bool :=
  match rest sc with EmptyString => true | _ => false end.

Definition peek (s : string) (sc : Scanner) : bool :=
  match strip_prefix s (rest sc) with Some _ => true | None => false end.

Definition accept (s : string) (sc : Scanner) : bool * Scanner :=
  match strip_prefix s (rest sc) with
  | Some r => (true, mkScanner (position sc + slen s) r)
  | None => (false, sc)
  end.

(** [None] stands for the error the scanner raises at the end of the
    input. *)
Definition acceptChar (sc : Scanner) : option (string * Scanner) :=
  match rest sc with
  | EmptyString => None
  | String c r => Some (String c "", mkScanner (position sc + 1) r)
  end.

Definition acceptWhitespaceChar (sc : Scanner) : option string * Scanner :=
  match rest sc with
  | EmptyString => (None, sc)
  | String c r =>
      if is_whitespace c
      then (Some (String c ""), mkScanner (position sc + 1) r)
      else (None, sc)
  end.

Fixpoint acceptUntil_from (s : string) (pos : Z) (r : string) (acc : string)
  : option string * Scanner :=
  match r with
  | EmptyString => (None, mkScanner pos r)
  | String c r' =>
      match strip_prefix s r with
      | Some _ => (Some acc, mkScanner pos r)
      | None => acceptUntil_from s (pos + 1) r' (acc ++ String c "")%string
      end
  end.

Definition acceptUntil (s : string) (sc : Scanner) : option string * Scanner :=
  acceptUntil_from s (position sc) (rest sc) "".

(** ** Parser state *)

(** [NodeWithBlockContent] and [NodeWithInlineContent]: the nodes that are
    open on the two stacks of [EmitEnvironment]. *)
Inductive BlockContainer :=
| BRoot (r : RootNode)
| BModifier (m : Modifier).

Inductive InlineContainer :=
| IParagraph (n_start n_end : Z) (content : list Node)
| IModifier (m : Modifier).

(** [Parser.prefixes]. *)
Record Prefixes := mkPrefixes {
  p_block : list (string * DefId);
  p_system : list (string * DefId);
  p_inline : list (string * DefId);
  p_interpolator : list (string * InterpId)
}.

(** The fields of [Parser] and of its [EmitEnvironment] and scanner.
    [messages] and [referringStack] are in array order (last pushed
    last); [blockStack] and [inlineStack] have the top of the stack
    first, and the root is the last entry of [blockStack].

    In the source an open node is at once an element of its parent's
    [content] and an entry of a stack, and is mutated through either
    reference.  Here the entry of the stack is the one that is mutated,
    and it is copied over the parent's element when it is popped and when
    [MODIFIER] has expanded it. *)
Record PState := mkState {
  scanner : Scanner;
  messages : list Message;
  blockStack : list BlockContainer;
  inlineStack : list InlineContainer;
  referringStack : list PositionRange;
  cxt : ParseContext;
  groupDepth : Z;
  prefixes : Prefixes
}.

Definition set_scanner (st : PState) (sc : Scanner) : PState :=
  mkState sc (messages st) (blockStack st) (inlineStack st)
          (referringStack st) (cxt st) (groupDepth st) (prefixes st).
Definition set_messages (st : PState) (ms : list Message) : PState :=
  mkState (scanner st) ms (blockStack st) (inlineStack st)
          (referringStack st) (cxt st) (groupDepth st) (prefixes st).
Definition set_blockStack (st : PState) (b : list BlockContainer) : PState :=
  mkState (scanner st) (messages st) b (inlineStack st)
          (referringStack st) (cxt st) (groupDepth st) (prefixes st).
Definition set_inlineStack (st : PState) (i : list InlineContainer) : PState :=
  mkState (scanner st) (messages st) (blockStack st) i
          (referringStack st) (cxt st) (groupDepth st) (prefixes st).
Definition set_referringStack (st : PState) (r : list PositionRange) : PState :=
  mkState (scanner st) (messages st) (blockStack st) (inlineStack st)
          r (cxt st) (groupDepth st) (prefixes st).
Definition set_cxt (st : PState) (c : ParseContext) : PState :=
  mkState (scanner st) (messages st) (blockStack st) (inlineStack st)
          (referringStack st) c (groupDepth st) (prefixes st).
Definition set_groupDepth (st : PState) (g : Z) : PState :=
  mkState (scanner st) (messages st) (blockStack st) (inlineStack st)
          (referringStack st) (cxt st) g (prefixes st).
Definition set_prefixes (st : PState) (p : Prefixes) : PState :=
  mkState (scanner st) (messages st) (blockStack st) (inlineStack st)
          (referringStack st) (cxt st) (groupDepth st) p.

(** A run of the parser ends with a value and a state, with a thrown
    error (a failed [assert], [debug.never], the scanner read past the end
    of the input), or is cut short by the recursion bound of the model. *)
Inductive Outcome (A : Type) :=
| Done (a : A) (st : PState)
| Thrown
| OutOfFuel.
Arguments Done {A}.
Arguments Thrown {A}.
Arguments OutOfFuel {A}.

Definition M (A : Type) : Type := PState -> Outcome A.

Definition ret {A} (a : A) : M A := fun st => Done a st.

Definition bind {A B} (m : M A) (k : A -> M B) : M B :=
  fun st =>
    match m st with
    | Done a st' => k a st'
    | Thrown => Thrown
    | OutOfFuel => OutOfFuel
    end.

Notation "x <- m ;; k" := (bind m (fun x => k))
  (at level 61, m at next level, right associativity).
Notation "' p <- m ;; k" := (bind m (fun x => match x with p => k end))
  (at level 61, p pattern, m at next level, right associativity).
Notation "m ;;; k" := (bind m (fun _ => k))
  (at level 61, right associativity).

Definition throw {A} : M A := fun _ => Thrown.
Definition get : M PState := fun st => Done st st.
Definition modify (f : PState -> PState) : M unit := fun st => Done tt (f st).
Definition assert (b : bool) : M unit := if b then ret tt else throw.
Definition when (b : bool) (m : M unit) : M unit := if b then m else ret tt.

(** Scanner primitives on the parser state. *)
Definition s_position : M Z := fun st => Done (position (scanner st)) st.
Definition s_isEOF : M bool := fun st => Done (isEOF (scanner st)) st.
Definition s_peek (s : string) : M bool :=
  fun st => Done (peek s (scanner st)) st.
Definition s_accept (s : string) : M bool :=
  fun st => let (b, sc) := accept s (scanner st) in Done b (set_scanner st sc).
Definition s_acceptChar : M string :=
  fun st => match acceptChar (scanner st) with
            | Some (c, sc) => Done c (set_scanner st sc)
            | None => Thrown
            end.
Definition s_acceptWhitespaceChar : M (option string) :=
  fun st => let (c, sc) := acceptWhitespaceChar (scanner st) in
            Done c (set_scanner st sc).
Definition s_acceptUntil (s : string) : M (option string) :=
  fun st => let (r, sc) := acceptUntil s (scanner st) in
            Done r (set_scanner st sc).

(** ** [EmitEnvironment] *)

(** [message]: each message is wrapped once for every range on the
    referring stack, innermost range first. *)
Definition refer (msg : Message) (stack : list PositionRange) : Message :=
  fold_left (fun m range => ReferredMessage m (start range) (end_ range - start range))
            (rev stack) msg.

Definition message (m : list Message) : M unit :=
  modify (fun st =>
    set_messages st (messages st ++ map (fun msg => refer msg (referringStack st)) m)).

Definition pushReferring (s e : Z) : M unit :=
  modify (fun st => set_referringStack st (referringStack st ++ [Build_PositionRange s e])).

Definition popReferring : M unit :=
  st <- get ;;
  assert (0 <? Z.of_nat (List.length (referringStack st))) ;;;
  modify (fun st => set_referringStack st (removelast (referringStack st))).

Definition push_block (b : BlockContainer) (n : Node) : BlockContainer :=
  match b with
  | BRoot r => BRoot (mkRoot (root_start r) (root_end r) (root_content r ++ [n]))
  | BModifier m => BModifier (set_content m (m_content m ++ [n]))
  end.

Definition inline_content (i : InlineContainer) : list Node :=
  match i with
  | IParagraph _ _ c => c
  | IModifier m => m_content m
  end.

Definition set_inline_content (i : InlineContainer) (c : list Node) : InlineContainer :=
  match i with
  | IParagraph s e _ => IParagraph s e c
  | IModifier m => IModifier (set_content m c)
  end.

Definition addBlockNode (n : Node) : M unit :=
  fun st =>
    match blockStack st with
    | [] => Thrown
    | top :: below => Done tt (set_blockStack st (push_block top n :: below))
    end.

Definition addInlineNode (n : Node) : M unit :=
  fun st =>
    match inlineStack st with
    | [] => Thrown
    | top :: below =>
        Done tt (set_inlineStack st
                   (set_inline_content top (inline_content top ++ [n]) :: below))
    end.

(** [addString]: appended to a trailing text node, or pushed as a new
    one. *)
Definition add_string (content : list Node) (str : string) (pos : Z) : list Node :=
  match rev content with
  | TextNode s e c :: before =>
      rev before ++ [TextNode s pos (c ++ str)%string]
  | _ => content ++ [TextNode (pos - slen str) pos str]
  end.

Definition addString (str : string) : M unit :=
  fun st =>
    match inlineStack st with
    | [] => Thrown
    | top :: below =>
        Done tt (set_inlineStack st
                   (set_inline_content top
                      (add_string (inline_content top) str (position (scanner st)))
                    :: below))
    end.

(** The node that [startBlock] and [startInline] open is stored in its
    parent and pushed on the stack; [endBlock] and [endInline] pop it, set
    its [end] and return it.  The copy in the parent is brought up to
    date by [store_block] and [store_inline], which overwrite the last
    entity of the open parent. *)
Definition replace_last (l : list Node) (n : Node) : list Node :=
  removelast l ++ [n].

Definition store_block (n : Node) : M unit :=
  fun st =>
    match blockStack st with
    | [] => Thrown
    | BRoot r :: below =>
        Done tt (set_blockStack st
          (BRoot (mkRoot (root_start r) (root_end r) (replace_last (root_content r) n))
           :: below))
    | BModifier m :: below =>
        Done tt (set_blockStack st
          (BModifier (set_content m (replace_last (m_content m) n)) :: below))
    end.

Definition store_inline (n : Node) : M unit :=
  fun st =>
    match inlineStack st with
    | [] => Thrown
    | top :: below =>
        Done tt (set_inlineStack st
          (set_inline_content top (replace_last (inline_content top) n) :: below))
    end.

Definition startBlock (m : Modifier) : M unit :=
  addBlockNode (ModifierNode m) ;;;
  modify (fun st => set_blockStack st (BModifier m :: blockStack st)).

Definition endBlock : M Modifier :=
  st <- get ;;
  match blockStack st with
  | BModifier m :: (_ :: _) as below =>
      let m := set_end m (position (scanner st)) in
      modify (fun st => set_blockStack st below) ;;;
      store_block (ModifierNode m) ;;;
      ret m
  | _ => throw
  end.

Definition node_of_inline (i : InlineContainer) : Node :=
  match i with
  | IParagraph s e c => ParagraphNode s e c
  | IModifier m => ModifierNode m
  end.

Definition startInline (n : InlineContainer) : M unit :=
  match n with
  | IParagraph _ _ _ => addBlockNode (node_of_inline n)
  | IModifier _ => addInlineNode (node_of_inline n)
  end ;;;
  modify (fun st => set_inlineStack st (n :: inlineStack st)).

Definition set_inline_end (i : InlineContainer) (e : Z) : InlineContainer :=
  match i with
  | IParagraph s _ c => IParagraph s e c
  | IModifier m => IModifier (set_end m e)
  end.

Definition endInline : M InlineContainer :=
  st <- get ;;
  match inlineStack st with
  | [] => throw
  | top :: below =>
      let n := set_inline_end top (position (scanner st)) in
      modify (fun st => set_inlineStack st below) ;;;
      match n with
      | IParagraph _ _ _ => store_block (node_of_inline n)
      | IModifier _ => store_inline (node_of_inline n)
      end ;;;
      ret n
  end.

(** ** Prefix tables *)

(** [entries.sort(([x, _], [y, __]) => y.length - x.length)]:
    [Array.prototype.sort] is stable, so entries are ordered by decreasing
    length of the name and, among names of one length, as the registry
    lists them. *)
Section Sort.
Context {D : Type}.

Fixpoint insert_by_length (x : string * D) (l : list (string * D))
  : list (string * D) :=
  match l with
  | [] => [x]
  | y :: l' =>
      if slen (fst x) <? slen (fst y)
      then y :: insert_by_length x l'
      else x :: y :: l'
  end.

Fixpoint sort_by_length (l : list (string * D)) : list (string * D) :=
  match l with
  | [] => []
  | x :: l' => insert_by_length x (sort_by_length l')
  end.

(** [prefixes.find(([name, _]) => this.scanner.accept(name))]: the first
    entry whose name is accepted, and the scanner behind that name. *)
Fixpoint find_accept (l : list (string * D)) (sc : Scanner)
  : option (string * D) * Scanner :=
  match l with
  | [] => (None, sc)
  | x :: l' =>
      match accept (fst x) sc with
      | (true, sc') => (Some x, sc')
      | (false, _) => find_accept l' sc
      end
  end.
End Sort.

(** [Parser.#sortModifiers]. *)
Definition sorted_prefixes (c : Configuration) : Prefixes :=
  mkPrefixes (sort_by_length (blockModifiers c))
             (sort_by_length (systemModifiers c))
             (sort_by_length (inlineModifiers c))
             (sort_by_length (argumentInterpolators c)).

Definition sortModifiers : M unit :=
  modify (fun st => set_prefixes st (sorted_prefixes (config (cxt st)))).

(** ** Expansion *)

Definition limit (st : PState) : Z := reparseDepthLimit (config (cxt st)).

(** A hook call, [this.emit.message(...hook(node, this.cxt))].  The hook
    may change the configuration.  Modelled from the spec: a registry
    fires the context's [onConfigChange] when it is mutated, and the
    parser's constructor sets that callback to [#sortModifiers]; so the
    prefix tables are rebuilt from the configuration the hook leaves. *)
Definition call_hook (h : option Hook) (node : Modifier) : M Modifier :=
  match h with
  | None => ret node
  | Some f =>
      st <- get ;;
      let '(msgs, node', cxt') := f node (cxt st) in
      modify (fun st => set_cxt st cxt') ;;;
      sortModifiers ;;;
      message msgs ;;;
      ret node'
  end.

Definition add_delayDepth (d : Z) : M unit :=
  modify (fun st => set_cxt st (set_delayDepth (cxt st) (delayDepth (cxt st) + d))).

Definition def_of (node : Modifier) : ModifierDefinition := definition (m_mod node).

(** The first part of [Parser.#expand] (lines 173-182): the simulated
    initial parse of the content of a generated node. *)
Definition expand_content
  (reparse : list Node -> Z -> M (bool * list Node))
  (node : Modifier) (depth : Z) : M Modifier :=
  if ((0 <? Z.of_nat (List.length (m_content node))) && (depth >? 0))%bool
  then
    node <- call_hook (beforeParseContent (def_of node)) node ;;
    when (delayContentExpansion (def_of node)) (add_delayDepth 1) ;;;
    '(_, content) <- reparse (m_content node) depth ;;
    let node := set_content node content in
    when (delayContentExpansion (def_of node)) (add_delayDepth (-1)) ;;;
    call_hook (afterParseContent (def_of node)) node
  else ret node.

(** [Parser.#expand], over the [#reparse] it calls.  The result carries
    the node as the call leaves it.  [#reparse] mutates the nodes of the
    array it is given: the reparsed list is stored back in the field
    ([expansion] or [content]) it was read from. *)
Definition expand_with
  (reparse : list Node -> Z -> M (bool * list Node))
  (node : Modifier) (depth : Z) : M (bool * Modifier) :=
  st <- get ;;
  match m_expansion node with
  | Some _ => ret (true, node)
  | None =>
  if ((delayDepth (cxt st) >? 0) && negb (alwaysTryExpand (def_of node)))%bool
  then ret (true, node)
  else
    node <- expand_content reparse node depth ;;
    node <- call_hook (prepareExpand (def_of node)) node ;;
    r <-
      (match expand (def_of node) with
       | Some f =>
           st <- get ;;
           let '(e, node', cxt') := f node (cxt st) in
           modify (fun st => set_cxt st cxt') ;;;
           sortModifiers ;;;
           ret (set_expansion node' e, match e with None => true | Some _ => false end)
       | None => ret (node, false)
       end) ;;
    let '(node, stop) := r in
    if stop then ret (true, node)
    else
      let expansion :=
        match m_expansion node with Some e => e | None => m_content node end in
      if Z.of_nat (List.length expansion) =? 0 then ret (true, node)
      else
        node <- call_hook (beforeProcessExpansion (def_of node)) node ;;
        pushReferring (m_start node) (m_end node) ;;;
        '(ok, expansion') <- reparse expansion depth ;;
        let node :=
          match m_expansion node with
          | Some _ => set_expansion node (Some expansion')
          | None => set_content node expansion'
          end in
        popReferring ;;;
        node <- call_hook (afterProcessExpansion (def_of node)) node ;;
        when (negb ok && (depth =? 0))%bool
          (st <- get ;;
           message [ReachedReparseLimitMessage
                      (m_start node) (m_end node - m_start node) (limit st)
                      (name (def_of node))]) ;;;
        ret (ok, node)
  end.

(** [Parser.#reparse].  [fuel] bounds the depth of the recursion. *)
Fixpoint reparse (fuel : nat) (nodes : list Node) (depth : Z) {struct fuel}
  : M (bool * list Node) :=
  match fuel with
  | O => fun _ => OutOfFuel
  | S fuel' =>
      st <- get ;;
      if depth >? limit st then ret (false, nodes)
      else
        (fix loop (nodes : list Node) (ok : bool) (done : list Node) {struct nodes}
           : M (bool * list Node) :=
           match nodes with
           | [] => ret (ok, rev done)
           | node :: nodes' =>
               match node with
               | PreNode _ _ _ _ _ | TextNode _ _ _ | EscapedNode _ _ _ =>
                   loop nodes' ok (node :: done)
               | ParagraphNode s e content =>
                   '(ok', content') <- reparse fuel' content (depth + 1) ;;
                   loop nodes' (ok' && ok)%bool (ParagraphNode s e content' :: done)
               | ModifierNode m =>
                   '(ok', m') <- expand_with (reparse fuel') m (depth + 1) ;;
                   loop nodes' (ok' && ok)%bool (ModifierNode m' :: done)
               end
           end) nodes true []
  end.

Definition expand_node (fuel : nat) (node : Modifier) (depth : Z)
  : M (bool * Modifier) :=
  expand_with (reparse fuel) node depth.

(** ** Recursive descent *)

Fixpoint skip_whitespace (pos : Z) (r : string) : Scanner :=
  match r with
  | String c r' =>
      if is_whitespace c then skip_whitespace (pos + 1) r' else mkScanner pos r
  | EmptyString => mkScanner pos r
  end.

(** [while (this.scanner.acceptWhitespaceChar() !== null) {}]. *)
Definition ACCEPT_WHITESPACES : M unit :=
  modify (fun st =>
    set_scanner st (skip_whitespace (position (scanner st)) (rest (scanner st)))).

Fixpoint skip_whitespace_or_newline (pos : Z) (r : string) : Scanner :=
  match r with
  | String c r' =>
      if (is_whitespace c || Ascii.eqb c newline)%bool
      then skip_whitespace_or_newline (pos + 1) r'
      else mkScanner pos r
  | EmptyString => mkScanner pos r
  end.

Definition WHITESPACES_OR_NEWLINES : M unit :=
  modify (fun st =>
    set_scanner st
      (skip_whitespace_or_newline (position (scanner st)) (rest (scanner st)))).

Definition SHOULD_BE_A_NEWLINE : M unit :=
  ACCEPT_WHITESPACES ;;;
  b <- s_accept NL ;;
  when (negb b)
    (pos <- s_position ;; message [ContentShouldBeOnNewlineMessage pos]).

(** The loop of [WARN_IF_MORE_NEWLINES_THAN]: the scanner behind the run
    of newlines and whitespace, and the number of newlines in it. *)
Fixpoint count_newlines (pos : Z) (r : string) (nlines : Z) : Z * Scanner :=
  match r with
  | String c r' =>
      if Ascii.eqb c newline then count_newlines (pos + 1) r' (nlines + 1)
      else if is_whitespace c then count_newlines (pos + 1) r' nlines
      else (nlines, mkScanner pos r)
  | EmptyString => (nlines, mkScanner pos r)
  end.

Definition WARN_IF_MORE_NEWLINES_THAN (n : Z) : M unit :=
  start <- s_position ;;
  st <- get ;;
  let (nlines, sc) := count_newlines (position (scanner st)) (rest (scanner st)) 0 in
  modify (fun st => set_scanner st sc) ;;;
  end_ <- s_position ;;
  when (nlines >? n) (message [UnnecessaryNewlineMessage start (end_ - start)]).

(** [emitString] of [ARGUMENT_CONTENT]. *)
Definition emitString (content : list ArgumentEntity) (s : string) (pos : Z)
  : list ArgumentEntity :=
  match rev content with
  | ArgText a_s a_e c :: before =>
      rev before ++ [ArgText a_s (a_e + slen s) (c ++ s)%string]
  | _ => content ++ [ArgText (pos - slen s) pos s]
  end.

Definition find_interpolator : M (option (string * InterpId)) :=
  fun st =>
    let (r, sc) := find_accept (p_interpolator (prefixes st)) (scanner st) in
    Done r (set_scanner st sc).

(** [Parser.ARGUMENT_CONTENT]: the [while (true)] loop, entered with
    [posStart], [content] and [posEnd]; each turn of the loop and each
    nested call takes one unit of [fuel]. *)
Fixpoint ARGUMENT_CONTENT_loop (fuel : nat) (end_ : option string)
  (posStart : Z) (content : list ArgumentEntity) (posEnd : Z) {struct fuel}
  : M (ModifierArgument * bool) :=
  match fuel with
  | O => fun _ => OutOfFuel
  | S fuel' =>
      let finish content posEnd ok := ret (mkArgument posStart posEnd content, ok) in
      found_end <- match end_ with
                   | Some e => s_accept e
                   | None => ret false
                   end ;;
      if found_end then finish content posEnd true
      else
      colon <- s_accept ":" ;;
      if colon
      then finish content posEnd (match end_ with None => true | Some _ => false end)
      else
      p1 <- s_peek MODIFIER_END_SIGN ;;
      p2 <- s_peek MODIFIER_CLOSE_SIGN ;;
      eof <- s_isEOF ;;
      if (p1 || p2 || eof)%bool then finish content posEnd false
      else
      esc <- s_accept backslash ;;
      if esc then
        posEnd <- s_position ;;
        eof <- s_isEOF ;;
        if eof then finish (emitString content backslash posEnd) posEnd false
        else
          c <- s_acceptChar ;;
          ARGUMENT_CONTENT_loop fuel' end_ posStart
            (content ++ [ArgEscaped (posEnd - 2) posEnd c]) posEnd
      else
      result <- find_interpolator ;;
      match result with
      | Some (_, d) =>
          pos <- s_position ;;
          '(inner, ok2) <- ARGUMENT_CONTENT_loop fuel'
                             (Some (i_postfix (interpolator_of d))) pos [] pos ;;
          posEnd <- s_position ;;
          let content := content ++ [ArgInterp d inner (posEnd - 2) posEnd] in
          if negb ok2 then
            message [ExpectedMessage posEnd (i_postfix (interpolator_of d))] ;;;
            finish content posEnd false
          else ARGUMENT_CONTENT_loop fuel' end_ posStart content posEnd
      | None =>
          c <- s_acceptChar ;;
          pos <- s_position ;;
          let content := emitString content c pos in
          ARGUMENT_CONTENT_loop fuel' end_ posStart content pos
      end
  end.

Definition ARGUMENT_CONTENT (fuel : nat) (end_ : option string)
  : M (ModifierArgument * bool) :=
  pos <- s_position ;;
  ARGUMENT_CONTENT_loop fuel end_ pos [] pos.

(** The [while (!end)] loop of [Parser.ARGUMENTS]. *)
Fixpoint ARGUMENTS_loop (fuel : nat) (firstSemicolon : bool)
  (args : list ModifierArgument) {struct fuel} : M (list ModifierArgument) :=
  match fuel with
  | O => fun _ => OutOfFuel
  | S fuel' =>
      '(arg, ok) <- ARGUMENT_CONTENT fuel' None ;;
      if negb ok then
        if ((Z.of_nat (List.length args) =? 0)
            && (Z.of_nat (List.length (arg_content arg)) =? 0)
            && negb firstSemicolon)%bool
        then ret args
        else ret (args ++ [arg])
      else ARGUMENTS_loop fuel' firstSemicolon (args ++ [arg])
  end.

Definition ARGUMENTS (fuel : nat) : M (list ModifierArgument) :=
  firstSemicolon <- s_accept ":" ;;
  when (negb firstSemicolon) WHITESPACES_OR_NEWLINES ;;;
  ARGUMENTS_loop fuel firstSemicolon [].

(** The loop of [Parser.PRE_PARAGRAPH], entered with [string] and
    [posContentEnd]; it returns them as the loop leaves them. *)
Fixpoint PRE_PARAGRAPH_loop (fuel : nat) (grouped : bool) (str : string)
  (posContentEnd : Z) {struct fuel} : M (string * Z) :=
  match fuel with
  | O => fun _ => OutOfFuel
  | S fuel' =>
      eof <- s_isEOF ;;
      if eof then ret (str, posContentEnd)
      else
        nl <- s_accept NL ;;
        if nl then
          st <- get ;;
          let white :=
            (NL ++ substring 0
                     (Z.to_nat (position (skip_whitespace (position (scanner st))
                                                          (rest (scanner st)))
                                - position (scanner st)))
                     (rest (scanner st)))%string in
          ACCEPT_WHITESPACES ;;;
          closed <- (if grouped then s_accept GROUP_END else s_accept NL) ;;
          if closed then ret (str, posContentEnd)
          else
            eof <- s_isEOF ;;
            if eof then
              when grouped
                (pos <- s_position ;; message [ExpectedMessage pos GROUP_END]) ;;;
              ret (str, posContentEnd)
            else
              pos <- s_position ;;
              PRE_PARAGRAPH_loop fuel' grouped (str ++ white)%string pos
        else
          c <- s_acceptChar ;;
          pos <- s_position ;;
          PRE_PARAGRAPH_loop fuel' grouped (str ++ c)%string pos
  end.

Definition PRE_PARAGRAPH (fuel : nat) : M unit :=
  eof <- s_isEOF ;;
  assert (negb eof) ;;;
  posStart <- s_position ;;
  grouped <- s_accept GROUP_BEGIN ;;
  when grouped SHOULD_BE_A_NEWLINE ;;;
  posContentStart <- s_position ;;
  '(str, posContentEnd) <- PRE_PARAGRAPH_loop fuel grouped "" posContentStart ;;
  pos <- s_position ;;
  addBlockNode (PreNode posStart pos posContentStart posContentEnd str).

(** [Parser.PREFORMATTED_INLINE_ENTITY]. *)
Definition PREFORMATTED_INLINE_ENTITY : M bool :=
  eof <- s_isEOF ;;
  assert (negb eof) ;;;
  nl <- s_accept NL ;;
  if nl then
    ACCEPT_WHITESPACES ;;;
    p1 <- s_peek MODIFIER_BLOCK_OPEN ;;
    p2 <- s_peek MODIFIER_SYSTEM_OPEN ;;
    p3 <- s_peek GROUP_END ;;
    st <- get ;;
    eof <- s_isEOF ;;
    if (p1 || p2 || (p3 && (groupDepth st >? 0)) || eof)%bool then ret false
    else
      nl <- s_accept NL ;;
      if nl then WARN_IF_MORE_NEWLINES_THAN 0 ;;; ret false
      else addString NL ;;; ret true
  else
    c <- s_acceptChar ;;
    addString c ;;;
    ret true.

Definition modifier_open (type : ModType) : string :=
  match type with
  | block => MODIFIER_BLOCK_OPEN
  | system => MODIFIER_SYSTEM_OPEN
  | inline => MODIFIER_INLINE_OPEN
  end.

(** [this.prefixes[type].find(([name, _]) => this.scanner.accept(name))]. *)
Definition find_modifier (type : ModType) : M (option (string * DefId)) :=
  fun st =>
    let table := match type with
                 | block => p_block (prefixes st)
                 | system => p_system (prefixes st)
                 | inline => p_inline (prefixes st)
                 end in
    let (r, sc) := find_accept table (scanner st) in
    Done r (set_scanner st sc).

(** The head of [Parser.MODIFIER] (lines 272-307): the node as it is
    created, and [isMarker]. *)
Definition MODIFIER_head (fuel : nat) (type : ModType) : M (Modifier * bool) :=
  posStart <- s_position ;;
  opened <- s_accept (modifier_open type) ;;
  assert opened ;;;
  result <- find_modifier type ;;
  let mod_ := match result with
             | Some (_, d) => Registered d
             | None => UnknownModifier type
             end in
  match result with
  | None =>
      args <- s_acceptUntil MODIFIER_CLOSE_SIGN ;;
      match args with
      | None => pos <- s_position ;; message [ExpectedMessage pos MODIFIER_CLOSE_SIGN]
      | Some _ => ret tt
      end ;;;
      pos <- s_position ;;
      message [UnknownModifierMessage posStart (pos - posStart)]
  | Some _ => ret tt
  end ;;;
  args <- ARGUMENTS fuel ;;
  endsign <- s_accept MODIFIER_END_SIGN ;;
  let flagMarker := has (flags (definition mod_)) ModifierFlags.Marker in
  let isMarker := (flagMarker || endsign)%bool in
  closed <- s_accept MODIFIER_CLOSE_SIGN ;;
  when (negb closed)
    (pos <- s_position ;; message [ExpectedMessage pos MODIFIER_CLOSE_SIGN]) ;;;
  pos <- s_position ;;
  ret (mkModifier type mod_ (Build_PositionRange posStart pos) args
                  posStart (-1) None [] None,
       isMarker).

(** [Parser.BLOCK_ENTITY], [MODIFIER], [MAYBE_GROUPED_PARAGRAPH],
    [PARAGRAPH] and [INLINE_ENTITY], with their loops.  Every call and
    every turn of a loop takes one unit of [fuel]. *)
Fixpoint BLOCK_ENTITY (fuel : nat) {struct fuel} : M unit :=
  match fuel with
  | O => fun _ => OutOfFuel
  | S fuel' =>
      eof <- s_isEOF ;;
      assert (negb eof) ;;;
      b <- s_peek MODIFIER_BLOCK_OPEN ;;
      if b then (MODIFIER fuel' block ;;; ret tt)
      else
        b <- s_peek MODIFIER_SYSTEM_OPEN ;;
        if b then (MODIFIER fuel' system ;;; ret tt)
        else MAYBE_GROUPED_PARAGRAPH fuel'
  end

with MODIFIER (fuel : nat) (type : ModType) {struct fuel} : M bool :=
  match fuel with
  | O => fun _ => OutOfFuel
  | S fuel' =>
      '(node, isMarker) <- MODIFIER_head fuel' type ;;
      let mod_ := def_of node in
      node <- call_hook (beforeParseContent (def_of node)) node ;;
      when (delayContentExpansion (def_of node)) (add_delayDepth 1) ;;;
      r <-
        (if isMarker then
           match type with
           | inline => addInlineNode (ModifierNode node)
           | _ => addBlockNode (ModifierNode node)
           end ;;;
           ret (true, node)
         else
           match type with
           | inline =>
               startInline (IModifier node) ;;;
               ok <- MODIFIER_inline_loop fuel'
                       (has (flags mod_) ModifierFlags.Preformatted) (name mod_) ;;
               n <- endInline ;;
               match n with
               | IModifier node => ret (ok, node)
               | IParagraph _ _ _ => throw
               end
           | _ =>
               startBlock node ;;;
               WARN_IF_MORE_NEWLINES_THAN 1 ;;;
               eof <- s_isEOF ;;
               when (negb eof)
                 (if has (flags mod_) ModifierFlags.Preformatted
                  then PRE_PARAGRAPH fuel'
                  else BLOCK_ENTITY fuel') ;;;
               node <- endBlock ;;
               ret (true, node)
           end) ;;
      let '(ok, node) := r in
      when (delayContentExpansion (def_of node)) (add_delayDepth (-1)) ;;;
      node <- call_hook (afterParseContent (def_of node)) node ;;
      '(_, node) <- expand_node fuel' node 0 ;;
      match type with
      | inline => store_inline (ModifierNode node)
      | _ => store_block (ModifierNode node)
      end ;;;
      ret ok
  end

(** The [while (true)] loop of an inline modifier's content. *)
with MODIFIER_inline_loop (fuel : nat) (preformatted : bool) (mod_name : string)
  {struct fuel} : M bool :=
  match fuel with
  | O => fun _ => OutOfFuel
  | S fuel' =>
      closed <- s_accept MODIFIER_INLINE_END_TAG ;;
      if closed then ret true
      else
        eof <- s_isEOF ;;
        if eof then
          pos <- s_position ;;
          message [UnclosedInlineModifierMessage pos mod_name] ;;;
          ret true
        else
          ok <- (if preformatted then PREFORMATTED_INLINE_ENTITY
                 else INLINE_ENTITY fuel') ;;
          if ok then MODIFIER_inline_loop fuel' preformatted mod_name
          else
            pos <- s_position ;;
            message [UnclosedInlineModifierMessage pos mod_name] ;;;
            ret false
  end

with MAYBE_GROUPED_PARAGRAPH (fuel : nat) {struct fuel} : M unit :=
  match fuel with
  | O => fun _ => OutOfFuel
  | S fuel' =>
      eof <- s_isEOF ;;
      assert (negb eof) ;;;
      grouped <- s_accept GROUP_BEGIN ;;
      if grouped then
        modify (fun st => set_groupDepth st (groupDepth st + 1)) ;;;
        SHOULD_BE_A_NEWLINE ;;;
        WARN_IF_MORE_NEWLINES_THAN 1 ;;;
        GROUP_loop fuel'
      else PARAGRAPH fuel'
  end

(** The [while (!this.scanner.isEOF())] loop of a group. *)
with GROUP_loop (fuel : nat) {struct fuel} : M unit :=
  match fuel with
  | O => fun _ => OutOfFuel
  | S fuel' =>
      eof <- s_isEOF ;;
      if eof then
        pos <- s_position ;;
        message [ExpectedMessage pos GROUP_END]
      else
        closed <- s_accept GROUP_END ;;
        if closed then modify (fun st => set_groupDepth st (groupDepth st - 1))
        else
          BLOCK_ENTITY fuel' ;;;
          WARN_IF_MORE_NEWLINES_THAN 1 ;;;
          GROUP_loop fuel'
  end

with PARAGRAPH (fuel : nat) {struct fuel} : M unit :=
  match fuel with
  | O => fun _ => OutOfFuel
  | S fuel' =>
      eof <- s_isEOF ;;
      assert (negb eof) ;;;
      pos <- s_position ;;
      startInline (IParagraph pos (-1) []) ;;;
      PARAGRAPH_loop fuel' ;;;
      endInline ;;;
      ret tt
  end

(** [while (!this.scanner.isEOF() && this.INLINE_ENTITY()) {}]. *)
with PARAGRAPH_loop (fuel : nat) {struct fuel} : M unit :=
  match fuel with
  | O => fun _ => OutOfFuel
  | S fuel' =>
      eof <- s_isEOF ;;
      if eof then ret tt
      else
        more <- INLINE_ENTITY fuel' ;;
        if more then PARAGRAPH_loop fuel' else ret tt
  end

with INLINE_ENTITY (fuel : nat) {struct fuel} : M bool :=
  match fuel with
  | O => fun _ => OutOfFuel
  | S fuel' =>
      eof <- s_isEOF ;;
      assert (negb eof) ;;;
      b <- s_peek MODIFIER_BLOCK_OPEN ;;
      if b then
        pos <- s_position ;;
        message [NewBlockShouldBeOnNewlineMessage pos] ;;;
        ret false
      else
        b <- s_peek MODIFIER_INLINE_OPEN ;;
        if b then MODIFIER fuel' inline
        else
          b <- s_peek MODIFIER_SYSTEM_OPEN ;;
          if b then ret false
          else
            esc <- s_accept backslash ;;
            if esc then
              eof <- s_isEOF ;;
              if eof then addString backslash ;;; ret true
              else
                st <- get ;;
                c <- s_acceptChar ;;
                pos <- s_position ;;
                addInlineNode (EscapedNode (position (scanner st) - 1) pos c) ;;;
                ret true
            else PREFORMATTED_INLINE_ENTITY
  end.

(** The loop of [Parser.DOCUMENT]. *)
Fixpoint DOCUMENT_loop (fuel : nat) {struct fuel} : M unit :=
  match fuel with
  | O => fun _ => OutOfFuel
  | S fuel' =>
      eof <- s_isEOF ;;
      if eof then ret tt
      else
        BLOCK_ENTITY fuel' ;;;
        WHITESPACES_OR_NEWLINES ;;;
        DOCUMENT_loop fuel'
  end.

Definition DOCUMENT (fuel : nat) : M unit :=
  WHITESPACES_OR_NEWLINES ;;;
  DOCUMENT_loop fuel.

(** [Document]: the root, the context and the messages. *)
Record Document := mkDocument {
  doc_root : RootNode;
  doc_context : ParseContext;
  doc_messages : list Message
}.

(** The state the constructors of [Parser], [EmitEnvironment] and
    [ParseContext] set up.  [store0] is the store of a new context. *)
Definition initial_state (src : string) (c : Configuration) (store0 : Store) : PState :=
  mkState (mkScanner 0 src) []
          [BRoot (mkRoot 0 (-1) [])] [] []
          (mkContext c 0 store0) 0 (sorted_prefixes c).

Definition emit_root (st : PState) : option RootNode :=
  match last (blockStack st) (BRoot (mkRoot 0 (-1) [])) with
  | BRoot r => Some r
  | BModifier _ => None
  end.

(** What a run of [parse] on [src] under [c] comes to. *)
Inductive ParseResult :=
| Returns (d : Document)
| Throws
| Unfinished.

(** [parse(scanner, config)]. *)
Definition parse (fuel : nat) (src : string) (c : Configuration) (store0 : Store)
  : ParseResult :=
  match DOCUMENT fuel (initial_state src c store0) with
  | Done _ st =>
      match emit_root st with
      | Some r => Returns (mkDocument r (cxt st) (messages st))
      | None => Throws
      end
  | Thrown => Throws
  | OutOfFuel => Unfinished
  end.

(** ** [DefineBlockMod] (builtin/define-block.ts) *)

(** The fields of the node state of [DefineBlockMod] that [prepareExpand]
    and [expand] read: [name?: string], [args: string[]] and
    [slotName: string]. *)
Variable state_name : NodeState -> option string.
Variable state_args : NodeState -> list string.
Variable state_slotName : NodeState -> string.

(** Modelled from the spec: [customModifier] is not among the sources.
    The definition object it compiles from the name, the argument names,
    the slot name and the captured content is left abstract. *)
Variable customModifier :
  ModType -> string -> list string -> string -> list Node -> DefId.

Definition arg_start (a : ModifierArgument) : Z :=
  match a with mkArgument s _ _ => s end.

Definition arg_end (a : ModifierArgument) : Z :=
  match a with mkArgument _ e _ => e end.

(** Modelled from the spec: the registries of a configuration are
    indexed by name; [has], [remove] and [add]. *)
Definition registry_has {D : Type} (n : string) (r : list (string * D)) : bool :=
  existsb (fun e => String.eqb (fst e) n) r.

Definition registry_remove {D : Type} (n : string) (r : list (string * D))
  : list (string * D) :=
  filter (fun e => negb (String.eqb (fst e) n)) r.

Definition registry_add {D : Type} (e : string * D) (r : list (string * D))
  : list (string * D) :=
  r ++ [e].

Definition set_blockModifiers (c : ParseContext) (r : list (string * DefId))
  : ParseContext :=
  mkContext (mkConfig r (inlineModifiers (config c)) (systemModifiers (config c))
                      (argumentInterpolators (config c))
                      (reparseDepthLimit (config c)))
            (delayDepth c) (store c).

(** [node.state?.name] when it is truthy: a name that is not the empty
    string. *)
Definition defined_name (node : Modifier) : option string :=
  match m_state node with
  | Some s =>
      match state_name s with
      | Some n => if String.eqb n "" then None else Some n
      | None => None
      end
  | None => None
  end.

(** [DefineBlockMod.prepareExpand].  [None] is the [TypeError] of reading
    [arg.start] when the node has no argument. *)
Definition DefineBlockMod_prepareExpand
  (node : Modifier) (cxt : ParseContext) (immediate : bool)
  : option (list Message) :=
  if (negb immediate
      || match m_state node with None => true | Some _ => false end)%bool
  then Some []
  else
    let arg := hd_error (m_arguments node) in
    match defined_name node with
    | None =>
        match arg with
        | Some a => Some [InvalidArgumentMessage (arg_start a) (arg_end a - arg_start a)]
        | None => None
        end
    | Some n =>
        if registry_has n (blockModifiers (config cxt))
        then match arg with
             | Some a =>
                 Some [NameAlreadyDefinedMessage (arg_start a)
                         (arg_end a - arg_start a) n]
             | None => None
             end
        else Some []
    end.

(** [DefineBlockMod.expand]: the expansion it returns ([None] is
    [undefined]) and the context as it leaves it. *)
Definition DefineBlockMod_expand
  (node : Modifier) (cxt : ParseContext) (immediate : bool)
  : option (list Node) * ParseContext :=
  if negb immediate then (None, cxt)
  else
    match defined_name node, m_state node with
    | Some n, Some s =>
        let r := blockModifiers (config cxt) in
        let r := if registry_has n r then registry_remove n r else r in
        (Some [],
         set_blockModifiers cxt
           (registry_add
              (n, customModifier block n (state_args s) (state_slotName s)
                    (m_content node))
              r))
    | _, _ => (Some [], cxt)
    end.

(** ** Strip (util.ts, [stripDocument]) *)

(** [stripNode].  The case of a block or inline modifier that has no
    expansion falls through to the case of a paragraph. *)
Fixpoint stripNode (node : Node) : list Node :=
  match node with
  | PreNode _ _ _ _ _ | TextNode _ _ _ | EscapedNode _ _ _ => [node]
  | ParagraphNode s e content =>
      [ParagraphNode s e (flat_map stripNode content)]
  | ModifierNode m =>
      match m_type m with
      | system => []
      | block | inline =>
          match m_expansion m with
          | Some expansion => flat_map stripNode expansion
          | None =>
              [ModifierNode (set_content m (flat_map stripNode (m_content m)))]
          end
      end
  end.

(** [stripNode] at the root, and [doc.root = stripNode(doc.root)[0]]. *)
Definition stripRoot (r : RootNode) : RootNode :=
  mkRoot (root_start r) (root_end r) (flat_map stripNode (root_content r)).

Definition stripDocument (doc : Document) : Document :=
  mkDocument (stripRoot (doc_root doc)) (doc_context doc) (doc_messages doc).

(** ** Clone (util.ts, [cloneNode] and [cloneNodes]) *)

(** [nodes.map(f)] for an [f] that may throw: the first error ends the
    whole call. *)
Definition map_option {A B : Type} (f : A -> option B) : list A -> option (list B) :=
  fix go (l : list A) : option (list B) :=
    match l with
    | [] => Some []
    | x :: l' =>
        match f x, go l' with
        | Some y, Some ys => Some (y :: ys)
        | _, _ => None
        end
    end.

(** [structuredClone] copies plain data and throws a [DataCloneError] on
    a function.  An interpolation entity holds its definition object,
    whose [expand], when it is there, is a function; so an argument can
    be cloned when no interpolation in it, at any depth, has a definition
    with [expand]. *)
Fixpoint entity_cloneable (e : ArgumentEntity) : bool :=
  match e with
  | ArgText _ _ _ | ArgEscaped _ _ _ => true
  | ArgInterp d (mkArgument _ _ inner) _ _ =>
      (match i_expand (interpolator_of d) with Some _ => false | None => true end
       && forallb entity_cloneable inner)%bool
  end.

Definition argument_cloneable (a : ModifierArgument) : bool :=
  forallb entity_cloneable (arg_content a).

(** [structuredClone(node.arguments)]: an equal value, or the error. *)
Definition structuredClone_arguments (args : list ModifierArgument)
  : option (list ModifierArgument) :=
  if forallb argument_cloneable args then Some args else None.

(** [cloneNode]; [None] stands for the [DataCloneError].  The clone of a
    modifier node has no state; its content and its expansion are cloned.
    [structuredClone] of a node without children and of a head gives an
    equal value. *)
Fixpoint cloneNode (node : Node) : option Node :=
  match node with
  | ModifierNode m =>
      match structuredClone_arguments (m_arguments m),
            map_option cloneNode (m_content m),
            match m_expansion m with
            | Some e => option_map Some (map_option cloneNode e)
            | None => Some None
            end
      with
      | Some args, Some content, Some expansion =>
          Some (ModifierNode
                  (mkModifier (m_type m) (m_mod m) (m_head m) args
                              (m_start m) (m_end m) None content expansion))
      | _, _, _ => None
      end
  | ParagraphNode s e content =>
      option_map (ParagraphNode s e) (map_option cloneNode content)
  | PreNode _ _ _ _ _ | TextNode _ _ _ | EscapedNode _ _ _ => Some node
  end.

Definition cloneNodes (nodes : list Node) : option (list Node) :=
  map_option cloneNode nodes.

(** [cloneNode] at the root. *)
Definition cloneRoot (r : RootNode) : option RootNode :=
  option_map (mkRoot (root_start r) (root_end r))
             (map_option cloneNode (root_content r)).

(** ** Notions the properties are stated with *)

(** The ranges a stored message refers to, outermost first, and the
    message that was issued. *)
Fixpoint referrals (m : Message) : list (Z * Z) :=
  match m with
  | ReferredMessage original p l => (p, l) :: referrals original
  | _ => []
  end.

Fixpoint issued (m : Message) : Message :=
  match m with
  | ReferredMessage original _ _ => issued original
  | _ => m
  end.

Definition range_of (r : PositionRange) : Z * Z := (start r, end_ r - start r).

(** What [stripNode] leaves: no system modifier, and no modifier that
    carries an expansion, at any depth. *)
Fixpoint is_stripped (n : Node) : bool :=
  match n with
  | ParagraphNode _ _ content => forallb is_stripped content
  | PreNode _ _ _ _ _ | TextNode _ _ _ | EscapedNode _ _ _ => true
  | ModifierNode m =>
      (negb (ModType_eqb (m_type m) system)
       && match m_expansion m with None => true | Some _ => false end
       && forallb is_stripped (m_content m))%bool
  end.

(** No modifier node at all, at any depth. *)
Fixpoint modifier_free (n : Node) : bool :=
  match n with
  | ParagraphNode _ _ content => forallb modifier_free content
  | PreNode _ _ _ _ _ | TextNode _ _ _ | EscapedNode _ _ _ => true
  | ModifierNode _ => false
  end.

(** No modifier node carries a state, at any depth, in content or in
    expansion. *)
Fixpoint stateless (n : Node) : bool :=
  match n with
  | ParagraphNode _ _ content => forallb stateless content
  | PreNode _ _ _ _ _ | TextNode _ _ _ | EscapedNode _ _ _ => true
  | ModifierNode m =>
      (match m_state m with None => true | Some _ => false end
       && forallb stateless (m_content m)
       && match m_expansion m with
          | Some e => forallb stateless e
          | None => true
          end)%bool
  end.

(** Every argument of every modifier node can be cloned, at any depth,
    in content and in expansion. *)
Fixpoint cloneable (n : Node) : bool :=
  match n with
  | ParagraphNode _ _ content => forallb cloneable content
  | PreNode _ _ _ _ _ | TextNode _ _ _ | EscapedNode _ _ _ => true
  | ModifierNode m =>
      (forallb argument_cloneable (m_arguments m)
       && forallb cloneable (m_content m)
       && match m_expansion m with
          | Some e => forallb cloneable e
          | None => true
          end)%bool
  end.

(** The node without the state of any modifier node, at any depth. *)
Fixpoint without_state (n : Node) : Node :=
  match n with
  | ModifierNode m =>
      ModifierNode
        (mkModifier (m_type m) (m_mod m) (m_head m) (m_arguments m)
                    (m_start m) (m_end m) None
                    (map without_state (m_content m))
                    (match m_expansion m with
                     | Some e => Some (map without_state e)
                     | None => None
                     end))
  | ParagraphNode s e content => ParagraphNode s e (map without_state content)
  | PreNode _ _ _ _ _ | TextNode _ _ _ | EscapedNode _ _ _ => n
  end.

(** Whether a stored message is an [UnknownModifierMessage]. *)
Definition is_unknown_modifier (m : Message) : bool :=
  match issued m with
  | UnknownModifierMessage _ _ => true
  | _ => false
  end.

(** Whether a stored message is a [NameAlreadyDefinedMessage]. *)
Definition is_name_already_defined (m : Message) : bool :=
  match issued m with
  | NameAlreadyDefinedMessage _ _ _ => true
  | _ => false
  end.



(** A bare invocation of the definition [d], and what it is for [d] to
    expand to an invocation of itself. *)
Definition invocation (t : ModType) (d : DefId) : Modifier :=
  mkModifier t (Registered d) (Build_PositionRange 0 0) [] 0 0 None [] None.


(** Hooks that leave [reparseDepthLimit] alone, and messages other than
    the report of the limit. *)
Definition keeps_limit (c c' : ParseContext) : Prop :=
  reparseDepthLimit (config c') = reparseDepthLimit (config c).


(** Every argument interpolator has a name of at least one character. *)
Definition names_ok (c : Configuration) : Prop :=
  Forall (fun e => fst e <> EmptyString) (argumentInterpolators c).

(** The length of the input that is left. *)
Definition remaining (st : PState) : nat := String.length (rest (scanner st)).

(** The definition an open node belongs to; none for the root and for a
    paragraph. *)
Definition block_mod (b : BlockContainer) : option ModRef :=
  match b with BRoot _ => None | BModifier m => Some (m_mod m) end.

Definition inline_mod (i : InlineContainer) : option ModRef :=
  match i with IParagraph _ _ _ => None | IModifier m => Some (m_mod m) end.

(** Hooks that neither change [reparseDepthLimit] nor register an
    interpolator without a name; and hooks that, besides, leave
    [delayDepth] alone. *)
Definition well_behaved (c c' : ParseContext) : Prop :=
  keeps_limit c c' /\ (names_ok (config c) -> names_ok (config c')).

Definition keeps_delay (c c' : ParseContext) : Prop :=
  well_behaved c c' /\ delayDepth c' = delayDepth c.

Definition any_message (m : Message) : Prop := True.

(** The fuel a call of [#reparse] or [#expand] at [depth] needs under the
    limit [L], and fuel that is enough to parse [src] under [c]. *)
Definition reparse_fuel (L depth : Z) : nat := S (Z.to_nat (L + 1 - depth)).

Definition parse_fuel (src : string) (c : Configuration) : nat :=
  (10 * String.length src + 7 + reparse_fuel (reparseDepthLimit c) 0)%nat.

(** Every escaped entity of an argument holds one character, at any
    depth of interpolation. *)
Fixpoint entity_ok (e : ArgumentEntity) : bool :=
  match e with
  | ArgText _ _ _ => true
  | ArgEscaped _ _ c => Nat.eqb (String.length c) 1
  | ArgInterp _ (mkArgument _ _ inner) _ _ => forallb entity_ok inner
  end.

Definition argument_ok (a : ModifierArgument) : bool :=
  forallb entity_ok (arg_content a).

(** The registry of the configuration in which [MODIFIER] looks up a
    modifier of [type]. *)
Definition registry (type : ModType) (c : Configuration) : list (string * DefId) :=
  match type with
  | block => blockModifiers c
  | system => systemModifiers c
  | inline => inlineModifiers c
  end.

(** The prefix table [MODIFIER] searches for [type]. *)
Definition prefix_table (type : ModType) (st : PState) : list (string * DefId) :=
  match type with
  | block => p_block (prefixes st)
  | system => p_system (prefixes st)
  | inline => p_inline (prefixes st)
  end.

(** ** Properties *)

(** Induction over nodes, through [content] and [expansion]. *)
Section NodeInduction.
Variable P : Node -> Prop.
Hypothesis HParagraph : forall s e c, Forall P c -> P (ParagraphNode s e c).
Hypothesis HPre : forall s e cs ce t, P (PreNode s e cs ce t).
Hypothesis HText : forall s e c, P (TextNode s e c).
Hypothesis HEscaped : forall s e c, P (EscapedNode s e c).
Hypothesis HModifier : forall m,
  Forall P (m_content m) ->
  (forall e, m_expansion m = Some e -> Forall P e) ->
  P (ModifierNode m).

Fixpoint Node_induction (n : Node) : P n :=
  let all := fix all (l : list Node) : Forall P l :=
    match l with
    | [] => Forall_nil P
    | x :: l' => Forall_cons x (Node_induction x) (all l')
    end in
  match n with
  | ParagraphNode s e c => HParagraph s e c (all c)
  | PreNode s e cs ce t => HPre s e cs ce t
  | TextNode s e c => HText s e c
  | EscapedNode s e c => HEscaped s e c
  | ModifierNode m =>
      HModifier m (all (m_content m))
        (match m_expansion m as x
               return forall e, x = Some e -> Forall P e with
         | Some e0 => fun e H =>
             match H in _ = y return
                   match y with Some e' => Forall P e' | None => True end with
             | eq_refl => all e0
             end
         | None => fun e H =>
             match H in _ = y return
                   match y with Some e' => Forall P e' | None => True end with
             | eq_refl => I
             end
         end)
  end.
End NodeInduction.

(** *** Strip *)

Lemma forallb_flat_map (f : Node -> bool) (g : Node -> list Node) (l : list Node) :
  Forall (fun x => forallb f (g x) = true) l ->
  forallb f (flat_map g l) = true.
Proof.
  induction 1 as [|x l Hx _ IH]; simpl.
  - reflexivity.
  - rewrite forallb_app, Hx, IH. reflexivity.
Qed.

Lemma stripNode_is_stripped (n : Node) :
  forallb is_stripped (stripNode n) = true.
Proof.
  induction n as [s e c IH| | | |m IHc IHe] using Node_induction;
    try reflexivity.
  - simpl. rewrite forallb_flat_map by exact IH. reflexivity.
  - simpl. destruct (m_type m) eqn:Et; try reflexivity.
    + destruct (m_expansion m) as [x|] eqn:Ex.
      * apply forallb_flat_map, IHe. reflexivity.
      * simpl. rewrite Et, Ex. simpl.
        rewrite forallb_flat_map by exact IHc. reflexivity.
    + destruct (m_expansion m) as [x|] eqn:Ex.
      * apply forallb_flat_map, IHe. reflexivity.
      * simpl. rewrite Et, Ex. simpl.
        rewrite forallb_flat_map by exact IHc. reflexivity.
Qed.

(** C3 (as amended).  The root of the document [stripDocument] leaves
    holds, in their order, what [stripNode] makes of the nodes of the
    root; context and messages are as they were.  [stripNode] removes a
    system modifier, replaces a block or inline modifier that has an
    expansion by the stripped expansion, and keeps one that has none,
    with its content stripped, at the root as at any depth below it.  So
    a block or inline modifier without expansion at the root is still at
    the root afterwards, and the result holds no system modifier and no
    modifier that carries an expansion. *)
Theorem stripDocument_result : forall doc : Document,
  doc_root (stripDocument doc)
  = mkRoot (root_start (doc_root doc)) (root_end (doc_root doc))
           (flat_map stripNode (root_content (doc_root doc)))
  /\ doc_context (stripDocument doc) = doc_context doc
  /\ doc_messages (stripDocument doc) = doc_messages doc
  /\ forallb is_stripped (root_content (doc_root (stripDocument doc))) = true
  /\ (forall before m after,
        root_content (doc_root doc) = before ++ ModifierNode m :: after ->
        root_content (doc_root (stripDocument doc))
        = flat_map stripNode before
          ++ match m_type m, m_expansion m with
             | system, _ => []
             | _, Some e => flat_map stripNode e
             | _, None =>
                 [ModifierNode (set_content m (flat_map stripNode (m_content m)))]
             end
          ++ flat_map stripNode after)
  /\ (forall m,
        In (ModifierNode m) (root_content (doc_root doc)) ->
        m_type m <> system -> m_expansion m = None ->
        In (ModifierNode (set_content m (flat_map stripNode (m_content m))))
           (root_content (doc_root (stripDocument doc))))
  /\ (forall s e content,
        stripNode (ParagraphNode s e content)
        = [ParagraphNode s e (flat_map stripNode content)])
  /\ (forall m, m_type m = system -> stripNode (ModifierNode m) = [])
  /\ (forall m e, m_type m <> system -> m_expansion m = Some e ->
        stripNode (ModifierNode m) = flat_map stripNode e)
  /\ (forall m, m_type m <> system -> m_expansion m = None ->
        stripNode (ModifierNode m)
        = [ModifierNode (set_content m (flat_map stripNode (m_content m)))]).
Proof.
  intros doc.
  assert (Hkept : forall m, m_type m <> system -> m_expansion m = None ->
            stripNode (ModifierNode m)
            = [ModifierNode (set_content m (flat_map stripNode (m_content m)))]).
  { intros m Hm He. simpl. rewrite He. destruct (m_type m); congruence. }
  split; [reflexivity|]. split; [reflexivity|]. split; [reflexivity|].
  split.
  { simpl. apply forallb_flat_map.
    apply Forall_forall. intros n _. apply stripNode_is_stripped. }
  split.
  { intros before m after E. cbn [stripDocument doc_root stripRoot root_content].
    rewrite E, flat_map_app. cbn [flat_map].
    apply (f_equal (app (flat_map stripNode before))).
    apply (f_equal (fun l => l ++ flat_map stripNode after)).
    simpl. destruct (m_type m), (m_expansion m); reflexivity. }
  split.
  { intros m Hin Hm He. cbn [stripDocument doc_root stripRoot root_content].
    apply in_flat_map. exists (ModifierNode m). split; [exact Hin|].
    rewrite (Hkept m Hm He). left. reflexivity. }
  split; [reflexivity|].
  split.
  { intros m Hm. simpl. rewrite Hm. reflexivity. }
  split.
  { intros m e Hm He. simpl. rewrite He. destruct (m_type m); congruence. }
  exact Hkept.
Qed.

(** *** Messages and referrals *)

Lemma referrals_refer (msg : Message) (stack : list PositionRange) :
  referrals (refer msg stack) = map range_of stack ++ referrals msg.
Proof.
  unfold refer. rewrite <- (rev_involutive stack) at 2.
  generalize (rev stack) as l. clear stack.
  intros l. revert msg. induction l as [|r l IH]; intros msg.
  - reflexivity.
  - simpl. rewrite IH. simpl.
    rewrite map_app, <- app_assoc. reflexivity.
Qed.

Lemma issued_refer (msg : Message) (stack : list PositionRange) :
  issued (refer msg stack) = issued msg.
Proof.
  unfold refer. generalize (rev stack) as l. intros l. revert msg.
  induction l as [|r l IH]; intros msg; simpl.
  - reflexivity.
  - rewrite IH. reflexivity.
Qed.

(** *** Prefix tables and longest match *)

Section SortProperties.
Context {D : Type}.
Implicit Types (l : list (string * D)) (x y : string * D).

Definition longer_first x y : Prop := slen (fst y) <= slen (fst x).

Lemma insert_by_length_In x l y :
  In y (insert_by_length x l) <-> y = x \/ In y l.
Proof.
  induction l as [|z l IH]; simpl.
  - intuition.
  - destruct (slen (fst x) <? slen (fst z)); simpl; rewrite ?IH; intuition.
Qed.

Lemma sort_by_length_In l y : In y (sort_by_length l) <-> In y l.
Proof.
  induction l as [|z l IH]; simpl.
  - reflexivity.
  - rewrite insert_by_length_In, IH. intuition.
Qed.

Lemma insert_by_length_sorted x l :
  StronglySorted longer_first l ->
  StronglySorted longer_first (insert_by_length x l).
Proof.
  induction 1 as [|z l Hs IH Hz]; simpl.
  - constructor; constructor.
  - destruct (slen (fst x) <? slen (fst z)) eqn:E.
    + constructor; [exact IH|].
      apply Forall_forall. intros y Hy.
      apply insert_by_length_In in Hy. destruct Hy as [->|Hy].
      * apply Z.ltb_lt in E. unfold longer_first. lia.
      * rewrite Forall_forall in Hz. auto.
    + apply Z.ltb_ge in E.
      constructor; [constructor; assumption|].
      constructor; [exact E|].
      rewrite Forall_forall in *. intros y Hy.
      specialize (Hz y Hy). unfold longer_first in *. lia.
Qed.

Lemma sort_by_length_sorted l : StronglySorted longer_first (sort_by_length l).
Proof.
  induction l; simpl; [constructor | apply insert_by_length_sorted; assumption].
Qed.

Lemma sorted_suffix l1 l2 :
  StronglySorted longer_first (l1 ++ l2) -> StronglySorted longer_first l2.
Proof.
  induction l1 as [|z l1 IH]; simpl; [auto|].
  intros H. inversion H; subst. auto.
Qed.

Lemma accept_peek (s : string) (sc : Scanner) :
  fst (accept s sc) = peek s sc.
Proof.
  unfold accept, peek. destruct (strip_prefix s (rest sc)); reflexivity.
Qed.

(** [find] returns the first entry of the table that matches. *)
Lemma find_accept_first l sc :
  match find_accept l sc with
  | (Some x, sc') =>
      exists l1 l2, l = l1 ++ x :: l2
        /\ Forall (fun y => peek (fst y) sc = false) l1
        /\ accept (fst x) sc = (true, sc')
  | (None, sc') => Forall (fun y => peek (fst y) sc = false) l /\ sc' = sc
  end.
Proof.
  induction l as [|z l IH]; simpl.
  - split; [constructor | reflexivity].
  - pose proof (accept_peek (fst z) sc) as Hz.
    destruct (accept (fst z) sc) as [[|] sc1] eqn:E; simpl in Hz.
    + exists [], l. split; [reflexivity|]. split; [constructor | exact E].
    + destruct (find_accept l sc) as [[x|] sc'].
      * destruct IH as (l1 & l2 & -> & Hl1 & Hx).
        exists (z :: l1), l2. split; [reflexivity|]. split; [constructor; auto | assumption].
      * destruct IH as [Hl ->]. split; [constructor; auto | reflexivity].
Qed.
End SortProperties.

Lemma strip_prefix_same_length (p q s : string) :
  strip_prefix p s <> None -> strip_prefix q s <> None ->
  String.length p = String.length q -> p = q.
Proof.
  revert q s. induction p as [|a p IH]; intros [|b q] [|c s]; simpl;
    try congruence; try discriminate.
  destruct (Ascii.eqb a c) eqn:Ea; [|congruence].
  destruct (Ascii.eqb b c) eqn:Eb; [|congruence].
  apply Ascii.eqb_eq in Ea, Eb. subst. intros H1 H2 [= Hl].
  f_equal. eapply IH; eassumption.
Qed.

Lemma peek_same_length (p q : string) (sc : Scanner) :
  peek p sc = true -> peek q sc = true -> slen p = slen q -> p = q.
Proof.
  unfold peek, slen. intros Hp Hq Hl.
  apply strip_prefix_same_length with (s := rest sc).
  - destruct (strip_prefix p (rest sc)); congruence.
  - destruct (strip_prefix q (rest sc)); congruence.
  - lia.
Qed.

Lemma NoDup_fst_inj {D : Type} (l : list (string * D)) (x y : string * D) :
  NoDup (map fst l) -> In x l -> In y l -> fst x = fst y -> x = y.
Proof.
  induction l as [|z l IH]; simpl; [tauto|].
  intros Hn [->|Hx] [->|Hy] E; inversion Hn as [|? ? Hz Hn']; subst.
  - reflexivity.
  - exfalso. apply Hz. rewrite E. apply in_map. assumption.
  - exfalso. apply Hz. rewrite <- E. apply in_map. assumption.
  - auto.
Qed.

(** After a hook has run the prefix tables are the sorted registries of
    the configuration it left. *)
Lemma call_hook_sorts (f : Hook) (node : Modifier) (st : PState) :
  exists node' st',
    call_hook (Some f) node st = Done node' st'
    /\ prefixes st' = sorted_prefixes (config (cxt st')).
Proof.
  unfold call_hook, bind, get. simpl.
  destruct (f node (cxt st)) as [[msgs node'] cxt'] eqn:E. simpl.
  eexists _, _. split; reflexivity.
Qed.

(** The lookup in a table sorted by decreasing length accepts a
    registered, matching name of the greatest length. *)
Lemma find_accept_longest {D : Type} (reg : list (string * D)) (sc : Scanner)
  (a : string * D) :
  In a reg -> peek (fst a) sc = true ->
  exists x sc',
    find_accept (sort_by_length reg) sc = (Some x, sc')
    /\ accept (fst x) sc = (true, sc')
    /\ In x reg
    /\ peek (fst x) sc = true
    /\ (forall y, In y reg -> peek (fst y) sc = true ->
          slen (fst y) <= slen (fst x)).
Proof.
  intros Ha Pa.
  pose proof (find_accept_first (sort_by_length reg) sc) as Hf.
  pose proof (sort_by_length_sorted reg) as Hs.
  destruct (find_accept (sort_by_length reg) sc) as [[x|] sc'].
  - destruct Hf as (l1 & l2 & El & Hl1 & Hx).
    exists x, sc'. split; [reflexivity|]. split; [exact Hx|]. split.
    { apply sort_by_length_In. rewrite El. apply in_or_app. right. left. reflexivity. }
    split.
    { rewrite <- accept_peek, Hx. reflexivity. }
    intros y Hy Py. apply sort_by_length_In in Hy. rewrite El in Hy, Hs.
    apply in_app_or in Hy. destruct Hy as [Hy|[<-|Hy]].
    + rewrite Forall_forall in Hl1. rewrite (Hl1 y Hy) in Py. discriminate.
    + lia.
    + apply sorted_suffix in Hs. inversion Hs as [|? ? _ Hall]; subst.
      rewrite Forall_forall in Hall. apply (Hall y Hy).
  - exfalso. destruct Hf as [Hall _]. rewrite Forall_forall in Hall.
    rewrite (Hall a) in Pa; [discriminate|]. apply sort_by_length_In. assumption.
Qed.

(** When a shorter and a longer registered name both match, the lookup
    does not return the shorter one, and it returns the longer one when
    no registered name that matches is longer still. *)
Lemma find_accept_prefers_longer {D : Type} (reg : list (string * D))
  (sc : Scanner) (a ab : string * D) :
  In a reg -> In ab reg ->
  peek (fst a) sc = true -> peek (fst ab) sc = true ->
  slen (fst a) < slen (fst ab) ->
  exists x sc',
    find_accept (sort_by_length reg) sc = (Some x, sc')
    /\ accept (fst x) sc = (true, sc')
    /\ In x reg
    /\ (forall y, In y reg -> peek (fst y) sc = true ->
          slen (fst y) <= slen (fst x))
    /\ fst x <> fst a
    /\ ((forall y, In y reg -> peek (fst y) sc = true ->
           slen (fst y) <= slen (fst ab)) ->
        fst x = fst ab /\ (NoDup (map fst reg) -> x = ab)).
Proof.
  intros Ha Hab Pa Pab Hlen.
  destruct (find_accept_longest reg sc a Ha Pa) as (x & sc' & Hf & Hx & Hxin & Px & Hmax).
  exists x, sc'. split; [exact Hf|]. split; [exact Hx|]. split; [exact Hxin|].
  split; [exact Hmax|]. split.
  { intros E. specialize (Hmax ab Hab Pab). rewrite E in Hmax. lia. }
  intros H.
  assert (E : fst x = fst ab).
  { apply peek_same_length with (sc := sc); try assumption.
    pose proof (Hmax ab Hab Pab). pose proof (H x Hxin Px). lia. }
  split; [exact E|].
  intros Hn. apply (NoDup_fst_inj reg); assumption.
Qed.

(** *** Reasoning about runs *)

(** [wp m st Q]: the run of [m] from [st] ends normally, with a value and
    a state that satisfy [Q]. *)
Definition wp {A} (m : M A) (st : PState) (Q : A -> PState -> Prop) : Prop :=
  match m st with
  | Done a st' => Q a st'
  | Thrown | OutOfFuel => False
  end.

Lemma wp_ret {A} (a : A) st (Q : A -> PState -> Prop) :
  Q a st -> wp (ret a) st Q.
Proof. exact (fun H => H). Qed.

Lemma wp_bind {A B} (m : M A) (k : A -> M B) st (Q : B -> PState -> Prop) :
  wp m st (fun a st' => wp (k a) st' Q) -> wp (bind m k) st Q.
Proof.
  unfold wp, bind. destruct (m st); auto.
Qed.

Lemma wp_conseq {A} (m : M A) st (Q Q' : A -> PState -> Prop) :
  wp m st Q -> (forall a st', Q a st' -> Q' a st') -> wp m st Q'.
Proof.
  unfold wp. destruct (m st); auto.
Qed.

Lemma wp_done {A} (m : M A) st (Q : A -> PState -> Prop) :
  wp m st Q <-> exists a st', m st = Done a st' /\ Q a st'.
Proof.
  unfold wp. split.
  - destruct (m st) as [a st'| |]; [eauto | tauto | tauto].
  - intros (a & st' & -> & H). exact H.
Qed.

Lemma bind_done {A B} (m : M A) (k : A -> M B) st a st' :
  m st = Done a st' -> bind m k st = k a st'.
Proof. unfold bind. intros ->. reflexivity. Qed.


Lemma wp_get st (Q : PState -> PState -> Prop) : Q st st -> wp get st Q.
Proof. exact (fun H => H). Qed.

Lemma wp_modify f st (Q : unit -> PState -> Prop) :
  Q tt (f st) -> wp (modify f) st Q.
Proof. exact (fun H => H). Qed.

Lemma wp_assert (b : bool) st (Q : unit -> PState -> Prop) :
  b = true -> Q tt st -> wp (assert b) st Q.
Proof. intros -> H. exact H. Qed.

Lemma wp_when (b : bool) (m : M unit) st (Q : unit -> PState -> Prop) :
  (b = true -> wp m st Q) -> (b = false -> Q tt st) -> wp (when b m) st Q.
Proof. destruct b; simpl; intros H1 H2; [apply H1 | apply H2]; reflexivity. Qed.

(** *** Expansion *)

Definition in_sync (st : PState) : Prop :=
  prefixes st = sorted_prefixes (config (cxt st)).

Definition shift_delay (d : Z) (c : ParseContext) : ParseContext :=
  set_delayDepth c (delayDepth c + d).

(** The message [#expand] stores when the limit was reached under
    [node]. *)
Definition limit_report (node : Modifier) (st : PState) : Message :=
  refer (ReachedReparseLimitMessage (m_start node) (m_end node - m_start node)
           (limit st) (name (def_of node)))
        (referringStack st).

Section ExpansionProperties.

(** [K c c'] is what the hooks of the definitions guarantee about the
    context [c'] they leave when called with [c]; [Q] holds of the
    messages they return. *)
Variable K : ParseContext -> ParseContext -> Prop.
Variable Q : Message -> Prop.

Hypothesis K_refl : forall c, K c c.
Hypothesis K_trans : forall a b c, K a b -> K b c -> K a c.
Hypothesis K_limit : forall c c',
  K c c' -> reparseDepthLimit (config c') = reparseDepthLimit (config c).
Hypothesis K_delay : forall c c' d,
  K c c' -> K (shift_delay d c) (shift_delay d c').
Hypothesis Q_refer : forall m p l, Q m -> Q (ReferredMessage m p l).

Definition hook_sound (h : option Hook) : Prop :=
  forall f node c, h = Some f ->
    K c (snd (f node c)) /\ Forall Q (fst (fst (f node c))).

Definition expand_sound (h : option ExpandHook) : Prop :=
  forall f node c, h = Some f -> K c (snd (f node c)).

Definition definition_sound (d : ModifierDefinition) : Prop :=
  hook_sound (beforeParseContent d) /\ hook_sound (afterParseContent d)
  /\ hook_sound (beforeProcessExpansion d) /\ hook_sound (afterProcessExpansion d)
  /\ hook_sound (prepareExpand d) /\ expand_sound (expand d).

Hypothesis definitions_sound : forall d, definition_sound (definition_of d).

Lemma definition_sound_ref (r : ModRef) : definition_sound (definition r).
Proof.
  destruct r as [t|d]; [|apply definitions_sound].
  unfold definition_sound, hook_sound, expand_sound. simpl.
  repeat split; discriminate.
Qed.

(** A stretch of a run that leaves the scanner, the stacks and
    [groupDepth] as they were, changes the context within [K], keeps the
    prefix tables in step with the configuration, and stores messages of
    [Q] only. *)
Definition steps (st st' : PState) : Prop :=
  scanner st' = scanner st
  /\ blockStack st' = blockStack st
  /\ inlineStack st' = inlineStack st
  /\ referringStack st' = referringStack st
  /\ groupDepth st' = groupDepth st
  /\ K (cxt st) (cxt st')
  /\ (in_sync st -> in_sync st')
  /\ exists new, messages st' = messages st ++ new /\ Forall Q new.

Lemma steps_refl st : steps st st.
Proof.
  unfold steps. repeat split; auto.
  exists []. rewrite app_nil_r. auto.
Qed.

Lemma steps_trans st1 st2 st3 : steps st1 st2 -> steps st2 st3 -> steps st1 st3.
Proof.
  unfold steps.
  intros (A1 & A2 & A3 & A4 & A5 & A6 & A7 & n1 & A8 & A9)
         (B1 & B2 & B3 & B4 & B5 & B6 & B7 & n2 & B8 & B9).
  repeat split; try congruence; eauto.
  exists (n1 ++ n2). rewrite B8, A8, app_assoc. split; [reflexivity|].
  apply Forall_app. auto.
Qed.

Lemma steps_limit st st' : steps st st' -> limit st' = limit st.
Proof.
  intros (_ & _ & _ & _ & _ & H & _). apply K_limit. exact H.
Qed.

Lemma Q_refer_stack (m : Message) (stack : list PositionRange) :
  Q m -> Q (refer m stack).
Proof.
  unfold refer. generalize (rev stack) as l. intros l. revert m.
  induction l as [|r l IH]; simpl; auto.
Qed.

Lemma call_hook_steps (h : option Hook) (node : Modifier) (st : PState) :
  hook_sound h ->
  wp (call_hook h node) st (fun _ st' => steps st st').
Proof.
  intros Hh. destruct h as [f|]; simpl.
  - unfold wp, call_hook, bind, get. simpl.
    destruct (Hh f node (cxt st) eq_refl) as [HK HQ].
    destruct (f node (cxt st)) as [[msgs node'] cxt']. simpl in *.
    unfold steps. simpl. repeat split; auto.
    exists (map (fun msg => refer msg (referringStack st)) msgs).
    split; [reflexivity|].
    apply Forall_map. revert HQ. apply Forall_impl.
    intros m. apply Q_refer_stack.
  - apply wp_ret, steps_refl.
Qed.

Lemma shift_delay_inverse (d : Z) (c : ParseContext) :
  shift_delay (- d) (shift_delay d c) = c.
Proof.
  destruct c as [cf dd stv]. unfold shift_delay, set_delayDepth. simpl.
  f_equal. lia.
Qed.

(** A stretch that runs between [delayDepth++] and [delayDepth--]. *)
Lemma steps_delayed (d : Z) st st' :
  steps (set_cxt st (shift_delay d (cxt st))) st' ->
  steps st (set_cxt st' (shift_delay (- d) (cxt st'))).
Proof.
  unfold steps. simpl.
  intros (A1 & A2 & A3 & A4 & A5 & A6 & A7 & A8).
  repeat split; auto.
  apply (K_delay _ _ (- d)) in A6. rewrite shift_delay_inverse in A6. exact A6.
Qed.

(** A stretch that runs between [pushReferring] and [popReferring]. *)
Lemma steps_referred (r : PositionRange) st st' :
  steps (set_referringStack st (referringStack st ++ [r])) st' ->
  steps st (set_referringStack st' (removelast (referringStack st'))).
Proof.
  unfold steps. simpl.
  intros (A1 & A2 & A3 & A4 & A5 & A6 & A7 & A8).
  repeat split; auto.
  rewrite A4. apply removelast_last.
Qed.

(** What a call of [#expand] at [depth] does: a stretch as above, and
    then, when it fails at depth 0, the report of the limit. *)
Definition expanded (depth : Z) (st : PState) (r : bool * Modifier) (st' : PState)
  : Prop :=
  if (negb (fst r) && (depth =? 0))%bool
  then exists mid,
         steps st mid
         /\ st' = set_messages mid (messages mid ++ [limit_report (snd r) mid])
  else steps st st'.

Lemma expand_with_steps
  (rp : list Node -> Z -> M (bool * list Node)) (depth L : Z) :
  (forall nodes st, limit st = L ->
     wp (rp nodes depth) st (fun _ st' => steps st st')) ->
  forall node st, limit st = L ->
    wp (expand_with rp node depth) st (expanded depth st).
Proof.
  intros Hrp node st HL.
  unfold expand_with.
  apply wp_bind, wp_get.
  destruct (m_expansion node) as [e|] eqn:Ee.
  { apply wp_ret. unfold expanded. simpl. apply steps_refl. }
  destruct ((delayDepth (cxt st) >? 0) && negb (alwaysTryExpand (def_of node)))%bool.
  { apply wp_ret. unfold expanded. simpl. apply steps_refl. }
  apply wp_bind.
  apply wp_conseq with (Q := fun _ st' => steps st st').
  { unfold expand_content.
    destruct ((0 <? Z.of_nat (List.length (m_content node))) && (depth >? 0))%bool.
    - apply wp_bind.
      eapply wp_conseq; [apply call_hook_steps, definition_sound_ref|].
      intros node1 st1 H1. simpl.
      apply wp_bind.
      apply wp_conseq with
        (Q := fun _ st2 => st2 = (if delayContentExpansion (def_of node1)
                                  then set_cxt st1 (shift_delay 1 (cxt st1))
                                  else st1)).
      { destruct (delayContentExpansion (def_of node1)); reflexivity. }
      intros _ st2 ->.
      apply wp_bind.
      eapply wp_conseq.
      { apply Hrp. rewrite <- HL, <- (steps_limit _ _ H1).
        destruct (delayContentExpansion (def_of node1)); reflexivity. }
      intros [ok1 content1] st3 H3. simpl.
      change (def_of (set_content node1 content1)) with (def_of node1).
      apply wp_bind.
      apply wp_conseq with (Q := fun _ st4 => steps st1 st4).
      { destruct (delayContentExpansion (def_of node1)); simpl.
        - unfold wp, add_delayDepth, modify.
          apply (steps_delayed 1). exact H3.
        - exact H3. }
      intros _ st4 H4.
      eapply wp_conseq; [apply call_hook_steps, definition_sound_ref|].
      intros node5 st5 H5. simpl.
      cbv beta in *. eauto using steps_trans.
    - apply wp_ret, steps_refl. }
  intros node1 st1 H1. simpl.
  apply wp_bind.
  eapply wp_conseq; [apply call_hook_steps, definition_sound_ref|].
  intros node2 st2 H2. simpl.
  assert (H12 : steps st st2) by (cbv beta in *; eauto using steps_trans).
  clear H1 H2.
  apply wp_bind.
  apply wp_conseq with (Q := fun _ st3 => steps st st3).
  { destruct (expand (def_of node2)) as [f|] eqn:Ef.
    - apply wp_bind, wp_get.
      destruct (definition_sound_ref (m_mod node2)) as (_ & _ & _ & _ & _ & Hx).
      specialize (Hx f node2 (cxt st2) Ef).
      destruct (f node2 (cxt st2)) as [[e node'] cxt']. simpl in Hx.
      unfold wp, bind, modify, sortModifiers, ret. simpl.
      eapply steps_trans; [exact H12|].
      unfold steps. simpl. repeat split; auto.
      exists []. rewrite app_nil_r. auto.
    - apply wp_ret. exact H12. }
  intros [node3 stop] st3 H3. simpl.
  destruct stop.
  { apply wp_ret. unfold expanded. simpl. exact H3. }
  destruct (Z.of_nat (List.length
              match m_expansion node3 with
              | Some e => e
              | None => m_content node3
              end) =? 0).
  { apply wp_ret. unfold expanded. simpl. exact H3. }
  apply wp_bind.
  eapply wp_conseq; [apply call_hook_steps, definition_sound_ref|].
  intros node4 st4 H4. simpl.
  assert (H04 : steps st st4) by (cbv beta in *; eauto using steps_trans).
  clear H3 H4 H12.
  apply wp_bind, wp_modify.
  apply wp_bind.
  eapply wp_conseq.
  { apply Hrp. rewrite <- HL, <- (steps_limit _ _ H04). reflexivity. }
  intros [ok expansion'] st5 H5. simpl.
  pose proof (steps_referred _ _ _ H5) as H5'.
  set (node5 := match m_expansion node4 with
                | Some _ => set_expansion node4 (Some expansion')
                | None => set_content node4 expansion'
                end).
  apply wp_bind. unfold popReferring.
  apply wp_bind, wp_get. apply wp_bind.
  apply wp_assert.
  { destruct H5 as (_ & _ & _ & Hr & _). simpl in Hr.
    rewrite Hr, length_app. simpl. apply Z.ltb_lt. lia. }
  apply wp_modify.
  assert (H06 : steps st (set_referringStack st5 (removelast (referringStack st5))))
    by (cbv beta in *; eauto using steps_trans).
  clear H5 H5' H04.
  apply wp_bind.
  eapply wp_conseq; [apply call_hook_steps, definition_sound_ref|].
  intros node7 st7 H7. simpl.
  assert (H07 : steps st st7) by (cbv beta in *; eauto using steps_trans).
  clear H06 H7.
  apply wp_bind.
  unfold expanded.
  destruct (negb ok && (depth =? 0))%bool eqn:Ec.
  - apply wp_bind, wp_get. unfold message, modify, wp, ret. simpl.
    rewrite Ec.
    exists st7. split; [exact H07|]. reflexivity.
  - unfold wp, when, ret. simpl. rewrite Ec. exact H07.
Qed.

Lemma expanded_below (depth : Z) st r st' :
  0 < depth -> expanded depth st r st' -> steps st st'.
Proof.
  unfold expanded. intros Hd.
  replace (depth =? 0) with false by (symmetry; apply Z.eqb_neq; lia).
  rewrite andb_false_r. auto.
Qed.

Lemma reparse_steps (L : Z) (fuel : nat) :
  forall depth, 0 <= depth -> (reparse_fuel L depth <= fuel)%nat ->
  forall nodes st, limit st = L ->
    wp (reparse fuel nodes depth) st (fun _ st' => steps st st').
Proof.
  unfold reparse_fuel.
  induction fuel as [|fuel IH]; intros depth Hd Hf nodes st HL; [lia|].
  simpl. apply wp_bind, wp_get.
  destruct (depth >? limit st) eqn:Ed.
  { apply wp_ret, steps_refl. }
  rewrite Z.gtb_ltb in Ed. apply Z.ltb_ge in Ed.
  assert (Hf' : (S (Z.to_nat (L + 1 - (depth + 1))) <= fuel)%nat) by lia.
  match goal with
  | |- wp (?loop nodes true []) st _ =>
      assert (Hloop : forall nodes done ok st1, steps st st1 ->
                wp (loop nodes ok done) st1 (fun _ st' => steps st st'));
      [clear nodes | apply Hloop, steps_refl]
  end.
  induction nodes as [|node nodes IHn]; intros done ok st1 H1.
  { apply wp_ret. exact H1. }
  assert (HL1 : limit st1 = L) by (rewrite (steps_limit _ _ H1); exact HL).
  destruct node as [s e c| | | |m]; try (apply IHn; exact H1).
  - apply wp_bind.
    eapply wp_conseq; [apply (IH (depth + 1)); [lia | exact Hf' | exact HL1]|].
    intros [ok' c'] st2 H2. simpl.
    apply IHn. cbv beta in *. eauto using steps_trans.
  - apply wp_bind.
    eapply wp_conseq.
    { apply (expand_with_steps _ (depth + 1) L); [|exact HL1].
      intros ns st2 HL2. apply IH; [lia | exact Hf' | exact HL2]. }
    intros [ok' m'] st2 H2. simpl.
    apply IHn. apply expanded_below in H2; [|lia].
    eauto using steps_trans.
Qed.

(** Every call of [#expand] with enough fuel returns. *)
Lemma expand_node_steps (depth : Z) (fuel : nat) (node : Modifier) (st : PState) :
  0 <= depth -> (reparse_fuel (limit st) depth <= fuel)%nat ->
  wp (expand_node fuel node depth) st (expanded depth st).
Proof.
  intros Hd Hf. unfold expand_node.
  apply (expand_with_steps _ depth (limit st)); [|reflexivity].
  intros nodes st1 HL. apply (reparse_steps (limit st)); assumption.
Qed.

(** *** Runs of the parser *)

Hypothesis K_names : forall c c',
  K c c' -> names_ok (config c) -> names_ok (config c').

(** A stretch in which no hook runs: the scanner may advance, messages
    may be stored, the rest is as it was. *)
Definition scans (st st' : PState) : Prop :=
  (remaining st' <= remaining st)%nat
  /\ blockStack st' = blockStack st
  /\ inlineStack st' = inlineStack st
  /\ referringStack st' = referringStack st
  /\ groupDepth st' = groupDepth st
  /\ cxt st' = cxt st
  /\ prefixes st' = prefixes st.

(** A stretch of the parser: the scanner may advance, the open nodes may
    gain content, the context changes within [K]. *)
Definition advances (st st' : PState) : Prop :=
  (remaining st' <= remaining st)%nat
  /\ map block_mod (blockStack st') = map block_mod (blockStack st)
  /\ map inline_mod (inlineStack st') = map inline_mod (inlineStack st)
  /\ referringStack st' = referringStack st
  /\ K (cxt st) (cxt st')
  /\ (in_sync st -> in_sync st').

Lemma scans_refl st : scans st st.
Proof. unfold scans. repeat split; auto. Qed.

Lemma scans_trans st1 st2 st3 : scans st1 st2 -> scans st2 st3 -> scans st1 st3.
Proof.
  unfold scans. intros (A1 & A2 & A3 & A4 & A5 & A6 & A7) (B1 & B2 & B3 & B4 & B5 & B6 & B7).
  repeat split; try congruence. lia.
Qed.

Lemma advances_refl st : advances st st.
Proof. unfold advances. repeat split; auto. Qed.

Lemma advances_trans st1 st2 st3 :
  advances st1 st2 -> advances st2 st3 -> advances st1 st3.
Proof.
  unfold advances.
  intros (A1 & A2 & A3 & A4 & A5 & A6) (B1 & B2 & B3 & B4 & B5 & B6).
  repeat split; try congruence; eauto. lia.
Qed.

Lemma scans_advances st st' : scans st st' -> advances st st'.
Proof.
  unfold scans, advances, in_sync.
  intros (A1 & A2 & A3 & A4 & A5 & A6 & A7).
  repeat split; try congruence.
  rewrite A6. apply K_refl.
Qed.

Lemma steps_advances st st' : steps st st' -> advances st st'.
Proof.
  unfold steps, advances, remaining.
  intros (A1 & A2 & A3 & A4 & A5 & A6 & A7 & A8).
  repeat split; try congruence; auto.
  rewrite A1. apply Nat.le_refl.
Qed.

Lemma advances_remaining st st' :
  advances st st' -> (remaining st' <= remaining st)%nat.
Proof. intros H. apply H. Qed.

Lemma scans_remaining st st' :
  scans st st' -> (remaining st' <= remaining st)%nat.
Proof. intros H. apply H. Qed.

(** The parser is [ready] when its prefix tables are those of the
    configuration, every interpolator has a name, and the limit is
    [L]. *)
Definition ready (L : Z) (st : PState) : Prop :=
  in_sync st /\ names_ok (config (cxt st)) /\ limit st = L.

Lemma ready_advances L st st' : ready L st -> advances st st' -> ready L st'.
Proof.
  unfold ready, advances, limit.
  intros (R1 & R2 & R3) (_ & _ & _ & _ & A5 & A6).
  repeat split; eauto.
  rewrite (K_limit _ _ A5). exact R3.
Qed.

Lemma ready_interpolators L st :
  ready L st -> Forall (fun e => fst e <> EmptyString) (p_interpolator (prefixes st)).
Proof.
  intros (R1 & R2 & _). rewrite R1. simpl.
  unfold names_ok in R2. rewrite Forall_forall in *.
  intros e He. apply R2. apply sort_by_length_In. exact He.
Qed.

(** Scanner primitives. *)

Lemma strip_prefix_length (p s r : string) :
  strip_prefix p s = Some r ->
  String.length s = (String.length p + String.length r)%nat.
Proof.
  revert s. induction p as [|a p IH]; intros [|b s]; simpl; try discriminate.
  - intros [= <-]. reflexivity.
  - intros [= <-]. reflexivity.
  - destruct (Ascii.eqb a b); [|discriminate]. intros H. rewrite (IH _ H). reflexivity.
Qed.

Lemma accept_true (s : string) (sc sc' : Scanner) :
  accept s sc = (true, sc') ->
  peek s sc = true
  /\ String.length (rest sc) = (String.length s + String.length (rest sc'))%nat.
Proof.
  unfold accept, peek. destruct (strip_prefix s (rest sc)) as [r|] eqn:E; [|discriminate].
  intros [= <-]. simpl. split; [reflexivity|]. apply strip_prefix_length. exact E.
Qed.

Lemma accept_false (s : string) (sc sc' : Scanner) :
  accept s sc = (false, sc') -> peek s sc = false /\ sc' = sc.
Proof.
  unfold accept, peek. destruct (strip_prefix s (rest sc)) as [r|] eqn:E; [discriminate|].
  intros [= <-]. auto.
Qed.

Lemma wp_s_accept (s : string) st (Post : bool -> PState -> Prop) :
  (forall st', scans st st' -> peek s (scanner st) = true ->
               remaining st = (String.length s + remaining st')%nat -> Post true st') ->
  (peek s (scanner st) = false -> Post false st) ->
  wp (s_accept s) st Post.
Proof.
  intros Ht Hf. unfold wp, s_accept.
  destruct (accept s (scanner st)) as [[|] sc] eqn:E.
  - apply accept_true in E. destruct E as [E1 E2].
    apply Ht; [|exact E1|exact E2].
    unfold scans, remaining. simpl. repeat split; auto. lia.
  - apply accept_false in E. destruct E as [E1 ->].
    replace (set_scanner st (scanner st)) with st by (destruct st; reflexivity).
    apply Hf. exact E1.
Qed.

Lemma wp_s_peek (s : string) st (Post : bool -> PState -> Prop) :
  Post (peek s (scanner st)) st -> wp (s_peek s) st Post.
Proof. exact (fun H => H). Qed.

Lemma wp_s_isEOF st (Post : bool -> PState -> Prop) :
  Post (isEOF (scanner st)) st -> wp s_isEOF st Post.
Proof. exact (fun H => H). Qed.

Lemma wp_s_position st (Post : Z -> PState -> Prop) :
  Post (position (scanner st)) st -> wp s_position st Post.
Proof. exact (fun H => H). Qed.

Lemma isEOF_remaining st : isEOF (scanner st) = false <-> (0 < remaining st)%nat.
Proof.
  unfold isEOF, remaining. destruct (rest (scanner st)); simpl; split;
    try discriminate; try lia; reflexivity.
Qed.

Lemma wp_s_acceptChar st (Post : string -> PState -> Prop) :
  isEOF (scanner st) = false ->
  (forall c st', scans st st' -> remaining st = S (remaining st') ->
                 String.length c = 1%nat -> Post c st') ->
  wp s_acceptChar st Post.
Proof.
  intros He H. unfold wp, s_acceptChar, acceptChar.
  unfold isEOF in He.
  destruct (rest (scanner st)) as [|c r] eqn:E; [discriminate|].
  apply H.
  - unfold scans, remaining. simpl. rewrite E. simpl. repeat split; auto.
  - unfold remaining. simpl. rewrite E. reflexivity.
  - reflexivity.
Qed.

Lemma wp_message (m : list Message) st (Post : unit -> PState -> Prop) :
  (forall st', scans st st' -> remaining st' = remaining st -> Post tt st') ->
  wp (message m) st Post.
Proof.
  intros H. unfold wp, message, modify. apply H.
  - unfold scans, remaining. simpl. repeat split; auto.
  - reflexivity.
Qed.

Lemma skip_whitespace_length pos r :
  (String.length (rest (skip_whitespace pos r)) <= String.length r)%nat.
Proof.
  revert pos. induction r as [|c r IH]; intros pos; simpl; [lia|].
  destruct (is_whitespace c); simpl; [|lia].
  specialize (IH (pos + 1)). lia.
Qed.

Lemma skip_whitespace_or_newline_length pos r :
  (String.length (rest (skip_whitespace_or_newline pos r)) <= String.length r)%nat.
Proof.
  revert pos. induction r as [|c r IH]; intros pos; simpl; [lia|].
  destruct (is_whitespace c || Ascii.eqb c newline)%bool; simpl; [|lia].
  specialize (IH (pos + 1)). lia.
Qed.

Lemma count_newlines_length pos r n :
  (String.length (rest (snd (count_newlines pos r n))) <= String.length r)%nat.
Proof.
  revert pos n. induction r as [|c r IH]; intros pos n; simpl; [lia|].
  destruct (Ascii.eqb c newline).
  - specialize (IH (pos + 1) (n + 1)). lia.
  - destruct (is_whitespace c); simpl; [|lia].
    specialize (IH (pos + 1) n). lia.
Qed.

Lemma ACCEPT_WHITESPACES_scans st :
  wp ACCEPT_WHITESPACES st (fun _ st' => scans st st').
Proof.
  unfold wp, ACCEPT_WHITESPACES, modify, scans, remaining. simpl.
  repeat split; auto. apply skip_whitespace_length.
Qed.

Lemma WHITESPACES_OR_NEWLINES_scans st :
  wp WHITESPACES_OR_NEWLINES st (fun _ st' => scans st st').
Proof.
  unfold wp, WHITESPACES_OR_NEWLINES, modify, scans, remaining. simpl.
  repeat split; auto. apply skip_whitespace_or_newline_length.
Qed.

Lemma find_accept_remaining {D : Type} (l : list (string * D)) (sc : Scanner) :
  Forall (fun e => fst e <> EmptyString) l ->
  match find_accept l sc with
  | (Some _, sc') => (String.length (rest sc') < String.length (rest sc))%nat
  | (None, sc') => sc' = sc
  end.
Proof.
  intros Hl. pose proof (find_accept_first l sc) as H.
  destruct (find_accept l sc) as [[x|] sc'].
  - destruct H as (l1 & l2 & -> & _ & Hx).
    apply accept_true in Hx. destruct Hx as [_ Hx].
    apply Forall_app in Hl. destruct Hl as [_ Hl].
    inversion Hl as [|? ? Hne _]; subst.
    destruct (fst x); [congruence|]. simpl in Hx. lia.
  - apply H.
Qed.

Lemma emitString_ok (content : list ArgumentEntity) (s : string) (pos : Z) :
  forallb entity_ok content = true ->
  forallb entity_ok (emitString content s pos) = true.
Proof.
  intros H. unfold emitString.
  destruct (rev content) as [|x before] eqn:E.
  - rewrite forallb_app, H. reflexivity.
  - assert (Hc : content = rev before ++ [x]).
    { rewrite <- (rev_involutive content), E. reflexivity. }
    destruct x; try (rewrite forallb_app, H; reflexivity).
    rewrite Hc, forallb_app in H. apply andb_prop in H. destruct H as [Hb _].
    rewrite forallb_app, Hb. reflexivity.
Qed.

Lemma ARGUMENT_CONTENT_loop_scans (fuel : nat) :
  forall end_ posStart content posEnd st,
    Forall (fun e => fst e <> EmptyString) (p_interpolator (prefixes st)) ->
    (remaining st < fuel)%nat ->
    wp (ARGUMENT_CONTENT_loop fuel end_ posStart content posEnd) st
       (fun r st' =>
          scans st st'
          /\ (snd r = true -> end_ = None -> (remaining st' < remaining st)%nat)
          /\ (forallb entity_ok content = true -> argument_ok (fst r) = true)).
Proof.
  induction fuel as [|fuel IH]; intros end_ posStart content posEnd st Hn Hf; [lia|].
  cbn [ARGUMENT_CONTENT_loop].
  apply wp_bind.
  apply wp_conseq with
    (Q := fun (b : bool) st' => scans st st' /\ (b = true -> end_ <> None)).
  { destruct end_ as [e|].
    - apply wp_s_accept.
      + intros st' Hs _ _. split; [exact Hs | discriminate].
      + intros _. split; [apply scans_refl | discriminate].
    - apply wp_ret. split; [apply scans_refl | discriminate]. }
  intros found_end st1 [H1 Hfe].
  destruct found_end.
  { apply wp_ret. split; [exact H1|]. simpl.
    split; [intros _ E; exfalso; apply Hfe; auto | auto]. }
  clear Hfe.
  apply wp_bind, wp_s_accept.
  { intros st2 H2 _ Hr2. apply wp_ret. simpl.
    split; [eauto using scans_trans|]. split; [|auto].
    intros _ _. apply scans_remaining in H1. simpl in Hr2. lia. }
  intros _.
  apply wp_bind, wp_s_peek. apply wp_bind, wp_s_peek. apply wp_bind, wp_s_isEOF.
  destruct (isEOF (scanner st1)) eqn:Eeof.
  { rewrite !orb_true_r. apply wp_ret. simpl.
    split; [exact H1 | split; [discriminate | auto]]. }
  rewrite orb_false_r.
  destruct (peek MODIFIER_END_SIGN (scanner st1) || peek MODIFIER_CLOSE_SIGN (scanner st1))%bool.
  { apply wp_ret. simpl. split; [exact H1 | split; [discriminate | auto]]. }
  assert (Hn1 : Forall (fun e => fst e <> EmptyString) (p_interpolator (prefixes st1))).
  { destruct H1 as (_ & _ & _ & _ & _ & _ & ->). exact Hn. }
  apply wp_bind, wp_s_accept.
  { intros st2 H2 _ Hr2. simpl in Hr2.
    apply wp_bind, wp_s_position. apply wp_bind, wp_s_isEOF.
    destruct (isEOF (scanner st2)) eqn:Eeof2.
    { apply wp_ret. simpl.
      split; [eauto using scans_trans | split; [discriminate|]].
      apply emitString_ok. }
    apply wp_bind, wp_s_acceptChar; [exact Eeof2|].
    intros c st3 H3 Hr3 Hc.
    eapply wp_conseq.
    { apply IH.
      - destruct H3 as (_ & _ & _ & _ & _ & _ & ->).
        destruct H2 as (_ & _ & _ & _ & _ & _ & ->). exact Hn1.
      - apply scans_remaining in H1. lia. }
    intros r st4 (H4 & Hr4 & Hok4). simpl in *.
    split; [eauto using scans_trans|]. split.
    - intros Hok He. specialize (Hr4 Hok He).
      apply scans_remaining in H1. lia.
    - intros Hc0. apply Hok4. rewrite forallb_app, Hc0. simpl. rewrite Hc. reflexivity. }
  intros _.
  apply wp_bind.
  unfold wp at 1. unfold find_interpolator.
  pose proof (find_accept_remaining (p_interpolator (prefixes st1)) (scanner st1) Hn1) as Hfind.
  destruct (find_accept (p_interpolator (prefixes st1)) (scanner st1)) as [[[nm d]|] sc'].
  - set (st2 := set_scanner st1 sc').
    assert (H2 : scans st1 st2).
    { unfold scans, remaining, st2. simpl. repeat split; auto. lia. }
    assert (Hr2 : (remaining st2 < remaining st1)%nat) by exact Hfind.
    apply wp_bind, wp_s_position.
    apply wp_bind.
    eapply wp_conseq.
    { apply IH.
      - destruct H2 as (_ & _ & _ & _ & _ & _ & ->). exact Hn1.
      - apply scans_remaining in H1. lia. }
    intros [inner ok2] st3 (H3 & _ & Hin). simpl in Hin. specialize (Hin eq_refl).
    cbv beta iota.
    apply wp_bind, wp_s_position.
    assert (Hnew : forall pe, forallb entity_ok content = true ->
              forallb entity_ok (content ++ [ArgInterp d inner (pe - 2) pe]) = true).
    { intros pe Hc0. rewrite forallb_app, Hc0. simpl.
      destruct inner as [a b l]. unfold argument_ok in Hin. simpl in Hin.
      rewrite Hin. reflexivity. }
    destruct ok2; simpl.
    + eapply wp_conseq.
      { apply IH.
        - destruct H3 as (_ & _ & _ & _ & _ & _ & ->).
          destruct H2 as (_ & _ & _ & _ & _ & _ & ->). exact Hn1.
        - apply scans_remaining in H1, H3. lia. }
      intros r st4 (H4 & Hr4 & Hok4). simpl in *.
      split; [eauto using scans_trans|]. split.
      * intros Hok He. specialize (Hr4 Hok He).
        apply scans_remaining in H1, H3. lia.
      * intros Hc0. apply Hok4, Hnew, Hc0.
    + apply wp_bind, wp_message. intros st4 H4 _.
      apply wp_ret. simpl.
      split; [eauto 6 using scans_trans | split; [discriminate|]].
      apply Hnew.
  - subst sc'.
    replace (set_scanner st1 (scanner st1)) with st1 by (destruct st1; reflexivity).
    apply wp_bind, wp_s_acceptChar; [exact Eeof|].
    intros c st2 H2 Hr2 Hc.
    apply wp_bind, wp_s_position.
    eapply wp_conseq.
    { apply IH.
      - destruct H2 as (_ & _ & _ & _ & _ & _ & ->). exact Hn1.
      - apply scans_remaining in H1. lia. }
    intros r st3 (H3 & Hr3 & Hok3). simpl in *.
    split; [eauto using scans_trans|]. split.
    + intros Hok He. specialize (Hr3 Hok He).
      apply scans_remaining in H1. lia.
    + intros Hc0. apply Hok3, emitString_ok, Hc0.
Qed.

Lemma ARGUMENT_CONTENT_scans (fuel : nat) end_ st :
  Forall (fun e => fst e <> EmptyString) (p_interpolator (prefixes st)) ->
  (remaining st < fuel)%nat ->
  wp (ARGUMENT_CONTENT fuel end_) st
     (fun r st' =>
        scans st st'
        /\ (snd r = true -> end_ = None -> (remaining st' < remaining st)%nat)
        /\ argument_ok (fst r) = true).
Proof.
  intros Hn Hf. unfold ARGUMENT_CONTENT.
  apply wp_bind, wp_s_position.
  eapply wp_conseq; [apply ARGUMENT_CONTENT_loop_scans; assumption|].
  intros r st' (H1 & H2 & H3). auto.
Qed.

Lemma ARGUMENTS_loop_scans (fuel : nat) :
  forall first args st,
    Forall (fun e => fst e <> EmptyString) (p_interpolator (prefixes st)) ->
    (S (remaining st) < fuel)%nat ->
    wp (ARGUMENTS_loop fuel first args) st (fun _ st' => scans st st').
Proof.
  induction fuel as [|fuel IH]; intros first args st Hn Hf; [lia|].
  cbn [ARGUMENTS_loop].
  apply wp_bind.
  eapply wp_conseq; [apply ARGUMENT_CONTENT_scans; [exact Hn | lia]|].
  intros [arg ok] st1 (H1 & Hr1 & _). simpl in *.
  destruct ok; simpl.
  - eapply wp_conseq.
    { apply IH.
      - destruct H1 as (_ & _ & _ & _ & _ & _ & ->). exact Hn.
      - specialize (Hr1 eq_refl eq_refl). lia. }
    intros r st2 H2. simpl in *. eauto using scans_trans.
  - destruct ((Z.of_nat (List.length args) =? 0)
              && (Z.of_nat (List.length (arg_content arg)) =? 0)
              && negb first)%bool; apply wp_ret; exact H1.
Qed.

Lemma ARGUMENTS_scans (fuel : nat) st :
  Forall (fun e => fst e <> EmptyString) (p_interpolator (prefixes st)) ->
  (S (remaining st) < fuel)%nat ->
  wp (ARGUMENTS fuel) st (fun _ st' => scans st st').
Proof.
  intros Hn Hf. unfold ARGUMENTS.
  apply wp_bind.
  apply wp_conseq with (Q := fun _ st' => scans st st').
  { apply wp_s_accept.
    - intros st' H _ _. exact H.
    - intros _. apply scans_refl. }
  intros first st1 H1. cbv beta in H1.
  apply wp_bind.
  apply wp_conseq with (Q := fun _ st' => scans st1 st').
  { destruct first; simpl.
    - apply wp_ret, scans_refl.
    - apply WHITESPACES_OR_NEWLINES_scans. }
  intros ? st2 H2. cbv beta in H2. cbv beta in H2.
  eapply wp_conseq.
  { apply ARGUMENTS_loop_scans.
    - destruct H2 as (_ & _ & _ & _ & _ & _ & ->).
      destruct H1 as (_ & _ & _ & _ & _ & _ & ->). exact Hn.
    - apply scans_remaining in H1, H2. lia. }
  intros r st3 H3. simpl in *. eauto using scans_trans.
Qed.

Lemma SHOULD_BE_A_NEWLINE_scans st :
  wp SHOULD_BE_A_NEWLINE st (fun _ st' => scans st st').
Proof.
  unfold SHOULD_BE_A_NEWLINE.
  apply wp_bind.
  eapply wp_conseq; [apply ACCEPT_WHITESPACES_scans|].
  intros ? st1 H1. cbv beta in H1. simpl in H1.
  apply wp_bind, wp_s_accept.
  - intros st2 H2 _ _. apply wp_ret. eauto using scans_trans.
  - intros _. simpl.
    apply wp_bind, wp_s_position. apply wp_message.
    intros st2 H2 _. eauto using scans_trans.
Qed.

Lemma WARN_IF_MORE_NEWLINES_THAN_scans n st :
  wp (WARN_IF_MORE_NEWLINES_THAN n) st (fun _ st' => scans st st').
Proof.
  unfold WARN_IF_MORE_NEWLINES_THAN.
  apply wp_bind, wp_s_position. apply wp_bind, wp_get.
  pose proof (count_newlines_length (position (scanner st)) (rest (scanner st)) 0) as Hc.
  destruct (count_newlines (position (scanner st)) (rest (scanner st)) 0) as [nlines sc].
  simpl in Hc.
  apply wp_bind, wp_modify. apply wp_bind, wp_s_position.
  assert (H1 : scans st (set_scanner st sc)).
  { unfold scans, remaining. simpl. repeat split; auto. }
  destruct (nlines >? n); simpl.
  - apply wp_message. intros st2 H2 _. eauto using scans_trans.
  - apply wp_ret. exact H1.
Qed.

Lemma find_accept_shorter {D : Type} (l : list (string * D)) (sc : Scanner) :
  (String.length (rest (snd (find_accept l sc))) <= String.length (rest sc))%nat.
Proof.
  pose proof (find_accept_first l sc) as H.
  destruct (find_accept l sc) as [[x|] sc']; simpl.
  - destruct H as (_ & _ & _ & _ & Hx). apply accept_true in Hx. lia.
  - destruct H as [_ ->]. lia.
Qed.

Lemma acceptUntil_from_shorter s pos r acc :
  (String.length (rest (snd (acceptUntil_from s pos r acc))) <= String.length r)%nat.
Proof.
  revert pos acc. induction r as [|c r IH]; intros pos acc; simpl; [lia|].
  destruct (strip_prefix s (String c r)); simpl; [lia|].
  specialize (IH (pos + 1) (acc ++ String c "")%string). lia.
Qed.

Lemma modifier_open_length type : String.length (modifier_open type) = 2%nat.
Proof. destruct type; reflexivity. Qed.

(** The head of a modifier: it takes the opener, so at least two
    characters. *)
Lemma MODIFIER_head_scans (fuel : nat) (type : ModType) st :
  Forall (fun e => fst e <> EmptyString) (p_interpolator (prefixes st)) ->
  peek (modifier_open type) (scanner st) = true ->
  (remaining st <= fuel)%nat ->
  wp (MODIFIER_head fuel type) st
     (fun r st' =>
        scans st st' /\ (remaining st' + 2 <= remaining st)%nat
        /\ m_type (fst r) = type).
Proof.
  intros Hn Hp Hf. unfold MODIFIER_head.
  apply wp_bind, wp_s_position.
  apply wp_bind, wp_s_accept; [|congruence].
  intros st1 H1 _ Hr1. rewrite modifier_open_length in Hr1.
  apply wp_bind, wp_assert; [reflexivity|].
  apply wp_bind.
  unfold wp at 1. unfold find_modifier.
  set (table := match type with
                | block => p_block (prefixes st1)
                | system => p_system (prefixes st1)
                | inline => p_inline (prefixes st1)
                end).
  pose proof (find_accept_shorter table (scanner st1)) as Hfind.
  destruct (find_accept table (scanner st1)) as [result sc2]. simpl in Hfind.
  set (st2 := set_scanner st1 sc2).
  assert (H2 : scans st1 st2).
  { unfold scans, remaining, st2. simpl. repeat split; auto. }
  apply wp_bind.
  apply wp_conseq with (Q := fun _ st' => scans st2 st').
  { destruct result as [[nm d]|].
    - apply wp_ret, scans_refl.
    - apply wp_bind.
      unfold wp at 1. unfold s_acceptUntil, acceptUntil.
      pose proof (acceptUntil_from_shorter MODIFIER_CLOSE_SIGN
                    (position (scanner st2)) (rest (scanner st2)) "") as Hu.
      destruct (acceptUntil_from MODIFIER_CLOSE_SIGN (position (scanner st2))
                  (rest (scanner st2)) "") as [args sc3]. simpl in Hu.
      assert (H3 : scans st2 (set_scanner st2 sc3)).
      { unfold scans, remaining. simpl. repeat split; auto. }
      apply wp_bind.
      apply wp_conseq with (Q := fun _ st' => scans st2 st').
      { destruct args.
        - apply wp_ret. exact H3.
        - apply wp_bind, wp_s_position. apply wp_message.
          intros st4 H4 _. eauto using scans_trans. }
      intros ? st4 H4. cbv beta in H4.
      apply wp_bind, wp_s_position. apply wp_message.
      intros st5 H5 _. eauto using scans_trans. }
  intros ? st3 H3. cbv beta in H3. cbv beta in H3.
  assert (H03 : scans st st3) by eauto using scans_trans.
  apply wp_bind.
  eapply wp_conseq.
  { apply ARGUMENTS_scans.
    - destruct H03 as (_ & _ & _ & _ & _ & _ & ->). exact Hn.
    - apply scans_remaining in H1, H2, H3. lia. }
  intros args st4 H4. simpl in H4.
  apply wp_bind.
  apply wp_conseq with (Q := fun _ st' => scans st4 st').
  { apply wp_s_accept.
    - intros st' H _ _. exact H.
    - intros _. apply scans_refl. }
  intros endsign st5 H5. cbv beta in H5.
  apply wp_bind.
  apply wp_conseq with (Q := fun _ st' => scans st5 st').
  { apply wp_s_accept.
    - intros st' H _ _. exact H.
    - intros _. apply scans_refl. }
  intros closed st6 H6. cbv beta in H6.
  apply wp_bind.
  apply wp_conseq with (Q := fun _ st' => scans st6 st').
  { destruct closed; simpl.
    - apply wp_ret, scans_refl.
    - apply wp_bind, wp_s_position. apply wp_message.
      intros st' H _. exact H. }
  intros ? st7 H7. cbv beta in H7. cbv beta in H7.
  apply wp_bind, wp_s_position. apply wp_ret. simpl.
  split; [eauto 10 using scans_trans|]. split; [|reflexivity].
  apply scans_remaining in H1, H2, H3, H4, H5, H6, H7. lia.
Qed.

(** Shapes of the two stacks, and stretches that only touch the
    stacks. *)
Definition bshape (st : PState) : list (option ModRef) := map block_mod (blockStack st).
Definition ishape (st : PState) : list (option ModRef) := map inline_mod (inlineStack st).

Definition core (st st' : PState) : Prop :=
  (remaining st' <= remaining st)%nat
  /\ referringStack st' = referringStack st
  /\ K (cxt st) (cxt st')
  /\ (in_sync st -> in_sync st').

Definition restacks (st st' : PState) : Prop :=
  scanner st' = scanner st
  /\ referringStack st' = referringStack st
  /\ cxt st' = cxt st
  /\ prefixes st' = prefixes st.

Lemma core_refl st : core st st.
Proof. unfold core. repeat split; auto. Qed.

Lemma core_trans st1 st2 st3 : core st1 st2 -> core st2 st3 -> core st1 st3.
Proof.
  unfold core. intros (A1 & A2 & A3 & A4) (B1 & B2 & B3 & B4).
  repeat split; try congruence; eauto. lia.
Qed.

Lemma advances_core st st' :
  advances st st' <-> core st st' /\ bshape st' = bshape st /\ ishape st' = ishape st.
Proof. unfold advances, core, bshape, ishape. tauto. Qed.

Lemma restacks_core st st' :
  restacks st st' -> core st st' /\ remaining st' = remaining st.
Proof.
  unfold restacks, core, remaining, in_sync. intros (A1 & A2 & A3 & A4).
  rewrite A1, A2, A3, A4. repeat split; auto.
Qed.

Lemma wp_addBlockNode n st :
  bshape st <> [] ->
  wp (addBlockNode n) st
     (fun _ st' => restacks st st' /\ bshape st' = bshape st /\ ishape st' = ishape st).
Proof.
  unfold wp, addBlockNode, bshape, ishape, restacks.
  destruct (blockStack st) as [|[r|m] below] eqn:E; simpl; [congruence| |];
    intros _; try rewrite E; repeat split; reflexivity.
Qed.

Lemma wp_store_block n st :
  bshape st <> [] ->
  wp (store_block n) st
     (fun _ st' => restacks st st' /\ bshape st' = bshape st /\ ishape st' = ishape st).
Proof.
  unfold wp, store_block, bshape, ishape, restacks.
  destruct (blockStack st) as [|[r|m] below] eqn:E; simpl; [congruence| |];
    intros _; try rewrite E; repeat split; reflexivity.
Qed.

Lemma wp_addInlineNode n st :
  ishape st <> [] ->
  wp (addInlineNode n) st
     (fun _ st' => restacks st st' /\ bshape st' = bshape st /\ ishape st' = ishape st).
Proof.
  unfold wp, addInlineNode, bshape, ishape, restacks.
  destruct (inlineStack st) as [|[s e c|m] below] eqn:E; simpl; [congruence| |];
    intros _; try rewrite E; repeat split; reflexivity.
Qed.

Lemma wp_store_inline n st :
  ishape st <> [] ->
  wp (store_inline n) st
     (fun _ st' => restacks st st' /\ bshape st' = bshape st /\ ishape st' = ishape st).
Proof.
  unfold wp, store_inline, bshape, ishape, restacks.
  destruct (inlineStack st) as [|[s e c|m] below] eqn:E; simpl; [congruence| |];
    intros _; try rewrite E; repeat split; reflexivity.
Qed.

Lemma wp_addString str st :
  ishape st <> [] ->
  wp (addString str) st
     (fun _ st' => restacks st st' /\ bshape st' = bshape st /\ ishape st' = ishape st).
Proof.
  unfold wp, addString, bshape, ishape, restacks.
  destruct (inlineStack st) as [|[s e c|m] below] eqn:E; simpl; [congruence| |];
    intros _; try rewrite E; repeat split; reflexivity.
Qed.

Lemma restacks_trans st1 st2 st3 : restacks st1 st2 -> restacks st2 st3 -> restacks st1 st3.
Proof.
  unfold restacks. intros (A1 & A2 & A3 & A4) (B1 & B2 & B3 & B4).
  repeat split; congruence.
Qed.

Lemma wp_startBlock m st :
  bshape st <> [] ->
  wp (startBlock m) st
     (fun _ st' => restacks st st' /\ bshape st' = Some (m_mod m) :: bshape st
                   /\ ishape st' = ishape st).
Proof.
  intros Hb. unfold startBlock.
  apply wp_bind. eapply wp_conseq; [apply wp_addBlockNode; exact Hb|].
  intros ? st1 (H1 & B1 & I1). apply wp_modify.
  unfold restacks, bshape, ishape in *. simpl.
  destruct H1 as (A1 & A2 & A3 & A4).
  repeat split; try assumption. rewrite B1. reflexivity.
Qed.

Lemma wp_endBlock st r b bs :
  bshape st = Some r :: b :: bs ->
  wp endBlock st
     (fun m st' => restacks st st' /\ bshape st' = b :: bs /\ ishape st' = ishape st
                   /\ m_mod m = r).
Proof.
  intros Hb. unfold endBlock.
  apply wp_bind, wp_get.
  unfold bshape in Hb.
  destruct (blockStack st) as [|[r0|m] [|parent below]] eqn:E; simpl in Hb; try discriminate.
  apply wp_bind, wp_modify.
  apply wp_bind.
  eapply wp_conseq.
  { apply wp_store_block. unfold bshape. simpl. discriminate. }
  intros ? st1 (H1 & B1 & I1). apply wp_ret.
  unfold restacks, bshape, ishape in *. simpl in *.
  destruct H1 as (A1 & A2 & A3 & A4).
  repeat split; try assumption; congruence.
Qed.

Lemma wp_startInline n st :
  (inline_mod n = None -> bshape st <> []) ->
  (inline_mod n <> None -> ishape st <> []) ->
  wp (startInline n) st
     (fun _ st' => restacks st st' /\ bshape st' = bshape st
                   /\ ishape st' = inline_mod n :: ishape st).
Proof.
  intros Hb Hi. unfold startInline.
  apply wp_bind.
  apply wp_conseq with
    (Q := fun _ st' => restacks st st' /\ bshape st' = bshape st /\ ishape st' = ishape st).
  { destruct n as [s e c|m]; simpl in *.
    - apply wp_addBlockNode. auto.
    - apply wp_addInlineNode. apply Hi. discriminate. }
  intros ? st1 (H1 & B1 & I1). apply wp_modify.
  unfold restacks, bshape, ishape in *. simpl.
  destruct H1 as (A1 & A2 & A3 & A4).
  repeat split; try assumption. rewrite I1. reflexivity.
Qed.

Lemma wp_endInline st k ks :
  ishape st = k :: ks ->
  (k = None -> bshape st <> []) ->
  (k <> None -> ks <> []) ->
  wp endInline st
     (fun n st' => restacks st st' /\ bshape st' = bshape st /\ ishape st' = ks
                   /\ inline_mod n = k).
Proof.
  intros Hi Hb Hk. unfold endInline.
  apply wp_bind, wp_get.
  unfold ishape in Hi.
  destruct (inlineStack st) as [|top below] eqn:E; simpl in Hi; [discriminate|].
  injection Hi as Hk1 Hk2.
  apply wp_bind, wp_modify.
  apply wp_bind.
  apply wp_conseq with
    (Q := fun _ st' => restacks (set_inlineStack st below) st'
                       /\ bshape st' = bshape st
                       /\ ishape st' = map inline_mod below).
  { destruct top as [s e c|m]; simpl in *.
    - apply wp_store_block. apply Hb. symmetry. exact Hk1.
    - apply wp_store_inline. unfold ishape. simpl. rewrite Hk2.
      apply Hk. rewrite <- Hk1. discriminate. }
  intros ? st1 (H1 & B1 & I1). apply wp_ret.
  unfold restacks in *. simpl in *.
  destruct H1 as (A1 & A2 & A3 & A4).
  repeat split; try assumption; try congruence.
  destruct top; exact Hk1.
Qed.

Lemma PRE_PARAGRAPH_loop_scans (fuel : nat) :
  forall grouped str posContentEnd st,
    (remaining st < fuel)%nat ->
    wp (PRE_PARAGRAPH_loop fuel grouped str posContentEnd) st
       (fun _ st' => scans st st').
Proof.
  induction fuel as [|fuel IH]; intros grouped str posContentEnd st Hf; [lia|].
  cbn [PRE_PARAGRAPH_loop].
  apply wp_bind, wp_s_isEOF.
  destruct (isEOF (scanner st)) eqn:Eeof.
  { apply wp_ret, scans_refl. }
  apply wp_bind, wp_s_accept.
  - intros st1 H1 _ Hr1. simpl in Hr1.
    apply wp_bind, wp_get.
    apply wp_bind.
    eapply wp_conseq; [apply ACCEPT_WHITESPACES_scans|].
    intros ? st2 H2. cbv beta in H2.
    apply wp_bind.
    apply wp_conseq with (Q := fun _ st' => scans st2 st').
    { destruct grouped; apply wp_s_accept;
        try (intros st' H _ _; exact H); intros _; apply scans_refl. }
    intros closed st3 H3. cbv beta in H3.
    destruct closed.
    { apply wp_ret. eauto using scans_trans. }
    apply wp_bind, wp_s_isEOF.
    destruct (isEOF (scanner st3)).
    { apply wp_bind.
      apply wp_conseq with (Q := fun _ st' => scans st3 st').
      { destruct grouped; simpl.
        - apply wp_bind, wp_s_position. apply wp_message. intros st' H _. exact H.
        - apply wp_ret, scans_refl. }
      intros ? st4 H4. cbv beta in H4. apply wp_ret. eauto 6 using scans_trans. }
    apply wp_bind, wp_s_position.
    eapply wp_conseq.
    { apply IH. apply scans_remaining in H2, H3. lia. }
    intros r st4 H4. cbv beta in H4. eauto 6 using scans_trans.
  - intros _.
    apply wp_bind, wp_s_acceptChar; [exact Eeof|].
    intros c st1 H1 Hr1 Hc.
    apply wp_bind, wp_s_position.
    eapply wp_conseq.
    { apply IH. lia. }
    intros r st2 H2. cbv beta in H2. eauto using scans_trans.
Qed.

Lemma scans_shape st st' : scans st st' -> bshape st' = bshape st /\ ishape st' = ishape st.
Proof.
  unfold scans, bshape, ishape. intros (_ & A2 & A3 & _). rewrite A2, A3. auto.
Qed.

Lemma restacks_advances st st' :
  restacks st st' -> bshape st' = bshape st -> ishape st' = ishape st ->
  advances st st' /\ remaining st' = remaining st.
Proof.
  intros H Hb Hi. apply restacks_core in H. destruct H as [H Hr].
  split; [|exact Hr]. apply advances_core. auto.
Qed.

Lemma advances_shape st st' :
  advances st st' -> bshape st' = bshape st /\ ishape st' = ishape st.
Proof. intros H. apply advances_core in H. tauto. Qed.

Lemma PRE_PARAGRAPH_advances (fuel : nat) st :
  isEOF (scanner st) = false -> bshape st <> [] ->
  (remaining st < fuel)%nat ->
  wp (PRE_PARAGRAPH fuel) st (fun _ st' => advances st st').
Proof.
  intros Heof Hb Hf. unfold PRE_PARAGRAPH.
  apply wp_bind, wp_s_isEOF. rewrite Heof.
  apply wp_bind, wp_assert; [reflexivity|].
  apply wp_bind, wp_s_position.
  apply wp_bind.
  apply wp_conseq with (Q := fun _ st' => scans st st').
  { apply wp_s_accept.
    - intros st' H _ _. exact H.
    - intros _. apply scans_refl. }
  intros grouped st1 H1. cbv beta in H1.
  apply wp_bind.
  apply wp_conseq with (Q := fun _ st' => scans st1 st').
  { destruct grouped; simpl.
    - apply SHOULD_BE_A_NEWLINE_scans.
    - apply wp_ret, scans_refl. }
  intros ? st2 H2. cbv beta in H2.
  apply wp_bind, wp_s_position.
  apply wp_bind.
  eapply wp_conseq.
  { apply PRE_PARAGRAPH_loop_scans. apply scans_remaining in H1, H2. lia. }
  intros [str posContentEnd] st3 H3. cbv beta in H3.
  apply wp_bind, wp_s_position.
  assert (H03 : scans st st3) by eauto using scans_trans.
  eapply wp_conseq.
  { apply wp_addBlockNode. destruct (scans_shape _ _ H03) as [-> _]. exact Hb. }
  intros ? st4 (H4 & B4 & I4).
  apply restacks_advances in H4; try assumption.
  destruct H4 as [H4 _].
  eauto using advances_trans, scans_advances.
Qed.

Lemma PREFORMATTED_INLINE_ENTITY_advances st :
  isEOF (scanner st) = false -> ishape st <> [] ->
  wp PREFORMATTED_INLINE_ENTITY st
     (fun _ st' => advances st st' /\ (remaining st' < remaining st)%nat).
Proof.
  intros Heof Hi. unfold PREFORMATTED_INLINE_ENTITY.
  apply wp_bind, wp_s_isEOF. rewrite Heof.
  apply wp_bind, wp_assert; [reflexivity|].
  apply wp_bind, wp_s_accept.
  - intros st1 H1 _ Hr1. simpl in Hr1.
    apply wp_bind.
    eapply wp_conseq; [apply ACCEPT_WHITESPACES_scans|].
    intros ? st2 H2. cbv beta in H2.
    assert (H02 : scans st st2) by eauto using scans_trans.
    apply wp_bind, wp_s_peek. apply wp_bind, wp_s_peek. apply wp_bind, wp_s_peek.
    apply wp_bind, wp_get. apply wp_bind, wp_s_isEOF.
    match goal with |- wp (if ?c then _ else _) _ _ => destruct c end.
    { apply wp_ret. split; [apply scans_advances; exact H02|].
      apply scans_remaining in H2. lia. }
    apply wp_bind, wp_s_accept.
    + intros st3 H3 _ _.
      apply wp_bind.
      eapply wp_conseq; [apply WARN_IF_MORE_NEWLINES_THAN_scans|].
      intros ? st4 H4. cbv beta in H4. apply wp_ret.
      split; [apply scans_advances; eauto 6 using scans_trans|].
      apply scans_remaining in H2, H3, H4. lia.
    + intros _.
      apply wp_bind.
      eapply wp_conseq.
      { apply wp_addString. destruct (scans_shape _ _ H02) as [_ ->]. exact Hi. }
      intros ? st3 (H3 & B3 & I3).
      apply restacks_advances in H3; try assumption. destruct H3 as [H3 Hr3].
      apply wp_ret.
      split; [eauto using advances_trans, scans_advances|].
      apply scans_remaining in H2. lia.
  - intros _.
    apply wp_bind, wp_s_acceptChar; [exact Heof|].
    intros c st1 H1 Hr1 Hc.
    apply wp_bind.
    eapply wp_conseq.
    { apply wp_addString. destruct (scans_shape _ _ H1) as [_ ->]. exact Hi. }
    intros ? st2 (H2 & B2 & I2).
    apply restacks_advances in H2; try assumption. destruct H2 as [H2 Hr2].
    apply wp_ret.
    split; [eauto using advances_trans, scans_advances|]. lia.
Qed.

Lemma ready_core L st st' : ready L st -> core st st' -> ready L st'.
Proof.
  unfold ready, core, limit.
  intros (R1 & R2 & R3) (_ & _ & A5 & A6).
  repeat split; eauto.
  rewrite (K_limit _ _ A5). exact R3.
Qed.

Lemma ready_shift L d st :
  ready L st <-> ready L (set_cxt st (shift_delay d (cxt st))).
Proof. unfold ready, in_sync, limit. simpl. tauto. Qed.

Lemma scans_core st st' : scans st st' -> core st st'.
Proof. intros H. apply scans_advances, advances_core in H. tauto. Qed.

Lemma steps_core st st' : steps st st' -> core st st'.
Proof. intros H. apply steps_advances, advances_core in H. tauto. Qed.

Lemma steps_shape st st' : steps st st' -> bshape st' = bshape st /\ ishape st' = ishape st.
Proof. intros H. apply steps_advances, advances_shape in H. exact H. Qed.

Lemma steps_scanner st st' : steps st st' -> scanner st' = scanner st.
Proof. intros H. apply H. Qed.

(** A stretch of the parser between [delayDepth++] and [delayDepth--]. *)
Lemma core_delayed (d : Z) st st' :
  core (set_cxt st (shift_delay d (cxt st))) st' ->
  core st (set_cxt st' (shift_delay (- d) (cxt st'))).
Proof.
  unfold core, remaining, in_sync. simpl.
  intros (A1 & A2 & A3 & A4).
  repeat split; auto.
  apply (K_delay _ _ (- d)) in A3. rewrite shift_delay_inverse in A3. exact A3.
Qed.

Lemma expanded_core depth st r st' :
  expanded depth st r st'
  -> core st st' /\ bshape st' = bshape st /\ ishape st' = ishape st
     /\ scanner st' = scanner st.
Proof.
  unfold expanded.
  destruct (negb (fst r) && (depth =? 0))%bool.
  - intros (mid & H & ->).
    pose proof (steps_scanner _ _ H) as Hs.
    apply steps_advances, advances_core in H. destruct H as (C & B & I).
    unfold core, bshape, ishape, remaining, in_sync in *. simpl. tauto.
  - intros H. pose proof (steps_scanner _ _ H) as Hs.
    apply steps_advances, advances_core in H. tauto.
Qed.

(** What each function of the recursive descent does, given enough fuel:
    it returns, the stacks keep their shape, and the scanner has moved on
    where the loops rely on it. *)
Section Descent.
Variable L : Z.

Definition bound (k : nat) (st : PState) : nat :=
  (10 * remaining st + k + reparse_fuel L 0)%nat.

Definition no_block_ahead (st : PState) : Prop :=
  peek MODIFIER_BLOCK_OPEN (scanner st) = false
  /\ peek MODIFIER_SYSTEM_OPEN (scanner st) = false.

Definition MODIFIER_spec (fuel : nat) : Prop :=
  forall type st,
    ready L st -> peek (modifier_open type) (scanner st) = true ->
    bshape st <> [] -> (type = inline -> ishape st <> []) ->
    (bound 1 st <= fuel)%nat ->
    wp (MODIFIER fuel type) st
       (fun _ st' => advances st st' /\ (remaining st' < remaining st)%nat).

Definition INLINE_ENTITY_spec (fuel : nat) : Prop :=
  forall st,
    ready L st -> isEOF (scanner st) = false ->
    bshape st <> [] -> ishape st <> [] ->
    (bound 2 st <= fuel)%nat ->
    wp (INLINE_ENTITY fuel) st
       (fun r st' =>
          advances st st'
          /\ (r = true \/ no_block_ahead st -> (remaining st' < remaining st)%nat)).

Definition PARAGRAPH_loop_spec (fuel : nat) : Prop :=
  forall st,
    ready L st -> bshape st <> [] -> ishape st <> [] ->
    (bound 3 st <= fuel)%nat ->
    wp (PARAGRAPH_loop fuel) st
       (fun _ st' =>
          advances st st'
          /\ (isEOF (scanner st) = false -> no_block_ahead st ->
              (remaining st' < remaining st)%nat)).

Definition MODIFIER_inline_loop_spec (fuel : nat) : Prop :=
  forall preformatted mod_name st,
    ready L st -> bshape st <> [] -> ishape st <> [] ->
    (bound 3 st <= fuel)%nat ->
    wp (MODIFIER_inline_loop fuel preformatted mod_name) st
       (fun _ st' => advances st st').

Definition PARAGRAPH_spec (fuel : nat) : Prop :=
  forall st,
    ready L st -> isEOF (scanner st) = false -> bshape st <> [] ->
    (bound 4 st <= fuel)%nat ->
    wp (PARAGRAPH fuel) st
       (fun _ st' =>
          advances st st'
          /\ (no_block_ahead st -> (remaining st' < remaining st)%nat)).

Definition MAYBE_GROUPED_PARAGRAPH_spec (fuel : nat) : Prop :=
  forall st,
    ready L st -> isEOF (scanner st) = false -> bshape st <> [] ->
    no_block_ahead st ->
    (bound 5 st <= fuel)%nat ->
    wp (MAYBE_GROUPED_PARAGRAPH fuel) st
       (fun _ st' => advances st st' /\ (remaining st' < remaining st)%nat).

Definition BLOCK_ENTITY_spec (fuel : nat) : Prop :=
  forall st,
    ready L st -> isEOF (scanner st) = false -> bshape st <> [] ->
    (bound 6 st <= fuel)%nat ->
    wp (BLOCK_ENTITY fuel) st
       (fun _ st' => advances st st' /\ (remaining st' < remaining st)%nat).

Definition GROUP_loop_spec (fuel : nat) : Prop :=
  forall st,
    ready L st -> bshape st <> [] ->
    (bound 7 st <= fuel)%nat ->
    wp (GROUP_loop fuel) st (fun _ st' => advances st st').

Definition descent_spec (fuel : nat) : Prop :=
  MODIFIER_spec fuel /\ INLINE_ENTITY_spec fuel /\ PARAGRAPH_loop_spec fuel
  /\ MODIFIER_inline_loop_spec fuel /\ PARAGRAPH_spec fuel
  /\ MAYBE_GROUPED_PARAGRAPH_spec fuel /\ BLOCK_ENTITY_spec fuel
  /\ GROUP_loop_spec fuel.

Lemma advances_bshape st st' : advances st st' -> bshape st <> [] -> bshape st' <> [].
Proof. intros H. destruct (advances_shape _ _ H) as [-> _]. auto. Qed.

Lemma advances_ishape st st' : advances st st' -> ishape st <> [] -> ishape st' <> [].
Proof. intros H. destruct (advances_shape _ _ H) as [_ ->]. auto. Qed.

Section Step.
Variable fuel : nat.
Hypothesis IH : descent_spec fuel.

Lemma INLINE_ENTITY_step : INLINE_ENTITY_spec (S fuel).
Proof.
  destruct IH as (IHM & _).
  intros st Hr Heof Hb Hi Hf. cbn [INLINE_ENTITY].
  apply wp_bind, wp_s_isEOF. rewrite Heof.
  apply wp_bind, wp_assert; [reflexivity|].
  apply wp_bind, wp_s_peek.
  destruct (peek MODIFIER_BLOCK_OPEN (scanner st)) eqn:P1.
  { apply wp_bind, wp_s_position. apply wp_bind, wp_message.
    intros st1 H1 _. apply wp_ret.
    split; [apply scans_advances; exact H1|].
    intros [E|[E _]]; congruence. }
  apply wp_bind, wp_s_peek.
  destruct (peek MODIFIER_INLINE_OPEN (scanner st)) eqn:P2.
  { eapply wp_conseq.
    { apply IHM; try assumption; [auto | unfold bound in *; lia]. }
    intros r st1 [H1 Hr1]. split; [exact H1 | intros _; exact Hr1]. }
  apply wp_bind, wp_s_peek.
  destruct (peek MODIFIER_SYSTEM_OPEN (scanner st)) eqn:P3.
  { apply wp_ret. split; [apply advances_refl|].
    intros [E|[_ E]]; congruence. }
  apply wp_bind, wp_s_accept.
  - intros st1 H1 _ Hr1. simpl in Hr1.
    apply wp_bind, wp_s_isEOF.
    destruct (isEOF (scanner st1)) eqn:Eeof1.
    + apply wp_bind.
      eapply wp_conseq.
      { apply wp_addString. destruct (scans_shape _ _ H1) as [_ ->]. exact Hi. }
      intros ? st2 (H2 & B2 & I2).
      apply restacks_advances in H2; try assumption. destruct H2 as [H2 Hr2].
      apply wp_ret.
      split; [eauto using advances_trans, scans_advances|]. intros _. lia.
    + apply wp_bind, wp_get.
      apply wp_bind, wp_s_acceptChar; [exact Eeof1|].
      intros c st2 H2 Hr2 Hc.
      apply wp_bind, wp_s_position.
      apply wp_bind.
      eapply wp_conseq.
      { apply wp_addInlineNode.
        destruct (scans_shape _ _ H2) as [_ ->].
        destruct (scans_shape _ _ H1) as [_ ->]. exact Hi. }
      intros ? st3 (H3 & B3 & I3).
      apply restacks_advances in H3; try assumption. destruct H3 as [H3 Hr3].
      apply wp_ret.
      split; [eauto 6 using advances_trans, scans_advances|]. intros _. lia.
  - intros _.
    eapply wp_conseq; [apply PREFORMATTED_INLINE_ENTITY_advances; assumption|].
    intros r st1 [H1 Hr1]. split; [exact H1 | intros _; exact Hr1].
Qed.

Lemma PARAGRAPH_loop_step : PARAGRAPH_loop_spec (S fuel).
Proof.
  destruct IH as (_ & IHI & IHP & _).
  intros st Hr Hb Hi Hf. cbn [PARAGRAPH_loop].
  apply wp_bind, wp_s_isEOF.
  destruct (isEOF (scanner st)) eqn:Heof.
  { apply wp_ret. split; [apply advances_refl | discriminate]. }
  apply wp_bind.
  eapply wp_conseq.
  { apply IHI; try assumption. unfold bound in *. lia. }
  intros more st1 [H1 Hr1]. cbv beta.
  destruct more.
  - specialize (Hr1 (or_introl eq_refl)).
    eapply wp_conseq.
    { apply IHP; eauto using ready_advances, advances_bshape, advances_ishape.
      unfold bound in *. lia. }
    intros ? st2 [H2 _]. cbv beta.
    split; [eauto using advances_trans|].
    intros _ _. apply advances_remaining in H2. lia.
  - apply wp_ret. split; [exact H1|].
    intros _ Hn. apply Hr1. right. exact Hn.
Qed.

Lemma MODIFIER_inline_loop_step : MODIFIER_inline_loop_spec (S fuel).
Proof.
  destruct IH as (_ & IHI & _ & IHL & _).
  intros preformatted mod_name st Hr Hb Hi Hf. cbn [MODIFIER_inline_loop].
  apply wp_bind, wp_s_accept.
  { intros st1 H1 _ _. apply wp_ret. apply scans_advances. exact H1. }
  intros _.
  apply wp_bind, wp_s_isEOF.
  destruct (isEOF (scanner st)) eqn:Heof.
  { apply wp_bind, wp_s_position. apply wp_bind, wp_message.
    intros st1 H1 _. apply wp_ret. apply scans_advances. exact H1. }
  apply wp_bind.
  apply wp_conseq with
    (Q := fun (r : bool) st' =>
            advances st st' /\ (r = true -> (remaining st' < remaining st)%nat)).
  { destruct preformatted.
    - eapply wp_conseq; [apply PREFORMATTED_INLINE_ENTITY_advances; assumption|].
      intros r st1 [H1 Hr1]. split; [exact H1 | intros _; exact Hr1].
    - eapply wp_conseq.
      { apply IHI; try assumption. unfold bound in *. lia. }
      intros r st1 [H1 Hr1]. split; [exact H1 | intros E; apply Hr1; left; exact E]. }
  intros ok st1 [H1 Hr1].
  destruct ok.
  - specialize (Hr1 eq_refl).
    eapply wp_conseq.
    { apply IHL; eauto using ready_advances, advances_bshape, advances_ishape.
      unfold bound in *. lia. }
    intros ? st2 H2. cbv beta in H2. eauto using advances_trans.
  - apply wp_bind, wp_s_position. apply wp_bind, wp_message.
    intros st2 H2 _. apply wp_ret.
    eauto using advances_trans, scans_advances.
Qed.

Lemma PARAGRAPH_step : PARAGRAPH_spec (S fuel).
Proof.
  destruct IH as (_ & _ & IHP & _).
  intros st Hr Heof Hb Hf. cbn [PARAGRAPH].
  apply wp_bind, wp_s_isEOF. rewrite Heof.
  apply wp_bind, wp_assert; [reflexivity|].
  apply wp_bind, wp_s_position.
  apply wp_bind.
  eapply wp_conseq.
  { apply wp_startInline; simpl; [intros _; exact Hb | congruence]. }
  intros ? st1 (H1 & B1 & I1). simpl in I1.
  assert (Hsc : scanner st1 = scanner st) by apply H1.
  apply restacks_core in H1. destruct H1 as [C1 R1].
  assert (Hr1 : ready L st1).
  { destruct Hr as (S0 & N0 & L0). destruct C1 as (_ & _ & K1 & S1).
    unfold ready, limit. repeat split; auto.
    - eapply K_names; eassumption.
    - rewrite (K_limit _ _ K1). exact L0. }
  apply wp_bind.
  eapply wp_conseq.
  { apply IHP; try assumption.
    - rewrite B1. exact Hb.
    - rewrite I1. discriminate.
    - unfold bound in *. lia. }
  intros ? st2 [H2 Hr2]. cbv beta.
  unfold no_block_ahead in Hr2. rewrite Hsc in Hr2.
  destruct (advances_shape _ _ H2) as [B2 I2].
  apply wp_bind.
  eapply wp_conseq.
  { apply (wp_endInline st2 None (ishape st)).
    - rewrite I2, I1. reflexivity.
    - intros _. rewrite B2, B1. exact Hb.
    - congruence. }
  intros n st3 (H3 & B3 & I3 & _).
  apply restacks_core in H3. destruct H3 as [C3 R3].
  apply wp_ret.
  apply advances_core in H2. destruct H2 as (C2 & _ & _).
  split.
  - apply advances_core. split; [eauto using core_trans|].
    split; [congruence | exact I3].
  - intros Hn. specialize (Hr2 Heof Hn). lia.
Qed.

Lemma GROUP_loop_step : GROUP_loop_spec (S fuel).
Proof.
  destruct IH as (_ & _ & _ & _ & _ & _ & IHB & IHG).
  intros st Hr Hb Hf. cbn [GROUP_loop].
  apply wp_bind, wp_s_isEOF.
  destruct (isEOF (scanner st)) eqn:Heof.
  { apply wp_bind, wp_s_position. apply wp_message.
    intros st1 H1 _. apply scans_advances. exact H1. }
  apply wp_bind, wp_s_accept.
  { intros st1 H1 _ _. apply wp_modify.
    apply scans_advances in H1.
    unfold advances, remaining, in_sync in *. simpl. exact H1. }
  intros _.
  apply wp_bind.
  eapply wp_conseq.
  { apply IHB; try assumption. unfold bound in *. lia. }
  intros ? st1 [H1 Hr1]. cbv beta.
  apply wp_bind.
  eapply wp_conseq; [apply WARN_IF_MORE_NEWLINES_THAN_scans|].
  intros ? st2 H2. cbv beta in H2.
  assert (H02 : advances st st2) by eauto using advances_trans, scans_advances.
  eapply wp_conseq.
  { apply IHG; eauto using ready_advances, advances_bshape.
    apply scans_remaining in H2. unfold bound in *. lia. }
  intros ? st3 H3. cbv beta in H3. eauto using advances_trans.
Qed.

Lemma MAYBE_GROUPED_PARAGRAPH_step : MAYBE_GROUPED_PARAGRAPH_spec (S fuel).
Proof.
  destruct IH as (_ & _ & _ & _ & IHP & _ & _ & IHG).
  intros st Hr Heof Hb Hn Hf. cbn [MAYBE_GROUPED_PARAGRAPH].
  apply wp_bind, wp_s_isEOF. rewrite Heof.
  apply wp_bind, wp_assert; [reflexivity|].
  apply wp_bind, wp_s_accept.
  - intros st1 H1 _ Hr1. simpl in Hr1.
    apply wp_bind, wp_modify.
    set (st2 := set_groupDepth st1 (groupDepth st1 + 1)).
    assert (H2 : advances st st2).
    { apply scans_advances in H1.
      unfold advances, remaining, in_sync, st2 in *. simpl. exact H1. }
    assert (Hr2 : remaining st2 = remaining st1) by reflexivity.
    apply wp_bind.
    eapply wp_conseq; [apply SHOULD_BE_A_NEWLINE_scans|].
    intros ? st3 H3. cbv beta in H3.
    apply wp_bind.
    eapply wp_conseq; [apply WARN_IF_MORE_NEWLINES_THAN_scans|].
    intros ? st4 H4. cbv beta in H4.
    assert (H04 : advances st st4) by eauto 6 using advances_trans, scans_advances.
    apply scans_remaining in H3, H4.
    eapply wp_conseq.
    { apply IHG; eauto using ready_advances, advances_bshape.
      unfold bound in *. lia. }
    intros ? st5 H5. cbv beta in H5.
    split; [eauto using advances_trans|].
    apply advances_remaining in H5. lia.
  - intros _.
    eapply wp_conseq.
    { apply IHP; try assumption. unfold bound in *. lia. }
    intros ? st1 [H1 Hr1]. split; auto.
Qed.

Lemma BLOCK_ENTITY_step : BLOCK_ENTITY_spec (S fuel).
Proof.
  destruct IH as (IHM & _ & _ & _ & _ & IHG & _).
  intros st Hr Heof Hb Hf. cbn [BLOCK_ENTITY].
  apply wp_bind, wp_s_isEOF. rewrite Heof.
  apply wp_bind, wp_assert; [reflexivity|].
  apply wp_bind, wp_s_peek.
  destruct (peek MODIFIER_BLOCK_OPEN (scanner st)) eqn:P1.
  { apply wp_bind.
    eapply wp_conseq.
    { apply IHM; try assumption; [discriminate | unfold bound in *; lia]. }
    intros ? st1 H1. apply wp_ret. exact H1. }
  apply wp_bind, wp_s_peek.
  destruct (peek MODIFIER_SYSTEM_OPEN (scanner st)) eqn:P2.
  { apply wp_bind.
    eapply wp_conseq.
    { apply IHM; try assumption; [discriminate | unfold bound in *; lia]. }
    intros ? st1 H1. apply wp_ret. exact H1. }
  apply IHG; try assumption.
  - split; assumption.
  - unfold bound in *. lia.
Qed.

(** The content of a modifier, from the node as [beforeParseContent]
    left it to the node as [endInline] or [endBlock] returns it. *)
Lemma MODIFIER_content (type : ModType) (isMarker : bool) (node : Modifier)
  (preformatted : bool) (mod_name : string) st :
  ready L st -> bshape st <> [] -> (type = inline -> ishape st <> []) ->
  (10 * remaining st + 6 + reparse_fuel L 0 <= fuel)%nat ->
  wp (if isMarker then
        match type with
        | inline => addInlineNode (ModifierNode node)
        | _ => addBlockNode (ModifierNode node)
        end ;;;
        ret (true, node)
      else
        match type with
        | inline =>
            startInline (IModifier node) ;;;
            ok <- MODIFIER_inline_loop fuel preformatted mod_name ;;
            n <- endInline ;;
            match n with
            | IModifier node => ret (ok, node)
            | IParagraph _ _ _ => throw
            end
        | _ =>
            startBlock node ;;;
            WARN_IF_MORE_NEWLINES_THAN 1 ;;;
            eof <- s_isEOF ;;
            when (negb eof)
              (if preformatted
               then PRE_PARAGRAPH fuel
               else BLOCK_ENTITY fuel) ;;;
            node <- endBlock ;;
            ret (true, node)
        end) st
     (fun r st' => advances st st' /\ m_mod (snd r) = m_mod node).
Proof.
  destruct IH as (_ & _ & _ & IHL & _ & _ & IHB & _).
  intros Hr Hb Hi Hf.
  destruct isMarker.
  { apply wp_bind.
    apply wp_conseq with
      (Q := fun _ st' => restacks st st' /\ bshape st' = bshape st
                         /\ ishape st' = ishape st).
    { destruct type; [apply wp_addBlockNode | apply wp_addBlockNode
                      | apply wp_addInlineNode]; auto. }
    intros ? st1 (H1 & B1 & I1). apply wp_ret.
    apply restacks_advances in H1; try assumption. split; [apply H1 | reflexivity]. }
  assert (Hblock :
    wp (startBlock node ;;;
        WARN_IF_MORE_NEWLINES_THAN 1 ;;;
        eof <- s_isEOF ;;
        when (negb eof)
          (if preformatted
           then PRE_PARAGRAPH fuel
           else BLOCK_ENTITY fuel) ;;;
        node <- endBlock ;;
        ret (true, node)) st
       (fun r st' => advances st st' /\ m_mod (snd r) = m_mod node)).
  { apply wp_bind.
    eapply wp_conseq; [apply wp_startBlock; exact Hb|].
    intros ? st1 (H1 & B1 & I1).
    apply restacks_core in H1. destruct H1 as [C1 R1].
    apply wp_bind.
    eapply wp_conseq; [apply WARN_IF_MORE_NEWLINES_THAN_scans|].
    intros ? st2 H2. cbv beta in H2.
    destruct (scans_shape _ _ H2) as [B2 I2].
    pose proof (scans_remaining _ _ H2) as R2.
    apply scans_core in H2.
    assert (C02 : core st st2) by eauto using core_trans.
    apply wp_bind, wp_s_isEOF.
    apply wp_bind.
    apply wp_conseq with (Q := fun _ st' => advances st2 st').
    { destruct (isEOF (scanner st2)) eqn:Heof; simpl.
      - apply wp_ret, advances_refl.
      - destruct preformatted.
        + apply PRE_PARAGRAPH_advances; [exact Heof | rewrite B2, B1; discriminate | lia].
        + eapply wp_conseq.
          { apply IHB; eauto using ready_core.
            - rewrite B2, B1. discriminate.
            - unfold bound. lia. }
          intros ? st3 [H3 _]. exact H3. }
    intros ? st3 H3. cbv beta in H3.
    apply advances_core in H3. destruct H3 as (C3 & B3 & I3).
    destruct (bshape st) as [|b bs] eqn:Eb; [congruence|].
    apply wp_bind.
    eapply wp_conseq.
    { apply (wp_endBlock st3 (m_mod node) b bs). rewrite B3, B2, B1. reflexivity. }
    intros m st4 (H4 & B4 & I4 & M4).
    apply restacks_core in H4. destruct H4 as [C4 R4].
    apply wp_ret. simpl. split; [|exact M4].
    apply advances_core. split; [eauto using core_trans|].
    split; congruence. }
  destruct type; try exact Hblock.
  clear Hblock. specialize (Hi eq_refl).
  apply wp_bind.
  eapply wp_conseq.
  { apply wp_startInline; simpl; [discriminate | intros _; exact Hi]. }
  intros ? st1 (H1 & B1 & I1). simpl in I1.
  apply restacks_core in H1. destruct H1 as [C1 R1].
  apply wp_bind.
  eapply wp_conseq.
  { apply IHL; eauto using ready_core.
    - rewrite B1. exact Hb.
    - rewrite I1. discriminate.
    - unfold bound. lia. }
  intros ok st2 H2. cbv beta in H2.
  apply advances_core in H2. destruct H2 as (C2 & B2 & I2).
  apply wp_bind.
  eapply wp_conseq.
  { apply (wp_endInline st2 (Some (m_mod node)) (ishape st)).
    - rewrite I2, I1. reflexivity.
    - discriminate.
    - intros _. exact Hi. }
  intros n st3 (H3 & B3 & I3 & M3).
  apply restacks_core in H3. destruct H3 as [C3 R3].
  destruct n as [s e cn|m]; simpl in M3; [discriminate|].
  apply wp_ret. simpl. split; [|congruence].
  apply advances_core. split; [eauto using core_trans|].
  split; congruence.
Qed.

Lemma MODIFIER_step : MODIFIER_spec (S fuel).
Proof.
  intros type st Hr Hp Hb Hi Hf. cbn [MODIFIER].
  apply wp_bind.
  eapply wp_conseq.
  { apply MODIFIER_head_scans.
    - eapply ready_interpolators. exact Hr.
    - exact Hp.
    - unfold bound in Hf. lia. }
  intros [node isMarker] st1 (H1 & Hr1 & Ht). simpl in Ht. cbv beta iota zeta.
  destruct (scans_shape _ _ H1) as [B1 I1].
  apply scans_core in H1.
  apply wp_bind.
  eapply wp_conseq; [apply call_hook_steps, definition_sound_ref|].
  intros node2 st2 H2. cbv beta in H2.
  destruct (steps_shape _ _ H2) as [B2 I2].
  pose proof (steps_scanner _ _ H2) as S2.
  apply steps_core in H2.
  assert (C02 : core st st2) by eauto using core_trans.
  assert (R2 : remaining st2 = remaining st1) by (unfold remaining; rewrite S2; reflexivity).
  set (delay := delayContentExpansion (def_of node2)).
  set (st3 := if delay then set_cxt st2 (shift_delay 1 (cxt st2)) else st2).
  apply wp_bind.
  apply wp_conseq with (Q := fun _ st' => st' = st3).
  { unfold st3. destruct delay; reflexivity. }
  intros ? ? ->.
  assert (Hr3 : ready L st3).
  { unfold st3. destruct delay; [apply ready_shift|]; eauto using ready_core. }
  assert (B3 : bshape st3 = bshape st)
    by (unfold st3, bshape in *; destruct delay; simpl; congruence).
  assert (I3 : ishape st3 = ishape st)
    by (unfold st3, ishape in *; destruct delay; simpl; congruence).
  assert (R3 : remaining st3 = remaining st1) by (unfold st3; destruct delay; exact R2).
  apply wp_bind.
  eapply wp_conseq.
  { apply MODIFIER_content.
    - exact Hr3.
    - rewrite B3. exact Hb.
    - rewrite I3. exact Hi.
    - unfold bound in Hf. lia. }
  intros [ok node4] st4 [H4 M4]. simpl in M4. cbv beta iota.
  replace (def_of node4) with (def_of node2) by (unfold def_of; rewrite M4; reflexivity).
  fold delay.
  apply advances_core in H4. destruct H4 as (C4 & B4 & I4).
  set (st5 := if delay then set_cxt st4 (shift_delay (-1) (cxt st4)) else st4).
  apply wp_bind.
  apply wp_conseq with (Q := fun _ st' => st' = st5).
  { unfold st5. destruct delay; reflexivity. }
  intros ? ? ->.
  assert (C25 : core st2 st5).
  { unfold st5, st3 in *. destruct delay; [|exact C4].
    apply (core_delayed 1). exact C4. }
  assert (B5 : bshape st5 = bshape st)
    by (unfold st5, bshape in *; destruct delay; simpl; congruence).
  assert (I5 : ishape st5 = ishape st)
    by (unfold st5, ishape in *; destruct delay; simpl; congruence).
  apply wp_bind.
  eapply wp_conseq; [apply call_hook_steps, definition_sound_ref|].
  intros node6 st6 H6. cbv beta in H6.
  destruct (steps_shape _ _ H6) as [B6 I6].
  apply steps_core in H6.
  assert (C06 : core st st6) by eauto using core_trans.
  apply wp_bind.
  eapply wp_conseq.
  { apply expand_node_steps; [lia|].
    destruct (ready_core _ _ _ Hr C06) as (_ & _ & ->).
    unfold bound in Hf. lia. }
  intros [ok7 node7] st7 H7.
  apply expanded_core in H7. destruct H7 as (C7 & B7 & I7 & _).
  apply wp_bind.
  apply wp_conseq with
    (Q := fun _ st' => restacks st7 st' /\ bshape st' = bshape st7
                       /\ ishape st' = ishape st7).
  { destruct type; [apply wp_store_block | apply wp_store_block | apply wp_store_inline];
      try congruence.
    rewrite I7, I6, I5. auto. }
  intros ? st8 (H8 & B8 & I8).
  apply restacks_core in H8. destruct H8 as [C8 R8].
  apply wp_ret.
  split.
  - apply advances_core. split; [eauto using core_trans|]. split; congruence.
  - destruct C8 as (R8' & _). destruct C7 as (R7 & _). destruct H6 as (R6 & _).
    destruct C25 as (R5 & _). lia.
Qed.

End Step.

Lemma descent_terminates (fuel : nat) : descent_spec fuel.
Proof.
  induction fuel as [|fuel IH].
  - unfold descent_spec, MODIFIER_spec, INLINE_ENTITY_spec, PARAGRAPH_loop_spec,
      MODIFIER_inline_loop_spec, PARAGRAPH_spec, MAYBE_GROUPED_PARAGRAPH_spec,
      BLOCK_ENTITY_spec, GROUP_loop_spec, bound, reparse_fuel.
    repeat split; intros; lia.
  - unfold descent_spec.
    auto 10 using MODIFIER_step, INLINE_ENTITY_step, PARAGRAPH_loop_step,
      MODIFIER_inline_loop_step, PARAGRAPH_step, MAYBE_GROUPED_PARAGRAPH_step,
      BLOCK_ENTITY_step, GROUP_loop_step.
Qed.

Lemma DOCUMENT_loop_terminates (fuel : nat) :
  forall st,
    ready L st -> bshape st <> [] -> (bound 7 st <= fuel)%nat ->
    wp (DOCUMENT_loop fuel) st (fun _ st' => advances st st').
Proof.
  induction fuel as [|fuel IH]; intros st Hr Hb Hf;
    [unfold bound, reparse_fuel in Hf; lia|].
  cbn [DOCUMENT_loop].
  apply wp_bind, wp_s_isEOF.
  destruct (isEOF (scanner st)) eqn:Heof.
  { apply wp_ret, advances_refl. }
  apply wp_bind.
  eapply wp_conseq.
  { destruct (descent_terminates fuel) as (_ & _ & _ & _ & _ & _ & IHB & _).
    apply IHB; try assumption. unfold bound in *. lia. }
  intros ? st1 [H1 Hr1]. cbv beta.
  apply wp_bind.
  eapply wp_conseq; [apply WHITESPACES_OR_NEWLINES_scans|].
  intros ? st2 H2. cbv beta in H2.
  assert (H02 : advances st st2) by eauto using advances_trans, scans_advances.
  eapply wp_conseq.
  { apply IH; eauto using ready_advances, advances_bshape.
    apply scans_remaining in H2. unfold bound in *. lia. }
  intros ? st3 H3. cbv beta in H3. eauto using advances_trans.
Qed.

Lemma DOCUMENT_terminates (fuel : nat) (st : PState) :
  ready L st -> bshape st <> [] -> (bound 7 st <= fuel)%nat ->
  wp (DOCUMENT fuel) st (fun _ st' => advances st st').
Proof.
  intros Hr Hb Hf. unfold DOCUMENT.
  apply wp_bind.
  eapply wp_conseq; [apply WHITESPACES_OR_NEWLINES_scans|].
  intros ? st1 H1. cbv beta in H1.
  eapply wp_conseq.
  { apply DOCUMENT_loop_terminates;
      eauto using ready_advances, advances_bshape, scans_advances.
    apply scans_remaining in H1. unfold bound in *. lia. }
  intros ? st2 H2. cbv beta in H2.
  eauto using advances_trans, scans_advances.
Qed.

End Descent.

End ExpansionProperties.

(** *** The reparse limit *)

Lemma reparse_beyond_limit (fuel : nat) (nodes : list Node) (depth : Z) (st : PState) :
  limit st < depth ->
  reparse (S fuel) nodes depth st = Done (false, nodes) st.
Proof.
  intros H. simpl. unfold bind, get.
  replace (depth >? limit st) with true; [reflexivity|].
  symmetry. apply Z.gtb_lt. exact H.
Qed.

Lemma reparse_unfold (fuel : nat) (nodes : list Node) (depth : Z) :
  reparse (S fuel) nodes depth
  = (st <- get ;;
     if depth >? limit st then ret (false, nodes)
     else
       (fix loop (nodes : list Node) (ok : bool) (done : list Node) {struct nodes}
          : M (bool * list Node) :=
          match nodes with
          | [] => ret (ok, rev done)
          | node :: nodes' =>
              match node with
              | PreNode _ _ _ _ _ | TextNode _ _ _ | EscapedNode _ _ _ =>
                  loop nodes' ok (node :: done)
              | ParagraphNode s e content =>
                  '(ok', content') <- reparse fuel content (depth + 1) ;;
                  loop nodes' (ok' && ok)%bool (ParagraphNode s e content' :: done)
              | ModifierNode m =>
                  '(ok', m') <- expand_with (reparse fuel) m (depth + 1) ;;
                  loop nodes' (ok' && ok)%bool (ModifierNode m' :: done)
              end
          end) nodes true []).
Proof. reflexivity. Qed.

Arguments reparse : simpl never.








(** *** Termination *)

Lemma well_behaved_refl c : well_behaved c c.
Proof. split; [reflexivity | auto]. Qed.

Lemma well_behaved_trans a b c :
  well_behaved a b -> well_behaved b c -> well_behaved a c.
Proof.
  unfold well_behaved, keeps_limit. intros [A1 A2] [B1 B2].
  split; [congruence | auto].
Qed.

Lemma well_behaved_limit c c' :
  well_behaved c c' -> reparseDepthLimit (config c') = reparseDepthLimit (config c).
Proof. intros [H _]. exact H. Qed.

Lemma well_behaved_delay c c' d :
  well_behaved c c' -> well_behaved (shift_delay d c) (shift_delay d c').
Proof. exact (fun H => H). Qed.

Lemma well_behaved_names c c' :
  well_behaved c c' -> names_ok (config c) -> names_ok (config c').
Proof. intros [_ H]. exact H. Qed.

Lemma any_message_refer m p l : any_message m -> any_message (ReferredMessage m p l).
Proof. exact (fun H => H). Qed.

Lemma keeps_delay_refl c : keeps_delay c c.
Proof. split; [apply well_behaved_refl | reflexivity]. Qed.

Lemma keeps_delay_trans a b c : keeps_delay a b -> keeps_delay b c -> keeps_delay a c.
Proof.
  unfold keeps_delay. intros [A1 A2] [B1 B2].
  split; [eauto using well_behaved_trans | congruence].
Qed.

Lemma keeps_delay_limit c c' :
  keeps_delay c c' -> reparseDepthLimit (config c') = reparseDepthLimit (config c).
Proof. intros [H _]. apply well_behaved_limit. exact H. Qed.

Lemma keeps_delay_delay c c' d :
  keeps_delay c c' -> keeps_delay (shift_delay d c) (shift_delay d c').
Proof.
  unfold keeps_delay. intros [A1 A2]. split; [exact A1|]. simpl. lia.
Qed.

Lemma keeps_delay_names c c' :
  keeps_delay c c' -> names_ok (config c) -> names_ok (config c').
Proof. intros [H _]. apply well_behaved_names. exact H. Qed.

(** A run of [parse] under hooks that respect [K] returns a document, and
    its context is related to the initial one by [K]. *)
Lemma parse_returns
  (K : ParseContext -> ParseContext -> Prop) (Q : Message -> Prop) :
  (forall c, K c c) -> (forall a b c, K a b -> K b c -> K a c) ->
  (forall c c', K c c' -> reparseDepthLimit (config c') = reparseDepthLimit (config c)) ->
  (forall c c' d, K c c' -> K (shift_delay d c) (shift_delay d c')) ->
  (forall m p l, Q m -> Q (ReferredMessage m p l)) ->
  (forall d, definition_sound K Q (definition_of d)) ->
  (forall c c', K c c' -> names_ok (config c) -> names_ok (config c')) ->
  forall src c store0,
    names_ok c ->
    exists doc,
      parse (parse_fuel src c) src c store0 = Returns doc
      /\ K (mkContext c 0 store0) (doc_context doc).
Proof.
  intros K1 K2 K3 K4 Q1 Hs K5 src c store0 Hn.
  pose proof (DOCUMENT_terminates K Q K1 K2 K3 K4 Q1 Hs K5 (reparseDepthLimit c)
                (parse_fuel src c) (initial_state src c store0)) as H.
  unfold parse.
  apply wp_done in H.
  - destruct H as (u & st' & -> & H).
    destruct H as (_ & Hb & _ & _ & HK & _). simpl in Hb, HK.
    unfold emit_root.
    destruct (blockStack st') as [|[r|m] [|b bs]]; simpl in Hb; try discriminate.
    simpl. eexists. split; [reflexivity|]. exact HK.
  - unfold ready, in_sync, limit. simpl. auto.
  - unfold bshape. simpl. discriminate.
  - unfold bound, parse_fuel, remaining. simpl. lia.
Qed.

(** C2 (as amended).  Under a configuration in which every argument
    interpolator has a name of at least one character, and whose hooks
    neither change [reparseDepthLimit] nor register an interpolator without
    a name, [parse] returns a document for every input.  Every call of
    [#expand] returns within [reparseDepthLimit + 2 - depth] nested calls
    of [#reparse], and a [#reparse] beyond the limit expands nothing. *)
Theorem parse_terminates :
  (forall d, definition_sound well_behaved any_message (definition_of d)) ->
  forall (src : string) (c : Configuration) (store0 : Store),
    names_ok c ->
    (exists doc,
        parse (parse_fuel src c) src c store0 = Returns doc
        /\ reparseDepthLimit (config (doc_context doc)) = reparseDepthLimit c)
    /\ (forall node depth st,
          0 <= depth ->
          exists r st',
            expand_node (reparse_fuel (limit st) depth) node depth st = Done r st')
    /\ (forall fuel nodes depth st,
          limit st < depth ->
          reparse (S fuel) nodes depth st = Done (false, nodes) st).
Proof.
  intros Hs src c store0 Hn. split; [|split].
  - destruct (parse_returns well_behaved any_message well_behaved_refl
                well_behaved_trans well_behaved_limit well_behaved_delay
                any_message_refer Hs well_behaved_names src c store0 Hn)
      as (doc & E & [HK _]).
    exists doc. split; [exact E | exact HK].
  - intros node depth st Hd.
    pose proof (expand_node_steps well_behaved any_message well_behaved_refl
                  well_behaved_trans well_behaved_limit well_behaved_delay
                  any_message_refer Hs depth _ node st Hd (le_n _)) as H.
    apply wp_done in H. destruct H as (r & st' & E & _). eauto.
  - intros fuel nodes depth st Hd. apply reparse_beyond_limit. exact Hd.
Qed.

(** *** Delayed expansion *)

Lemma expand_skipped (fuel : nat) (node : Modifier) (depth : Z) (st : PState) :
  m_expansion node = None ->
  0 < delayDepth (cxt st) ->
  alwaysTryExpand (def_of node) = false ->
  expand_node fuel node depth st = Done (true, node) st.
Proof.
  intros He Hd Ha. unfold expand_node, expand_with, bind, get.
  rewrite He, Ha.
  replace (delayDepth (cxt st) >? 0) with true
    by (symmetry; apply Z.gtb_lt; exact Hd).
  reflexivity.
Qed.

Lemma expand_content_delayed
  (rp : list Node -> Z -> M (bool * list Node))
  (node : Modifier) (depth : Z) (st : PState) :
  m_content node <> [] -> 0 < depth ->
  beforeParseContent (def_of node) = None ->
  delayContentExpansion (def_of node) = true ->
  expand_content rp node depth st
  = match rp (m_content node) depth (set_cxt st (shift_delay 1 (cxt st))) with
    | Done (_, content) st' =>
        call_hook (afterParseContent (def_of node)) (set_content node content)
                  (set_cxt st' (shift_delay (-1) (cxt st')))
    | Thrown => Thrown
    | OutOfFuel => OutOfFuel
    end.
Proof.
  intros Hc Hd Hb Hdel. unfold expand_content.
  replace (0 <? Z.of_nat (List.length (m_content node))) with true
    by (symmetry; apply Z.ltb_lt; destruct (m_content node); [congruence | simpl; lia]).
  replace (depth >? 0) with true by (symmetry; apply Z.gtb_lt; exact Hd).
  simpl. rewrite Hb. unfold bind. simpl. rewrite Hdel. simpl.
  unfold add_delayDepth, modify, shift_delay.
  destruct (rp (m_content node) depth
              (set_cxt st (set_delayDepth (cxt st) (delayDepth (cxt st) + 1))))
    as [[ok content] st'| |]; try reflexivity.
  change (def_of (set_content node content)) with (def_of node).
  rewrite Hdel. reflexivity.
Qed.

(** *** Escapes *)




(** *** Referred messages *)

(** [m] was wrapped for the ranges of [S], the first of them outermost,
    and for the ranges of frames inside them. *)
Definition under (S : list PositionRange) (m : Message) : Prop :=
  exists m0 inner, m = refer m0 (S ++ inner).

(** The referring stack of [st] begins with [S]. *)
Definition within (S : list PositionRange) (st : PState) : Prop :=
  exists inner, referringStack st = S ++ inner.

(** A run from [st] to [st'] leaves the referring stack as it was, and
    every message it has stored is wrapped for [S]. *)
Definition framed (S : list PositionRange) (st st' : PState) : Prop :=
  referringStack st' = referringStack st
  /\ exists new, messages st' = messages st ++ new /\ Forall (under S) new.

(** What holds of the result of [m] when it returns. *)
Definition returning {A} (m : M A) (st : PState) (Post : A -> PState -> Prop) : Prop :=
  forall a st', m st = Done a st' -> Post a st'.

Lemma returning_ret {A} (a : A) st (Post : A -> PState -> Prop) :
  Post a st -> returning (ret a) st Post.
Proof. intros H a' st' [= <- <-]. exact H. Qed.

Lemma returning_bind {A B} (m : M A) (k : A -> M B) st (Post : B -> PState -> Prop) :
  returning m st (fun a st1 => returning (k a) st1 Post) ->
  returning (bind m k) st Post.
Proof.
  unfold returning, bind. intros H b st' E.
  destruct (m st) as [a st1| |] eqn:Em; try discriminate.
  exact (H a st1 eq_refl b st' E).
Qed.

Lemma returning_conseq {A} (m : M A) st (P P' : A -> PState -> Prop) :
  returning m st P -> (forall a st', P a st' -> P' a st') -> returning m st P'.
Proof. unfold returning. eauto. Qed.

Lemma framed_refl S st : framed S st st.
Proof. split; [reflexivity|]. exists []. rewrite app_nil_r. auto. Qed.

Lemma framed_trans S st1 st2 st3 :
  framed S st1 st2 -> framed S st2 st3 -> framed S st1 st3.
Proof.
  intros (H1 & n1 & M1 & F1) (H2 & n2 & M2 & F2).
  split; [congruence|].
  exists (n1 ++ n2). rewrite M2, M1, app_assoc. split; [reflexivity|].
  apply Forall_app. auto.
Qed.

Lemma framed_within S st st' : within S st -> framed S st st' -> within S st'.
Proof. intros (inner & H) (H1 & _). exists inner. congruence. Qed.

(** What leaves the messages and the referring stack alone. *)
Lemma framed_same S st st' :
  referringStack st' = referringStack st -> messages st' = messages st ->
  framed S st st'.
Proof.
  intros H1 H2. split; [exact H1|]. exists []. rewrite app_nil_r. auto.
Qed.

Lemma under_weaken S inner m : under (S ++ inner) m -> under S m.
Proof.
  intros (m0 & inner' & ->). exists m0, (inner ++ inner').
  rewrite app_assoc. reflexivity.
Qed.

Lemma message_framed S msgs st :
  within S st -> returning (message msgs) st (fun _ st' => framed S st st').
Proof.
  intros (inner & Hs) [] st' [= <-]. split; [reflexivity|].
  eexists. split; [reflexivity|].
  apply Forall_forall. intros m Hm. apply in_map_iff in Hm.
  destruct Hm as (m0 & <- & _). exists m0, inner. rewrite Hs. reflexivity.
Qed.

Lemma call_hook_framed S (h : option Hook) node st :
  within S st -> returning (call_hook h node) st (fun _ st' => framed S st st').
Proof.
  intros Hw. destruct h as [f|]; [|apply returning_ret, framed_refl].
  unfold call_hook.
  apply returning_bind. intros st0 st1 [= <- <-].
  destruct (f node (cxt st)) as [[msgs node'] cxt'].
  apply returning_bind. intros [] st2 [= <-].
  apply returning_bind. intros [] st3 [= <-].
  apply returning_bind.
  eapply returning_conseq.
  { apply (message_framed S). destruct Hw as (inner & Hs). exists inner. exact Hs. }
  intros [] st4 H4. apply returning_ret.
  eapply framed_trans; [|exact H4].
  apply framed_same; reflexivity.
Qed.

Lemma add_delayDepth_framed S d st :
  returning (add_delayDepth d) st (fun _ st' => framed S st st').
Proof. intros [] st' [= <-]. apply framed_same; reflexivity. Qed.

Lemma when_framed S (b : bool) (m : M unit) st :
  returning m st (fun _ st' => framed S st st') ->
  returning (when b m) st (fun _ st' => framed S st st').
Proof.
  intros H. destruct b; [exact H|]. apply returning_ret, framed_refl.
Qed.

Lemma expand_with_framed
  (rp : list Node -> Z -> M (bool * list Node)) :
  (forall nodes depth S st,
      within S st -> returning (rp nodes depth) st (fun _ st' => framed S st st')) ->
  forall node depth S st,
    within S st ->
    returning (expand_with rp node depth) st (fun _ st' => framed S st st').
Proof.
  intros Hrp node depth S st Hw.
  unfold expand_with.
  apply returning_bind. intros st0 st1 [= <- <-].
  destruct (m_expansion node) as [e|] eqn:Ee.
  { apply returning_ret, framed_refl. }
  destruct ((delayDepth (cxt st) >? 0) && negb (alwaysTryExpand (def_of node)))%bool.
  { apply returning_ret, framed_refl. }
  apply returning_bind.
  apply returning_conseq with (P := fun _ st' => framed S st st').
  { unfold expand_content.
    destruct ((0 <? Z.of_nat (List.length (m_content node))) && (depth >? 0))%bool;
      [|apply returning_ret, framed_refl].
    apply returning_bind.
    eapply returning_conseq; [apply (call_hook_framed S); exact Hw|].
    intros node1 st1 H1. cbv beta in *.
    apply returning_bind.
    eapply returning_conseq; [apply when_framed, (add_delayDepth_framed S)|].
    intros [] st2 H2. cbv beta in *.
    assert (H02 : framed S st st2) by eauto using framed_trans.
    apply returning_bind.
    eapply returning_conseq;
      [apply (Hrp _ _ S); eapply framed_within; [exact Hw | exact H02]|].
    intros [ok1 content1] st3 H3. cbv beta iota in *.
    assert (H03 : framed S st st3) by eauto using framed_trans.
    apply returning_bind.
    eapply returning_conseq; [apply when_framed, (add_delayDepth_framed S)|].
    intros [] st4 H4. cbv beta in *.
    assert (H04 : framed S st st4) by eauto using framed_trans.
    eapply returning_conseq;
      [apply (call_hook_framed S); eapply framed_within; [exact Hw | exact H04]|].
    intros node5 st5 H5. cbv beta. eauto using framed_trans. }
  intros node1 st1 H1. cbv beta in *.
  apply returning_bind.
  eapply returning_conseq;
    [apply (call_hook_framed S); eapply framed_within; [exact Hw | exact H1]|].
  intros node2 st2 H2. cbv beta in *.
  assert (H02 : framed S st st2) by eauto using framed_trans.
  clear H1 H2.
  apply returning_bind.
  apply returning_conseq with (P := fun _ st3 => framed S st st3).
  { destruct (expand (def_of node2)) as [f|].
    - apply returning_bind. intros st0 st2' [= <- <-].
      destruct (f node2 (cxt st2)) as [[e node'] cxt'].
      apply returning_bind. intros [] st3 [= <-].
      apply returning_bind. intros [] st4 [= <-].
      apply returning_ret.
      eapply framed_trans; [exact H02|]. apply framed_same; reflexivity.
    - apply returning_ret. exact H02. }
  intros [node3 stop] st3 H3. cbv beta iota in *.
  destruct stop; [apply returning_ret; exact H3|].
  destruct (Z.of_nat (List.length
              match m_expansion node3 with
              | Some e => e
              | None => m_content node3
              end) =? 0).
  { apply returning_ret. exact H3. }
  apply returning_bind.
  eapply returning_conseq;
    [apply (call_hook_framed S); eapply framed_within; [exact Hw | exact H3]|].
  intros node4 st4 H4. cbv beta in *.
  assert (H04 : framed S st st4) by eauto using framed_trans.
  clear H3 H4 H02.
  pose proof (framed_within _ _ _ Hw H04) as (inner & Hs4).
  apply returning_bind. intros [] st5 [= <-].
  set (frame := Build_PositionRange (m_start node4) (m_end node4)).
  set (st5 := set_referringStack st4 (referringStack st4 ++ [frame])).
  apply returning_bind.
  eapply returning_conseq.
  { apply (Hrp _ _ (referringStack st4 ++ [frame])). exists []. 
    unfold st5. simpl. rewrite app_nil_r. reflexivity. }
  intros [ok expansion'] st6 (Hr6 & new6 & Hm6 & Hf6). cbv beta iota in *.
  apply returning_bind. unfold popReferring.
  apply returning_bind. intros st0 st6' [= <- <-].
  apply returning_bind. intros [] st7 E7.
  assert (st7 = st6).
  { unfold assert in E7. destruct (0 <? _); [|discriminate].
    injection E7 as <-. reflexivity. }
  subst st7. intros [] st8 [= <-].
  set (st8 := set_referringStack st6 (removelast (referringStack st6))).
  assert (H08 : framed S st st8).
  { eapply framed_trans; [exact H04|].
    split.
    - unfold st8. simpl. rewrite Hr6. unfold st5. simpl.
      apply removelast_last.
    - exists new6. split; [exact Hm6|].
      eapply Forall_impl; [|exact Hf6].
      intros m Hm. rewrite Hs4, <- app_assoc in Hm.
      eapply under_weaken. exact Hm. }
  apply returning_bind.
  eapply returning_conseq;
    [apply (call_hook_framed S); eapply framed_within; [exact Hw | exact H08]|].
  intros node9 st9 H9. cbv beta in *.
  assert (H09 : framed S st st9) by eauto using framed_trans.
  apply returning_bind.
  eapply returning_conseq.
  { apply when_framed.
    apply returning_bind. intros st0 st9' [= <- <-].
    apply (message_framed S). eapply framed_within; [exact Hw | exact H09]. }
  intros [] st10 H10. apply returning_ret. eauto using framed_trans.
Qed.

Lemma reparse_framed (fuel : nat) :
  forall nodes depth S st,
    within S st ->
    returning (reparse fuel nodes depth) st (fun _ st' => framed S st st').
Proof.
  induction fuel as [|fuel IH]; intros nodes depth S st Hw.
  - intros a st' E. discriminate.
  - rewrite reparse_unfold.
    apply returning_bind. intros st0 st1 [= <- <-].
    destruct (depth >? limit st); [apply returning_ret, framed_refl|].
    match goal with
    | |- returning (?loop nodes true []) st _ =>
        assert (Hloop : forall nodes done ok st1, framed S st st1 ->
                  returning (loop nodes ok done) st1 (fun _ st' => framed S st st'));
        [clear nodes | apply Hloop, framed_refl]
    end.
    induction nodes as [|n nodes IHn]; intros done ok st1 H1.
    { apply returning_ret. exact H1. }
    destruct n as [s e content| | | |m]; try (apply IHn; exact H1).
    + apply returning_bind.
      eapply returning_conseq;
        [apply (IH _ _ S); eapply framed_within; [exact Hw | exact H1]|].
      intros [ok' content'] st2 H2. cbv beta iota in *.
      apply IHn. eauto using framed_trans.
    + apply returning_bind.
      eapply returning_conseq;
        [apply (expand_with_framed _ IH _ _ S);
         eapply framed_within; [exact Hw | exact H1]|].
      intros [ok' m'] st2 H2. cbv beta iota in *.
      apply IHn. eauto using framed_trans.
Qed.

(** A node [parent] whose [expand] returns one modifier node [child], and whose
    other hooks of the expansion are not there; [prepareExpand] of [child]
    returns [msgs], and [child] has no [expand].  The messages are stored
    with the frame of [parent] on the stack. *)
Lemma expansion_referred (fuel : nat) (parent child : Modifier) (depth : Z) (st : PState)
  (f : ExpandHook) (h : Hook) (msgs : list Message) (c1 c2 : ParseContext) :
  m_expansion parent = None -> m_content parent = [] ->
  prepareExpand (def_of parent) = None ->
  beforeProcessExpansion (def_of parent) = None ->
  afterProcessExpansion (def_of parent) = None ->
  expand (def_of parent) = Some f ->
  f parent (cxt st) = (Some [ModifierNode child], parent, c1) ->
  ((delayDepth (cxt st) >? 0) && negb (alwaysTryExpand (def_of parent)))%bool = false ->
  m_expansion child = None -> m_content child = [] ->
  prepareExpand (def_of child) = Some h ->
  expand (def_of child) = None ->
  h child c1 = (msgs, child, c2) ->
  ((delayDepth c1 >? 0) && negb (alwaysTryExpand (def_of child)))%bool = false ->
  depth <= reparseDepthLimit (config c1) ->
  expand_node (S fuel) parent depth st
  = Done (true, set_expansion parent (Some [ModifierNode child]))
      (mkState (scanner st)
         (messages st
          ++ map (fun m => refer m (referringStack st
                                    ++ [Build_PositionRange (m_start parent) (m_end parent)]))
                 msgs)
         (blockStack st) (inlineStack st) (referringStack st) c2 (groupDepth st)
         (sorted_prefixes (config c2))).
Proof.
  intros HeN HcN HpN HbN HaN HxN Hf HdN HeM HcM HpM HxM Hh HdM Hlimit.
  destruct st as [sc ms bs ins rf cx gd pf].
  cbn [cxt scanner messages blockStack inlineStack referringStack groupDepth] in *.
  unfold expand_node, expand_with.
  erewrite bind_done by reflexivity. cbv beta.
  rewrite HeN. cbn [cxt]. rewrite HdN.
  unfold expand_content. rewrite HcN.
  change ((0 <? Z.of_nat (List.length (@nil Node))) && (depth >? 0))%bool with false.
  cbv iota.
  erewrite bind_done by reflexivity. cbv beta.
  rewrite HpN.
  erewrite bind_done by reflexivity. cbv beta.
  rewrite HxN.
  erewrite bind_done
    by (erewrite bind_done by reflexivity; cbv beta; cbn [cxt]; rewrite Hf;
        reflexivity).
  cbv beta iota.
  change (def_of (set_expansion parent (Some [ModifierNode child]))) with (def_of parent).
  cbn [m_expansion set_expansion List.length].
  change (Z.of_nat 1 =? 0) with false. cbv iota.
  rewrite HbN.
  erewrite bind_done by reflexivity. cbv beta.
  erewrite bind_done by reflexivity. cbv beta.
  erewrite bind_done.
  2: { rewrite reparse_unfold.
       unfold pushReferring, modify, sortModifiers, bind, ret, get, limit.
       cbv [set_cxt set_prefixes set_referringStack set_messages cxt config scanner
            messages blockStack inlineStack referringStack groupDepth prefixes].
       replace (depth >? reparseDepthLimit (let (config, _, _) := c1 in config))
         with false
         by (symmetry; rewrite Z.gtb_ltb; apply Z.ltb_ge; exact Hlimit).
       unfold expand_with at 1.
       unfold bind at 1, get at 1. rewrite HeM.
       cbv [set_cxt set_prefixes set_referringStack set_messages cxt scanner
            messages blockStack inlineStack referringStack groupDepth prefixes].
       rewrite HdM.
       unfold expand_content. rewrite HcM.
       change ((0 <? Z.of_nat (List.length (@nil Node))) && (depth + 1 >? 0))%bool
         with false.
       cbv iota. unfold bind at 1, ret at 1.
       rewrite HpM. unfold call_hook, bind, get.
       cbv [set_cxt set_prefixes set_referringStack set_messages cxt scanner
            messages blockStack inlineStack referringStack groupDepth prefixes].
       rewrite Hh.
       unfold modify, sortModifiers, message, modify, ret.
       cbv [set_cxt set_prefixes set_referringStack set_messages cxt scanner
            messages blockStack inlineStack referringStack groupDepth prefixes].
       rewrite HxM, HeM, HcM.
       change (Z.of_nat (List.length (@nil Node)) =? 0) with true. cbv iota.
       cbn [andb rev app]. reflexivity. }
  cbv beta iota.
  cbn [m_expansion set_expansion].
  unfold popReferring, bind, get, assert, modify, ret.
  cbv [set_cxt set_prefixes set_referringStack set_messages cxt scanner
       messages blockStack inlineStack referringStack groupDepth prefixes].
  rewrite length_app. cbn [List.length].
  replace (0 <? Z.of_nat (List.length rf + 1)) with true
    by (symmetry; apply Z.ltb_lt; lia).
  rewrite removelast_last.
  change (def_of (set_expansion (set_expansion parent (Some [ModifierNode child]))
                     (Some [ModifierNode child]))) with (def_of parent).
  rewrite HaN. unfold call_hook, ret, when. cbn [negb andb].
  unfold set_expansion. cbn [m_type m_mod m_head m_arguments m_start m_end m_state
                               m_content m_expansion].
  reflexivity.
Qed.

(** C9.  Every message that is stored while [#reparse] or [#expand] runs
    is wrapped in one [ReferredMessage] layer for every range that is on
    the referring stack when the run begins, the outermost layer for the
    outermost range, each with the start and the length of its range, and
    inside them in one layer for every frame that the run itself has
    opened; the run leaves the stack as it found it.  The frame that
    [#expand] opens around the reparse of an expansion is the range of
    the expanded node: when the expansion of a node [parent] holds a modifier
    whose [prepareExpand] returns messages, they are stored wrapped for
    the stack at the call and, innermost, for the range of [parent].  A hook
    that is called with an empty stack, as the parser starts with, has
    its messages stored as they are. *)
Theorem message_referral_chain :
  (forall fuel nodes depth st r st',
      reparse fuel nodes depth st = Done r st' ->
      referringStack st' = referringStack st
      /\ exists new,
           messages st' = messages st ++ new
           /\ Forall (fun m => exists m0 inner,
                          m = refer m0 (referringStack st ++ inner)
                          /\ referrals m
                             = map range_of (referringStack st)
                               ++ map range_of inner ++ referrals m0) new)
  /\ (forall fuel node depth st r st',
        expand_node fuel node depth st = Done r st' ->
        referringStack st' = referringStack st
        /\ exists new,
             messages st' = messages st ++ new
             /\ Forall (fun m => exists m0 inner,
                            m = refer m0 (referringStack st ++ inner)
                            /\ referrals m
                               = map range_of (referringStack st)
                                 ++ map range_of inner ++ referrals m0) new)
  /\ (forall fuel parent child depth st f h msgs c1 c2,
        m_expansion parent = None -> m_content parent = [] ->
        prepareExpand (def_of parent) = None ->
        beforeProcessExpansion (def_of parent) = None ->
        afterProcessExpansion (def_of parent) = None ->
        expand (def_of parent) = Some f ->
        f parent (cxt st) = (Some [ModifierNode child], parent, c1) ->
        ((delayDepth (cxt st) >? 0) && negb (alwaysTryExpand (def_of parent)))%bool = false ->
        m_expansion child = None -> m_content child = [] ->
        prepareExpand (def_of child) = Some h ->
        expand (def_of child) = None ->
        h child c1 = (msgs, child, c2) ->
        ((delayDepth c1 >? 0) && negb (alwaysTryExpand (def_of child)))%bool = false ->
        depth <= reparseDepthLimit (config c1) ->
        expand_node (S fuel) parent depth st
        = Done (true, set_expansion parent (Some [ModifierNode child]))
            (mkState (scanner st)
               (messages st
                ++ map (fun m => refer m (referringStack st
                                          ++ [Build_PositionRange (m_start parent) (m_end parent)]))
                       msgs)
               (blockStack st) (inlineStack st) (referringStack st) c2
               (groupDepth st) (sorted_prefixes (config c2))))
  /\ (forall (h : Hook) node st msgs node' c',
        h node (cxt st) = (msgs, node', c') ->
        exists st',
          call_hook (Some h) node st = Done node' st'
          /\ referringStack st' = referringStack st
          /\ messages st'
             = messages st ++ map (fun m => refer m (referringStack st)) msgs
          /\ (referringStack st = [] -> messages st' = messages st ++ msgs))
  /\ (forall msg stack,
        referrals (refer msg stack) = map range_of stack ++ referrals msg
        /\ issued (refer msg stack) = issued msg)
  /\ (forall src c store0, referringStack (initial_state src c store0) = []).
Proof.
  assert (Hunder : forall S new,
            Forall (under S) new ->
            Forall (fun m => exists m0 inner,
                        m = refer m0 (S ++ inner)
                        /\ referrals m
                           = map range_of S ++ map range_of inner ++ referrals m0)
                   new).
  { intros S new H. eapply Forall_impl; [|exact H].
    intros m (m0 & inner & ->). exists m0, inner. split; [reflexivity|].
    rewrite referrals_refer, map_app, <- app_assoc. reflexivity. }
  split; [|split; [|split; [|split; [|split]]]].
  - intros fuel nodes depth st r st' E.
    assert (Hw : within (referringStack st) st).
    { exists []. rewrite app_nil_r. reflexivity. }
    destruct (reparse_framed fuel nodes depth (referringStack st) st Hw r st' E)
      as (Hr & new & Hm & Hf).
    split; [exact Hr|]. exists new. split; [exact Hm|]. apply Hunder. exact Hf.
  - intros fuel node depth st r st' E. unfold expand_node in E.
    assert (Hw : within (referringStack st) st).
    { exists []. rewrite app_nil_r. reflexivity. }
    destruct (expand_with_framed (reparse fuel) (reparse_framed fuel) node depth
                (referringStack st) st Hw r st' E)
      as (Hr & new & Hm & Hf).
    split; [exact Hr|]. exists new. split; [exact Hm|]. apply Hunder. exact Hf.
  - intros. eapply expansion_referred; eassumption.
  - intros h node st msgs node' c' Hh.
    unfold call_hook, bind, get. rewrite Hh.
    eexists. split; [reflexivity|]. split; [reflexivity|].
    split; [reflexivity|].
    intros Hs. cbn [messages set_messages]. 
    unfold modify, sortModifiers, modify. 
    cbn [messages set_messages set_prefixes set_cxt referringStack].
    rewrite Hs. f_equal.
    clear. induction msgs as [|m msgs IH]; [reflexivity|].
    cbn [map]. rewrite IH. reflexivity.
  - intros msg stack. split; [apply referrals_refer | apply issued_refer].
  - reflexivity.
Qed.

(** *** Unknown modifiers *)

Lemma find_accept_none {D : Type} (l : list (string * D)) (sc : Scanner) :
  Forall (fun e => peek (fst e) sc = false) l ->
  find_accept l sc = (None, sc).
Proof.
  induction 1 as [|x l Hx _ IH]; simpl; [reflexivity|].
  rewrite <- accept_peek in Hx.
  destruct (accept (fst x) sc) as [[|] sc']; simpl in Hx; [discriminate | exact IH].
Qed.

Lemma acceptUntil_from_stops (s : string) (pos : Z) (r acc : string) :
  match acceptUntil_from s pos r acc with
  | (Some _, sc) => strip_prefix s (rest sc) <> None /\ rest sc <> EmptyString
  | (None, sc) => rest sc = EmptyString
  end.
Proof.
  revert pos acc. induction r as [|c r IH]; intros pos acc; simpl; [reflexivity|].
  destruct (strip_prefix s (String c r)) eqn:E; simpl.
  - rewrite E. split; discriminate.
  - apply IH.
Qed.

Lemma strip_prefix_app (p s r : string) :
  strip_prefix p s = Some r -> s = (p ++ r)%string.
Proof.
  revert s. induction p as [|a p IH]; intros s; simpl.
  - intros [= ->]. reflexivity.
  - destruct s as [|b s]; [discriminate|].
    destruct (Ascii.eqb a b) eqn:E; [|discriminate].
    apply Ascii.eqb_eq in E. subst. intros H. rewrite (IH _ H). reflexivity.
Qed.

Lemma peek_open (s : string) (sc : Scanner) :
  peek s sc = true -> exists r, rest sc = (s ++ r)%string.
Proof.
  unfold peek. destruct (strip_prefix s (rest sc)) as [r|] eqn:E; [|discriminate].
  intros _. exists r. apply strip_prefix_app. exact E.
Qed.

Lemma strip_prefix_self (p r : string) : strip_prefix p (p ++ r) = Some r.
Proof.
  induction p as [|a p IH]; simpl; [reflexivity|].
  rewrite Ascii.eqb_refl. exact IH.
Qed.

(** [ARGUMENTS] in front of the closing bracket or at the end of the
    input: no argument, nothing consumed. *)
Lemma ARGUMENTS_none (fuel : nat) (st : PState) :
  (rest (scanner st) = EmptyString
   \/ exists r, rest (scanner st) = (MODIFIER_CLOSE_SIGN ++ r)%string) ->
  ARGUMENTS (S (S fuel)) st = Done [] st.
Proof.
  destruct st as [[p rs] ms bs ins rf cx gd pf]. simpl.
  intros [->|[r ->]]; reflexivity.
Qed.

(** The head of a modifier whose name matches no registered definition. *)
Lemma MODIFIER_head_unknown (fuel : nat) (type : ModType) (st : PState) :
  peek (modifier_open type) (scanner st) = true ->
  Forall (fun e => peek (fst e) (snd (accept (modifier_open type) (scanner st))) = false)
         (prefix_table type st) ->
  let p0 := position (scanner st) in
  let stored m := refer m (referringStack st) in
  exists node st',
    MODIFIER_head (S (S fuel)) type st = Done (node, false) st'
    /\ node = mkModifier type (UnknownModifier type)
                (Build_PositionRange p0 (position (scanner st'))) [] p0 (-1)
                None [] None
    /\ match acceptUntil MODIFIER_CLOSE_SIGN
               (snd (accept (modifier_open type) (scanner st))) with
       | (Some _, sc2) =>
           messages st'
           = messages st ++ [stored (UnknownModifierMessage p0 (position sc2 - p0))]
           /\ accept MODIFIER_CLOSE_SIGN sc2 = (true, scanner st')
       | (None, sc2) =>
           messages st'
           = messages st
             ++ [stored (ExpectedMessage (position sc2) MODIFIER_CLOSE_SIGN);
                 stored (UnknownModifierMessage p0 (position sc2 - p0));
                 stored (ExpectedMessage (position sc2) MODIFIER_CLOSE_SIGN)]
           /\ scanner st' = sc2 /\ isEOF sc2 = true
       end.
Proof.
  intros Hp Hnone p0 stored.
  destruct (peek_open _ _ Hp) as (r1 & Hr1).
  destruct st as [[p rs] ms bs ins rf cx gd pf]. simpl in Hr1. subst rs.
  unfold accept in *. simpl in Hnone |- *.
  rewrite strip_prefix_self in *. simpl in Hnone |- *.
  unfold MODIFIER_head.
  erewrite bind_done by reflexivity. cbv beta.
  erewrite bind_done
    by (unfold s_accept, accept; simpl; rewrite strip_prefix_self; reflexivity).
  cbv beta. erewrite bind_done by reflexivity. cbv beta.
  erewrite bind_done
    by (unfold find_modifier; simpl;
        change (match type with
                | block => p_block pf
                | system => p_system pf
                | inline => p_inline pf
                end)
          with (prefix_table type
                  (mkState (mkScanner p (modifier_open type ++ r1)) ms bs ins rf cx gd pf));
        rewrite (find_accept_none _ _ Hnone); reflexivity).
  cbv beta iota.
  set (sc1 := mkScanner (p + slen (modifier_open type)) r1) in *.
  pose proof (acceptUntil_from_stops MODIFIER_CLOSE_SIGN (position sc1) (rest sc1) "")
    as Hstop.
  fold (acceptUntil MODIFIER_CLOSE_SIGN sc1) in Hstop.
  destruct (acceptUntil MODIFIER_CLOSE_SIGN sc1) as [[a|] [p2 r2]] eqn:Eu;
    cbn [rest] in Hstop.
  - destruct Hstop as [Hs _].
    destruct (strip_prefix MODIFIER_CLOSE_SIGN r2) as [r3|] eqn:E3; [|congruence].
    apply strip_prefix_app in E3. subst r2.
    erewrite bind_done
      by (erewrite bind_done
            by (unfold s_acceptUntil; simpl scanner; rewrite Eu; reflexivity);
          cbv beta iota; reflexivity).
    cbv beta.
    erewrite bind_done by (apply ARGUMENTS_none; right; eexists; reflexivity).
    cbv beta. simpl.
    eexists _, _. split; [reflexivity|]. simpl.
    split; [reflexivity|]. split; reflexivity.
  - subst r2.
    erewrite bind_done
      by (erewrite bind_done
            by (unfold s_acceptUntil; simpl scanner; rewrite Eu; reflexivity);
          cbv beta iota; reflexivity).
    cbv beta.
    erewrite bind_done by (apply ARGUMENTS_none; left; reflexivity).
    cbv beta. simpl.
    eexists _, _. split; [reflexivity|]. simpl.
    split; [reflexivity|]. rewrite <- !app_assoc. simpl.
    split; [reflexivity|]. split; reflexivity.
Qed.

Lemma is_unknown_modifier_refer (msg : Message) (stack : list PositionRange) :
  is_unknown_modifier (refer msg stack) = is_unknown_modifier msg.
Proof. unfold is_unknown_modifier. rewrite issued_refer. reflexivity. Qed.

(** The head of a modifier whose name the lookup finds: the node is
    created for the definition found. *)
Lemma MODIFIER_head_registered (fuel : nat) (type : ModType) (st : PState)
  (x : string * DefId) (sc2 : Scanner) :
  Forall (fun e => fst e <> EmptyString) (p_interpolator (prefixes st)) ->
  peek (modifier_open type) (scanner st) = true ->
  find_accept (prefix_table type st)
              (snd (accept (modifier_open type) (scanner st))) = (Some x, sc2) ->
  (remaining st <= fuel)%nat ->
  wp (MODIFIER_head fuel type) st
     (fun r st' =>
        m_mod (fst r) = Registered (snd x)
        /\ m_type (fst r) = type
        /\ m_start (fst r) = position (scanner st)).
Proof.
  intros Hn Hp Hfind Hf. unfold MODIFIER_head.
  apply wp_bind, wp_s_position.
  apply wp_bind. unfold wp at 1, s_accept.
  pose proof (accept_peek (modifier_open type) (scanner st)) as Hb.
  destruct (accept (modifier_open type) (scanner st)) as [b sc1] eqn:Eacc.
  simpl in Hb, Hfind. rewrite Hp in Hb. subst b.
  destruct (accept_true _ _ _ Eacc) as [_ Hlen].
  rewrite modifier_open_length in Hlen.
  apply wp_bind, wp_assert; [reflexivity|].
  apply wp_bind. unfold wp at 1, find_modifier.
  change (match type with
          | block => p_block (prefixes (set_scanner st sc1))
          | system => p_system (prefixes (set_scanner st sc1))
          | inline => p_inline (prefixes (set_scanner st sc1))
          end) with (prefix_table type st).
  change (scanner (set_scanner st sc1)) with sc1.
  pose proof (find_accept_shorter (prefix_table type st) sc1) as Hsh.
  rewrite Hfind in Hsh |- *. simpl in Hsh.
  destruct x as [nm d].
  set (st2 := set_scanner (set_scanner st sc1) sc2).
  assert (H2 : scans st st2).
  { unfold scans, remaining, st2. simpl. repeat split; auto. lia. }
  apply wp_bind, wp_ret.
  apply wp_bind.
  eapply wp_conseq.
  { apply ARGUMENTS_scans.
    - exact Hn.
    - unfold remaining, st2. simpl. unfold remaining in Hf. lia. }
  intros args st4 H4. simpl in H4.
  apply wp_bind.
  apply wp_conseq with (Q := fun _ st' => scans st4 st').
  { apply wp_s_accept.
    - intros st' H _ _. exact H.
    - intros _. apply scans_refl. }
  intros endsign st5 H5. cbv beta in H5.
  apply wp_bind.
  apply wp_conseq with (Q := fun _ st' => scans st5 st').
  { apply wp_s_accept.
    - intros st' H _ _. exact H.
    - intros _. apply scans_refl. }
  intros closed st6 H6. cbv beta in H6.
  apply wp_bind.
  apply wp_conseq with (Q := fun _ st' => scans st6 st').
  { destruct closed; simpl.
    - apply wp_ret, scans_refl.
    - apply wp_bind, wp_s_position. apply wp_message.
      intros st' H _. exact H. }
  intros ? st7 H7. cbv beta in H7. cbv beta in H7.
  apply wp_bind, wp_s_position. apply wp_ret. simpl.
  repeat split; reflexivity.
Qed.

Lemma prefix_table_in_sync (type : ModType) (st : PState) :
  in_sync st ->
  prefix_table type st = sort_by_length (registry type (config (cxt st))).
Proof.
  unfold in_sync, prefix_table, registry. intros ->. destruct type; reflexivity.
Qed.

(** C4.  The parser holds prefix tables that are the registries of its
    configuration sorted by decreasing length of the name: when it
    starts, and again after every hook, the only place where the
    configuration can change.  In such a state, behind the opening sign
    of a modifier of any type: when two registered names [a] and [ab] of
    that type both match and [ab] is the longer, the lookup of [MODIFIER]
    accepts a registered, matching name of the greatest length, which is
    not [a], and is [ab] when no longer registered name matches; the
    scanner moves behind the accepted name, and the head of [MODIFIER]
    creates the node for that definition.  The lookup of an argument
    interpolator in [ARGUMENT_CONTENT] chooses among the registered
    interpolators in the same way. *)
Theorem longest_match_lookup :
  forall (type : ModType) (st : PState) (a ab : string * DefId),
    in_sync st ->
    peek (modifier_open type) (scanner st) = true ->
    let sc := snd (accept (modifier_open type) (scanner st)) in
    let reg := registry type (config (cxt st)) in
    In a reg -> In ab reg ->
    peek (fst a) sc = true -> peek (fst ab) sc = true ->
    slen (fst a) < slen (fst ab) ->
    exists x sc',
      find_modifier type (set_scanner st sc) = Done (Some x) (set_scanner st sc')
      /\ accept (fst x) sc = (true, sc')
      /\ In x reg
      /\ (forall y, In y reg -> peek (fst y) sc = true ->
            slen (fst y) <= slen (fst x))
      /\ fst x <> fst a
      /\ ((forall y, In y reg -> peek (fst y) sc = true ->
             slen (fst y) <= slen (fst ab)) ->
          fst x = fst ab /\ (NoDup (map fst reg) -> x = ab))
      /\ (forall fuel,
            names_ok (config (cxt st)) -> (remaining st <= fuel)%nat ->
            exists node marker st',
              MODIFIER_head fuel type st = Done (node, marker) st'
              /\ m_mod node = Registered (snd x)
              /\ m_type node = type
              /\ m_start node = position (scanner st))
      /\ (forall i ib : string * InterpId,
            let ireg := argumentInterpolators (config (cxt st)) in
            In i ireg -> In ib ireg ->
            peek (fst i) (scanner st) = true ->
            peek (fst ib) (scanner st) = true ->
            slen (fst i) < slen (fst ib) ->
            exists y sc'',
              find_interpolator st = Done (Some y) (set_scanner st sc'')
              /\ accept (fst y) (scanner st) = (true, sc'')
              /\ In y ireg
              /\ (forall z, In z ireg -> peek (fst z) (scanner st) = true ->
                    slen (fst z) <= slen (fst y))
              /\ fst y <> fst i
              /\ ((forall z, In z ireg -> peek (fst z) (scanner st) = true ->
                     slen (fst z) <= slen (fst ib)) ->
                  fst y = fst ib /\ (NoDup (map fst ireg) -> y = ib)))
      /\ (forall src c store0, in_sync (initial_state src c store0))
      /\ (forall f node st0, exists node' st',
            call_hook (Some f) node st0 = Done node' st' /\ in_sync st').
Proof.
  intros type st a ab Hsync Hopen sc reg Ha Hab Pa Pab Hlen.
  destruct (find_accept_prefers_longer reg sc a ab Ha Hab Pa Pab Hlen)
    as (x & sc' & Hf & Hx & Hxin & Hmax & Hne & Heq).
  assert (Htable : find_accept (prefix_table type st) sc = (Some x, sc')).
  { rewrite (prefix_table_in_sync type st Hsync). exact Hf. }
  exists x, sc'.
  split.
  { unfold find_modifier.
    change (match type with
            | block => p_block (prefixes (set_scanner st sc))
            | system => p_system (prefixes (set_scanner st sc))
            | inline => p_inline (prefixes (set_scanner st sc))
            end) with (prefix_table type st).
    change (scanner (set_scanner st sc)) with sc.
    rewrite Htable. reflexivity. }
  split; [exact Hx|]. split; [exact Hxin|]. split; [exact Hmax|].
  split; [exact Hne|]. split; [exact Heq|].
  split.
  { intros fuel Hn Hfuel.
    assert (Hn' : Forall (fun e => fst e <> EmptyString) (p_interpolator (prefixes st))).
    { rewrite Hsync. simpl. rewrite Forall_forall. intros e He.
      unfold names_ok in Hn. rewrite Forall_forall in Hn.
      apply Hn. apply sort_by_length_In. exact He. }
    pose proof (MODIFIER_head_registered fuel type st x sc' Hn' Hopen Htable Hfuel) as H.
    apply wp_done in H. destruct H as ([node marker] & st' & E & H1 & H2 & H3).
    exists node, marker, st'. auto. }
  split.
  { intros i ib ireg Hi Hib Pi Pib Hl.
    destruct (find_accept_prefers_longer ireg (scanner st) i ib Hi Hib Pi Pib Hl)
      as (y & sc'' & Hfy & Hy & Hyin & Hymax & Hyne & Hyeq).
    exists y, sc''.
    split.
    { unfold find_interpolator. rewrite Hsync. simpl.
      fold ireg. rewrite Hfy. reflexivity. }
    auto. }
  split; [reflexivity|].
  intros f node st0. apply call_hook_sorts.
Qed.

(** C5.  When the opening sign of a modifier is followed by text that no
    name of the prefix table of that type begins, the head of [MODIFIER]
    returns a node of the reserved UNKNOWN definition, without arguments
    and not a marker, which starts at the opening sign; the messages it
    adds contain exactly one [UnknownModifierMessage], which covers the
    text from the opening sign to the place where the scan stopped; when
    a closing bracket follows, the scanner is left just behind the first
    one and nothing else is reported, and when none follows the scanner
    is left at the end of the input.  Parsing [[.unknown] hello] with no
    modifier registered returns a document whose root holds the UNKNOWN
    node, its content one paragraph with the text [hello], and whose
    messages are one [UnknownModifierMessage]. *)
Theorem unknown_modifier (fuel : nat) (type : ModType) (st : PState) :
  peek (modifier_open type) (scanner st) = true ->
  Forall (fun e => peek (fst e) (snd (accept (modifier_open type) (scanner st))) = false)
         (prefix_table type st) ->
  (exists node st' added,
     MODIFIER_head (S (S fuel)) type st = Done (node, false) st'
     /\ m_mod node = UnknownModifier type
     /\ definition (m_mod node) = unknown_definition
     /\ m_arguments node = []
     /\ m_start node = position (scanner st)
     /\ m_head node
        = Build_PositionRange (position (scanner st)) (position (scanner st'))
     /\ messages st' = messages st ++ added
     /\ List.length (filter is_unknown_modifier added) = 1%nat
     /\ In (refer (UnknownModifierMessage
                     (position (scanner st))
                     (position (snd (acceptUntil MODIFIER_CLOSE_SIGN
                                       (snd (accept (modifier_open type) (scanner st)))))
                      - position (scanner st)))
                  (referringStack st)) added
     /\ match acceptUntil MODIFIER_CLOSE_SIGN
                (snd (accept (modifier_open type) (scanner st))) with
        | (Some _, sc2) =>
            List.length added = 1%nat
            /\ accept MODIFIER_CLOSE_SIGN sc2 = (true, scanner st')
        | (None, sc2) => scanner st' = sc2 /\ isEOF sc2 = true
        end)
  /\ (forall store0 : Store,
        let c := mkConfig [] [] [] [] 10 in
        let src := "[.unknown] hello"%string in
        parse (parse_fuel src c) src c store0
        = Returns
            (mkDocument
               (mkRoot 0 (-1)
                  [ModifierNode
                     (mkModifier block (UnknownModifier block)
                        (Build_PositionRange 0 10) [] 0 16 None
                        [ParagraphNode 11 16 [TextNode 11 16 "hello"]] None)])
               (mkContext c 0 store0)
               [UnknownModifierMessage 0 9])).
Proof.
  intros Hp Hnone. split; [|intros store0; vm_compute; reflexivity].
  destruct (MODIFIER_head_unknown fuel type st Hp Hnone) as (node & st' & Hrun & Hnode & Hm).
  destruct (acceptUntil MODIFIER_CLOSE_SIGN
              (snd (accept (modifier_open type) (scanner st)))) as [[a|] sc2] eqn:Eu.
  - destruct Hm as [Hm Ha].
    exists node, st', [refer (UnknownModifierMessage (position (scanner st))
                                (position sc2 - position (scanner st)))
                             (referringStack st)].
    subst node. simpl.
    rewrite is_unknown_modifier_refer. simpl.
    split; [exact Hrun|]. do 5 (split; [reflexivity|]).
    split; [exact Hm|]. split; [reflexivity|]. split; [left; reflexivity|].
    split; [reflexivity|exact Ha].
  - destruct Hm as (Hm & Hs & He).
    eexists node, st', _.
    subst node. simpl.
    split; [exact Hrun|]. do 5 (split; [reflexivity|]).
    split; [exact Hm|]. simpl. rewrite !is_unknown_modifier_refer. simpl.
    split; [reflexivity|]. split; [right; left; reflexivity|].
    split; [exact Hs|exact He].
Qed.

(** *** [DefineBlockMod] *)

Lemma registry_remove_absent {D : Type} (n : string) (r : list (string * D)) :
  registry_has n r = false -> registry_remove n r = r.
Proof.
  unfold registry_has, registry_remove.
  induction r as [|e r IH]; simpl; [reflexivity|].
  destruct (String.eqb (fst e) n); simpl; [discriminate|].
  intros H. rewrite (IH H). reflexivity.
Qed.

Lemma registry_has_remove {D : Type} (n : string) (r : list (string * D)) :
  registry_has n (registry_remove n r) = false.
Proof.
  unfold registry_has, registry_remove.
  induction r as [|e r IH]; simpl; [reflexivity|].
  destruct (String.eqb (fst e) n) eqn:E; simpl; [exact IH|].
  rewrite E. exact IH.
Qed.

Lemma registry_has_add {D : Type} (n : string) (d : D) (r : list (string * D)) :
  registry_has n (registry_add (n, d) r) = true.
Proof.
  unfold registry_has, registry_add. rewrite existsb_app. simpl.
  rewrite String.eqb_refl. rewrite orb_true_r. reflexivity.
Qed.

(** [#expand] at depth 0 on a node of a definition that always tries to
    expand and whose [prepareExpand] and [expand] are those of
    [DefineBlockMod], called with [immediate] set. *)
Lemma expand_define_block (fuel : nat) (d : DefId) (node : Modifier) (st : PState)
  (h : Hook) (f : ExpandHook) (msgs : list Message) :
  m_mod node = Registered d ->
  m_expansion node = None ->
  alwaysTryExpand (definition_of d) = true ->
  prepareExpand (definition_of d) = Some h ->
  expand (definition_of d) = Some f ->
  DefineBlockMod_prepareExpand node (cxt st) true = Some msgs ->
  h node (cxt st) = (msgs, node, cxt st) ->
  f node (cxt st)
  = (fst (DefineBlockMod_expand node (cxt st) true), node,
     snd (DefineBlockMod_expand node (cxt st) true)) ->
  expand_node fuel node 0 st
  = Done (true, set_expansion node (Some []))
      (mkState (scanner st)
         (messages st ++ map (fun m => refer m (referringStack st)) msgs)
         (blockStack st) (inlineStack st) (referringStack st)
         (snd (DefineBlockMod_expand node (cxt st) true))
         (groupDepth st)
         (sorted_prefixes (config (snd (DefineBlockMod_expand node (cxt st) true))))).
Proof.
  intros Hmod Hexp Halways Hprep Hexpand Hmsgs Hh Hf.
  destruct st as [sc ms bs ins rf cx gd pf].
  cbn [cxt scanner messages blockStack inlineStack referringStack groupDepth]
    in *.
  unfold expand_node, expand_with.
  erewrite bind_done by reflexivity. cbv beta.
  rewrite Hexp.
  assert (Hd : def_of node = definition_of d)
    by (unfold def_of; rewrite Hmod; reflexivity).
  rewrite Hd, Halways, andb_false_r.
  unfold expand_content. simpl (0 >? 0). rewrite andb_false_r.
  erewrite bind_done by reflexivity. cbv beta.
  rewrite Hd, Hprep.
  erewrite bind_done
    by (unfold call_hook; erewrite bind_done by reflexivity; cbv beta;
        cbn [cxt]; rewrite Hh; reflexivity).
  cbv beta. rewrite Hd, Hexpand.
  erewrite bind_done
    by (erewrite bind_done by reflexivity; cbv beta;
        cbn [cxt set_cxt set_messages set_prefixes];
        rewrite Hf; reflexivity).
  cbv beta iota.
  assert (He : fst (DefineBlockMod_expand node cx true) = Some []).
  { unfold DefineBlockMod_expand. simpl negb. cbv iota.
    destruct (defined_name node); [|reflexivity].
    destruct (m_state node); reflexivity. }
  rewrite He. reflexivity.
Qed.

(** C7.  [prepareExpand] of [DefineBlockMod] reports
    [NameAlreadyDefined] exactly when it is called with [immediate] set,
    the node state carries a name that is not empty, and that name is in
    the registry of block modifiers; called without [immediate], or on a
    node without state, it reports nothing, whatever the registry holds.
    It returns whenever the node has an argument.  [expand] without
    [immediate] returns no expansion and leaves the context as it is;
    with [immediate] and a name it returns the empty expansion and
    leaves a registry in which the entry of that name, if any, is
    replaced by the definition compiled from the arguments, the slot
    name and the content of the node, the other registries unchanged;
    with [immediate] and no name it returns the empty expansion and
    changes nothing.  When [#expand] runs these hooks with [immediate]
    set, the prefix tables it leaves are the sorted registries of the
    configuration the hook left, and the table of block modifiers holds
    the new definition. *)
Theorem define_block_registers (node : Modifier) (c : ParseContext) :
  (forall immediate msgs,
     DefineBlockMod_prepareExpand node c immediate = Some msgs ->
     (existsb is_name_already_defined msgs = true
      <-> immediate = true
          /\ exists n, defined_name node = Some n
                       /\ registry_has n (blockModifiers (config c)) = true))
  /\ (DefineBlockMod_prepareExpand node c false = Some [])
  /\ (m_state node = None ->
      forall immediate, DefineBlockMod_prepareExpand node c immediate = Some [])
  /\ (m_arguments node <> [] ->
      forall immediate, exists msgs,
        DefineBlockMod_prepareExpand node c immediate = Some msgs)
  /\ (DefineBlockMod_expand node c false = (None, c))
  /\ (forall n s,
        defined_name node = Some n -> m_state node = Some s ->
        let compiled :=
          customModifier block n (state_args s) (state_slotName s) (m_content node) in
        let c' := snd (DefineBlockMod_expand node c true) in
        DefineBlockMod_expand node c true
        = (Some [],
           set_blockModifiers c
             (registry_add (n, compiled)
                (registry_remove n (blockModifiers (config c)))))
        /\ registry_has n (blockModifiers (config c')) = true
        /\ In (n, compiled) (blockModifiers (config c'))
        /\ (forall e, In e (blockModifiers (config c')) -> fst e = n -> e = (n, compiled))
        /\ inlineModifiers (config c') = inlineModifiers (config c)
        /\ systemModifiers (config c') = systemModifiers (config c)
        /\ argumentInterpolators (config c') = argumentInterpolators (config c)
        /\ reparseDepthLimit (config c') = reparseDepthLimit (config c)
        /\ delayDepth c' = delayDepth c)
  /\ (defined_name node = None -> DefineBlockMod_expand node c true = (Some [], c))
  /\ (forall fuel d st h f msgs,
        cxt st = c ->
        m_mod node = Registered d ->
        m_expansion node = None ->
        alwaysTryExpand (definition_of d) = true ->
        prepareExpand (definition_of d) = Some h ->
        expand (definition_of d) = Some f ->
        DefineBlockMod_prepareExpand node c true = Some msgs ->
        h node c = (msgs, node, c) ->
        f node c
        = (fst (DefineBlockMod_expand node c true), node,
           snd (DefineBlockMod_expand node c true)) ->
        exists st',
          expand_node fuel node 0 st = Done (true, set_expansion node (Some [])) st'
          /\ cxt st' = snd (DefineBlockMod_expand node c true)
          /\ prefixes st' = sorted_prefixes (config (cxt st'))
          /\ (forall n s,
                defined_name node = Some n -> m_state node = Some s ->
                In (n, customModifier block n (state_args s) (state_slotName s)
                         (m_content node))
                   (p_block (prefixes st')))
          /\ messages st'
             = messages st ++ map (fun m => refer m (referringStack st)) msgs
          /\ scanner st' = scanner st).
Proof.
  assert (Hexp : forall n s,
            defined_name node = Some n -> m_state node = Some s ->
            DefineBlockMod_expand node c true
            = (Some [],
               set_blockModifiers c
                 (registry_add
                    (n, customModifier block n (state_args s) (state_slotName s)
                          (m_content node))
                    (registry_remove n (blockModifiers (config c)))))).
  { intros n s Hn Hs. unfold DefineBlockMod_expand. simpl negb. cbv iota.
    rewrite Hn, Hs. cbv zeta.
    destruct (registry_has n (blockModifiers (config c))) eqn:E; [reflexivity|].
    rewrite (registry_remove_absent _ _ E). reflexivity. }
  split; [|split; [|split; [|split; [|split; [|split; [|split]]]]]].
  - intros immediate msgs. unfold DefineBlockMod_prepareExpand.
    destruct immediate; simpl negb; simpl orb.
    + destruct (m_state node) as [s|] eqn:Es.
      * destruct (defined_name node) as [n|] eqn:En.
        -- destruct (registry_has n (blockModifiers (config c))) eqn:Eh.
           ++ destruct (hd_error (m_arguments node)) as [a|]; [|discriminate].
              intros [= <-]. simpl. split; [|reflexivity].
              intros _. split; [reflexivity|]. exists n. split; [reflexivity|exact Eh].
           ++ intros [= <-]. simpl. split; [discriminate|].
              intros [_ (n' & [= <-] & Hn')]. congruence.
        -- destruct (hd_error (m_arguments node)) as [a|]; [|discriminate].
           intros [= <-]. simpl. split; [discriminate|].
           intros [_ (n' & Hn' & _)]. discriminate.
      * intros [= <-]. simpl. split; [discriminate|].
        intros [_ (n' & Hn' & _)]. unfold defined_name in Hn'.
        rewrite Es in Hn'. discriminate.
    + intros [= <-]. simpl. split; [discriminate|]. intros [H _]. discriminate.
  - reflexivity.
  - intros Hs immediate. unfold DefineBlockMod_prepareExpand. rewrite Hs.
    rewrite orb_true_r. reflexivity.
  - intros Hargs immediate. unfold DefineBlockMod_prepareExpand.
    destruct (m_arguments node) as [|a rest]; [congruence|]. simpl hd_error.
    destruct (negb immediate || _)%bool; [eexists; reflexivity|].
    destruct (defined_name node) as [n|]; [|eexists; reflexivity].
    destruct (registry_has n (blockModifiers (config c))); eexists; reflexivity.
  - reflexivity.
  - intros n s Hn Hs compiled c'. subst c'. rewrite (Hexp n s Hn Hs). simpl.
    fold compiled.
    split; [reflexivity|]. split; [apply registry_has_add|].
    split; [unfold registry_add; apply in_or_app; right; left; reflexivity|].
    split; [|repeat split].
    intros e He Hfst. unfold registry_add in He. apply in_app_or in He.
    destruct He as [He|[He|[]]]; [|symmetry; exact He].
    unfold registry_remove in He. apply filter_In in He.
    destruct He as [_ He]. apply negb_true_iff in He.
    apply String.eqb_neq in He. congruence.
  - intros Hn. unfold DefineBlockMod_expand. rewrite Hn. reflexivity.
  - intros fuel d st h f msgs Hc Hmod Hex Halways Hprep Hexpand Hmsgs Hh Hf.
    subst c.
    rewrite (expand_define_block fuel d node st h f msgs
               Hmod Hex Halways Hprep Hexpand Hmsgs Hh Hf).
    eexists. split; [reflexivity|]. simpl.
    split; [reflexivity|]. split; [reflexivity|].
    split; [|split; reflexivity].
    intros n s Hn Hs. rewrite (Hexp n s Hn Hs). simpl.
    apply sort_by_length_In. unfold registry_add. apply in_or_app.
    right. left. reflexivity.
Qed.

(** *** Reparsing content without modifiers *)

(** The depth to which paragraphs are nested in a node and in a list of
    nodes. *)
Fixpoint paragraph_nesting (n : Node) : nat :=
  let deepest := fix deepest (l : list Node) : nat :=
    match l with
    | [] => O
    | x :: l' => Nat.max (paragraph_nesting x) (deepest l')
    end in
  match n with
  | ParagraphNode _ _ content => S (deepest content)
  | _ => O
  end.

Fixpoint nesting_of (l : list Node) : nat :=
  match l with
  | [] => O
  | x :: l' => Nat.max (paragraph_nesting x) (nesting_of l')
  end.

Lemma paragraph_nesting_paragraph (s e : Z) (content : list Node) :
  paragraph_nesting (ParagraphNode s e content) = S (nesting_of content).
Proof.
  reflexivity.
Qed.

(** X1.  [#reparse] leaves a list of nodes without modifiers as it is,
    calls no hook and stores no message; it returns true exactly when
    [depth] plus the depth to which paragraphs are nested in the list is
    at most [reparseDepthLimit]: a paragraph counts as one level although
    nothing is expanded. *)
Theorem reparse_without_modifiers (fuel : nat) :
  forall (nodes : list Node) (depth : Z) (st : PState),
    forallb modifier_free nodes = true ->
    (nesting_of nodes < fuel)%nat ->
    reparse fuel nodes depth st
    = Done (depth + Z.of_nat (nesting_of nodes) <=? limit st, nodes) st.
Proof.
  induction fuel as [|fuel IH]; intros nodes depth st Hfree Hfuel; [lia|].
  rewrite reparse_unfold. unfold bind at 1. unfold get.
  destruct (depth >? limit st) eqn:Ed.
  - rewrite Z.gtb_ltb in Ed. apply Z.ltb_lt in Ed.
    replace (depth + Z.of_nat (nesting_of nodes) <=? limit st) with false;
      [reflexivity|].
    symmetry. apply Z.leb_gt. lia.
  - rewrite Z.gtb_ltb in Ed. apply Z.ltb_ge in Ed.
    match goal with
    | |- ?loop nodes true [] st = _ =>
        assert (Hloop : forall l ok done,
                  forallb modifier_free l = true ->
                  (nesting_of l <= fuel)%nat ->
                  loop l ok done st
                  = Done ((depth + Z.of_nat (nesting_of l) <=? limit st) && ok,
                          rev done ++ l) st)
    end.
    { induction l as [|x l IHl]; intros ok done Hl Hn.
      - simpl. rewrite app_nil_r.
        replace (depth + 0 <=? limit st) with true by (symmetry; apply Z.leb_le; lia).
        reflexivity.
      - simpl in Hl. apply andb_prop in Hl. destruct Hl as [Hx Hl].
        assert (Hnx : (paragraph_nesting x <= fuel)%nat) by (simpl in Hn; lia).
        assert (Hnl : (nesting_of l <= fuel)%nat) by (simpl in Hn; lia).
        destruct x as [s e content|s e cs ce t|s e t|s e t|m].
        + rewrite paragraph_nesting_paragraph in Hnx.
          cbn [nesting_of]. rewrite paragraph_nesting_paragraph.
          simpl in Hx.
          unfold bind at 1. rewrite (IH content (depth + 1) st Hx) by lia.
          rewrite (IHl _ _ Hl Hnl). simpl rev. rewrite <- app_assoc.
          cbn [app]. f_equal. f_equal.
          destruct (Z.leb_spec (depth + Z.of_nat (nesting_of l)) (limit st));
            destruct (Z.leb_spec (depth + 1 + Z.of_nat (nesting_of content)) (limit st));
            destruct (Z.leb_spec
                        (depth + Z.of_nat (Nat.max (S (nesting_of content)) (nesting_of l)))
                        (limit st));
            destruct ok; simpl; try reflexivity; lia.
        + rewrite (IHl _ _ Hl Hnl). simpl. rewrite <- app_assoc. reflexivity.
        + rewrite (IHl _ _ Hl Hnl). simpl. rewrite <- app_assoc. reflexivity.
        + rewrite (IHl _ _ Hl Hnl). simpl. rewrite <- app_assoc. reflexivity.
        + discriminate. }
    rewrite Hloop; [|exact Hfree|lia]. simpl. rewrite andb_true_r. reflexivity.
Qed.

(** *** The end of the input and blank input *)

Lemma DOCUMENT_loop_eof (fuel : nat) :
  forall st st', DOCUMENT_loop fuel st = Done tt st' -> rest (scanner st') = EmptyString.
Proof.
  induction fuel as [|fuel IH]; intros st st' H; [discriminate|].
  cbn [DOCUMENT_loop] in H. unfold bind at 1 in H. unfold s_isEOF in H.
  destruct (isEOF (scanner st)) eqn:E.
  - injection H as <-. unfold isEOF in E.
    destruct (rest (scanner st)); [reflexivity | discriminate].
  - unfold bind at 1 in H.
    destruct (BLOCK_ENTITY fuel st) as [[] st1| |]; try discriminate.
    unfold bind at 1 in H.
    destruct (WHITESPACES_OR_NEWLINES st1) as [[] st2| |]; try discriminate.
    exact (IH _ _ H).
Qed.

(** X2.  Under the conditions of termination, [DOCUMENT] stops only at
    the end of the input, with every node closed: the root alone is on
    the block stack, the inline stack and the referring stack are empty;
    and the document [parse] returns is made of that root, the context
    and the messages of that state. *)
Theorem parse_ends_balanced :
  (forall d, definition_sound well_behaved any_message (definition_of d)) ->
  forall (src : string) (c : Configuration) (store0 : Store),
    names_ok c ->
    exists st' r,
      DOCUMENT (parse_fuel src c) (initial_state src c store0) = Done tt st'
      /\ rest (scanner st') = EmptyString
      /\ blockStack st' = [BRoot r]
      /\ inlineStack st' = []
      /\ referringStack st' = []
      /\ parse (parse_fuel src c) src c store0
         = Returns (mkDocument r (cxt st') (messages st')).
Proof.
  intros Hs src c store0 Hn.
  pose proof (DOCUMENT_terminates well_behaved any_message well_behaved_refl
                well_behaved_trans well_behaved_limit well_behaved_delay
                any_message_refer Hs well_behaved_names (reparseDepthLimit c)
                (parse_fuel src c) (initial_state src c store0)) as H.
  apply wp_done in H.
  - destruct H as ([] & st' & E & H).
    destruct H as (_ & Hb & Hi & Hr & _). simpl in Hb, Hi, Hr.
    destruct (blockStack st') as [|[r|m] [|b bs]] eqn:Eb; simpl in Hb; try discriminate.
    destruct (inlineStack st') as [|i is_] eqn:Ei; simpl in Hi; try discriminate.
    exists st', r. split; [exact E|].
    split.
    { unfold DOCUMENT in E. unfold bind in E.
      destruct (WHITESPACES_OR_NEWLINES (initial_state src c store0)) as [[] st1| |];
        try discriminate.
      exact (DOCUMENT_loop_eof _ _ _ E). }
    split; [exact Eb|]. split; [exact Ei|]. split; [exact Hr|].
    unfold parse. rewrite E. unfold emit_root. rewrite Eb. reflexivity.
  - unfold ready, in_sync, limit. simpl. auto.
  - unfold bshape. simpl. discriminate.
  - unfold bound, parse_fuel, remaining. simpl. lia.
Qed.

Definition is_newline (c : ascii) : bool := Ascii.eqb c newline.

(** Characters that [WHITESPACES_OR_NEWLINES] skips. *)
Definition is_blank (c : ascii) : bool :=
  (is_whitespace c || Ascii.eqb c newline)%bool.

Fixpoint all_chars (p : ascii -> bool) (s : string) : bool :=
  match s with
  | EmptyString => true
  | String c s' => (p c && all_chars p s')%bool
  end.

Fixpoint count_chars (p : ascii -> bool) (s : string) : Z :=
  match s with
  | EmptyString => 0
  | String c s' => (if p c then 1 else 0) + count_chars p s'
  end.

Lemma skip_whitespace_or_newline_blank (r : string) :
  forall pos, all_chars is_blank r = true ->
    skip_whitespace_or_newline pos r = mkScanner (pos + slen r) EmptyString.
Proof.
  induction r as [|c r IH]; intros pos H; simpl in *.
  - f_equal. unfold slen. simpl. lia.
  - apply andb_prop in H. destruct H as [Hc Hr].
    unfold is_blank in Hc. rewrite Hc. rewrite (IH _ Hr).
    f_equal. unfold slen. simpl String.length. lia.
Qed.

(** X3.  A source that holds nothing but spaces, tabs and newlines (the
    empty source included) parses to a document with an empty root and
    no message, whatever the configuration. *)
Theorem blank_source_is_empty (fuel : nat) (src : string) (c : Configuration)
  (store0 : Store) :
  all_chars is_blank src = true ->
  parse (S fuel) src c store0
  = Returns (mkDocument (mkRoot 0 (-1) []) (mkContext c 0 store0) []).
Proof.
  intros H. unfold parse, DOCUMENT, bind, WHITESPACES_OR_NEWLINES, modify.
  simpl scanner. simpl rest. simpl position.
  rewrite (skip_whitespace_or_newline_blank _ _ H). reflexivity.
Qed.

(** *** Runs of newlines *)

Lemma count_newlines_spec (r : string) :
  forall pos k,
    exists skipped rest',
      r = (skipped ++ rest')%string
      /\ all_chars is_blank skipped = true
      /\ match rest' with
         | String c _ => is_blank c = false
         | EmptyString => True
         end
      /\ count_newlines pos r k
         = (k + count_chars is_newline skipped,
            mkScanner (pos + slen skipped) rest').
Proof.
  induction r as [|c r IH]; intros pos k.
  - exists EmptyString, EmptyString. simpl. repeat split.
    f_equal; [lia | f_equal; unfold slen; simpl; lia].
  - simpl. destruct (Ascii.eqb c newline) eqn:En.
    + destruct (IH (pos + 1) (k + 1)) as (sk & r' & -> & Hb & Hn & Hc).
      exists (String c sk), r'. simpl.
      split; [reflexivity|]. split.
      { unfold is_blank at 1. rewrite En, orb_true_r. exact Hb. }
      split; [exact Hn|]. rewrite Hc.
      try (unfold is_newline at 2; rewrite En).
      replace (slen (String c sk)) with (1 + slen sk)
        by (unfold slen; simpl String.length; lia).
      apply (f_equal2 pair); [lia | apply (f_equal2 mkScanner); [lia | reflexivity]].
    + destruct (is_whitespace c) eqn:Ew.
      * destruct (IH (pos + 1) k) as (sk & r' & -> & Hb & Hn & Hc).
        exists (String c sk), r'. simpl.
        split; [reflexivity|]. split.
        { unfold is_blank at 1. rewrite Ew. exact Hb. }
        split; [exact Hn|]. rewrite Hc.
        try (unfold is_newline at 2; rewrite En).
        replace (slen (String c sk)) with (1 + slen sk)
          by (unfold slen; simpl String.length; lia).
        apply (f_equal2 pair); [lia | apply (f_equal2 mkScanner); [lia | reflexivity]].
      * exists EmptyString, (String c r). simpl.
        split; [reflexivity|]. split; [reflexivity|]. split.
        { unfold is_blank. rewrite Ew, En. reflexivity. }
        f_equal; [lia | f_equal; unfold slen; simpl; lia].
Qed.

(** X4.  [WARN_IF_MORE_NEWLINES_THAN n] skips the longest run of spaces,
    tabs and newlines at the cursor and nothing else; it stores one
    [UnnecessaryNewline] message, which covers the whole run, exactly
    when the run holds more than [n] newlines, and changes nothing
    besides. *)
Theorem WARN_IF_MORE_NEWLINES_THAN_skips (n : Z) (st : PState) :
  exists skipped rest',
    rest (scanner st) = (skipped ++ rest')%string
    /\ all_chars is_blank skipped = true
    /\ match rest' with
       | String c _ => is_blank c = false
       | EmptyString => True
       end
    /\ WARN_IF_MORE_NEWLINES_THAN n st
       = Done tt
           (mkState (mkScanner (position (scanner st) + slen skipped) rest')
              (messages st
               ++ (if count_chars is_newline skipped >? n
                   then [refer (UnnecessaryNewlineMessage (position (scanner st))
                                  (slen skipped))
                               (referringStack st)]
                   else []))
              (blockStack st) (inlineStack st) (referringStack st) (cxt st)
              (groupDepth st) (prefixes st)).
Proof.
  destruct (count_newlines_spec (rest (scanner st)) (position (scanner st)) 0)
    as (sk & r' & Hr & Hb & Hn & Hc).
  exists sk, r'. split; [exact Hr|]. split; [exact Hb|]. split; [exact Hn|].
  unfold WARN_IF_MORE_NEWLINES_THAN, bind, s_position, get, modify, when, message.
  rewrite Hc. simpl.
  destruct (count_chars is_newline sk >? n); simpl.
  - replace (position (scanner st) + slen sk - position (scanner st)) with (slen sk)
      by lia.
    destruct st; reflexivity.
  - rewrite app_nil_r. destruct st; reflexivity.
Qed.

(** *** Plain text *)

(** A character that neither opens a modifier, nor escapes, nor ends a
    line. *)
Definition plain_char (c : ascii) : bool :=
  (negb (Ascii.eqb "["%char c) && negb (Ascii.eqb "\"%char c)
   && negb (Ascii.eqb newline c))%bool.

Lemma peek_other (x : ascii) (s : string) (p : Z) (c : ascii) (r : string) :
  Ascii.eqb x c = false ->
  peek (String x s) (mkScanner p (String c r)) = false.
Proof. unfold peek. cbn [rest strip_prefix]. intros ->. reflexivity. Qed.

Lemma accept_other (x : ascii) (s : string) (p : Z) (c : ascii) (r : string) :
  Ascii.eqb x c = false ->
  accept (String x s) (mkScanner p (String c r)) = (false, mkScanner p (String c r)).
Proof. unfold accept. cbn [rest strip_prefix]. intros ->. reflexivity. Qed.

Lemma plain_char_facts (c : ascii) :
  plain_char c = true ->
  Ascii.eqb "["%char c = false /\ Ascii.eqb "\"%char c = false
  /\ Ascii.eqb newline c = false.
Proof.
  unfold plain_char. intros H.
  apply andb_prop in H. destruct H as [H H3].
  apply andb_prop in H. destruct H as [H1 H2].
  apply negb_true_iff in H1, H2, H3. auto.
Qed.

(** [INLINE_ENTITY] on a plain character appends it to the text of the
    open inline node. *)
Lemma INLINE_ENTITY_plain (fuel : nat) (p : Z) (c : ascii) (r : string)
  ms bs top below rf cx gd pf :
  plain_char c = true ->
  INLINE_ENTITY (S fuel)
    (mkState (mkScanner p (String c r)) ms bs (top :: below) rf cx gd pf)
  = Done true
      (mkState (mkScanner (p + 1) r) ms bs
         (set_inline_content top
            (add_string (inline_content top) (String c "") (p + 1)) :: below)
         rf cx gd pf).
Proof.
  intros H. destruct (plain_char_facts c H) as (H1 & H2 & H3).
  cbn [INLINE_ENTITY].
  erewrite bind_done by reflexivity. cbv beta iota.
  erewrite bind_done by reflexivity. cbv beta iota.
  erewrite bind_done
    by (unfold s_peek, MODIFIER_BLOCK_OPEN; cbn [scanner];
        rewrite (peek_other _ _ _ _ _ H1); reflexivity).
  cbv beta iota.
  erewrite bind_done
    by (unfold s_peek, MODIFIER_INLINE_OPEN; cbn [scanner];
        rewrite (peek_other _ _ _ _ _ H1); reflexivity).
  cbv beta iota.
  erewrite bind_done
    by (unfold s_peek, MODIFIER_SYSTEM_OPEN; cbn [scanner];
        rewrite (peek_other _ _ _ _ _ H1); reflexivity).
  cbv beta iota.
  erewrite bind_done
    by (unfold s_accept, backslash; cbn [scanner];
        rewrite (accept_other _ _ _ _ _ H2); reflexivity).
  cbv beta iota.
  unfold PREFORMATTED_INLINE_ENTITY.
  erewrite bind_done by reflexivity. cbv beta iota.
  erewrite bind_done by reflexivity. cbv beta iota.
  erewrite bind_done
    by (unfold s_accept, NL; cbn [scanner set_scanner];
        rewrite (accept_other _ _ _ _ _ H3); reflexivity).
  cbv beta iota.
  reflexivity.
Qed.

Lemma string_app_nil_r (s : string) : (s ++ "")%string = s.
Proof. induction s as [|c s IH]; simpl; congruence. Qed.

Lemma string_app_assoc (a b c : string) : ((a ++ b) ++ c)%string = (a ++ b ++ c)%string.
Proof. induction a as [|x a IH]; simpl; congruence. Qed.

Lemma slen_app (a b : string) : slen (a ++ b) = slen a + slen b.
Proof.
  unfold slen. induction a as [|x a IH]; simpl String.length; [lia|].
  rewrite !Nat2Z.inj_succ. lia.
Qed.

Lemma slen_String (c : ascii) (s : string) : slen (String c s) = 1 + slen s.
Proof. unfold slen. simpl String.length. lia. Qed.

(** The content of an inline node after the characters of [r] were added
    one by one, the first at position [p]. *)
Fixpoint add_chars (content : list Node) (r : string) (p : Z) : list Node :=
  match r with
  | EmptyString => content
  | String c r' => add_chars (add_string content (String c "") (p + 1)) r' (p + 1)
  end.

Lemma inline_content_set (i : InlineContainer) (c : list Node) :
  inline_content (set_inline_content i c) = c.
Proof. destruct i; reflexivity. Qed.

Lemma set_inline_content_set (i : InlineContainer) (c c' : list Node) :
  set_inline_content (set_inline_content i c) c' = set_inline_content i c'.
Proof. destruct i; reflexivity. Qed.

Lemma set_inline_content_same (i : InlineContainer) :
  set_inline_content i (inline_content i) = i.
Proof. destruct i as [s e c|m]; [reflexivity|]. destruct m; reflexivity. Qed.

Lemma add_string_text (before : list Node) (s e : Z) (t str : string) (pos : Z) :
  add_string (before ++ [TextNode s e t]) str pos
  = before ++ [TextNode s pos (t ++ str)].
Proof.
  unfold add_string. rewrite rev_app_distr. simpl. rewrite rev_involutive.
  reflexivity.
Qed.

Lemma add_chars_text (r : string) :
  forall before s e t p,
    add_chars (before ++ [TextNode s e t]) r p
    = before ++ [TextNode s (if String.eqb r "" then e else p + slen r) (t ++ r)].
Proof.
  induction r as [|c r IH]; intros before s e t p.
  - simpl. rewrite string_app_nil_r. reflexivity.
  - cbn [add_chars]. rewrite add_string_text. rewrite IH.
    f_equal. f_equal. f_equal.
    + cbn [String.eqb]. destruct (String.eqb r "") eqn:E.
      * apply String.eqb_eq in E. subst r. unfold slen. simpl. lia.
      * unfold slen. simpl String.length. lia.
    + rewrite string_app_assoc. reflexivity.
Qed.


Lemma PARAGRAPH_loop_plain (r : string) :
  forall fuel p ms bs top below rf cx gd pf,
    all_chars plain_char r = true ->
    (String.length r < fuel)%nat ->
    PARAGRAPH_loop fuel
      (mkState (mkScanner p r) ms bs (top :: below) rf cx gd pf)
    = Done tt
        (mkState (mkScanner (p + slen r) EmptyString) ms bs
           (set_inline_content top (add_chars (inline_content top) r p) :: below)
           rf cx gd pf).
Proof.
  induction r as [|c r IH]; intros fuel p ms bs top below rf cx gd pf Hp Hf.
  - destruct fuel as [|fuel]; [simpl in Hf; lia|].
    cbn [PARAGRAPH_loop]. erewrite bind_done by reflexivity. cbv beta iota.
    unfold isEOF. cbn [scanner rest]. cbv iota.
    cbn [add_chars]. rewrite set_inline_content_same.
    replace (p + slen "") with p by (unfold slen; simpl; lia). reflexivity.
  - simpl in Hp. apply andb_prop in Hp. destruct Hp as [Hc Hr].
    destruct fuel as [|fuel]; [simpl in Hf; lia|].
    cbn [PARAGRAPH_loop]. erewrite bind_done by reflexivity. cbv beta iota.
    unfold isEOF. cbn [scanner rest]. cbv iota.
    destruct fuel as [|fuel]; [simpl in Hf; lia|].
    erewrite bind_done by (apply INLINE_ENTITY_plain; exact Hc).
    cbv beta iota.
    rewrite IH; [|exact Hr|simpl in Hf; lia].
    rewrite inline_content_set, set_inline_content_set.
    cbn [add_chars]. rewrite slen_String.
    replace (p + 1 + slen r) with (p + (1 + slen r)) by lia. reflexivity.
Qed.

Ltac norm_state :=
  match goal with
  | |- ?m ?st = _ =>
      let v := eval cbv [set_scanner set_messages set_blockStack set_inlineStack
                         set_referringStack set_cxt set_groupDepth set_prefixes
                         scanner messages blockStack inlineStack referringStack
                         cxt groupDepth prefixes] in st in
      change st with v
  end.

Definition begins_with_text (s : string) : bool :=
  match s with
  | String c _ => negb (is_whitespace c)
  | EmptyString => false
  end.

(** X5.  A source of plain characters (no opening bracket, no backslash,
    no newline) that begins neither with a space or tab nor with the
    group sign parses to one paragraph that holds one text node with the
    whole source, both spanning the source from 0 to its length, and to
    no message. *)
Theorem plain_text_paragraph (fuel : nat) (src : string) (c : Configuration)
  (store0 : Store) :
  all_chars plain_char src = true ->
  begins_with_text src = true ->
  peek GROUP_BEGIN (mkScanner 0 src) = false ->
  (String.length src + 4 < fuel)%nat ->
  parse fuel src c store0
  = Returns
      (mkDocument
         (mkRoot 0 (-1) [ParagraphNode 0 (slen src) [TextNode 0 (slen src) src]])
         (mkContext c 0 store0) []).
Proof.
  intros Hplain Hbegin Hgroup Hfuel.
  destruct src as [|c0 r0]; [discriminate|].
  pose proof Hplain as Hp0. simpl in Hp0. apply andb_prop in Hp0.
  destruct Hp0 as [Hc0 _].
  destruct (plain_char_facts c0 Hc0) as (H1 & H2 & H3).
  simpl in Hbegin. apply negb_true_iff in Hbegin.
  unfold parse, DOCUMENT, initial_state.
  set (st0 := mkState (mkScanner 0 (String c0 r0)) []
                [BRoot (mkRoot 0 (-1) [])] [] [] (mkContext c 0 store0) 0
                (sorted_prefixes c)).
  assert (Hws : WHITESPACES_OR_NEWLINES st0 = Done tt st0).
  { unfold WHITESPACES_OR_NEWLINES, modify, st0. cbn [scanner rest position].
    cbn [skip_whitespace_or_newline].
    rewrite Hbegin, Ascii.eqb_sym, H3. reflexivity. }
  erewrite bind_done by exact Hws. cbv beta.
  destruct fuel as [|f1]; [lia|]. cbn [DOCUMENT_loop].
  erewrite bind_done by reflexivity. cbv beta iota.
  change (isEOF (scanner st0)) with false. cbv iota.
  destruct f1 as [|f2]; [simpl in Hfuel; lia|].
  assert (Hblock :
    BLOCK_ENTITY (S f2) st0
    = Done tt
        (mkState (mkScanner (slen (String c0 r0)) EmptyString) []
           [BRoot (mkRoot 0 (-1)
                     [ParagraphNode 0 (slen (String c0 r0))
                        [TextNode 0 (slen (String c0 r0)) (String c0 r0)]])]
           [] [] (mkContext c 0 store0) 0 (sorted_prefixes c))).
  { cbn [BLOCK_ENTITY].
    erewrite bind_done by reflexivity. cbv beta iota.
    erewrite bind_done by reflexivity. cbv beta iota.
    erewrite bind_done
      by (unfold s_peek, MODIFIER_BLOCK_OPEN, st0; cbn [scanner];
          rewrite (peek_other _ _ _ _ _ H1); reflexivity).
    cbv beta iota.
    erewrite bind_done
      by (unfold s_peek, MODIFIER_SYSTEM_OPEN, st0; cbn [scanner];
          rewrite (peek_other _ _ _ _ _ H1); reflexivity).
    cbv beta iota.
    destruct f2 as [|f3]; [simpl in Hfuel; lia|]. cbn [MAYBE_GROUPED_PARAGRAPH].
    erewrite bind_done by reflexivity. cbv beta iota.
    erewrite bind_done by reflexivity. cbv beta iota.
    erewrite bind_done
      by (unfold s_accept, accept, st0; cbn [scanner rest];
          unfold peek in Hgroup; cbn [rest] in Hgroup;
          destruct (strip_prefix GROUP_BEGIN (String c0 r0)); [discriminate|];
          reflexivity).
    cbv beta iota.
    destruct f3 as [|f4]; [simpl in Hfuel; lia|]. cbn [PARAGRAPH].
    erewrite bind_done by reflexivity. cbv beta iota.
    erewrite bind_done by reflexivity. cbv beta iota.
    erewrite bind_done by reflexivity. cbv beta iota.
    erewrite bind_done by reflexivity. cbv beta iota.
    unfold st0. norm_state.
    erewrite bind_done
      by (apply PARAGRAPH_loop_plain; [exact Hplain | simpl in Hfuel |- *; lia]).
    cbv beta iota.
    cbn [inline_content set_inline_content add_chars].
    unfold add_string at 1. cbn [rev app].
    pose proof (add_chars_text r0 [] (0 + 1 - slen (String c0 "")) (0 + 1)
                  (String c0 "") (0 + 1)) as Ha.
    cbn [app] in Ha. rewrite Ha. clear Ha.
    unfold endInline, bind, get, modify, store_block, ret.
    cbn [set_blockStack set_scanner set_inlineStack scanner messages blockStack
         inlineStack referringStack cxt groupDepth prefixes position
         set_inline_end node_of_inline root_start root_end root_content app
         replace_last removelast].
    rewrite !slen_String.
    destruct (String.eqb r0 "") eqn:E.
    - apply String.eqb_eq in E. subst r0. reflexivity.
    - replace (0 + 1 + slen r0) with (0 + (1 + slen r0)) by lia. reflexivity. }
  erewrite bind_done by exact Hblock. cbv beta.
  erewrite bind_done by reflexivity. cbv beta.
  cbn [DOCUMENT_loop].
  reflexivity.
Qed.

(** *** Clone *)

Lemma map_id_Forall {A : Type} (f : A -> A) (l : list A) :
  map f l = l <-> Forall (fun x => f x = x) l.
Proof.
  induction l as [|x l IH]; simpl.
  - split; auto.
  - split.
    + intros [= Hx Hl]. constructor; [exact Hx | apply IH; exact Hl].
    + intros H. inversion H as [|? ? Hx Hl]; subst.
      rewrite Hx. f_equal. apply IH. exact Hl.
Qed.

Lemma forallb_map_Forall {A : Type} (p : A -> bool) (f : A -> A) (l : list A) :
  Forall (fun x => p (f x) = true) l -> forallb p (map f l) = true.
Proof.
  induction 1 as [|x l Hx _ IH]; simpl; [reflexivity|].
  rewrite Hx, IH. reflexivity.
Qed.

Lemma Forall_iff_forallb {A : Type} (p : A -> bool) (f : A -> A) (l : list A) :
  Forall (fun x => f x = x <-> p x = true) l ->
  (Forall (fun x => f x = x) l <-> forallb p l = true).
Proof.
  induction 1 as [|x l Hx _ IH]; simpl.
  - split; auto.
  - rewrite andb_true_iff. split.
    + intros H. inversion H; subst. split; [apply Hx | apply IH]; assumption.
    + intros [H1 H2]. constructor; [apply Hx | apply IH]; assumption.
Qed.

Lemma without_state_stateless (n : Node) : stateless (without_state n) = true.
Proof.
  induction n as [s e c IH| | | |m IHc IHe] using Node_induction;
    try reflexivity.
  - simpl. apply forallb_map_Forall. exact IH.
  - simpl. rewrite (forallb_map_Forall _ _ _ IHc). simpl.
    destruct (m_expansion m) as [x|] eqn:Ex; [|reflexivity].
    apply forallb_map_Forall. apply IHe. reflexivity.
Qed.

Lemma without_state_fixed (n : Node) : without_state n = n <-> stateless n = true.
Proof.
  induction n as [s e c IH| | | |m IHc IHe] using Node_induction;
    try (simpl; split; reflexivity).
  - simpl. rewrite <- (Forall_iff_forallb _ _ _ IH), <- map_id_Forall.
    split; [intros [= H]; exact H | intros ->; reflexivity].
  - destruct m as [t r h a s e st c x]. simpl in *.
    rewrite !andb_true_iff.
    rewrite <- (Forall_iff_forallb _ _ _ IHc), <- map_id_Forall.
    split.
    + intros [= Hst Hc Hx]. split; [split|].
      * rewrite <- Hst. reflexivity.
      * exact Hc.
      * destruct x as [x|]; [|reflexivity].
        injection Hx as Hx.
        apply (Forall_iff_forallb _ _ _ (IHe x eq_refl)), map_id_Forall. exact Hx.
    + intros [[Hst Hc] Hx]. destruct st; [discriminate|].
      rewrite Hc. destruct x as [x|]; [|reflexivity].
      apply (Forall_iff_forallb _ _ _ (IHe x eq_refl)), map_id_Forall in Hx.
      rewrite Hx. reflexivity.
Qed.

Lemma map_option_spec {A B : Type} (f : A -> option B) (ok : A -> bool)
  (g : A -> B) (l : list A) :
  Forall (fun x => f x = if ok x then Some (g x) else None) l ->
  map_option f l = if forallb ok l then Some (map g l) else None.
Proof.
  induction 1 as [|x l Hx _ IH]; [reflexivity|].
  cbn [map_option forallb map]. fold (map_option f l). rewrite Hx, IH.
  destruct (ok x); [|reflexivity]. destruct (forallb ok l); reflexivity.
Qed.

(** [cloneNode] throws exactly on the nodes that are not [cloneable], and
    returns the node without its states on the others. *)
Lemma cloneNode_spec (n : Node) :
  cloneNode n = if cloneable n then Some (without_state n) else None.
Proof.
  induction n as [s e c IH| | | |m IHc IHe] using Node_induction;
    try reflexivity.
  - cbn [cloneNode cloneable without_state].
    rewrite (map_option_spec _ _ _ _ IH).
    destruct (forallb cloneable c); reflexivity.
  - destruct m as [t r h a s e st c x].
    cbn [cloneNode cloneable without_state m_type m_mod m_head m_arguments m_start
         m_end m_state m_content m_expansion] in *.
    unfold structuredClone_arguments.
    rewrite (map_option_spec _ _ _ _ IHc).
    destruct (forallb argument_cloneable a); cbn [andb]; [|reflexivity].
    destruct (forallb cloneable c); cbn [andb]; [|reflexivity].
    destruct x as [x|]; [|reflexivity].
    rewrite (map_option_spec _ _ _ _ (IHe x eq_refl)).
    destruct (forallb cloneable x); reflexivity.
Qed.

Lemma forallb_map {A B : Type} (p : B -> bool) (f : A -> B) (l : list A) :
  forallb p (map f l) = forallb (fun x => p (f x)) l.
Proof. induction l as [|x l IH]; simpl; congruence. Qed.

Lemma forallb_ext_Forall {A : Type} (p q : A -> bool) (l : list A) :
  Forall (fun x => p x = q x) l -> forallb p l = forallb q l.
Proof. induction 1 as [|x l Hx _ IH]; simpl; congruence. Qed.

Lemma cloneable_without_state (n : Node) : cloneable (without_state n) = cloneable n.
Proof.
  induction n as [s e c IH| | | |m IHc IHe] using Node_induction;
    try reflexivity.
  - cbn [cloneable without_state]. rewrite forallb_map.
    apply forallb_ext_Forall. exact IH.
  - destruct m as [t r h a s e st c x].
    cbn [cloneable without_state m_type m_mod m_head m_arguments m_start
         m_end m_state m_content m_expansion] in *.
    rewrite forallb_map, (forallb_ext_Forall _ _ _ IHc).
    destruct x as [x|]; [|reflexivity].
    rewrite forallb_map, (forallb_ext_Forall _ _ _ (IHe x eq_refl)). reflexivity.
Qed.

(** X6.  [cloneNode] throws exactly when some modifier node, at any depth
    of content and expansions, has an argument that [structuredClone]
    rejects: one with an interpolation whose definition carries an
    [expand] function.  When it returns, it has removed the state of every
    modifier node and changed nothing else: the clone carries no state,
    it equals the node exactly when the node carried none, and cloning
    the clone returns it unchanged. *)
Theorem cloneNode_removes_state (n : Node) :
  (cloneNode n = None <-> cloneable n = false)
  /\ (forall n', cloneNode n = Some n' ->
        n' = without_state n
        /\ stateless n' = true
        /\ (n' = n <-> stateless n = true)
        /\ cloneNode n' = Some n').
Proof.
  rewrite cloneNode_spec. split.
  - destruct (cloneable n); split; congruence.
  - intros n' H. destruct (cloneable n) eqn:E; [|discriminate].
    injection H as <-.
    split; [reflexivity|]. split; [apply without_state_stateless|].
    split; [apply without_state_fixed|].
    rewrite cloneNode_spec, cloneable_without_state, E.
    f_equal. apply without_state_fixed, without_state_stateless.
Qed.

Lemma flat_map_map {A B C : Type} (f : A -> B) (g : B -> list C) (l : list A) :
  flat_map g (map f l) = flat_map (fun x => g (f x)) l.
Proof. induction l as [|x l IH]; simpl; congruence. Qed.

Lemma map_flat_map {A B C : Type} (f : B -> C) (g : A -> list B) (l : list A) :
  map f (flat_map g l) = flat_map (fun x => map f (g x)) l.
Proof.
  induction l as [|x l IH]; simpl; [reflexivity|].
  rewrite map_app, IH. reflexivity.
Qed.

Lemma flat_map_ext_Forall {A B : Type} (f g : A -> list B) (l : list A) :
  Forall (fun x => f x = g x) l -> flat_map f l = flat_map g l.
Proof. induction 1 as [|x l Hx _ IH]; simpl; congruence. Qed.

Lemma stripNode_without_state (n : Node) :
  stripNode (without_state n) = map without_state (stripNode n).
Proof.
  induction n as [s e c IH| | | |m IHc IHe] using Node_induction;
    try reflexivity.
  - simpl. rewrite flat_map_map, map_flat_map.
    rewrite (flat_map_ext_Forall _ _ _ IH). reflexivity.
  - destruct m as [t r h a s e st c x]. simpl in *.
    destruct t; [|reflexivity|].
    + destruct x as [x|].
      * rewrite flat_map_map, map_flat_map.
        apply flat_map_ext_Forall, IHe. reflexivity.
      * simpl. unfold set_content. simpl.
        rewrite flat_map_map, map_flat_map.
        rewrite (flat_map_ext_Forall _ _ _ IHc). reflexivity.
    + destruct x as [x|].
      * rewrite flat_map_map, map_flat_map.
        apply flat_map_ext_Forall, IHe. reflexivity.
      * simpl. unfold set_content. simpl.
        rewrite flat_map_map, map_flat_map.
        rewrite (flat_map_ext_Forall _ _ _ IHc). reflexivity.
Qed.

Lemma forallb_flat_map_eq {A B : Type} (p : B -> bool) (f : A -> list B) (l : list A) :
  forallb p (flat_map f l) = forallb (fun x => forallb p (f x)) l.
Proof.
  induction l as [|x l IH]; simpl; [reflexivity|].
  rewrite forallb_app, IH. reflexivity.
Qed.

Lemma forallb_impl_Forall {A : Type} (p q : A -> bool) (l : list A) :
  Forall (fun x => p x = true -> q x = true) l ->
  forallb p l = true -> forallb q l = true.
Proof.
  induction 1 as [|x l Hx _ IH]; simpl; [reflexivity|].
  rewrite !andb_true_iff. intros [H1 H2]. auto.
Qed.

(** What is left of a node that can be cloned can be cloned. *)
Lemma stripNode_cloneable (n : Node) :
  cloneable n = true -> forallb cloneable (stripNode n) = true.
Proof.
  induction n as [s e c IH| | | |m IHc IHe] using Node_induction;
    try (intros _; reflexivity).
  - cbn [cloneable stripNode forallb]. intros H. rewrite andb_true_r.
    rewrite forallb_flat_map_eq. revert H. apply forallb_impl_Forall. exact IH.
  - destruct m as [t r h a s e st c x].
    cbn [cloneable stripNode m_type m_mod m_head m_arguments m_start
         m_end m_state m_content m_expansion] in *.
    rewrite !andb_true_iff. intros [[Ha Hc] Hx].
    assert (Hkeep : forallb cloneable
                      [ModifierNode
                         (set_content (mkModifier t r h a s e st c None)
                            (flat_map stripNode c))] = true).
    { cbn [forallb cloneable set_content m_type m_mod m_head m_arguments m_start
           m_end m_state m_content m_expansion].
      rewrite Ha, forallb_flat_map_eq. cbn [andb]. rewrite !andb_true_r.
      revert Hc. apply forallb_impl_Forall. exact IHc. }
    destruct t; [|reflexivity|]; (destruct x as [x|]; [|exact Hkeep]);
      rewrite forallb_flat_map_eq; revert Hx; apply forallb_impl_Forall;
      apply IHe; reflexivity.
Qed.

(** X7.  Stripping commutes with cloning where cloning returns: when
    [cloneNode] returns a clone of a node, cloning the nodes that
    [stripNode] makes of the node returns what [stripNode] makes of the
    clone, and the same holds for a root; so a stripped clone carries no
    state.  Cloning after stripping can return where cloning before
    stripping throws, since stripping removes nodes. *)
Theorem strip_commutes_with_clone :
  (forall n n',
      cloneNode n = Some n' ->
      map_option cloneNode (stripNode n) = Some (stripNode n'))
  /\ (forall r r',
        cloneRoot r = Some r' ->
        cloneRoot (stripRoot r) = Some (stripRoot r')
        /\ forallb stateless (root_content (stripRoot r')) = true)
  /\ (forall m,
        m_type m = system -> cloneable (ModifierNode m) = false ->
        cloneNode (ModifierNode m) = None
        /\ map_option cloneNode (stripNode (ModifierNode m)) = Some []).
Proof.
  assert (Hlist : forall l,
            map_option cloneNode l
            = if forallb cloneable l then Some (map without_state l) else None).
  { intros l. apply map_option_spec, Forall_forall. intros n _.
    apply cloneNode_spec. }
  split; [|split].
  - intros n n' H. rewrite cloneNode_spec in H.
    destruct (cloneable n) eqn:E; [|discriminate]. injection H as <-.
    rewrite Hlist, (stripNode_cloneable n E), stripNode_without_state. reflexivity.
  - intros [s e c] r' H. unfold cloneRoot, stripRoot in *.
    cbn [root_start root_end root_content] in *.
    rewrite Hlist in H |- *.
    destruct (forallb cloneable c) eqn:E; [|discriminate].
    injection H as <-. cbn [root_start root_end root_content option_map].
    assert (Hs : forallb cloneable (flat_map stripNode c) = true).
    { rewrite forallb_flat_map_eq. revert E. apply forallb_impl_Forall.
      apply Forall_forall. intros n _. apply stripNode_cloneable. }
    rewrite Hs. cbn [option_map].
    assert (Hc : map without_state (flat_map stripNode c)
                 = flat_map stripNode (map without_state c)).
    { rewrite flat_map_map, map_flat_map.
      apply flat_map_ext_Forall, Forall_forall. intros n _.
      symmetry. apply stripNode_without_state. }
    rewrite Hc. split; [reflexivity|].
    rewrite <- Hc. apply forallb_map_Forall, Forall_forall. intros n _.
    apply without_state_stateless.
  - intros m Ht Hc. rewrite cloneNode_spec, Hc. split; [reflexivity|].
    destruct m as [t r h a s e st c x]. cbn [m_type] in Ht. subst t. reflexivity.
Qed.

(** *** Runs of text *)

(** The text of the text nodes of a list, in order; and whether no two
    text nodes are neighbours. *)
Fixpoint texts (l : list Node) : string :=
  match l with
  | [] => EmptyString
  | TextNode _ _ c :: l' => (c ++ texts l')%string
  | _ :: l' => texts l'
  end.

Fixpoint no_adjacent_text (l : list Node) : bool :=
  match l with
  | [] => true
  | TextNode _ _ _ :: l' =>
      (match l' with TextNode _ _ _ :: _ => false | _ => true end
       && no_adjacent_text l')%bool
  | _ :: l' => no_adjacent_text l'
  end.

(** The same for the entities of an argument; and whether every text
    entity spans as many positions as it has characters. *)
Fixpoint arg_texts (l : list ArgumentEntity) : string :=
  match l with
  | [] => EmptyString
  | ArgText _ _ c :: l' => (c ++ arg_texts l')%string
  | _ :: l' => arg_texts l'
  end.

Fixpoint no_adjacent_arg_text (l : list ArgumentEntity) : bool :=
  match l with
  | [] => true
  | ArgText _ _ _ :: l' =>
      (match l' with ArgText _ _ _ :: _ => false | _ => true end
       && no_adjacent_arg_text l')%bool
  | _ :: l' => no_adjacent_arg_text l'
  end.

Definition text_range_ok (e : ArgumentEntity) : bool :=
  match e with
  | ArgText s e c => e - s =? slen c
  | _ => true
  end.

Lemma texts_app (a b : list Node) : texts (a ++ b) = (texts a ++ texts b)%string.
Proof.
  induction a as [|x a IH]; simpl; [reflexivity|].
  destruct x; try exact IH. rewrite IH, string_app_assoc. reflexivity.
Qed.

Lemma arg_texts_app (a b : list ArgumentEntity) :
  arg_texts (a ++ b) = (arg_texts a ++ arg_texts b)%string.
Proof.
  induction a as [|x a IH]; simpl; [reflexivity|].
  destruct x; try exact IH. rewrite IH, string_app_assoc. reflexivity.
Qed.

Lemma no_adjacent_text_snoc (a : list Node) (x : Node) :
  no_adjacent_text (a ++ [x])
  = (no_adjacent_text a
     && match x, rev a with
        | TextNode _ _ _, TextNode _ _ _ :: _ => false
        | _, _ => true
        end)%bool.
Proof.
  induction a as [|y a IH]; simpl.
  - destruct x; reflexivity.
  - rewrite IH. destruct a as [|z a]; simpl.
    + destruct y, x; reflexivity.
    + destruct (rev a ++ [z]) as [|w l] eqn:E.
      { destruct (rev a); discriminate. }
      assert (Hw : rev a ++ [z; y] = (w :: l) ++ [y]).
      { rewrite <- E, <- app_assoc. reflexivity. }
      change (rev a ++ [z] ++ [y]) with (rev a ++ [z; y]).
      replace ((rev a ++ [z]) ++ [y]) with ((w :: l) ++ [y]) by (rewrite E; reflexivity).
      simpl. destruct y, z; simpl; rewrite ?andb_true_r, ?andb_false_r;
        try reflexivity; destruct (no_adjacent_text a); reflexivity.
Qed.

Lemma no_adjacent_arg_text_snoc (a : list ArgumentEntity) (x : ArgumentEntity) :
  no_adjacent_arg_text (a ++ [x])
  = (no_adjacent_arg_text a
     && match x, rev a with
        | ArgText _ _ _, ArgText _ _ _ :: _ => false
        | _, _ => true
        end)%bool.
Proof.
  induction a as [|y a IH]; simpl.
  - destruct x; reflexivity.
  - rewrite IH. destruct a as [|z a]; simpl.
    + destruct y, x; reflexivity.
    + destruct (rev a ++ [z]) as [|w l] eqn:E.
      { destruct (rev a); discriminate. }
      replace ((rev a ++ [z]) ++ [y]) with ((w :: l) ++ [y]) by (rewrite E; reflexivity).
      simpl. destruct y, z; simpl; rewrite ?andb_true_r, ?andb_false_r;
        try reflexivity; destruct (no_adjacent_arg_text a); reflexivity.
Qed.

Lemma add_string_merges (content : list Node) (s : string) (pos : Z) :
  texts (add_string content s pos) = (texts content ++ s)%string
  /\ (no_adjacent_text content = true ->
      no_adjacent_text (add_string content s pos) = true)
  /\ (List.length (add_string content s pos) <= S (List.length content))%nat
  /\ (List.length content <= List.length (add_string content s pos))%nat.
Proof.
  unfold add_string.
  destruct (rev content) as [|x before] eqn:E.
  - apply (f_equal (@rev Node)) in E. rewrite rev_involutive in E. subst content.
    simpl. rewrite string_app_nil_r. repeat split; auto.
  - assert (Hc : content = rev before ++ [x]).
    { rewrite <- (rev_involutive content), E. reflexivity. }
    destruct x as [ps pe pc|ps pe cs ce t|ts te t|es ee t|m];
      try (rewrite texts_app, no_adjacent_text_snoc, E, length_app; simpl;
           rewrite string_app_nil_r;
           split; [reflexivity|]; split; [intros ->; reflexivity | lia]).
    subst content. rewrite !texts_app, !no_adjacent_text_snoc, !length_app. simpl.
    rewrite !string_app_nil_r, string_app_assoc.
    split; [reflexivity|]. split; [auto | lia].
Qed.

Lemma emitString_merges (content : list ArgumentEntity) (s : string) (pos : Z) :
  arg_texts (emitString content s pos) = (arg_texts content ++ s)%string
  /\ (no_adjacent_arg_text content = true ->
      no_adjacent_arg_text (emitString content s pos) = true)
  /\ (forallb text_range_ok content = true ->
      forallb text_range_ok (emitString content s pos) = true)
  /\ (List.length (emitString content s pos) <= S (List.length content))%nat
  /\ (List.length content <= List.length (emitString content s pos))%nat.
Proof.
  unfold emitString.
  destruct (rev content) as [|x before] eqn:E.
  - apply (f_equal (@rev ArgumentEntity)) in E. rewrite rev_involutive in E.
    subst content. simpl. rewrite string_app_nil_r.
    split; [reflexivity|]. split; [auto|]. split; [|lia]. intros _.
    rewrite andb_true_r. apply Z.eqb_eq. lia.
  - assert (Hc : content = rev before ++ [x]).
    { rewrite <- (rev_involutive content), E. reflexivity. }
    destruct x as [ts te t|es ee t|d a is_ ie];
      try (rewrite arg_texts_app, no_adjacent_arg_text_snoc, E, forallb_app, length_app;
           simpl; rewrite string_app_nil_r;
           split; [reflexivity|]; split; [intros ->; reflexivity|];
           split; [|lia];
           intros ->; simpl; rewrite andb_true_r; apply Z.eqb_eq; lia).
    subst content.
    rewrite !arg_texts_app, !no_adjacent_arg_text_snoc, !forallb_app, !length_app. simpl.
    rewrite !string_app_nil_r, string_app_assoc, !andb_true_r.
    split; [reflexivity|]. split; [auto|]. split; [|lia].
    intros H. apply andb_prop in H. destruct H as [-> H]. simpl.
    apply Z.eqb_eq in H. apply Z.eqb_eq. rewrite slen_app. lia.
Qed.

(** X8.  [addString] needs an open inline node and throws without one.
    With one, it returns and changes nothing but the content of the
    innermost open inline node: the text of that content is extended by
    the string and by nothing else, the content grows by one node at
    most, and two text nodes never come to stand side by side, because a
    trailing text node takes the string.  The [emitString] of
    [ARGUMENT_CONTENT] does the same to the entities of an argument, and
    it keeps the range of every text entity as long as its text. *)
Theorem text_runs_merge :
  (forall (s : string) (st : PState),
      inlineStack st = [] -> addString s st = Thrown)
  /\ (forall (s : string) (st : PState) (top : InlineContainer)
             (below : list InlineContainer),
        inlineStack st = top :: below ->
        exists top',
          addString s st = Done tt (set_inlineStack st (top' :: below))
          /\ inline_mod top' = inline_mod top
          /\ texts (inline_content top') = (texts (inline_content top) ++ s)%string
          /\ (no_adjacent_text (inline_content top) = true ->
              no_adjacent_text (inline_content top') = true)
          /\ (List.length (inline_content top)
              <= List.length (inline_content top')
              <= S (List.length (inline_content top)))%nat)
  /\ (forall (content : list Node) (s : string) (pos : Z),
        texts (add_string content s pos) = (texts content ++ s)%string
        /\ (no_adjacent_text content = true ->
            no_adjacent_text (add_string content s pos) = true)
        /\ (List.length (add_string content s pos) <= S (List.length content))%nat)
  /\ (forall (content : list ArgumentEntity) (s : string) (pos : Z),
        arg_texts (emitString content s pos) = (arg_texts content ++ s)%string
        /\ (no_adjacent_arg_text content = true ->
            no_adjacent_arg_text (emitString content s pos) = true)
        /\ (forallb text_range_ok content = true ->
            forallb text_range_ok (emitString content s pos) = true)
        /\ (List.length content
            <= List.length (emitString content s pos)
            <= S (List.length content))%nat).
Proof.
  split; [|split; [|split]].
  - intros s st H. unfold addString. rewrite H. reflexivity.
  - intros s st top below H.
    exists (set_inline_content top
              (add_string (inline_content top) s (position (scanner st)))).
    split; [unfold addString; rewrite H; reflexivity|].
    rewrite inline_content_set.
    destruct (add_string_merges (inline_content top) s (position (scanner st)))
      as (H1 & H2 & H3 & H4).
    split; [destruct top; reflexivity|].
    split; [exact H1|]. split; [exact H2|]. lia.
  - intros content s pos.
    destruct (add_string_merges content s pos) as (H1 & H2 & H3 & _). auto.
  - intros content s pos.
    destruct (emitString_merges content s pos) as (H1 & H2 & H3 & H4 & H5).
    split; [exact H1|]. split; [exact H2|]. split; [exact H3|]. lia.
Qed.

(** *** Arguments *)

(** A character that [ARGUMENT_CONTENT] takes as text: it neither
    separates nor closes nor escapes, and no interpolator's name begins
    with it. *)
Definition arg_char (table : list (string * InterpId)) (c : ascii) : bool :=
  (negb (Ascii.eqb ":"%char c) && negb (Ascii.eqb ";"%char c)
   && negb (Ascii.eqb "]"%char c) && negb (Ascii.eqb "\"%char c)
   && forallb (fun e => match fst e with
                        | String x _ => negb (Ascii.eqb x c)
                        | EmptyString => false
                        end) table)%bool.

(** What ends the last argument: the end sign, the closing bracket or
    the end of the input. *)
Definition closes_arguments (tail : string) : bool :=
  match tail with
  | EmptyString => true
  | String c _ => (Ascii.eqb ";"%char c || Ascii.eqb "]"%char c)%bool
  end.

(** The entities of an argument after the characters of [r] were
    emitted one by one, the first at position [p]. *)
Fixpoint emit_chars (content : list ArgumentEntity) (r : string) (p : Z)
  : list ArgumentEntity :=
  match r with
  | EmptyString => content
  | String c r' => emit_chars (emitString content (String c "") (p + 1)) r' (p + 1)
  end.

(** The segments between colons, and the arguments they make. *)
Fixpoint join_segments (segs : list string) : string :=
  match segs with
  | [] => EmptyString
  | [s] => s
  | s :: rest => (s ++ ":" ++ join_segments rest)%string
  end.

Definition segment_argument (seg : string) (p : Z) : ModifierArgument :=
  mkArgument p (p + slen seg)
    (match seg with
     | EmptyString => []
     | _ => [ArgText p (p + slen seg) seg]
     end).

Fixpoint segment_arguments (segs : list string) (p : Z) : list ModifierArgument :=
  match segs with
  | [] => []
  | seg :: rest => segment_argument seg p :: segment_arguments rest (p + slen seg + 1)
  end.

Lemma emitString_text (before : list ArgumentEntity) (s e : Z) (t str : string)
  (pos : Z) :
  emitString (before ++ [ArgText s e t]) str pos
  = before ++ [ArgText s (e + slen str) (t ++ str)].
Proof.
  unfold emitString. rewrite rev_app_distr. simpl. rewrite rev_involutive.
  reflexivity.
Qed.

Lemma emit_chars_text (r : string) :
  forall before s e t p,
    emit_chars (before ++ [ArgText s e t]) r p
    = before ++ [ArgText s (e + slen r) (t ++ r)].
Proof.
  induction r as [|c r IH]; intros before s e t p.
  - simpl. rewrite string_app_nil_r.
    replace (e + slen "") with e by (unfold slen; simpl; lia). reflexivity.
  - cbn [emit_chars]. rewrite emitString_text, IH.
    rewrite string_app_assoc. cbn [append].
    replace (e + slen (String c "") + slen r) with (e + slen (String c r))
      by (unfold slen; simpl String.length; lia).
    reflexivity.
Qed.

Lemma emit_chars_segment (seg : string) (p : Z) :
  mkArgument p (if String.eqb seg "" then p else p + slen seg) (emit_chars [] seg p)
  = segment_argument seg p.
Proof.
  unfold segment_argument. destruct seg as [|c r].
  - simpl. replace (p + slen "") with p by (unfold slen; simpl; lia). reflexivity.
  - cbn [emit_chars String.eqb]. unfold emitString at 1. cbn [rev app].
    pose proof (emit_chars_text r [] (p + 1 - slen (String c "")) (p + 1)
                  (String c "") (p + 1)) as H.
    cbn [app] in H. rewrite H. rewrite slen_String.
    replace (p + 1 - slen (String c "")) with p by (unfold slen; simpl; lia).
    replace (p + 1 + slen r) with (p + (1 + slen r)) by lia. reflexivity.
Qed.

Lemma arg_char_facts (table : list (string * InterpId)) (c : ascii) :
  arg_char table c = true ->
  Ascii.eqb ":"%char c = false /\ Ascii.eqb ";"%char c = false
  /\ Ascii.eqb "]"%char c = false /\ Ascii.eqb "\"%char c = false
  /\ forall p r, find_accept table (mkScanner p (String c r))
                 = (None, mkScanner p (String c r)).
Proof.
  unfold arg_char. intros H.
  apply andb_prop in H. destruct H as [H H5].
  apply andb_prop in H. destruct H as [H H4].
  apply andb_prop in H. destruct H as [H H3].
  apply andb_prop in H. destruct H as [H1 H2].
  apply negb_true_iff in H1, H2, H3, H4.
  repeat (split; [assumption|]).
  intros p r. apply find_accept_none.
  rewrite forallb_forall in H5. apply Forall_forall. intros e He.
  specialize (H5 e He). destruct (fst e) as [|x s]; [discriminate|].
  apply negb_true_iff in H5. apply peek_other. exact H5.
Qed.

(** One turn of the loop of [ARGUMENT_CONTENT] on a character of the
    text of an argument. *)
Lemma ARGUMENT_CONTENT_loop_char (fuel : nat) (posStart : Z)
  (content : list ArgumentEntity) (posEnd p : Z) (c : ascii) (r : string)
  ms bs ins rf cx gd pf :
  arg_char (p_interpolator pf) c = true ->
  ARGUMENT_CONTENT_loop (S fuel) None posStart content posEnd
    (mkState (mkScanner p (String c r)) ms bs ins rf cx gd pf)
  = ARGUMENT_CONTENT_loop fuel None posStart
      (emitString content (String c "") (p + 1)) (p + 1)
      (mkState (mkScanner (p + 1) r) ms bs ins rf cx gd pf).
Proof.
  intros H. destruct (arg_char_facts _ c H) as (H1 & H2 & H3 & H4 & H5).
  cbn [ARGUMENT_CONTENT_loop].
  erewrite bind_done by reflexivity. cbv beta iota.
  erewrite bind_done
    by (unfold s_accept; cbn [scanner];
        rewrite (accept_other _ _ _ _ _ H1); reflexivity).
  cbv beta iota.
  erewrite bind_done
    by (unfold s_peek, MODIFIER_END_SIGN; cbn [scanner set_scanner];
        rewrite (peek_other _ _ _ _ _ H2); reflexivity).
  cbv beta iota.
  erewrite bind_done
    by (unfold s_peek, MODIFIER_CLOSE_SIGN; cbn [scanner set_scanner];
        rewrite (peek_other _ _ _ _ _ H3); reflexivity).
  cbv beta iota.
  erewrite bind_done by reflexivity. cbv beta iota.
  cbn [orb isEOF scanner set_scanner rest]. cbv iota.
  erewrite bind_done
    by (unfold s_accept, backslash; cbn [scanner set_scanner];
        rewrite (accept_other _ _ _ _ _ H4); reflexivity).
  cbv beta iota.
  erewrite bind_done
    by (unfold find_interpolator; cbn [scanner set_scanner prefixes];
        rewrite H5; reflexivity).
  cbv beta iota.
  erewrite bind_done by reflexivity. cbv beta iota.
  erewrite bind_done by reflexivity. cbv beta iota.
  reflexivity.
Qed.

Lemma ARGUMENT_CONTENT_loop_segment (seg : string) :
  forall fuel posStart content posEnd p tail ms bs ins rf cx gd pf,
    all_chars (arg_char (p_interpolator pf)) seg = true ->
    (closes_arguments tail
     || match tail with String c _ => Ascii.eqb ":"%char c | EmptyString => false end)%bool
    = true ->
    (String.length seg < fuel)%nat ->
    ARGUMENT_CONTENT_loop fuel None posStart content posEnd
      (mkState (mkScanner p (seg ++ tail)) ms bs ins rf cx gd pf)
    = Done (mkArgument posStart
              (if String.eqb seg "" then posEnd else p + slen seg)
              (emit_chars content seg p),
            match tail with
            | String c _ => Ascii.eqb ":"%char c
            | EmptyString => false
            end)
        (mkState
           (match tail with
            | String c t =>
                if Ascii.eqb ":"%char c then mkScanner (p + slen seg + 1) t
                else mkScanner (p + slen seg) tail
            | EmptyString => mkScanner (p + slen seg) tail
            end)
           ms bs ins rf cx gd pf).
Proof.
  induction seg as [|c r IH];
    intros fuel posStart content posEnd p tail ms bs ins rf cx gd pf Hseg Htail Hfuel.
  - destruct fuel as [|fuel]; [simpl in Hfuel; lia|].
    cbn [append emit_chars String.eqb].
    replace (p + slen "") with p by (unfold slen; simpl; lia).
    destruct tail as [|c t].
    + reflexivity.
    + unfold closes_arguments in Htail.
      destruct (Ascii.eqb ":"%char c) eqn:E1.
      { apply Ascii.eqb_eq in E1. subst c. reflexivity. }
      rewrite orb_false_r in Htail.
      destruct (Ascii.eqb ";"%char c) eqn:E2.
      { apply Ascii.eqb_eq in E2. subst c. reflexivity. }
      destruct (Ascii.eqb "]"%char c) eqn:E3; [|discriminate].
      apply Ascii.eqb_eq in E3. subst c. reflexivity.
  - simpl in Hseg. apply andb_prop in Hseg. destruct Hseg as [Hc Hr].
    destruct fuel as [|fuel]; [simpl in Hfuel; lia|].
    cbn [append]. rewrite ARGUMENT_CONTENT_loop_char by exact Hc.
    rewrite IH; [|exact Hr|exact Htail|simpl in Hfuel; lia].
    cbn [emit_chars String.eqb]. rewrite slen_String.
    replace (p + 1 + slen r) with (p + (1 + slen r)) by lia.
    assert (He : (if String.eqb r "" then p + 1 else p + (1 + slen r))
                 = p + (1 + slen r)).
    { destruct (String.eqb r "") eqn:E; [|reflexivity].
      apply String.eqb_eq in E. subst r. unfold slen. simpl. lia. }
    rewrite He. reflexivity.
Qed.

Lemma ARGUMENT_CONTENT_segment (seg : string) (fuel : nat) (p : Z) (tail : string)
  ms bs ins rf cx gd pf :
  all_chars (arg_char (p_interpolator pf)) seg = true ->
  (closes_arguments tail
   || match tail with String c _ => Ascii.eqb ":"%char c | EmptyString => false end)%bool
  = true ->
  (String.length seg < fuel)%nat ->
  ARGUMENT_CONTENT fuel None
    (mkState (mkScanner p (seg ++ tail)) ms bs ins rf cx gd pf)
  = Done (segment_argument seg p,
          match tail with
          | String c _ => Ascii.eqb ":"%char c
          | EmptyString => false
          end)
      (mkState
         (match tail with
          | String c t =>
              if Ascii.eqb ":"%char c then mkScanner (p + slen seg + 1) t
              else mkScanner (p + slen seg) tail
          | EmptyString => mkScanner (p + slen seg) tail
          end)
         ms bs ins rf cx gd pf).
Proof.
  intros Hseg Htail Hfuel. unfold ARGUMENT_CONTENT.
  erewrite bind_done by reflexivity. cbv beta. cbn [scanner position].
  rewrite ARGUMENT_CONTENT_loop_segment by assumption.
  rewrite emit_chars_segment. reflexivity.
Qed.

Lemma closes_arguments_colon (tail : string) :
  closes_arguments tail = true ->
  match tail with String c _ => Ascii.eqb ":"%char c | EmptyString => false end = false.
Proof.
  destruct tail as [|c t]; [reflexivity|]. unfold closes_arguments. intros H.
  apply orb_prop in H. destruct H as [H|H]; apply Ascii.eqb_eq in H; subst c; reflexivity.
Qed.

Lemma ARGUMENTS_loop_segments (segs : list string) :
  forall fuel first args p tail ms bs ins rf cx gd pf,
    segs <> [] ->
    Forall (fun seg => all_chars (arg_char (p_interpolator pf)) seg = true) segs ->
    closes_arguments tail = true ->
    (first = true \/ args <> [] \/ segs <> [EmptyString]) ->
    (String.length (join_segments segs) + 1 < fuel)%nat ->
    ARGUMENTS_loop fuel first args
      (mkState (mkScanner p (join_segments segs ++ tail)) ms bs ins rf cx gd pf)
    = Done (args ++ segment_arguments segs p)
        (mkState (mkScanner (p + slen (join_segments segs)) tail)
           ms bs ins rf cx gd pf).
Proof.
  induction segs as [|seg segs IH];
    intros fuel first args p tail ms bs ins rf cx gd pf Hne Hsegs Htail Hfirst Hfuel;
    [congruence|].
  inversion Hsegs as [|? ? Hseg Hrest]; subst.
  destruct fuel as [|fuel]; [lia|].
  cbn [ARGUMENTS_loop].
  destruct segs as [|seg' segs].
  - cbn [join_segments segment_arguments] in *.
    erewrite bind_done
      by (apply ARGUMENT_CONTENT_segment;
          [exact Hseg | rewrite Htail; reflexivity | lia]).
    cbv beta iota. rewrite (closes_arguments_colon _ Htail). cbn [negb].
    assert (Hsc : match tail with
                  | String c t =>
                      if Ascii.eqb ":"%char c then mkScanner (p + slen seg + 1) t
                      else mkScanner (p + slen seg) tail
                  | EmptyString => mkScanner (p + slen seg) tail
                  end = mkScanner (p + slen seg) tail).
    { pose proof (closes_arguments_colon _ Htail) as Hc.
      destruct tail as [|c t]; [reflexivity|]. rewrite Hc. reflexivity. }
    rewrite Hsc.
    destruct ((Z.of_nat (List.length args) =? 0)
              && (Z.of_nat (List.length (arg_content (segment_argument seg p))) =? 0)
              && negb first)%bool eqn:E; [|reflexivity].
    exfalso.
    apply andb_prop in E. destruct E as [E E3].
    apply andb_prop in E. destruct E as [E1 E2].
    apply negb_true_iff in E3. apply Z.eqb_eq in E1, E2.
    destruct Hfirst as [Hf|[Hf|Hf]].
    + congruence.
    + destruct args; [congruence | simpl in E1; lia].
    + destruct seg; [congruence | simpl in E2; lia].
  - assert (Hj : join_segments (seg :: seg' :: segs)
                 = (seg ++ ":" ++ join_segments (seg' :: segs))%string) by reflexivity.
    rewrite Hj in *. rewrite string_app_assoc.
    assert (Hlen : String.length (seg ++ ":" ++ join_segments (seg' :: segs))
                   = (String.length seg + 1 + String.length (join_segments (seg' :: segs)))%nat).
    { clear. induction seg as [|c s IHs]; simpl in *; [reflexivity|]. rewrite IHs. lia. }
    rewrite Hlen in Hfuel.
    erewrite bind_done
      by (apply ARGUMENT_CONTENT_segment;
          [exact Hseg | reflexivity | lia]).
    cbv beta iota. cbn [append]. rewrite !Ascii.eqb_refl. cbn [negb]. cbv iota.
    rewrite IH; try assumption; try discriminate; try lia.
    + cbn [segment_arguments]. rewrite <- app_assoc. cbn [app].
      rewrite !slen_app, slen_String.
      replace (p + (slen seg + (1 + slen (join_segments (seg' :: segs)))))
        with (p + slen seg + 1 + slen (join_segments (seg' :: segs))) by lia.
      reflexivity.
    + right. left. destruct args; discriminate.
Qed.

Definition begins_with_nonblank (s : string) : bool :=
  match s with
  | String c _ => negb (is_blank c)
  | EmptyString => false
  end.

(** X9.  In a modifier head, after an optional leading colon, text made
    of plain characters up to the closing bracket, the end sign or the
    end of the input is split at its colons: [ARGUMENTS] returns one
    argument for every segment, in order, an empty segment giving an
    argument without entities and any other a single text entity that
    holds the segment and spans it; the cursor is left at what closes the
    arguments, and nothing else changes.  Without the leading colon the
    first segment has to begin with a character that is not skipped as
    blank. *)
Theorem ARGUMENTS_segments (fuel : nat) (lead : bool) (segs : list string)
  (tail : string) (st : PState) :
  segs <> [] ->
  Forall (fun seg => all_chars (arg_char (p_interpolator (prefixes st))) seg = true)
         segs ->
  closes_arguments tail = true ->
  (lead = false -> begins_with_nonblank (hd EmptyString segs) = true) ->
  rest (scanner st)
  = ((if lead then ":" else "") ++ join_segments segs ++ tail)%string ->
  (String.length (join_segments segs) + 1 < fuel)%nat ->
  let p := position (scanner st) + (if lead then 1 else 0) in
  ARGUMENTS fuel st
  = Done (segment_arguments segs p)
      (set_scanner st (mkScanner (p + slen (join_segments segs)) tail)).
Proof.
  intros Hne Hsegs Htail Hlead Hrest Hfuel p.
  destruct st as [[p0 r0] ms bs ins rf cx gd pf].
  cbn [scanner rest position prefixes] in *. subst r0. unfold ARGUMENTS.
  destruct lead.
  - erewrite bind_done by reflexivity. cbv beta iota. cbn [negb when].
    erewrite bind_done by reflexivity. cbv beta.
    unfold set_scanner.
    cbn [scanner messages blockStack inlineStack referringStack cxt
         groupDepth prefixes position].
    rewrite ARGUMENTS_loop_segments; try assumption; [reflexivity | left; reflexivity].
  - specialize (Hlead eq_refl).
    destruct segs as [|seg segs]; [congruence|].
    destruct seg as [|c r]; [discriminate|].
    inversion Hsegs as [|? ? Hseg _]; subst.
    pose proof Hseg as Hc. simpl in Hc. apply andb_prop in Hc. destruct Hc as [Hc _].
    destruct (arg_char_facts _ c Hc) as (H1 & _).
    cbn [hd begins_with_nonblank] in Hlead. apply negb_true_iff in Hlead.
    assert (Hj : exists r', (join_segments (String c r :: segs) ++ tail)%string
                            = String c r').
    { destruct segs; cbn [join_segments append]; eexists; reflexivity. }
    destruct Hj as (r' & Hj).
    cbn [append].
    erewrite bind_done
      by (unfold s_accept; cbn [scanner]; rewrite Hj;
          rewrite (accept_other _ _ _ _ _ H1); reflexivity).
    cbv beta iota. cbn [negb when].
    erewrite bind_done
      by (unfold WHITESPACES_OR_NEWLINES, modify;
          cbn [set_scanner scanner rest position];
          cbn [skip_whitespace_or_newline];
          unfold is_blank in Hlead; rewrite Hlead; reflexivity).
    cbv beta.
    unfold set_scanner.
    cbn [scanner messages blockStack inlineStack referringStack cxt
         groupDepth prefixes position].
    rewrite <- Hj.
    rewrite ARGUMENTS_loop_segments; try assumption.
    + unfold p. replace (p0 + 0) with p0 by lia. reflexivity.
    + right. right. discriminate.
Qed.

(** *** Preformatted text *)

Lemma skip_whitespace_spec (r : string) :
  forall pos, exists ws r',
    r = (ws ++ r')%string
    /\ all_chars is_whitespace ws = true
    /\ skip_whitespace pos r = mkScanner (pos + slen ws) r'
    /\ substring 0 (String.length ws) r = ws.
Proof.
  induction r as [|c r IH]; intros pos.
  - exists EmptyString, EmptyString. simpl. repeat split.
    f_equal. unfold slen. simpl. lia.
  - simpl. destruct (is_whitespace c) eqn:E.
    + destruct (IH (pos + 1)) as (ws & r' & Hr & Hw & Hs & Hsub).
      exists (String c ws), r'. simpl. rewrite E, Hw, Hs, <- Hr.
      split; [reflexivity|]. split; [reflexivity|]. split.
      * rewrite slen_String. f_equal. lia.
      * f_equal. exact Hsub.
    + exists EmptyString, (String c r). simpl. repeat split.
      f_equal. unfold slen. simpl. lia.
Qed.

Lemma PRE_PARAGRAPH_loop_verbatim (fuel : nat) :
  forall grouped str p r ms bs ins rf cx gd pf,
    (String.length r < fuel)%nat ->
    exists taken skipped r' extra,
      r = (taken ++ skipped ++ r')%string
      /\ PRE_PARAGRAPH_loop fuel grouped str p
           (mkState (mkScanner p r) ms bs ins rf cx gd pf)
         = Done ((str ++ taken)%string, p + slen taken)
             (mkState (mkScanner (p + slen taken + slen skipped) r')
                (ms ++ extra) bs ins rf cx gd pf).
Proof.
  induction fuel as [|fuel IH];
    intros grouped str p r ms bs ins rf cx gd pf Hf; [lia|].
  destruct r as [|c r1].
  - exists EmptyString, EmptyString, EmptyString, []. split; [reflexivity|].
    cbn [PRE_PARAGRAPH_loop]. erewrite bind_done by reflexivity. cbv beta iota.
    unfold isEOF. cbn [scanner rest]. cbv iota. unfold ret.
    rewrite string_app_nil_r, app_nil_r.
    replace (p + slen "") with p by (unfold slen; simpl; lia).
    replace (p + slen "") with p by (unfold slen; simpl; lia). reflexivity.
  - cbn [PRE_PARAGRAPH_loop]. erewrite bind_done by reflexivity. cbv beta iota.
    unfold isEOF. cbn [scanner rest]. cbv iota.
    destruct (Ascii.eqb newline c) eqn:En.
    + apply Ascii.eqb_eq in En. subst c.
      erewrite bind_done by reflexivity. cbv beta iota.
      erewrite bind_done by reflexivity. cbv beta iota zeta.
      cbn [set_scanner scanner rest position].
      destruct (skip_whitespace_spec r1 (p + slen NL)) as (ws & r2 & Hr1 & Hws & Hskip & Hsub).
      replace (substring 0
                 (Z.to_nat (position (skip_whitespace (p + slen NL) r1) - (p + slen NL)))
                 r1) with ws
        by (rewrite Hskip; cbn [position];
            replace (p + slen NL + slen ws - (p + slen NL)) with (slen ws) by lia;
            unfold slen; rewrite Nat2Z.id; symmetry; exact Hsub).
      erewrite bind_done
        by (unfold ACCEPT_WHITESPACES, modify, set_scanner;
            cbn [scanner position rest]; rewrite Hskip; reflexivity).
      cbv beta.
      set (closer := if grouped then GROUP_END else NL).
      replace (if grouped then s_accept GROUP_END else s_accept NL)
        with (s_accept closer) by (unfold closer; destruct grouped; reflexivity).
      assert (Hlen : String.length r1 = (String.length ws + String.length r2)%nat).
      { rewrite Hr1. clear. induction ws as [|c w IHw]; simpl; [reflexivity|].
        rewrite IHw. reflexivity. }
      destruct (strip_prefix closer r2) as [r3|] eqn:Ec.
      * erewrite bind_done
          by (unfold s_accept, accept; cbn [scanner rest position set_scanner];
              rewrite Ec; reflexivity).
        cbv beta iota.
        exists EmptyString, (NL ++ ws ++ closer)%string, r3, [].
        apply strip_prefix_app in Ec. split.
        { rewrite Hr1, Ec. cbn [append NL]. rewrite !string_app_assoc. reflexivity. }
        unfold ret. rewrite string_app_nil_r, app_nil_r.
        replace (p + slen "") with p by (unfold slen; simpl; lia).
        rewrite !slen_app.
        replace (p + slen NL + slen ws + slen closer)
          with (p + (slen NL + (slen ws + slen closer))) by lia.
        reflexivity.
      * erewrite bind_done
          by (unfold s_accept, accept; cbn [scanner rest position set_scanner];
              rewrite Ec; reflexivity).
        cbv beta iota.
        erewrite bind_done by reflexivity. cbv beta iota.
        unfold isEOF. cbn [scanner rest set_scanner]. 
        destruct r2 as [|c2 r2'].
        -- exists EmptyString, (NL ++ ws)%string, EmptyString,
             (if grouped
              then [refer (ExpectedMessage (p + slen NL + slen ws) GROUP_END) rf]
              else []).
           split.
           { rewrite Hr1. cbn [append NL]. rewrite !string_app_nil_r. reflexivity. }
           rewrite string_app_nil_r.
           replace (p + slen "") with p by (unfold slen; simpl; lia).
           rewrite slen_app.
           replace (p + (slen NL + slen ws)) with (p + slen NL + slen ws) by lia.
           destruct grouped; [reflexivity|].
           unfold bind, when, ret. rewrite app_nil_r. reflexivity.
        -- erewrite bind_done by reflexivity. cbv beta.
           cbn [position scanner set_scanner].
           destruct (IH grouped (str ++ NL ++ ws)%string (p + slen NL + slen ws)
                       (String c2 r2') ms bs ins rf cx gd pf)
             as (taken & skipped & r' & extra & Hr & Hrun).
           { simpl in Hf. rewrite Hlen in Hf. lia. }
           exists (NL ++ ws ++ taken)%string, skipped, r', extra.
           split.
           { rewrite Hr1, Hr. cbn [append NL]. rewrite !string_app_assoc. reflexivity. }
           unfold set_scanner.
           cbn [scanner messages blockStack inlineStack referringStack cxt
                groupDepth prefixes].
           rewrite Hrun. rewrite !string_app_assoc, !slen_app.
           replace (p + slen NL + slen ws + slen taken)
             with (p + (slen NL + (slen ws + slen taken))) by lia.
           reflexivity.
    + erewrite bind_done
        by (unfold s_accept, NL; cbn [scanner];
            rewrite (accept_other _ _ _ _ _ En); reflexivity).
      cbv beta iota.
      erewrite bind_done by reflexivity. cbv beta.
      erewrite bind_done by reflexivity. cbv beta.
      cbn [position scanner set_scanner].
      destruct (IH grouped (str ++ String c "")%string (p + 1) r1
                  ms bs ins rf cx gd pf)
        as (taken & skipped & r' & extra & Hr & Hrun).
      { simpl in Hf. lia. }
      exists (String c taken), skipped, r', extra.
      split; [rewrite Hr; reflexivity|].
      unfold set_scanner.
      cbn [scanner messages blockStack inlineStack referringStack cxt
           groupDepth prefixes].
      rewrite Hrun. rewrite string_app_assoc, slen_String. cbn [append].
      replace (p + 1 + slen taken) with (p + (1 + slen taken)) by lia.
      reflexivity.
Qed.

(** On every input that is not empty [PRE_PARAGRAPH] returns: the input
    at the cursor is an opening (empty unless the group sign stands
    there), the text of the node, what closes it, and the rest; the node
    that is added to the open block starts at the cursor, ends where the
    scanner is left, and its content spans exactly the text. *)
Lemma PRE_PARAGRAPH_returns (fuel : nat) (st : PState)
  (top : BlockContainer) (below : list BlockContainer) :
  rest (scanner st) <> EmptyString ->
  blockStack st = top :: below ->
  (remaining st < fuel)%nat ->
  exists opening text closing rest' extra,
    rest (scanner st) = (opening ++ text ++ closing ++ rest')%string
    /\ (peek GROUP_BEGIN (scanner st) = false -> opening = EmptyString)
    /\ let p := position (scanner st) in
       let cs := p + slen opening in
       let ce := cs + slen text in
       let e := ce + slen closing in
       PRE_PARAGRAPH fuel st
       = Done tt
           (mkState (mkScanner e rest') (messages st ++ extra)
              (push_block top (PreNode p e cs ce text) :: below)
              (inlineStack st) (referringStack st) (cxt st) (groupDepth st)
              (prefixes st)).
Proof.
  intros Hne Hb Hf.
  destruct st as [[p r] ms bs ins rf cx gd pf].
  cbn [scanner rest position blockStack messages inlineStack referringStack cxt
       groupDepth prefixes] in *.
  unfold remaining in Hf. cbn [scanner rest] in Hf. subst bs.
  destruct r as [|c0 r0]; [congruence|]. clear Hne.
  unfold PRE_PARAGRAPH.
  erewrite bind_done by reflexivity. cbv beta.
  erewrite bind_done by reflexivity. cbv beta.
  erewrite bind_done by reflexivity. cbv beta.
  cbn [position scanner].
  unfold peek. cbn [rest].
  destruct (strip_prefix GROUP_BEGIN (String c0 r0)) as [r1|] eqn:Eg.
  - apply strip_prefix_app in Eg.
    assert (Hl1 : String.length (String c0 r0) = (3 + String.length r1)%nat).
    { rewrite Eg. reflexivity. }
    erewrite bind_done
      by (unfold s_accept, accept; cbn [scanner rest position]; rewrite Eg;
          rewrite strip_prefix_self; reflexivity).
    cbv beta. cbn [when].
    destruct (skip_whitespace_spec r1 (p + slen GROUP_BEGIN))
      as (ws & r2 & Hr1 & Hws & Hskip & _).
    assert (Hl2 : String.length r1 = (String.length ws + String.length r2)%nat).
    { rewrite Hr1. clear. induction ws as [|c w IHw]; simpl; [reflexivity|].
      rewrite IHw. reflexivity. }
    destruct (strip_prefix NL r2) as [r3|] eqn:En.
    + apply strip_prefix_app in En.
      assert (Hl3 : String.length r2 = S (String.length r3)).
      { rewrite En. reflexivity. }
      erewrite bind_done
        by (unfold SHOULD_BE_A_NEWLINE;
            erewrite bind_done
              by (unfold ACCEPT_WHITESPACES, modify, set_scanner;
                  cbn [scanner position rest]; rewrite Hskip; reflexivity);
            cbv beta;
            erewrite bind_done
              by (unfold s_accept, accept; cbn [scanner rest position set_scanner];
                  rewrite En, strip_prefix_self; reflexivity);
            cbv beta; reflexivity).
      cbv beta.
      erewrite bind_done by reflexivity. cbv beta.
      unfold set_scanner.
      cbn [scanner position messages blockStack inlineStack referringStack cxt
           groupDepth prefixes].
      destruct (PRE_PARAGRAPH_loop_verbatim fuel true EmptyString
                  (p + slen GROUP_BEGIN + slen ws + slen NL) r3
                  ms (top :: below) ins rf cx gd pf)
        as (taken & skipped & r' & extra & Hr & Hrun); [lia|].
      exists (GROUP_BEGIN ++ ws ++ NL)%string, taken, skipped, r', extra.
      split.
      { rewrite Eg, Hr1, En, Hr. rewrite !string_app_assoc. reflexivity. }
      split; [discriminate|].
      cbv zeta. erewrite bind_done by exact Hrun. cbv beta iota.
      erewrite bind_done by reflexivity. cbv beta.
      cbn [position scanner]. unfold addBlockNode.
      cbn [blockStack]. unfold set_blockStack.
      cbn [scanner position messages blockStack inlineStack referringStack cxt
           groupDepth prefixes append].
      rewrite !slen_app.
      replace (p + (slen GROUP_BEGIN + (slen ws + slen NL)))
        with (p + slen GROUP_BEGIN + slen ws + slen NL) by lia.
      reflexivity.
    + erewrite bind_done
        by (unfold SHOULD_BE_A_NEWLINE;
            erewrite bind_done
              by (unfold ACCEPT_WHITESPACES, modify, set_scanner;
                  cbn [scanner position rest]; rewrite Hskip; reflexivity);
            cbv beta;
            erewrite bind_done
              by (unfold s_accept, accept; cbn [scanner rest position set_scanner];
                  rewrite En; reflexivity);
            cbv beta; reflexivity).
      cbv beta.
      erewrite bind_done by reflexivity. cbv beta.
      unfold set_scanner, set_messages.
      cbn [scanner position messages blockStack inlineStack referringStack cxt
           groupDepth prefixes map].
      destruct (PRE_PARAGRAPH_loop_verbatim fuel true EmptyString
                  (p + slen GROUP_BEGIN + slen ws) r2
                  (ms ++ [refer (ContentShouldBeOnNewlineMessage
                                   (p + slen GROUP_BEGIN + slen ws)) rf])
                  (top :: below) ins rf cx gd pf)
        as (taken & skipped & r' & extra & Hr & Hrun); [lia|].
      exists (GROUP_BEGIN ++ ws)%string, taken, skipped, r',
        (refer (ContentShouldBeOnNewlineMessage (p + slen GROUP_BEGIN + slen ws)) rf
         :: extra).
      split.
      { rewrite Eg, Hr1, Hr. rewrite !string_app_assoc. reflexivity. }
      split; [discriminate|].
      cbv zeta. erewrite bind_done by exact Hrun. cbv beta iota.
      erewrite bind_done by reflexivity. cbv beta.
      cbn [position scanner]. unfold addBlockNode.
      cbn [blockStack]. unfold set_blockStack.
      cbn [scanner position messages blockStack inlineStack referringStack cxt
           groupDepth prefixes append].
      rewrite !slen_app, <- app_assoc. cbn [app].
      replace (p + (slen GROUP_BEGIN + slen ws))
        with (p + slen GROUP_BEGIN + slen ws) by lia.
      reflexivity.
  - erewrite bind_done
      by (unfold s_accept, accept; cbn [scanner rest position]; rewrite Eg;
          reflexivity).
    cbv beta. cbn [when].
    erewrite bind_done by reflexivity. cbv beta.
    erewrite bind_done by reflexivity. cbv beta.
    unfold set_scanner.
    cbn [scanner position messages blockStack inlineStack referringStack cxt
         groupDepth prefixes].
    destruct (PRE_PARAGRAPH_loop_verbatim fuel false EmptyString p (String c0 r0)
                ms (top :: below) ins rf cx gd pf)
      as (taken & skipped & r' & extra & Hr & Hrun); [lia|].
    exists EmptyString, taken, skipped, r', extra.
    split; [exact Hr|]. split; [reflexivity|].
    cbv zeta. erewrite bind_done by exact Hrun. cbv beta iota.
    erewrite bind_done by reflexivity. cbv beta.
    cbn [position scanner]. unfold addBlockNode.
    cbn [blockStack]. unfold set_blockStack.
    cbn [scanner position messages blockStack inlineStack referringStack cxt
         groupDepth prefixes append].
    replace (p + slen "") with p by (unfold slen; simpl; lia).
    reflexivity.
Qed.

(** *** Lines of a paragraph *)

Lemma PARAGRAPH_loop_text (r : string) :
  forall fuel p tail ms bs top below rf cx gd pf,
    all_chars plain_char r = true ->
    PARAGRAPH_loop (String.length r + fuel)
      (mkState (mkScanner p (r ++ tail)) ms bs (top :: below) rf cx gd pf)
    = PARAGRAPH_loop fuel
        (mkState (mkScanner (p + slen r) tail) ms bs
           (set_inline_content top (add_chars (inline_content top) r p) :: below)
           rf cx gd pf).
Proof.
  induction r as [|c r IH]; intros fuel p tail ms bs top below rf cx gd pf Hp.
  - cbn [String.length Nat.add append add_chars].
    rewrite set_inline_content_same.
    replace (p + slen "") with p by (unfold slen; simpl; lia). reflexivity.
  - simpl in Hp. apply andb_prop in Hp. destruct Hp as [Hc Hr].
    cbn [String.length Nat.add append PARAGRAPH_loop].
    erewrite bind_done by reflexivity. cbv beta iota.
    unfold isEOF. cbn [scanner rest]. cbv iota.
    destruct (String.length r + fuel)%nat as [|f] eqn:Ef.
    + assert (fuel = O) by lia. subst fuel. reflexivity.
    + erewrite bind_done by (apply INLINE_ENTITY_plain; exact Hc).
      cbv beta iota. rewrite <- Ef, IH by exact Hr.
      rewrite inline_content_set, set_inline_content_set.
      cbn [add_chars]. rewrite slen_String.
      replace (p + 1 + slen r) with (p + (1 + slen r)) by lia. reflexivity.
Qed.

Lemma skip_whitespace_app (ws : string) :
  forall pos c r,
    all_chars is_whitespace ws = true ->
    is_whitespace c = false ->
    skip_whitespace pos (ws ++ String c r) = mkScanner (pos + slen ws) (String c r).
Proof.
  induction ws as [|w ws IH]; intros pos c r Hw Hc.
  - cbn [append skip_whitespace]. rewrite Hc.
    replace (pos + slen "") with pos by (unfold slen; simpl; lia). reflexivity.
  - simpl in Hw. apply andb_prop in Hw. destruct Hw as [Hw Hws].
    cbn [append skip_whitespace]. rewrite Hw, IH by assumption.
    rewrite slen_String. f_equal. lia.
Qed.

(** A newline followed by a line of text goes into the text of the
    paragraph; the whitespace in front of the line is skipped. *)
Lemma INLINE_ENTITY_next_line (fuel : nat) (p : Z) (indent : string) (c : ascii)
  (r : string) ms bs top below rf cx gd pf :
  all_chars is_whitespace indent = true ->
  plain_char c = true ->
  is_whitespace c = false ->
  (peek GROUP_END (mkScanner 0 (String c r)) && (gd >? 0))%bool = false ->
  INLINE_ENTITY (S fuel)
    (mkState (mkScanner p (NL ++ indent ++ String c r)) ms bs (top :: below) rf cx
       gd pf)
  = Done true
      (mkState (mkScanner (p + 1 + slen indent) (String c r)) ms bs
         (set_inline_content top
            (add_string (inline_content top) NL (p + 1 + slen indent)) :: below)
         rf cx gd pf).
Proof.
  intros Hi Hc Hw Hg. destruct (plain_char_facts c Hc) as (H1 & H2 & H3).
  change (NL ++ indent ++ String c r)%string
    with (String newline (indent ++ String c r)).
  assert (Hb : Ascii.eqb "["%char newline = false) by reflexivity.
  assert (He : Ascii.eqb "\"%char newline = false) by reflexivity.
  cbn [INLINE_ENTITY].
  erewrite bind_done by reflexivity. cbv beta iota.
  erewrite bind_done by reflexivity. cbv beta iota.
  erewrite bind_done
    by (unfold s_peek, MODIFIER_BLOCK_OPEN; cbn [scanner];
        rewrite (peek_other _ _ _ _ _ Hb); reflexivity).
  cbv beta iota.
  erewrite bind_done
    by (unfold s_peek, MODIFIER_INLINE_OPEN; cbn [scanner];
        rewrite (peek_other _ _ _ _ _ Hb); reflexivity).
  cbv beta iota.
  erewrite bind_done
    by (unfold s_peek, MODIFIER_SYSTEM_OPEN; cbn [scanner];
        rewrite (peek_other _ _ _ _ _ Hb); reflexivity).
  cbv beta iota.
  erewrite bind_done
    by (unfold s_accept, backslash; cbn [scanner];
        rewrite (accept_other _ _ _ _ _ He); reflexivity).
  cbv beta iota.
  unfold PREFORMATTED_INLINE_ENTITY.
  erewrite bind_done by reflexivity. cbv beta iota.
  erewrite bind_done by reflexivity. cbv beta iota.
  erewrite bind_done
    by (unfold s_accept, accept, NL, set_scanner; cbn [scanner rest strip_prefix];
        rewrite Ascii.eqb_refl; reflexivity).
  cbv beta iota.
  erewrite bind_done
    by (unfold ACCEPT_WHITESPACES, modify; cbn [scanner set_scanner rest position];
        rewrite (skip_whitespace_app indent _ c r Hi Hw); reflexivity).
  cbv beta iota.
  erewrite bind_done
    by (unfold s_peek, MODIFIER_BLOCK_OPEN, set_scanner; cbn [scanner];
        rewrite (peek_other _ _ _ _ _ H1); reflexivity).
  cbv beta iota.
  erewrite bind_done
    by (unfold s_peek, MODIFIER_SYSTEM_OPEN, set_scanner; cbn [scanner];
        rewrite (peek_other _ _ _ _ _ H1); reflexivity).
  cbv beta iota.
  erewrite bind_done by reflexivity. cbv beta iota.
  erewrite bind_done by reflexivity. cbv beta iota.
  erewrite bind_done by reflexivity. cbv beta iota.
  unfold set_scanner. cbn [scanner groupDepth orb messages blockStack inlineStack
                            referringStack cxt prefixes position].
  change (slen (String newline "")) with 1.
  change (peek GROUP_END (mkScanner (p + 1 + slen indent) (String c r)))
    with (peek GROUP_END (mkScanner 0 (String c r))).
  rewrite Hg. unfold isEOF. cbn [rest orb]. cbv iota.
  erewrite bind_done
    by (unfold s_accept, NL; cbn [scanner];
        rewrite (accept_other _ _ _ _ _ H3); reflexivity).
  cbv beta iota.
  reflexivity.
Qed.

(** What follows a run of blank characters: another character, or
    nothing. *)
Definition ends_blank_run (s : string) : bool :=
  match s with
  | String c _ => negb (is_blank c)
  | EmptyString => true
  end.

Lemma count_newlines_app (skipped : string) :
  forall pos k rest',
    all_chars is_blank skipped = true ->
    ends_blank_run rest' = true ->
    count_newlines pos (skipped ++ rest') k
    = (k + count_chars is_newline skipped, mkScanner (pos + slen skipped) rest').
Proof.
  induction skipped as [|c sk IH]; intros pos k rest' Hb He.
  - cbn [append count_chars].
    replace (pos + slen "") with pos by (unfold slen; simpl; lia).
    replace (k + 0) with k by lia.
    destruct rest' as [|c r]; [reflexivity|].
    cbn [ends_blank_run] in He. apply negb_true_iff in He.
    unfold is_blank in He. apply orb_false_elim in He. destruct He as [Hw Hn].
    cbn [count_newlines]. rewrite Hn, Hw. reflexivity.
  - cbn [all_chars] in Hb. apply andb_prop in Hb. destruct Hb as [Hc Hb].
    cbn [append count_newlines count_chars]. rewrite slen_String.
    unfold is_newline at 1.
    destruct (Ascii.eqb c newline) eqn:En.
    + rewrite IH by assumption.
      apply (f_equal2 pair); [lia | apply (f_equal2 mkScanner); [lia | reflexivity]].
    + unfold is_blank in Hc. rewrite En, orb_false_r in Hc. rewrite Hc.
      rewrite IH by assumption.
      apply (f_equal2 pair); [lia | apply (f_equal2 mkScanner); [lia | reflexivity]].
Qed.

(** A blank line ends the paragraph: the newline, the whitespace of the
    line, its newline and every blank character behind it are skipped,
    and further newlines are reported. *)
Lemma INLINE_ENTITY_blank_line (fuel : nat) (p : Z) (ws skipped rest' : string)
  ms bs ins rf cx gd pf :
  all_chars is_whitespace ws = true ->
  all_chars is_blank skipped = true ->
  ends_blank_run rest' = true ->
  INLINE_ENTITY (S fuel)
    (mkState (mkScanner p (NL ++ ws ++ NL ++ skipped ++ rest')) ms bs ins rf cx
       gd pf)
  = Done false
      (mkState (mkScanner (p + 1 + slen ws + 1 + slen skipped) rest')
         (ms ++ (if count_chars is_newline skipped >? 0
                 then [refer (UnnecessaryNewlineMessage (p + 1 + slen ws + 1)
                                (slen skipped)) rf]
                 else []))
         bs ins rf cx gd pf).
Proof.
  intros Hw Hs He.
  change (NL ++ ws ++ NL ++ skipped ++ rest')%string
    with (String newline (ws ++ String newline (skipped ++ rest'))).
  assert (Hb : Ascii.eqb "["%char newline = false) by reflexivity.
  assert (Hbs : Ascii.eqb "\"%char newline = false) by reflexivity.
  assert (Hd : Ascii.eqb "-"%char newline = false) by reflexivity.
  assert (Hn : is_whitespace newline = false) by reflexivity.
  cbn [INLINE_ENTITY].
  erewrite bind_done by reflexivity. cbv beta iota.
  erewrite bind_done by reflexivity. cbv beta iota.
  erewrite bind_done
    by (unfold s_peek, MODIFIER_BLOCK_OPEN; cbn [scanner];
        rewrite (peek_other _ _ _ _ _ Hb); reflexivity).
  cbv beta iota.
  erewrite bind_done
    by (unfold s_peek, MODIFIER_INLINE_OPEN; cbn [scanner];
        rewrite (peek_other _ _ _ _ _ Hb); reflexivity).
  cbv beta iota.
  erewrite bind_done
    by (unfold s_peek, MODIFIER_SYSTEM_OPEN; cbn [scanner];
        rewrite (peek_other _ _ _ _ _ Hb); reflexivity).
  cbv beta iota.
  erewrite bind_done
    by (unfold s_accept, backslash; cbn [scanner];
        rewrite (accept_other _ _ _ _ _ Hbs); reflexivity).
  cbv beta iota.
  unfold PREFORMATTED_INLINE_ENTITY.
  erewrite bind_done by reflexivity. cbv beta iota.
  erewrite bind_done by reflexivity. cbv beta iota.
  erewrite bind_done
    by (unfold s_accept, accept, NL, set_scanner; cbn [scanner rest strip_prefix];
        rewrite Ascii.eqb_refl; reflexivity).
  cbv beta iota.
  erewrite bind_done
    by (unfold ACCEPT_WHITESPACES, modify; cbn [scanner set_scanner rest position];
        rewrite (skip_whitespace_app ws _ newline _ Hw Hn); reflexivity).
  cbv beta iota.
  erewrite bind_done
    by (unfold s_peek, MODIFIER_BLOCK_OPEN, set_scanner; cbn [scanner];
        rewrite (peek_other _ _ _ _ _ Hb); reflexivity).
  cbv beta iota.
  erewrite bind_done
    by (unfold s_peek, MODIFIER_SYSTEM_OPEN, set_scanner; cbn [scanner];
        rewrite (peek_other _ _ _ _ _ Hb); reflexivity).
  cbv beta iota.
  erewrite bind_done
    by (unfold s_peek, GROUP_END, set_scanner; cbn [scanner];
        rewrite (peek_other _ _ _ _ _ Hd); reflexivity).
  cbv beta iota.
  erewrite bind_done by reflexivity. cbv beta iota.
  erewrite bind_done by reflexivity. cbv beta iota.
  unfold set_scanner. cbn [scanner groupDepth orb andb messages blockStack inlineStack
                            referringStack cxt prefixes position].
  change (slen (String newline "")) with 1.
  unfold isEOF. cbn [rest]. cbv iota.
  erewrite bind_done
    by (unfold s_accept, accept, NL, set_scanner; cbn [scanner rest strip_prefix];
        rewrite Ascii.eqb_refl; reflexivity).
  cbv beta iota.
  unfold WARN_IF_MORE_NEWLINES_THAN, bind, s_position, get, modify, when, message.
  cbn [scanner position rest].
  change (slen (String newline "")) with 1.
  rewrite (count_newlines_app skipped _ 0 rest' Hs He).
  cbn [Z.add].
  destruct (count_chars is_newline skipped >? 0).
  - cbn [ret set_scanner set_messages scanner messages blockStack inlineStack
         referringStack cxt groupDepth prefixes position map].
    replace (p + 1 + slen ws + 1 + slen skipped - (p + 1 + slen ws + 1))
      with (slen skipped) by lia.
    reflexivity.
  - cbn [ret set_scanner set_messages scanner messages blockStack inlineStack
         referringStack cxt groupDepth prefixes position map].
    rewrite app_nil_r. reflexivity.
Qed.

(** The lines that continue a paragraph, each with the whitespace in
    front of it: as they stand in the source, and as they stand in the
    text of the paragraph. *)
Definition lines_source (more : list (string * string)) : string :=
  fold_right (fun l acc => (NL ++ fst l ++ snd l ++ acc)%string) EmptyString more.

Definition lines_text (more : list (string * string)) : string :=
  fold_right (fun l acc => (NL ++ snd l ++ acc)%string) EmptyString more.

(** A line that continues the paragraph: whitespace, then plain
    characters, the first of them not whitespace, and not the end of the
    group that is open. *)
Definition continues (gd : Z) (l : string * string) : bool :=
  (all_chars is_whitespace (fst l) && all_chars plain_char (snd l)
   && begins_with_text (snd l)
   && negb (peek GROUP_END (mkScanner 0 (snd l)) && (gd >? 0)))%bool.

Lemma peek_GROUP_END_line (l t : string) :
  peek GROUP_END (mkScanner 0 (l ++ String newline t))
  = peek GROUP_END (mkScanner 0 l).
Proof.
  assert (Hd : Ascii.eqb "-"%char newline = false) by reflexivity.
  assert (Hc : Ascii.eqb ":"%char newline = false) by reflexivity.
  unfold peek, GROUP_END. cbn [rest].
  destruct l as [|a [|b [|c l]]]; cbn [append strip_prefix].
  - rewrite Hd. reflexivity.
  - destruct (Ascii.eqb "-"%char a); [|reflexivity]. rewrite Hd. reflexivity.
  - destruct (Ascii.eqb "-"%char a); [|reflexivity].
    destruct (Ascii.eqb "-"%char b); [|reflexivity]. rewrite Hc. reflexivity.
  - destruct (Ascii.eqb "-"%char a); [|reflexivity].
    destruct (Ascii.eqb "-"%char b); [|reflexivity].
    destruct (Ascii.eqb ":"%char c); reflexivity.
Qed.

Lemma length_app_slen (a b : string) :
  String.length (a ++ b) = (String.length a + String.length b)%nat.
Proof. pose proof (slen_app a b) as H. unfold slen in H. lia. Qed.

Lemma PARAGRAPH_loop_lines (ws skipped rest' : string) ms bs (par_s par_e : Z)
  below rf cx gd pf (more : list (string * string)) :
  all_chars is_whitespace ws = true ->
  all_chars is_blank skipped = true ->
  ends_blank_run rest' = true ->
  Forall (fun l => continues gd l = true) more ->
  forall fuel p s t,
    (String.length (lines_source more) + 1 < fuel)%nat ->
    PARAGRAPH_loop fuel
      (mkState
         (mkScanner p (lines_source more ++ NL ++ ws ++ NL ++ skipped ++ rest'))
         ms bs (IParagraph par_s par_e [TextNode s p t] :: below) rf cx gd pf)
    = Done tt
        (mkState
           (mkScanner (p + slen (lines_source more) + 1 + slen ws + 1 + slen skipped)
              rest')
           (ms ++ (if count_chars is_newline skipped >? 0
                   then [refer (UnnecessaryNewlineMessage
                                  (p + slen (lines_source more) + 1 + slen ws + 1)
                                  (slen skipped)) rf]
                   else []))
           bs
           (IParagraph par_s par_e
              [TextNode s (p + slen (lines_source more)) (t ++ lines_text more)]
            :: below)
           rf cx gd pf).
Proof.
  intros Hw Hs He Hmore. induction Hmore as [|[indent line] more Hl _ IH];
    intros fuel p s t Hf.
  - cbn [lines_source lines_text fold_right append] in *.
    destruct fuel as [|[|fuel]]; [simpl in Hf; lia | simpl in Hf; lia |].
    cbn [PARAGRAPH_loop]. erewrite bind_done by reflexivity. cbv beta iota.
    change (isEOF _) with false. cbv iota.
    erewrite bind_done
      by (apply (INLINE_ENTITY_blank_line fuel p ws skipped rest'); assumption).
    cbv beta iota. rewrite string_app_nil_r.
    change (slen "") with 0. rewrite !Z.add_0_r. reflexivity.
  - unfold continues in Hl. cbn [fst snd] in Hl.
    apply andb_prop in Hl. destruct Hl as [Hl Hg].
    apply andb_prop in Hl. destruct Hl as [Hl Hb].
    apply andb_prop in Hl. destruct Hl as [Hi Hp].
    destruct line as [|c r]; [discriminate|].
    cbn [begins_with_text] in Hb. apply negb_true_iff in Hb.
    apply negb_true_iff in Hg.
    pose proof Hp as Hc. cbn [all_chars] in Hc. apply andb_prop in Hc.
    destruct Hc as [Hc _].
    cbn [lines_source lines_text fold_right fst snd] in *.
    fold (lines_source more) in *. fold (lines_text more) in *.
    set (tail := (lines_source more ++ NL ++ ws ++ NL ++ skipped ++ rest')%string).
    replace ((NL ++ indent ++ String c r ++ lines_source more)
             ++ NL ++ ws ++ NL ++ skipped ++ rest')%string
      with (NL ++ indent ++ String c (r ++ tail))%string
      by (unfold tail, NL; cbn [append]; apply f_equal;
          repeat (rewrite string_app_assoc; cbn [append]); reflexivity).
    assert (Hlen : String.length (NL ++ indent ++ String c r ++ lines_source more)
                   = (1 + String.length indent + String.length (String c r)
                      + String.length (lines_source more))%nat).
    { cbn [append NL String.length]. rewrite length_app_slen.
      cbn [String.length]. rewrite length_app_slen. lia. }
    rewrite Hlen in Hf. clear Hlen.
    destruct fuel as [|fuel]; [lia|].
    cbn [PARAGRAPH_loop]. erewrite bind_done by reflexivity. cbv beta iota.
    change (isEOF _) with false. cbv iota.
    erewrite bind_done.
    2: { replace fuel with (S (Nat.pred fuel)) by lia.
         apply (INLINE_ENTITY_next_line (Nat.pred fuel) p indent c (r ++ tail));
           try assumption.
         unfold tail.
         destruct more as [|l more'].
         - cbn [lines_source fold_right append NL].
           change (String c (r ++ String newline (ws ++ String newline (skipped ++ rest'))))
             with (String c r ++ String newline (ws ++ String newline (skipped ++ rest')))%string.
           rewrite peek_GROUP_END_line. exact Hg.
         - cbn [lines_source fold_right append NL].
           match goal with
           | |- context [String c (r ++ String newline ?x)] =>
               change (String c (r ++ String newline x))
                 with (String c r ++ String newline x)%string
           end.
           rewrite peek_GROUP_END_line. exact Hg. }
    cbv beta iota.
    cbn [inline_content set_inline_content].
    pose proof (add_string_text [] s p t NL (p + 1 + slen indent)) as Ha.
    cbn [app] in Ha. rewrite Ha. clear Ha.
    change (String c (r ++ tail)) with (String c r ++ tail)%string.
    replace fuel
      with (String.length (String c r) + (fuel - String.length (String c r)))%nat
      by lia.
    rewrite PARAGRAPH_loop_text by exact Hp.
    cbn [inline_content set_inline_content].
    pose proof (add_chars_text (String c r) [] s (p + 1 + slen indent) (t ++ NL)
                  (p + 1 + slen indent)) as Ha.
    cbn [app String.eqb] in Ha. rewrite Ha. clear Ha.
    unfold tail. rewrite IH by lia.
    rewrite !slen_app, !string_app_assoc.
    change (slen NL) with 1.
    replace (p + 1 + slen indent + slen (String c r) + slen (lines_source more))
      with (p + (1 + (slen indent + (slen (String c r) + slen (lines_source more)))))
      by lia.
    reflexivity.
Qed.

Lemma add_chars_first (r : string) (p : Z) :
  r <> EmptyString -> add_chars [] r p = [TextNode p (p + slen r) r].
Proof.
  destruct r as [|c r]; [congruence|]. intros _.
  cbn [add_chars]. unfold add_string at 1. cbn [rev app].
  pose proof (add_chars_text r [] (p + 1 - slen (String c "")) (p + 1)
                (String c "") (p + 1)) as Ha.
  cbn [app] in Ha. rewrite Ha. clear Ha.
  change (slen (String c "")) with 1. rewrite slen_String.
  replace (p + 1 - 1) with p by lia.
  destruct (String.eqb r "") eqn:E.
  - apply String.eqb_eq in E. subst r. reflexivity.
  - replace (p + 1 + slen r) with (p + (1 + slen r)) by lia. reflexivity.
Qed.

Lemma replace_last_push (l : list Node) (n n' : Node) :
  replace_last (l ++ [n]) n' = l ++ [n'].
Proof. unfold replace_last. rewrite removelast_last. reflexivity. Qed.

Lemma PARAGRAPH_lines_run (fuel : nat) (first : string)
  (more : list (string * string)) (ws skipped rest' : string) (p : Z)
  ms top below ins rf cx gd pf :
  first <> EmptyString ->
  all_chars plain_char first = true ->
  Forall (fun l => continues gd l = true) more ->
  all_chars is_whitespace ws = true ->
  all_chars is_blank skipped = true ->
  ends_blank_run rest' = true ->
  (String.length first + String.length (lines_source more) + 3 < fuel)%nat ->
  let n := slen first + slen (lines_source more) in
  let b := p + n + 1 + slen ws + 1 in
  PARAGRAPH fuel
    (mkState
       (mkScanner p (first ++ lines_source more ++ NL ++ ws ++ NL ++ skipped ++ rest'))
       ms (top :: below) ins rf cx gd pf)
  = Done tt
      (mkState (mkScanner (b + slen skipped) rest')
         (ms ++ (if count_chars is_newline skipped >? 0
                 then [refer (UnnecessaryNewlineMessage b (slen skipped)) rf]
                 else []))
         (push_block top
            (ParagraphNode p (b + slen skipped)
               [TextNode p (p + n) (first ++ lines_text more)])
          :: below)
         ins rf cx gd pf).
Proof.
  intros Hne Hfirst Hmore Hw Hs He Hf n b.
  destruct fuel as [|fuel]; [lia|]. cbn [PARAGRAPH].
  erewrite bind_done by reflexivity. cbv beta iota.
  assert (Heof : isEOF (mkScanner p
                   (first ++ lines_source more ++ NL ++ ws ++ NL ++ skipped ++ rest'))
                 = false).
  { destruct first; [congruence | reflexivity]. }
  cbn [scanner]. rewrite Heof. cbn [negb assert].
  erewrite bind_done by reflexivity. cbv beta iota.
  erewrite bind_done by reflexivity. cbv beta iota.
  erewrite bind_done by reflexivity. cbv beta iota.
  norm_state. cbn [position node_of_inline].
  replace fuel with (String.length first + (fuel - String.length first))%nat by lia.
  erewrite bind_done.
  2: { rewrite PARAGRAPH_loop_text by exact Hfirst.
       cbn [inline_content set_inline_content].
       rewrite add_chars_first by exact Hne.
       apply PARAGRAPH_loop_lines; try assumption. lia. }
  cbv beta iota.
  unfold endInline, bind, get, modify, store_block, ret.
  cbn [set_blockStack set_scanner set_inlineStack scanner messages blockStack
       inlineStack referringStack cxt groupDepth prefixes position
       set_inline_end node_of_inline].
  unfold b, n.
  replace (p + slen first + slen (lines_source more) + 1 + slen ws + 1 + slen skipped)
    with (p + (slen first + slen (lines_source more)) + 1 + slen ws + 1 + slen skipped)
    by lia.
  replace (p + slen first + slen (lines_source more) + 1 + slen ws + 1)
    with (p + (slen first + slen (lines_source more)) + 1 + slen ws + 1)
    by lia.
  replace (p + slen first + slen (lines_source more))
    with (p + (slen first + slen (lines_source more)))
    by lia.
  destruct top as [r|m]; cbn [push_block root_start root_end root_content];
    [|unfold set_content; cbn [m_content m_type m_mod m_head m_arguments m_start
                                m_end m_state m_expansion]];
    rewrite replace_last_push; reflexivity.
Qed.

(** X11.  [PARAGRAPH] on lines of plain text that a blank line ends: the
    paragraph holds one text node with the lines, each newline between
    them kept and the whitespace in front of a line left out; the text
    node spans the lines as they stand in the source, so it is longer
    than its text by the whitespace left out.  The paragraph itself
    extends over the blank line and every blank character behind it,
    and newlines behind the blank line are reported as unnecessary. *)
Theorem PARAGRAPH_lines (fuel : nat) (first : string) (more : list (string * string))
  (ws skipped rest' : string) (st : PState) (top : BlockContainer)
  (below : list BlockContainer) :
  first <> EmptyString ->
  all_chars plain_char first = true ->
  Forall (fun l => continues (groupDepth st) l = true) more ->
  all_chars is_whitespace ws = true ->
  all_chars is_blank skipped = true ->
  ends_blank_run rest' = true ->
  rest (scanner st)
  = (first ++ lines_source more ++ NL ++ ws ++ NL ++ skipped ++ rest')%string ->
  blockStack st = top :: below ->
  (String.length first + String.length (lines_source more) + 3 < fuel)%nat ->
  let p := position (scanner st) in
  let n := slen first + slen (lines_source more) in
  let b := p + n + 1 + slen ws + 1 in
  PARAGRAPH fuel st
  = Done tt
      (mkState (mkScanner (b + slen skipped) rest')
         (messages st
          ++ (if count_chars is_newline skipped >? 0
              then [refer (UnnecessaryNewlineMessage b (slen skipped))
                          (referringStack st)]
              else []))
         (push_block top
            (ParagraphNode p (b + slen skipped)
               [TextNode p (p + n) (first ++ lines_text more)])
          :: below)
         (inlineStack st) (referringStack st) (cxt st) (groupDepth st)
         (prefixes st)).
Proof.
  intros Hne Hfirst Hmore Hw Hs He Hrest Hb Hf.
  destruct st as [[p0 r0] ms bs ins rf cx gd pf].
  cbn [scanner rest position blockStack messages inlineStack referringStack cxt
       groupDepth prefixes] in *.
  subst r0 bs. apply PARAGRAPH_lines_run; assumption.
Qed.

(** *** Paragraphs of a document *)

(** A paragraph: its first line and the lines that continue it. *)
Definition paragraph_source (para : string * list (string * string)) : string :=
  (fst para ++ lines_source (snd para))%string.

Definition paragraph_text (para : string * list (string * string)) : string :=
  (fst para ++ lines_text (snd para))%string.

(** Paragraphs, each with one blank line behind it. *)
Fixpoint paragraphs_source (ps : list (string * list (string * string))) : string :=
  match ps with
  | [] => EmptyString
  | para :: ps' => (paragraph_source para ++ NL ++ NL ++ paragraphs_source ps')%string
  end.

Fixpoint paragraphs_at (ps : list (string * list (string * string))) (p : Z)
  : list Node :=
  match ps with
  | [] => []
  | para :: ps' =>
      let n := slen (paragraph_source para) in
      ParagraphNode p (p + n + 2) [TextNode p (p + n) (paragraph_text para)]
      :: paragraphs_at ps' (p + n + 2)
  end.

(** A paragraph at the group depth [gd]: its first line begins with a
    plain character that is not whitespace, and neither with the sign
    that opens a group nor, in a group, with the sign that closes it. *)
Definition is_paragraph (gd : Z) (para : string * list (string * string)) : bool :=
  (all_chars plain_char (fst para) && begins_with_text (fst para)
   && negb (peek GROUP_BEGIN (mkScanner 0 (fst para)))
   && negb (peek GROUP_END (mkScanner 0 (fst para)) && (gd >? 0))
   && forallb (continues gd) (snd para))%bool.

Lemma peek_GROUP_BEGIN_line (l t : string) :
  peek GROUP_BEGIN (mkScanner 0 (l ++ String newline t))
  = peek GROUP_BEGIN (mkScanner 0 l).
Proof.
  assert (Hd : Ascii.eqb "-"%char newline = false) by reflexivity.
  assert (Hc : Ascii.eqb ":"%char newline = false) by reflexivity.
  unfold peek, GROUP_BEGIN. cbn [rest].
  destruct l as [|a [|b [|c l]]]; cbn [append strip_prefix].
  - rewrite Hc. reflexivity.
  - destruct (Ascii.eqb ":"%char a); [|reflexivity]. rewrite Hd. reflexivity.
  - destruct (Ascii.eqb ":"%char a); [|reflexivity].
    destruct (Ascii.eqb "-"%char b); [|reflexivity]. rewrite Hd. reflexivity.
  - destruct (Ascii.eqb ":"%char a); [|reflexivity].
    destruct (Ascii.eqb "-"%char b); [|reflexivity].
    destruct (Ascii.eqb "-"%char c); reflexivity.
Qed.


Lemma skip_whitespace_or_newline_none (r : string) (pos : Z) :
  ends_blank_run r = true ->
  skip_whitespace_or_newline pos r = mkScanner pos r.
Proof.
  destruct r as [|c r]; [reflexivity|]. cbn [ends_blank_run].
  intros H. apply negb_true_iff in H. unfold is_blank in H.
  cbn [skip_whitespace_or_newline]. rewrite H. reflexivity.
Qed.

Lemma is_paragraph_facts (gd : Z) (para : string * list (string * string)) :
  is_paragraph gd para = true ->
  fst para <> EmptyString
  /\ all_chars plain_char (fst para) = true
  /\ Forall (fun l => continues gd l = true) (snd para)
  /\ peek GROUP_BEGIN (mkScanner 0 (fst para)) = false
  /\ (peek GROUP_END (mkScanner 0 (fst para)) && (gd >? 0))%bool = false
  /\ ends_blank_run (fst para) = true.
Proof.
  unfold is_paragraph. intros H.
  apply andb_prop in H. destruct H as [H Hmore].
  apply andb_prop in H. destruct H as [H He].
  apply andb_prop in H. destruct H as [H Hg].
  apply andb_prop in H. destruct H as [Hp Hb].
  apply negb_true_iff in Hg. apply negb_true_iff in He.
  split; [destruct (fst para); [discriminate | congruence]|].
  split; [exact Hp|].
  split; [apply Forall_forall; apply forallb_forall; exact Hmore|].
  split; [exact Hg|].
  split; [exact He|].
  destruct (fst para) as [|c r]; [reflexivity|].
  cbn [all_chars] in Hp. apply andb_prop in Hp. destruct Hp as [Hc _].
  destruct (plain_char_facts c Hc) as (_ & _ & Hn).
  cbn [begins_with_text] in Hb. apply negb_true_iff in Hb.
  cbn [ends_blank_run]. unfold is_blank. rewrite Hb, Ascii.eqb_sym, Hn. reflexivity.
Qed.

Lemma ends_blank_run_app (a b : string) :
  a <> EmptyString -> ends_blank_run a = true -> ends_blank_run (a ++ b) = true.
Proof. destruct a; [congruence|]. intros _ H. exact H. Qed.

Lemma ends_blank_run_paragraphs (gd : Z)
  (ps : list (string * list (string * string))) (behind : string) :
  forallb (is_paragraph gd) ps = true ->
  ends_blank_run behind = true ->
  ends_blank_run (paragraphs_source ps ++ behind) = true.
Proof.
  destruct ps as [|para ps]; [intros _ H; exact H|]. cbn [forallb paragraphs_source].
  intros H _. apply andb_prop in H. destruct H as [H _].
  destruct (is_paragraph_facts gd para H) as (Hne & _ & _ & _ & _ & He).
  unfold paragraph_source. rewrite !string_app_assoc.
  apply ends_blank_run_app; assumption.
Qed.

(** [BLOCK_ENTITY] on a paragraph and the blank line behind it. *)
Lemma BLOCK_ENTITY_paragraph (fuel : nat) (para : string * list (string * string))
  (rest' : string) (p : Z) ms top below ins rf cx gd pf :
  is_paragraph gd para = true ->
  ends_blank_run rest' = true ->
  (String.length (paragraph_source para) + 5 < fuel)%nat ->
  BLOCK_ENTITY fuel
    (mkState (mkScanner p (paragraph_source para ++ NL ++ NL ++ rest')) ms
       (top :: below) ins rf cx gd pf)
  = Done tt
      (mkState (mkScanner (p + slen (paragraph_source para) + 2) rest') ms
         (push_block top
            (ParagraphNode p (p + slen (paragraph_source para) + 2)
               [TextNode p (p + slen (paragraph_source para)) (paragraph_text para)])
          :: below)
         ins rf cx gd pf).
Proof.
  intros Hpara He Hf.
  destruct (is_paragraph_facts gd para Hpara) as (Hne & Hp & Hmore & Hg & _).
  destruct para as [first more]. unfold paragraph_source, paragraph_text in *.
  cbn [fst snd] in *.
  rewrite length_app_slen in Hf.
  destruct first as [|c0 r0]; [congruence|].
  pose proof Hp as Hc0. cbn [all_chars] in Hc0. apply andb_prop in Hc0.
  destruct Hc0 as [Hc0 _].
  destruct (plain_char_facts c0 Hc0) as (H1 & H2 & H3).
  set (first := String c0 r0) in *.
  assert (Hsrc : ((first ++ lines_source more) ++ NL ++ NL ++ rest')%string
                 = String c0 (r0 ++ lines_source more ++ NL ++ NL ++ rest')).
  { unfold first. cbn [append]. rewrite string_app_assoc. reflexivity. }
  assert (Hgroup : peek GROUP_BEGIN
                     (mkScanner p ((first ++ lines_source more) ++ NL ++ NL ++ rest'))
                   = false).
  { change (peek GROUP_BEGIN
              (mkScanner p ((first ++ lines_source more) ++ NL ++ NL ++ rest')))
      with (peek GROUP_BEGIN
              (mkScanner 0 ((first ++ lines_source more) ++ NL ++ NL ++ rest'))).
    rewrite string_app_assoc.
    destruct more as [|l more'].
    - cbn [lines_source fold_right append NL].
      rewrite peek_GROUP_BEGIN_line. exact Hg.
    - cbn [lines_source fold_right append NL].
      rewrite peek_GROUP_BEGIN_line. exact Hg. }
  assert (Hacc : accept GROUP_BEGIN
                   (mkScanner p ((first ++ lines_source more) ++ NL ++ NL ++ rest'))
                 = (false,
                    mkScanner p ((first ++ lines_source more) ++ NL ++ NL ++ rest'))).
  { unfold accept. unfold peek in Hgroup. cbn [rest] in *.
    destruct (strip_prefix GROUP_BEGIN
                ((first ++ lines_source more) ++ NL ++ NL ++ rest'));
      [discriminate | reflexivity]. }
  rewrite Hsrc in Hacc. rewrite Hsrc.
  destruct fuel as [|f1]; [lia|]. cbn [BLOCK_ENTITY].
  erewrite bind_done by reflexivity. cbv beta iota.
  erewrite bind_done by reflexivity. cbv beta iota.
  erewrite bind_done
    by (unfold s_peek, MODIFIER_BLOCK_OPEN; cbn [scanner];
        rewrite (peek_other _ _ _ _ _ H1); reflexivity).
  cbv beta iota.
  erewrite bind_done
    by (unfold s_peek, MODIFIER_SYSTEM_OPEN; cbn [scanner];
        rewrite (peek_other _ _ _ _ _ H1); reflexivity).
  cbv beta iota.
  destruct f1 as [|f2]; [lia|]. cbn [MAYBE_GROUPED_PARAGRAPH].
  erewrite bind_done by reflexivity. cbv beta iota.
  erewrite bind_done by reflexivity. cbv beta iota.
  erewrite bind_done
    by (unfold s_accept; cbn [scanner]; rewrite Hacc; reflexivity).
  cbv beta iota.
  norm_state.
  rewrite <- Hsrc, string_app_assoc.
  pose proof (PARAGRAPH_lines_run f2 first more EmptyString EmptyString rest' p
                ms top below ins rf cx gd pf) as Hrun.
  cbn [append count_chars Z.gtb Z.compare] in Hrun. cbv zeta in Hrun.
  change (slen "") with 0 in Hrun. rewrite app_nil_r in Hrun.
  rewrite Hrun;
    [| unfold first; congruence | exact Hp | exact Hmore | reflexivity | reflexivity
     | exact He | lia].
  rewrite slen_app.
  replace (p + (slen first + slen (lines_source more)) + 1 + 0 + 1 + 0)
    with (p + (slen first + slen (lines_source more)) + 2) by lia.
  reflexivity.
Qed.

Lemma DOCUMENT_loop_paragraphs (ps : list (string * list (string * string))) :
  forall fuel p ms content ins rf cx pf,
    forallb (is_paragraph 0) ps = true ->
    (String.length (paragraphs_source ps) + 6 < fuel)%nat ->
    DOCUMENT_loop fuel
      (mkState (mkScanner p (paragraphs_source ps)) ms
         [BRoot (mkRoot 0 (-1) content)] ins rf cx 0 pf)
    = Done tt
        (mkState (mkScanner (p + slen (paragraphs_source ps)) EmptyString) ms
           [BRoot (mkRoot 0 (-1) (content ++ paragraphs_at ps p))] ins rf cx 0 pf).
Proof.
  induction ps as [|para ps IH]; intros fuel p ms content ins rf cx pf Hps Hf.
  - destruct fuel as [|fuel]; [lia|].
    cbn [DOCUMENT_loop paragraphs_source paragraphs_at].
    erewrite bind_done by reflexivity. cbv beta iota.
    cbn [isEOF scanner rest]. cbv iota.
    rewrite app_nil_r. change (slen "") with 0. rewrite Z.add_0_r. reflexivity.
  - cbn [forallb] in Hps. apply andb_prop in Hps. destruct Hps as [Hpara Hps].
    pose proof (ends_blank_run_paragraphs 0 ps EmptyString Hps eq_refl) as He.
    rewrite string_app_nil_r in He.
    destruct (is_paragraph_facts 0 para Hpara) as (Hne & _).
    cbn [paragraphs_source paragraphs_at] in *.
    assert (Hlen : String.length (paragraph_source para ++ NL ++ NL
                                    ++ paragraphs_source ps)
                   = (String.length (paragraph_source para) + 2
                      + String.length (paragraphs_source ps))%nat).
    { rewrite length_app_slen. cbn [append NL String.length]. lia. }
    rewrite Hlen in Hf.
    destruct fuel as [|fuel]; [lia|]. cbn [DOCUMENT_loop].
    erewrite bind_done by reflexivity. cbv beta iota.
    assert (Heof : isEOF (mkScanner p (paragraph_source para ++ NL ++ NL
                                         ++ paragraphs_source ps)) = false).
    { unfold paragraph_source. destruct (fst para); [congruence | reflexivity]. }
    cbn [scanner]. rewrite Heof. cbv iota.
    erewrite bind_done by (apply BLOCK_ENTITY_paragraph; [assumption | assumption | lia]).
    cbv beta iota.
    erewrite bind_done
      by (unfold WHITESPACES_OR_NEWLINES, modify; cbn [scanner rest position];
          rewrite (skip_whitespace_or_newline_none _ _ He); reflexivity).
    cbv beta iota. unfold set_scanner.
    cbn [scanner messages blockStack inlineStack referringStack cxt groupDepth
         prefixes push_block root_start root_end root_content].
    rewrite IH by (try assumption; lia).
    rewrite <- app_assoc. cbn [app].
    rewrite !slen_app. change (slen NL) with 1.
    replace (p + slen (paragraph_source para) + 2 + slen (paragraphs_source ps))
      with (p + (slen (paragraph_source para) + (1 + (1 + slen (paragraphs_source ps)))))
      by lia.
    reflexivity.
Qed.

(** X12.  A source of paragraphs of plain text, each with exactly one
    blank line behind it, parses to these paragraphs in their order and
    to no message: each paragraph holds one text node with its lines and
    extends over the blank line behind it, to where the next paragraph
    begins. *)
Theorem paragraphs_parsed (fuel : nat) (ps : list (string * list (string * string)))
  (c : Configuration) (store0 : Store) :
  forallb (is_paragraph 0) ps = true ->
  (String.length (paragraphs_source ps) + 6 < fuel)%nat ->
  parse fuel (paragraphs_source ps) c store0
  = Returns
      (mkDocument (mkRoot 0 (-1) (paragraphs_at ps 0)) (mkContext c 0 store0) []).
Proof.
  intros Hps Hf. unfold parse, DOCUMENT, initial_state.
  erewrite bind_done
    by (unfold WHITESPACES_OR_NEWLINES, modify; cbn [scanner rest position];
        pose proof (ends_blank_run_paragraphs 0 ps EmptyString Hps eq_refl) as He;
        rewrite string_app_nil_r in He;
        rewrite (skip_whitespace_or_newline_none _ _ He); reflexivity).
  cbv beta. unfold set_scanner.
  cbn [scanner messages blockStack inlineStack referringStack cxt groupDepth prefixes].
  rewrite DOCUMENT_loop_paragraphs by assumption.
  reflexivity.
Qed.

(** *** Groups *)

Lemma accept_not_peek (s : string) (sc : Scanner) :
  peek s sc = false -> accept s sc = (false, sc).
Proof.
  unfold peek, accept. destruct (strip_prefix s (rest sc)); [discriminate|].
  reflexivity.
Qed.

Lemma lines_source_newline (more : list (string * string)) (x : string) :
  exists y, (lines_source more ++ NL ++ x)%string = String newline y.
Proof. destruct more as [|l more]; eexists; reflexivity. Qed.

Lemma WARN_IF_MORE_NEWLINES_THAN_none (n : Z) (p : Z) (r : string)
  ms bs ins rf cx gd pf :
  0 <= n ->
  ends_blank_run r = true ->
  WARN_IF_MORE_NEWLINES_THAN n (mkState (mkScanner p r) ms bs ins rf cx gd pf)
  = Done tt (mkState (mkScanner p r) ms bs ins rf cx gd pf).
Proof.
  intros Hn He.
  unfold WARN_IF_MORE_NEWLINES_THAN, bind, s_position, get, modify, when, message.
  cbn [scanner position rest].
  pose proof (count_newlines_app EmptyString p 0 r eq_refl He) as H.
  cbn [append count_chars] in H. change (slen "") with 0 in H.
  rewrite !Z.add_0_r in H. rewrite H. cbn [Z.add].
  replace (0 >? n) with false by (rewrite Z.gtb_ltb; symmetry; apply Z.ltb_ge; lia).
  reflexivity.
Qed.

Lemma s_accept_prefix (s r : string) (p : Z) ms bs ins rf cx gd pf :
  s_accept s (mkState (mkScanner p (s ++ r)) ms bs ins rf cx gd pf)
  = Done true (mkState (mkScanner (p + slen s) r) ms bs ins rf cx gd pf).
Proof.
  unfold s_accept, accept. cbn [scanner rest position].
  replace (strip_prefix s (s ++ r)) with (Some r); [reflexivity|].
  induction s as [|c s IH]; [reflexivity|].
  cbn [append strip_prefix]. rewrite Ascii.eqb_refl. exact IH.
Qed.

Lemma SHOULD_BE_A_NEWLINE_newline (r : string) (p : Z) ms bs ins rf cx gd pf :
  SHOULD_BE_A_NEWLINE (mkState (mkScanner p (NL ++ r)) ms bs ins rf cx gd pf)
  = Done tt (mkState (mkScanner (p + 1) r) ms bs ins rf cx gd pf).
Proof. reflexivity. Qed.

Lemma GROUP_loop_paragraphs (closed : bool) (tail : string)
  (ps : list (string * list (string * string))) :
  forall fuel p ms top below ins rf cx gd pf,
    0 < gd ->
    forallb (is_paragraph gd) ps = true ->
    (String.length (paragraphs_source ps) + 7 < fuel)%nat ->
    GROUP_loop fuel
      (mkState
         (mkScanner p
            (paragraphs_source ps ++ (if closed then GROUP_END ++ tail else "")))
         ms (top :: below) ins rf cx gd pf)
    = Done tt
        (mkState
           (mkScanner (p + slen (paragraphs_source ps) + (if closed then 3 else 0))
              (if closed then tail else EmptyString))
           (ms ++ (if closed then []
                   else [refer (ExpectedMessage (p + slen (paragraphs_source ps))
                                  GROUP_END) rf]))
           (fold_left push_block (paragraphs_at ps p) top :: below)
           ins rf cx (if closed then gd - 1 else gd) pf).
Proof.
  assert (Hclosing : ends_blank_run (if closed then GROUP_END ++ tail else "") = true)
    by (destruct closed; reflexivity).
  induction ps as [|para ps IH]; intros fuel p ms top below ins rf cx gd pf Hgd Hps Hf.
  - destruct fuel as [|fuel]; [lia|].
    cbn [paragraphs_source paragraphs_at fold_left append].
    change (slen "") with 0. rewrite Z.add_0_r.
    cbn [GROUP_loop]. destruct closed.
    + erewrite bind_done by reflexivity. cbv beta iota.
      change (isEOF _) with false. cbv iota.
      erewrite bind_done by reflexivity. cbv beta iota.
      rewrite app_nil_r. reflexivity.
    + erewrite bind_done by reflexivity. cbv beta iota.
      change (isEOF _) with true. cbv iota.
      rewrite Z.add_0_r. reflexivity.
  - cbn [forallb] in Hps. apply andb_prop in Hps. destruct Hps as [Hpara Hps].
    pose proof (ends_blank_run_paragraphs gd ps _ Hps Hclosing) as He.
    destruct (is_paragraph_facts gd para Hpara) as (Hne & _ & _ & _ & Hend & _).
    replace (gd >? 0) with true in Hend
      by (rewrite Z.gtb_ltb; symmetry; apply Z.ltb_lt; exact Hgd).
    rewrite andb_true_r in Hend.
    cbn [paragraphs_source paragraphs_at fold_left] in *.
    assert (Hlen : String.length (paragraph_source para ++ NL ++ NL
                                    ++ paragraphs_source ps)
                   = (String.length (paragraph_source para) + 2
                      + String.length (paragraphs_source ps))%nat).
    { rewrite length_app_slen. cbn [append NL String.length]. lia. }
    rewrite Hlen in Hf.
    set (closing := if closed then (GROUP_END ++ tail)%string else EmptyString) in *.
    replace ((paragraph_source para ++ NL ++ NL ++ paragraphs_source ps) ++ closing)%string
      with (paragraph_source para ++ NL ++ NL ++ paragraphs_source ps ++ closing)%string
      by (rewrite !string_app_assoc; reflexivity).
    assert (Hstart : isEOF (mkScanner p (paragraph_source para ++ NL ++ NL
                                           ++ paragraphs_source ps ++ closing))
                     = false
                     /\ accept GROUP_END
                          (mkScanner p (paragraph_source para ++ NL ++ NL
                                          ++ paragraphs_source ps ++ closing))
                        = (false,
                           mkScanner p (paragraph_source para ++ NL ++ NL
                                          ++ paragraphs_source ps ++ closing))).
    { split.
      - unfold paragraph_source. destruct (fst para); [congruence | reflexivity].
      - apply accept_not_peek.
        change (peek GROUP_END (mkScanner p ?x)) with (peek GROUP_END (mkScanner 0 x)).
        unfold paragraph_source. rewrite string_app_assoc.
        destruct (lines_source_newline (snd para)
                    (NL ++ paragraphs_source ps ++ closing)) as (y & ->).
        rewrite peek_GROUP_END_line. exact Hend. }
    destruct Hstart as [Heof Hacc].
    destruct fuel as [|fuel]; [lia|]. cbn [GROUP_loop].
    erewrite bind_done by reflexivity. cbv beta iota.
    cbn [scanner]. rewrite Heof. cbv iota.
    erewrite bind_done
      by (unfold s_accept; cbn [scanner]; rewrite Hacc; reflexivity).
    cbv beta iota. norm_state.
    erewrite bind_done by (apply BLOCK_ENTITY_paragraph; [assumption | assumption | lia]).
    cbv beta iota.
    erewrite bind_done by (apply WARN_IF_MORE_NEWLINES_THAN_none; [lia | exact He]).
    cbv beta iota.
    rewrite IH by (try assumption; lia).
    rewrite !slen_app. change (slen NL) with 1.
    replace (p + slen (paragraph_source para) + 2 + slen (paragraphs_source ps))
      with (p + (slen (paragraph_source para) + (1 + (1 + slen (paragraphs_source ps)))))
      by lia.
    reflexivity.
Qed.

(** X13.  A group makes no node of its own: [MAYBE_GROUPED_PARAGRAPH] on
    the sign that opens a group, a newline and paragraphs of plain text
    adds these paragraphs to the open block as they would be added
    outside of a group.  When the sign that closes the group follows, it
    is skipped and the group depth is what it was before; when the input
    ends instead, the missing sign is reported at the end of the input
    and the group depth stays raised by one. *)
Theorem MAYBE_GROUPED_PARAGRAPH_group (fuel : nat)
  (ps : list (string * list (string * string))) (closed : bool) (tail : string)
  (st : PState) (top : BlockContainer) (below : list BlockContainer) :
  0 <= groupDepth st ->
  forallb (is_paragraph (groupDepth st + 1)) ps = true ->
  rest (scanner st)
  = (GROUP_BEGIN ++ NL ++ paragraphs_source ps
     ++ (if closed then GROUP_END ++ tail else ""))%string ->
  blockStack st = top :: below ->
  (String.length (paragraphs_source ps) + 8 < fuel)%nat ->
  let p := position (scanner st) in
  let e := p + 4 + slen (paragraphs_source ps) in
  MAYBE_GROUPED_PARAGRAPH fuel st
  = Done tt
      (mkState
         (mkScanner (if closed then e + 3 else e) (if closed then tail else EmptyString))
         (messages st
          ++ (if closed then []
              else [refer (ExpectedMessage e GROUP_END) (referringStack st)]))
         (fold_left push_block (paragraphs_at ps (p + 4)) top :: below)
         (inlineStack st) (referringStack st) (cxt st)
         (if closed then groupDepth st else groupDepth st + 1)
         (prefixes st)).
Proof.
  intros Hgd Hps Hrest Hb Hf p e.
  destruct st as [[p0 r0] ms bs ins rf cx gd pf].
  cbn [scanner rest position blockStack messages inlineStack referringStack cxt
       groupDepth prefixes] in *.
  subst r0 bs p e.
  set (closing := if closed then (GROUP_END ++ tail)%string else EmptyString) in *.
  assert (Hclosing : ends_blank_run closing = true)
    by (unfold closing; destruct closed; reflexivity).
  pose proof (ends_blank_run_paragraphs _ ps _ Hps Hclosing) as He.
  destruct fuel as [|fuel]; [lia|]. cbn [MAYBE_GROUPED_PARAGRAPH].
  erewrite bind_done by reflexivity. cbv beta iota.
  change (isEOF _) with false. cbn [negb assert].
  erewrite bind_done by reflexivity. cbv beta iota.
  erewrite bind_done by (apply s_accept_prefix). cbv beta iota.
  erewrite bind_done by reflexivity. cbv beta iota.
  norm_state.
  erewrite bind_done by (apply SHOULD_BE_A_NEWLINE_newline). cbv beta iota.
  erewrite bind_done by (apply WARN_IF_MORE_NEWLINES_THAN_none; [lia | exact He]).
  cbv beta iota.
  subst closing. rewrite GROUP_loop_paragraphs by (try assumption; lia).
  change (slen GROUP_BEGIN) with 3. change (slen NL) with 1.
  replace (p0 + 3 + 1) with (p0 + 4) by lia.
  destruct closed.
  - replace (gd + 1 - 1) with gd by lia. reflexivity.
  - rewrite Z.add_0_r. reflexivity.
Qed.

(** *** A block modifier in the middle of a line *)

Lemma PARAGRAPH_before_block (fuel : nat) (first tail : string) (p : Z)
  ms top below ins rf cx gd pf :
  first <> EmptyString ->
  all_chars plain_char first = true ->
  (String.length first + 3 < fuel)%nat ->
  PARAGRAPH fuel
    (mkState (mkScanner p (first ++ MODIFIER_BLOCK_OPEN ++ tail)) ms (top :: below)
       ins rf cx gd pf)
  = Done tt
      (mkState (mkScanner (p + slen first) (MODIFIER_BLOCK_OPEN ++ tail))
         (ms ++ [refer (NewBlockShouldBeOnNewlineMessage (p + slen first)) rf])
         (push_block top
            (ParagraphNode p (p + slen first) [TextNode p (p + slen first) first])
          :: below)
         ins rf cx gd pf).
Proof.
  intros Hne Hfirst Hf.
  destruct fuel as [|fuel]; [lia|]. cbn [PARAGRAPH].
  erewrite bind_done by reflexivity. cbv beta iota.
  assert (Heof : isEOF (mkScanner p (first ++ MODIFIER_BLOCK_OPEN ++ tail)) = false).
  { destruct first; [congruence | reflexivity]. }
  cbn [scanner]. rewrite Heof. cbn [negb assert].
  erewrite bind_done by reflexivity. cbv beta iota.
  erewrite bind_done by reflexivity. cbv beta iota.
  erewrite bind_done by reflexivity. cbv beta iota.
  norm_state. cbn [position node_of_inline].
  replace fuel with (String.length first + S (S (fuel - String.length first - 2)))%nat
    by lia.
  erewrite bind_done.
  2: { rewrite PARAGRAPH_loop_text by exact Hfirst.
       cbn [inline_content set_inline_content].
       rewrite add_chars_first by exact Hne.
       cbn [PARAGRAPH_loop].
       erewrite bind_done by reflexivity. cbv beta iota.
       change (isEOF _) with false. cbv iota.
       cbn [INLINE_ENTITY].
       erewrite bind_done by reflexivity. cbv beta iota.
       reflexivity. }
  cbv beta iota.
  unfold endInline, bind, get, modify, store_block, ret.
  cbn [set_blockStack set_scanner set_inlineStack scanner messages blockStack
       inlineStack referringStack cxt groupDepth prefixes position
       set_inline_end node_of_inline set_messages map].
  destruct top as [r|m]; cbn [push_block root_start root_end root_content];
    [|unfold set_content; cbn [m_content m_type m_mod m_head m_arguments m_start
                                m_end m_state m_expansion]];
    rewrite replace_last_push; reflexivity.
Qed.

Lemma PARAGRAPH_line_before_block (fuel : nat) (first tail : string) (p : Z)
  ms top below ins rf cx gd pf :
  first <> EmptyString ->
  all_chars plain_char first = true ->
  (String.length first + 3 < fuel)%nat ->
  PARAGRAPH fuel
    (mkState (mkScanner p (first ++ NL ++ MODIFIER_BLOCK_OPEN ++ tail)) ms
       (top :: below) ins rf cx gd pf)
  = Done tt
      (mkState (mkScanner (p + slen first + 1) (MODIFIER_BLOCK_OPEN ++ tail)) ms
         (push_block top
            (ParagraphNode p (p + slen first + 1)
               [TextNode p (p + slen first) first])
          :: below)
         ins rf cx gd pf).
Proof.
  intros Hne Hfirst Hf.
  destruct fuel as [|fuel]; [lia|]. cbn [PARAGRAPH].
  erewrite bind_done by reflexivity. cbv beta iota.
  assert (Heof : isEOF (mkScanner p (first ++ NL ++ MODIFIER_BLOCK_OPEN ++ tail))
                 = false).
  { destruct first; [congruence | reflexivity]. }
  cbn [scanner]. rewrite Heof. cbn [negb assert].
  erewrite bind_done by reflexivity. cbv beta iota.
  erewrite bind_done by reflexivity. cbv beta iota.
  erewrite bind_done by reflexivity. cbv beta iota.
  norm_state. cbn [position node_of_inline].
  replace fuel with (String.length first + S (S (fuel - String.length first - 2)))%nat
    by lia.
  erewrite bind_done.
  2: { rewrite PARAGRAPH_loop_text by exact Hfirst.
       cbn [inline_content set_inline_content].
       rewrite add_chars_first by exact Hne.
       cbn [PARAGRAPH_loop].
       erewrite bind_done by reflexivity. cbv beta iota.
       change (isEOF _) with false. cbv iota.
       erewrite bind_done by reflexivity. cbv beta iota.
       reflexivity. }
  cbv beta iota.
  unfold endInline, bind, get, modify, store_block, ret.
  cbn [set_blockStack set_scanner set_inlineStack scanner messages blockStack
       inlineStack referringStack cxt groupDepth prefixes position
       set_inline_end node_of_inline set_messages map].
  change (slen NL) with 1.
  destruct top as [r|m]; cbn [push_block root_start root_end root_content];
    [|unfold set_content; cbn [m_content m_type m_mod m_head m_arguments m_start
                                m_end m_state m_expansion]];
    rewrite replace_last_push; reflexivity.
Qed.

(** *** Escaped characters in arguments *)

(** The text entity of a run of characters at [p]. *)
Definition text_entity (s : string) (p : Z) : list ArgumentEntity :=
  match s with
  | EmptyString => []
  | _ => [ArgText p (p + slen s) s]
  end.

Lemma emit_chars_escaped (before : list ArgumentEntity) (s e : Z) (c r : string)
  (p : Z) :
  emit_chars (before ++ [ArgEscaped s e c]) r p
  = before ++ ArgEscaped s e c :: text_entity r p.
Proof.
  destruct r as [|x r]; [reflexivity|].
  cbn [emit_chars text_entity]. unfold emitString at 1.
  rewrite rev_app_distr. cbn [rev app].
  pose proof (emit_chars_text r (before ++ [ArgEscaped s e c])
                (p + 1 - slen (String x "")) (p + 1) (String x "") (p + 1)) as H.
  rewrite H. rewrite <- app_assoc. cbn [app append].
  change (slen (String x "")) with 1. rewrite slen_String.
  replace (p + 1 - 1) with p by lia.
  replace (p + 1 + slen r) with (p + (1 + slen r)) by lia. reflexivity.
Qed.

Lemma emit_chars_first (r : string) (p : Z) : emit_chars [] r p = text_entity r p.
Proof.
  pose proof (emit_chars_segment r p) as H. unfold segment_argument in H.
  injection H as _ H. destruct r; exact H.
Qed.

Lemma ARGUMENT_CONTENT_loop_prefix (pre : string) :
  forall fuel posStart content posEnd p tail ms bs ins rf cx gd pf,
    all_chars (arg_char (p_interpolator pf)) pre = true ->
    ARGUMENT_CONTENT_loop (String.length pre + fuel) None posStart content posEnd
      (mkState (mkScanner p (pre ++ tail)) ms bs ins rf cx gd pf)
    = ARGUMENT_CONTENT_loop fuel None posStart (emit_chars content pre p)
        (if String.eqb pre "" then posEnd else p + slen pre)
        (mkState (mkScanner (p + slen pre) tail) ms bs ins rf cx gd pf).
Proof.
  induction pre as [|c r IH];
    intros fuel posStart content posEnd p tail ms bs ins rf cx gd pf Hpre.
  - cbn [String.length Nat.add append emit_chars String.eqb].
    replace (p + slen "") with p by (unfold slen; simpl; lia). reflexivity.
  - cbn [all_chars] in Hpre. apply andb_prop in Hpre. destruct Hpre as [Hc Hr].
    cbn [String.length Nat.add append emit_chars String.eqb].
    rewrite ARGUMENT_CONTENT_loop_char by exact Hc.
    rewrite IH by exact Hr. rewrite slen_String.
    replace (p + 1 + slen r) with (p + (1 + slen r)) by lia.
    destruct (String.eqb r "") eqn:E; [|reflexivity].
    apply String.eqb_eq in E. subst r. change (slen "") with 0.
    replace (p + (1 + 0)) with (p + 1) by lia. reflexivity.
Qed.

(** One turn of the loop of [ARGUMENT_CONTENT] on a backslash and the
    character behind it. *)
Lemma ARGUMENT_CONTENT_loop_escape (fuel : nat) (posStart : Z)
  (content : list ArgumentEntity) (posEnd p : Z) (c : ascii) (r : string)
  ms bs ins rf cx gd pf :
  ARGUMENT_CONTENT_loop (S fuel) None posStart content posEnd
    (mkState (mkScanner p (backslash ++ String c r)) ms bs ins rf cx gd pf)
  = ARGUMENT_CONTENT_loop fuel None posStart
      (content ++ [ArgEscaped (p - 1) (p + 1) (String c "")]) (p + 1)
      (mkState (mkScanner (p + 2) r) ms bs ins rf cx gd pf).
Proof.
  change (backslash ++ String c r)%string with (String "\"%char (String c r)).
  assert (H1 : Ascii.eqb ":"%char "\"%char = false) by reflexivity.
  assert (H2 : Ascii.eqb ";"%char "\"%char = false) by reflexivity.
  assert (H3 : Ascii.eqb "]"%char "\"%char = false) by reflexivity.
  cbn [ARGUMENT_CONTENT_loop].
  erewrite bind_done by reflexivity. cbv beta iota.
  erewrite bind_done
    by (unfold s_accept; cbn [scanner];
        rewrite (accept_other _ _ _ _ _ H1); reflexivity).
  cbv beta iota.
  erewrite bind_done
    by (unfold s_peek, MODIFIER_END_SIGN; cbn [scanner set_scanner];
        rewrite (peek_other _ _ _ _ _ H2); reflexivity).
  cbv beta iota.
  erewrite bind_done
    by (unfold s_peek, MODIFIER_CLOSE_SIGN; cbn [scanner set_scanner];
        rewrite (peek_other _ _ _ _ _ H3); reflexivity).
  cbv beta iota.
  erewrite bind_done by reflexivity. cbv beta iota.
  cbn [orb isEOF scanner set_scanner rest]. cbv iota.
  erewrite bind_done
    by (unfold s_accept, accept, backslash, set_scanner;
        cbn [scanner rest strip_prefix]; rewrite Ascii.eqb_refl; reflexivity).
  cbv beta iota.
  erewrite bind_done by reflexivity. cbv beta iota.
  erewrite bind_done by reflexivity. cbv beta iota.
  unfold set_scanner.
  cbn [isEOF scanner rest position messages blockStack inlineStack referringStack
       cxt groupDepth prefixes]. cbv iota.
  erewrite bind_done by reflexivity. cbv beta iota.
  unfold set_scanner.
  cbn [scanner rest position messages blockStack inlineStack referringStack
       cxt groupDepth prefixes].
  change (slen (String "\"%char "")) with 1.
  replace (p + 1 - 2) with (p - 1) by lia.
  replace (p + 1 + 1) with (p + 2) by lia.
  reflexivity.
Qed.

(** X14.  A backslash in an argument makes an escaped entity of the
    character behind it, whatever the character, between the text in
    front of it and the text behind it.  The range of the entity begins
    one character before the backslash and ends behind the backslash, so
    it leaves out the escaped character; and an argument whose last
    entity is escaped ends behind the backslash, one character before
    the cursor. *)
Theorem ARGUMENT_CONTENT_escaped (fuel : nat) (pre : string) (c : ascii)
  (post tail : string) (st : PState) :
  all_chars (arg_char (p_interpolator (prefixes st))) pre = true ->
  all_chars (arg_char (p_interpolator (prefixes st))) post = true ->
  closes_arguments tail = true ->
  rest (scanner st) = (pre ++ backslash ++ String c (post ++ tail))%string ->
  (String.length pre + String.length post + 2 < fuel)%nat ->
  let p := position (scanner st) in
  let q := p + slen pre in
  ARGUMENT_CONTENT fuel None st
  = Done (mkArgument p (if String.eqb post "" then q + 1 else q + 2 + slen post)
            (text_entity pre p
             ++ ArgEscaped (q - 1) (q + 1) (String c "") :: text_entity post (q + 2)),
          false)
      (set_scanner st (mkScanner (q + 2 + slen post) tail)).
Proof.
  intros Hpre Hpost Htail Hrest Hf p q.
  destruct st as [[p0 r0] ms bs ins rf cx gd pf].
  cbn [scanner rest position prefixes] in *. subst r0 p q.
  unfold ARGUMENT_CONTENT.
  erewrite bind_done by reflexivity. cbv beta. cbn [scanner position].
  replace fuel with (String.length pre + S (fuel - String.length pre - 1))%nat by lia.
  rewrite ARGUMENT_CONTENT_loop_prefix by exact Hpre.
  rewrite ARGUMENT_CONTENT_loop_escape.
  rewrite ARGUMENT_CONTENT_loop_segment;
    [| exact Hpost | rewrite Htail; reflexivity | lia].
  rewrite closes_arguments_colon by exact Htail.
  rewrite emit_chars_escaped, emit_chars_first.
  unfold set_scanner.
  cbn [scanner messages blockStack inlineStack referringStack cxt groupDepth prefixes].
  replace (p0 + slen pre + 1 - 1) with (p0 + slen pre) by lia.
  replace (p0 + slen pre + 1 + 1) with (p0 + slen pre + 2) by lia.
  apply (f_equal2 (fun a s => Done (a, false)
                     (mkState s ms bs ins rf cx gd pf))).
  - reflexivity.
  - destruct tail as [|t tail']; [reflexivity|].
    pose proof (closes_arguments_colon _ Htail) as Hc. cbv beta iota in Hc.
    rewrite Hc. reflexivity.
Qed.

(** *** Lines of preformatted text *)

(** A character of a line of preformatted text: any but the newline. *)
Definition pre_char (c : ascii) : bool := negb (Ascii.eqb c newline).

(** A line that continues preformatted text: whitespace, then characters
    other than the newline, the first of them not whitespace, and not the
    sign that closes the group when the text is [grouped]. *)
Definition pre_continues (grouped : bool) (l : string * string) : bool :=
  (all_chars is_whitespace (fst l) && all_chars pre_char (snd l)
   && begins_with_text (snd l)
   && negb (grouped && peek GROUP_END (mkScanner 0 (snd l))))%bool.

(** What stands behind a line: the end of the input, or a newline. *)
Definition at_line_end (tail : string) : bool :=
  match tail with
  | EmptyString => true
  | String c _ => Ascii.eqb c newline
  end.

(** The turns of the loop of [PRE_PARAGRAPH] that the lines take. *)
Definition lines_turns (more : list (string * string)) : nat :=
  fold_right (fun l n => S (String.length (snd l) + n)) O more.

Lemma PRE_PARAGRAPH_loop_chars (r : string) :
  forall fuel grouped str p tail ms bs ins rf cx gd pf,
    all_chars pre_char r = true ->
    PRE_PARAGRAPH_loop (String.length r + fuel) grouped str p
      (mkState (mkScanner p (r ++ tail)) ms bs ins rf cx gd pf)
    = PRE_PARAGRAPH_loop fuel grouped (str ++ r)%string (p + slen r)
        (mkState (mkScanner (p + slen r) tail) ms bs ins rf cx gd pf).
Proof.
  induction r as [|c r IH]; intros fuel grouped str p tail ms bs ins rf cx gd pf Hr.
  - cbn [String.length Nat.add append]. rewrite string_app_nil_r.
    replace (p + slen "") with p by (unfold slen; simpl; lia). reflexivity.
  - simpl in Hr. apply andb_prop in Hr. destruct Hr as [Hc Hr].
    unfold pre_char in Hc. apply negb_true_iff in Hc.
    rewrite Ascii.eqb_sym in Hc.
    cbn [String.length Nat.add append PRE_PARAGRAPH_loop].
    erewrite bind_done by reflexivity. cbv beta iota.
    unfold isEOF. cbn [scanner rest]. cbv iota.
    erewrite bind_done
      by (unfold s_accept, NL; cbn [scanner];
          rewrite (accept_other _ _ _ _ _ Hc); reflexivity).
    cbv beta iota.
    erewrite bind_done by reflexivity. cbv beta.
    erewrite bind_done by reflexivity. cbv beta.
    cbn [position scanner set_scanner].
    unfold set_scanner.
    cbn [scanner messages blockStack inlineStack referringStack cxt groupDepth
         prefixes].
    rewrite IH by exact Hr.
    rewrite string_app_assoc, slen_String. cbn [append].
    replace (p + 1 + slen r) with (p + (1 + slen r)) by lia.
    reflexivity.
Qed.

Lemma substring_prefix (a b : string) :
  substring 0 (String.length a) (a ++ b) = a.
Proof.
  induction a as [|c a IH]; simpl.
  - destruct b; reflexivity.
  - rewrite IH. reflexivity.
Qed.

Lemma peek_closer_line (grouped : bool) (l tail : string) (p : Z) :
  all_chars pre_char l = true ->
  begins_with_text l = true ->
  (grouped && peek GROUP_END (mkScanner 0 l))%bool = false ->
  at_line_end tail = true ->
  accept (if grouped then GROUP_END else NL) (mkScanner p (l ++ tail))
  = (false, mkScanner p (l ++ tail)).
Proof.
  intros Hl Hb Hg Ht.
  destruct l as [|c l]; [discriminate|].
  simpl in Hl. apply andb_prop in Hl. destruct Hl as [Hc Hl].
  unfold pre_char in Hc. apply negb_true_iff in Hc. rewrite Ascii.eqb_sym in Hc.
  destruct grouped.
  - cbn [andb] in Hg.
    assert (Hp : peek GROUP_END (mkScanner p (String c l ++ tail)) = false).
    { destruct tail as [|t tail].
      - rewrite string_app_nil_r. exact Hg.
      - cbn [at_line_end] in Ht. apply Ascii.eqb_eq in Ht. subst t.
        pose proof (peek_GROUP_END_line (String c l) tail) as H.
        unfold peek in H |- *. cbn [rest] in H |- *. rewrite H. exact Hg. }
    unfold accept. unfold peek in Hp.
    destruct (strip_prefix GROUP_END (rest (mkScanner p (String c l ++ tail))));
      [discriminate | reflexivity].
  - cbn [append]. unfold NL. apply accept_other. exact Hc.
Qed.

(** One line that continues the text: the newline, the whitespace and
    the line go into the text as they stand. *)
Lemma PRE_PARAGRAPH_loop_line (fuel : nat) (grouped : bool) (ws l tail str : string)
  (p : Z) ms bs ins rf cx gd pf :
  pre_continues grouped (ws, l) = true ->
  at_line_end tail = true ->
  PRE_PARAGRAPH_loop (S (String.length l + fuel)) grouped str p
    (mkState (mkScanner p (NL ++ ws ++ l ++ tail)) ms bs ins rf cx gd pf)
  = PRE_PARAGRAPH_loop fuel grouped (str ++ NL ++ ws ++ l)%string
      (p + slen (NL ++ ws ++ l))
      (mkState (mkScanner (p + slen (NL ++ ws ++ l)) tail) ms bs ins rf cx gd pf).
Proof.
  intros Hc Ht.
  unfold pre_continues in Hc. cbn [fst snd] in Hc.
  apply andb_prop in Hc. destruct Hc as [Hc Hg].
  apply andb_prop in Hc. destruct Hc as [Hc Hb].
  apply andb_prop in Hc. destruct Hc as [Hw Hl].
  apply negb_true_iff in Hg.
  destruct l as [|c l]; [discriminate|].
  pose proof Hb as Hb'. cbn [begins_with_text] in Hb'. apply negb_true_iff in Hb'.
  cbn [PRE_PARAGRAPH_loop].
  erewrite bind_done by reflexivity. cbv beta iota.
  change (isEOF (scanner (mkState (mkScanner p (NL ++ ws ++ String c l ++ tail))
                            ms bs ins rf cx gd pf))) with false.
  cbv iota.
  erewrite bind_done
    by (unfold s_accept, accept, NL, set_scanner; cbn [scanner rest append strip_prefix];
        rewrite Ascii.eqb_refl; reflexivity).
  cbv beta iota.
  erewrite bind_done by reflexivity. cbv beta iota zeta.
  cbn [scanner rest position].
  change (String c l ++ tail)%string with (String c (l ++ tail)).
  rewrite (skip_whitespace_app ws _ c (l ++ tail) Hw Hb').
  cbn [position].
  replace (Z.to_nat (p + slen (String newline "") + slen ws
                     - (p + slen (String newline ""))))
    with (String.length ws)
    by (unfold slen; lia).
  rewrite substring_prefix.
  erewrite bind_done
    by (unfold ACCEPT_WHITESPACES, modify, set_scanner;
        cbn [scanner position rest];
        rewrite (skip_whitespace_app ws _ c (l ++ tail) Hw Hb'); reflexivity).
  cbv beta.
  replace (if grouped then s_accept GROUP_END else s_accept NL)
    with (s_accept (if grouped then GROUP_END else NL))
    by (destruct grouped; reflexivity).
  erewrite bind_done
    by (unfold s_accept; cbn [scanner];
        change (String c (l ++ tail)) with (String c l ++ tail)%string;
        rewrite (peek_closer_line grouped (String c l) tail _ Hl Hb Hg Ht);
        reflexivity).
  cbv beta iota.
  erewrite bind_done by reflexivity. cbv beta iota.
  unfold set_scanner.
  cbn [scanner messages blockStack inlineStack referringStack cxt groupDepth
       prefixes rest isEOF append].
  erewrite bind_done by reflexivity. cbv beta.
  cbn [scanner position].
  change (String c (l ++ tail)) with (String c l ++ tail)%string.
  rewrite (PRE_PARAGRAPH_loop_chars (String c l)) by exact Hl.
  rewrite !string_app_assoc, !slen_app.
  change (slen (String newline "")) with (slen NL).
  replace (p + slen NL + slen ws + slen (String c l))
    with (p + (slen NL + (slen ws + slen (String c l)))) by lia.
  reflexivity.
Qed.

Lemma PRE_PARAGRAPH_loop_lines (grouped : bool) (more : list (string * string)) :
  forall fuel str p tail ms bs ins rf cx gd pf,
    Forall (fun l => pre_continues grouped l = true) more ->
    at_line_end tail = true ->
    PRE_PARAGRAPH_loop (lines_turns more + fuel) grouped str p
      (mkState (mkScanner p (lines_source more ++ tail)) ms bs ins rf cx gd pf)
    = PRE_PARAGRAPH_loop fuel grouped (str ++ lines_source more)%string
        (p + slen (lines_source more))
        (mkState (mkScanner (p + slen (lines_source more)) tail) ms bs ins rf cx
                 gd pf).
Proof.
  induction more as [|[ws l] more IH];
    intros fuel str p tail ms bs ins rf cx gd pf Hm Ht.
  - cbn [lines_turns lines_source fold_right Nat.add append].
    rewrite string_app_nil_r.
    replace (p + slen "") with p by (unfold slen; simpl; lia). reflexivity.
  - inversion Hm as [|? ? Hl Hm']; subst.
    assert (Htail : at_line_end (lines_source more ++ tail) = true).
    { destruct more as [|l' more']; [exact Ht | reflexivity]. }
    change (lines_source ((ws, l) :: more))
      with (NL ++ ws ++ l ++ lines_source more)%string.
    change (lines_turns ((ws, l) :: more))
      with (S (String.length l + lines_turns more)).
    replace (S (String.length l + lines_turns more) + fuel)%nat
      with (S (String.length l + (lines_turns more + fuel))) by lia.
    replace ((NL ++ ws ++ l ++ lines_source more) ++ tail)%string
      with (NL ++ ws ++ l ++ (lines_source more ++ tail))%string
      by (rewrite !string_app_assoc; reflexivity).
    rewrite PRE_PARAGRAPH_loop_line by assumption.
    rewrite IH by assumption.
    replace ((str ++ NL ++ ws ++ l) ++ lines_source more)%string
      with (str ++ NL ++ ws ++ l ++ lines_source more)%string
      by (rewrite !string_app_assoc; reflexivity).
    replace (p + slen (NL ++ ws ++ l) + slen (lines_source more))
      with (p + slen (NL ++ ws ++ l ++ lines_source more))
      by (rewrite !slen_app; lia).
    reflexivity.
Qed.

(** What closes preformatted text: a newline, whitespace, and the end of
    the group or a second newline. *)
Lemma PRE_PARAGRAPH_loop_closed (fuel : nat) (grouped : bool) (ws rest' str : string)
  (p : Z) ms bs ins rf cx gd pf :
  all_chars is_whitespace ws = true ->
  let closing := (NL ++ ws ++ (if grouped then GROUP_END else NL))%string in
  PRE_PARAGRAPH_loop (S fuel) grouped str p
    (mkState (mkScanner p (closing ++ rest')) ms bs ins rf cx gd pf)
  = Done (str, p)
      (mkState (mkScanner (p + slen closing) rest') ms bs ins rf cx gd pf).
Proof.
  intros Hw closing.
  set (closer := if grouped then GROUP_END else NL).
  assert (Hc : exists c r, (closer ++ rest')%string = String c r
                           /\ is_whitespace c = false).
  { unfold closer. destruct grouped; eexists _, _; split; reflexivity. }
  destruct Hc as (c & r & Ec & Hcw).
  assert (Hsrc : (closing ++ rest')%string = (NL ++ ws ++ String c r)%string).
  { unfold closing. fold closer. rewrite !string_app_assoc, Ec. reflexivity. }
  rewrite Hsrc.
  cbn [PRE_PARAGRAPH_loop].
  erewrite bind_done by reflexivity. cbv beta iota.
  change (isEOF (scanner (mkState (mkScanner p (NL ++ ws ++ String c r))
                            ms bs ins rf cx gd pf))) with false.
  cbv iota.
  erewrite bind_done
    by (unfold s_accept, accept, NL, set_scanner; cbn [scanner rest append strip_prefix];
        rewrite Ascii.eqb_refl; reflexivity).
  cbv beta iota.
  erewrite bind_done by reflexivity. cbv beta iota zeta.
  cbn [scanner rest position].
  erewrite bind_done
    by (unfold ACCEPT_WHITESPACES, modify, set_scanner;
        cbn [scanner position rest];
        rewrite (skip_whitespace_app ws _ c r Hw Hcw); reflexivity).
  cbv beta.
  replace (if grouped then s_accept GROUP_END else s_accept NL)
    with (s_accept closer)
    by (unfold closer; destruct grouped; reflexivity).
  rewrite <- Ec.
  erewrite bind_done by apply s_accept_prefix.
  cbv beta iota. unfold ret.
  unfold closing. fold closer. rewrite !slen_app.
  change (slen (String newline "")) with (slen NL).
  replace (p + slen NL + slen ws + slen closer)
    with (p + (slen NL + (slen ws + slen closer))) by lia.
  reflexivity.
Qed.

Lemma PRE_PARAGRAPH_loop_end (fuel : nat) (grouped : bool) (str : string)
  (p : Z) ms bs ins rf cx gd pf :
  PRE_PARAGRAPH_loop (S fuel) grouped str p
    (mkState (mkScanner p EmptyString) ms bs ins rf cx gd pf)
  = Done (str, p) (mkState (mkScanner p EmptyString) ms bs ins rf cx gd pf).
Proof. reflexivity. Qed.

Lemma SHOULD_BE_A_NEWLINE_indented (ws r : string) (p : Z) ms bs ins rf cx gd pf :
  all_chars is_whitespace ws = true ->
  SHOULD_BE_A_NEWLINE (mkState (mkScanner p (ws ++ NL ++ r)) ms bs ins rf cx gd pf)
  = Done tt (mkState (mkScanner (p + slen ws + 1) r) ms bs ins rf cx gd pf).
Proof.
  intros Hw. unfold SHOULD_BE_A_NEWLINE.
  erewrite bind_done
    by (unfold ACCEPT_WHITESPACES, modify, set_scanner;
        cbn [scanner position rest];
        change (NL ++ r)%string with (String newline r);
        rewrite (skip_whitespace_app ws _ newline r Hw eq_refl); reflexivity).
  cbv beta.
  erewrite bind_done
    by (change (String newline r) with (NL ++ r)%string; apply s_accept_prefix).
  cbv beta. reflexivity.
Qed.

(** X10.  [PRE_PARAGRAPH] copies its text verbatim.  The input is an
    opening, the text, a closing and the rest: the opening is empty, or
    for a group the group sign, whitespace and a newline; the text is a
    first line and the lines that continue it, each with its newline and
    the whitespace in front of it, and every character of a line other
    than the newline is text, brackets and backslashes included; the
    closing is a newline, whitespace, and the end of the group or, without
    a group, a second newline, or it is empty at the end of the input.
    The node that is added to the open block starts at the cursor and
    ends where the scanner is left, behind the closing; its content is
    exactly the text, whitespace kept, and spans the text; no message is
    added.  And on every input that is not empty [PRE_PARAGRAPH] returns,
    having added one such node to the open block. *)
Theorem PRE_PARAGRAPH_verbatim :
  (forall (fuel : nat) (grouped closed : bool) (ws0 first : string)
          (more : list (string * string)) (ws rest' : string) (st : PState)
          (top : BlockContainer) (below : list BlockContainer),
      all_chars is_whitespace ws0 = true ->
      all_chars pre_char first = true ->
      Forall (fun l => pre_continues grouped l = true) more ->
      all_chars is_whitespace ws = true ->
      let opening := (if grouped then GROUP_BEGIN ++ ws0 ++ NL else EmptyString)%string in
      let text := (first ++ lines_source more)%string in
      let closing := (if closed
                      then NL ++ ws ++ (if grouped then GROUP_END else NL)
                      else EmptyString)%string in
      rest (scanner st) = (opening ++ text ++ closing ++ rest')%string ->
      rest (scanner st) <> EmptyString ->
      (closed = false -> rest' = EmptyString) ->
      (grouped = false -> peek GROUP_BEGIN (scanner st) = false) ->
      blockStack st = top :: below ->
      (String.length text + 1 < fuel)%nat ->
      let p := position (scanner st) in
      let cs := p + slen opening in
      let ce := cs + slen text in
      let e := ce + slen closing in
      PRE_PARAGRAPH fuel st
      = Done tt
          (mkState (mkScanner e rest') (messages st)
             (push_block top (PreNode p e cs ce text) :: below)
             (inlineStack st) (referringStack st) (cxt st) (groupDepth st)
             (prefixes st)))
  /\ (forall (fuel : nat) (st : PState) (top : BlockContainer)
             (below : list BlockContainer),
        rest (scanner st) <> EmptyString ->
        blockStack st = top :: below ->
        (remaining st < fuel)%nat ->
        exists opening text closing rest' extra,
          rest (scanner st) = (opening ++ text ++ closing ++ rest')%string
          /\ (peek GROUP_BEGIN (scanner st) = false -> opening = EmptyString)
          /\ let p := position (scanner st) in
             let cs := p + slen opening in
             let ce := cs + slen text in
             let e := ce + slen closing in
             PRE_PARAGRAPH fuel st
             = Done tt
                 (mkState (mkScanner e rest') (messages st ++ extra)
                    (push_block top (PreNode p e cs ce text) :: below)
                    (inlineStack st) (referringStack st) (cxt st) (groupDepth st)
                    (prefixes st))).
Proof.
  split; [|intros; apply PRE_PARAGRAPH_returns; assumption].
  intros fuel grouped closed ws0 first more ws rest' st top below
         Hw0 Hfirst Hmore Hws opening text closing Hsrc Hne Hrest Hgroup Hb Hf
         p cs ce e.
  destruct st as [[p0 r0] ms bs ins rf cx gd pf].
  cbn [scanner rest position blockStack messages inlineStack referringStack cxt
       groupDepth prefixes] in *.
  subst bs p.
  assert (Htail : at_line_end (closing ++ rest') = true).
  { unfold closing. destruct closed; [reflexivity|].
    rewrite (Hrest eq_refl). reflexivity. }
  assert (Hloop : forall str q,
    PRE_PARAGRAPH_loop fuel grouped str q
      (mkState (mkScanner q (text ++ closing ++ rest')) ms (top :: below) ins rf cx
               gd pf)
    = Done ((str ++ text)%string, q + slen text)
        (mkState (mkScanner (q + slen text + slen closing) rest') ms (top :: below)
                 ins rf cx gd pf)).
  { intros str q. unfold text.
    assert (Hturns : (lines_turns more <= String.length (lines_source more))%nat).
    { clear. induction more as [|[w l] more IH]; [simpl; lia|].
      change (lines_source ((w, l) :: more))
        with (NL ++ w ++ l ++ lines_source more)%string.
      change (lines_turns ((w, l) :: more))
        with (S (String.length l + lines_turns more)).
      rewrite !length_app_slen. simpl String.length. lia. }
    unfold text in Hf. rewrite length_app_slen in Hf.
    replace fuel
      with (String.length first
            + (lines_turns more
               + S (fuel - String.length first - lines_turns more - 1)))%nat by lia.
    rewrite string_app_assoc.
    rewrite PRE_PARAGRAPH_loop_chars by exact Hfirst.
    rewrite PRE_PARAGRAPH_loop_lines by assumption.
    rewrite string_app_assoc, slen_app.
    replace (q + slen first + slen (lines_source more))
      with (q + (slen first + slen (lines_source more))) by lia.
    unfold closing. destruct closed.
    - rewrite PRE_PARAGRAPH_loop_closed by exact Hws. reflexivity.
    - rewrite (Hrest eq_refl). cbn [append].
      rewrite PRE_PARAGRAPH_loop_end.
      change (slen "") with 0. rewrite Z.add_0_r. reflexivity. }
  unfold PRE_PARAGRAPH.
  erewrite bind_done by reflexivity. cbv beta.
  assert (Heof : isEOF (mkScanner p0 r0) = false).
  { unfold isEOF. cbn [rest]. destruct r0; [congruence | reflexivity]. }
  cbn [scanner]. rewrite Heof. cbn [negb].
  erewrite bind_done by reflexivity. cbv beta.
  erewrite bind_done by reflexivity. cbv beta.
  cbn [position scanner].
  subst r0. subst e ce cs. unfold opening in *.
  destruct grouped.
  - rewrite !string_app_assoc.
    erewrite bind_done by apply s_accept_prefix.
    cbv beta. cbn [when].
    erewrite bind_done by (apply SHOULD_BE_A_NEWLINE_indented; exact Hw0).
    cbv beta.
    erewrite bind_done by reflexivity. cbv beta.
    cbn [position scanner].
    erewrite bind_done by apply Hloop.
    cbv beta iota.
    erewrite bind_done by reflexivity. cbv beta.
    cbn [position scanner]. unfold addBlockNode.
    cbn [blockStack]. unfold set_blockStack.
    cbn [scanner position messages blockStack inlineStack referringStack cxt
         groupDepth prefixes append].
    rewrite !slen_app. change (slen NL) with 1.
    replace (p0 + (slen GROUP_BEGIN + (slen ws0 + 1)))
      with (p0 + slen GROUP_BEGIN + slen ws0 + 1) by lia.
    reflexivity.
  - cbn [append] in *.
    erewrite bind_done
      by (unfold s_accept; cbn [scanner];
          rewrite (accept_not_peek _ _ (Hgroup eq_refl)); reflexivity).
    cbv beta. cbn [when].
    erewrite bind_done by reflexivity. cbv beta.
    erewrite bind_done by reflexivity. cbv beta.
    unfold set_scanner.
    cbn [position scanner messages blockStack inlineStack referringStack cxt
         groupDepth prefixes].
    erewrite bind_done by apply Hloop.
    cbv beta iota.
    erewrite bind_done by reflexivity. cbv beta.
    cbn [position scanner]. unfold addBlockNode.
    cbn [blockStack]. unfold set_blockStack.
    cbn [scanner position messages blockStack inlineStack referringStack cxt
         groupDepth prefixes append].
    change (slen "") with 0. rewrite !Z.add_0_r.
    reflexivity.
Qed.

(** *** Escaped characters in a paragraph *)





















(** *** A modifier inside delayed content *)

(** The head of a modifier that is registered and has no arguments. *)
Lemma MODIFIER_head_simple (fuel : nat) (type : ModType) (p : Z) (nm r : string)
  (x : string * DefId) ms bs ins rf cx gd pf :
  let st := mkState (mkScanner p (modifier_open type ++ nm ++ MODIFIER_CLOSE_SIGN ++ r))
                    ms bs ins rf cx gd pf in
  find_accept (prefix_table type st)
              (mkScanner (p + 2) (nm ++ MODIFIER_CLOSE_SIGN ++ r))
  = (Some x, mkScanner (p + 2 + slen nm) (MODIFIER_CLOSE_SIGN ++ r)) ->
  MODIFIER_head (S (S fuel)) type st
  = Done (mkModifier type (Registered (snd x))
            (Build_PositionRange p (p + 2 + slen nm + 1)) [] p (-1) None [] None,
          has (flags (definition_of (snd x))) ModifierFlags.Marker)
      (mkState (mkScanner (p + 2 + slen nm + 1) r) ms bs ins rf cx gd pf).
Proof.
  intros st Hfind. unfold st in *. clear st.
  assert (Hopen : slen (modifier_open type) = 2) by (destruct type; reflexivity).
  unfold MODIFIER_head.
  erewrite bind_done by reflexivity. cbv beta.
  erewrite bind_done by apply s_accept_prefix.
  cbv beta. erewrite bind_done by reflexivity. cbv beta.
  rewrite Hopen.
  erewrite bind_done
    by (unfold find_modifier; cbn [scanner prefixes];
        unfold prefix_table in Hfind; cbn [prefixes] in Hfind;
        rewrite Hfind; reflexivity).
  cbv beta iota. destruct x as [nm' d]. cbn [snd].
  erewrite bind_done by reflexivity. cbv beta.
  erewrite bind_done by (apply ARGUMENTS_none; right; eexists; reflexivity).
  cbv beta.
  unfold set_scanner.
  cbn [scanner messages blockStack inlineStack referringStack cxt groupDepth prefixes].
  erewrite bind_done
    by (unfold s_accept, MODIFIER_END_SIGN, MODIFIER_CLOSE_SIGN; cbn [scanner append];
        rewrite (accept_other ";"%char EmptyString _ "]"%char r eq_refl);
        reflexivity).
  cbv beta.
  unfold set_scanner.
  cbn [scanner messages blockStack inlineStack referringStack cxt groupDepth prefixes].
  erewrite bind_done
    by (change (String "]"%char r) with (MODIFIER_CLOSE_SIGN ++ r)%string;
        apply s_accept_prefix).
  cbv beta. cbn [negb when].
  erewrite bind_done by reflexivity. cbv beta.
  erewrite bind_done by reflexivity. cbv beta.
  cbn [scanner position definition].
  change (slen MODIFIER_CLOSE_SIGN) with 1.
  rewrite orb_false_r. reflexivity.
Qed.

(** The node that the head of a modifier without arguments makes. *)
Definition head_node (type : ModType) (d : DefId) (p e : Z) : Modifier :=
  mkModifier type (Registered d) (Build_PositionRange p e) [] p (-1) None [] None.

Lemma store_block_last (n n' : Node) (top : BlockContainer)
  (p : Scanner) ms below ins rf cx gd pf :
  store_block n' (mkState p ms (push_block top n :: below) ins rf cx gd pf)
  = Done tt (mkState p ms (push_block top n' :: below) ins rf cx gd pf).
Proof.
  destruct top as [r|m]; unfold store_block;
    cbn [blockStack push_block set_blockStack root_start root_end root_content
         scanner messages inlineStack referringStack cxt groupDepth prefixes];
    [|unfold set_content;
      cbn [m_content m_type m_mod m_head m_arguments m_start m_end m_state
           m_expansion]];
    rewrite replace_last_push; reflexivity.
Qed.

(** A marker modifier while [delayDepth] is positive: the node is added
    to the open block as the head made it; [#expand] leaves it alone. *)
Lemma MODIFIER_marker_delayed (fuel : nat) (p : Z) (nm r : string)
  (x : string * DefId) ms top below ins rf cx gd pf :
  let st := mkState (mkScanner p (MODIFIER_BLOCK_OPEN ++ nm ++ MODIFIER_CLOSE_SIGN ++ r))
                    ms (top :: below) ins rf cx gd pf in
  find_accept (p_block pf) (mkScanner (p + 2) (nm ++ MODIFIER_CLOSE_SIGN ++ r))
  = (Some x, mkScanner (p + 2 + slen nm) (MODIFIER_CLOSE_SIGN ++ r)) ->
  has (flags (definition_of (snd x))) ModifierFlags.Marker = true ->
  beforeParseContent (definition_of (snd x)) = None ->
  afterParseContent (definition_of (snd x)) = None ->
  delayContentExpansion (definition_of (snd x)) = false ->
  alwaysTryExpand (definition_of (snd x)) = false ->
  0 < delayDepth cx ->
  MODIFIER (S (S (S fuel))) block st
  = Done true
      (mkState (mkScanner (p + 2 + slen nm + 1) r) ms
         (push_block top
            (ModifierNode (head_node block (snd x) p (p + 2 + slen nm + 1)))
          :: below)
         ins rf cx gd pf).
Proof.
  intros st Hfind Hmark Hb Ha Hd Halways Hdelay. unfold st. clear st.
  cbn [MODIFIER].
  erewrite bind_done
    by (apply (MODIFIER_head_simple fuel block); exact Hfind).
  cbv beta iota. rewrite Hmark.
  unfold def_of. cbn [m_mod definition].
  rewrite Hb. erewrite bind_done by reflexivity. cbv beta.
  cbn [m_mod definition]. rewrite Hd. cbn [when].
  erewrite bind_done by reflexivity. cbv beta.
  erewrite bind_done by reflexivity. cbv beta iota.
  cbn [m_mod definition]. rewrite Hd, Ha. cbn [when].
  erewrite bind_done by reflexivity. cbv beta.
  erewrite bind_done by reflexivity. cbv beta.
  erewrite bind_done
    by (apply expand_skipped;
        [reflexivity | exact Hdelay | unfold def_of; cbn [m_mod definition]; exact Halways]).
  cbv beta iota.
  unfold addBlockNode, set_blockStack.
  cbn [blockStack scanner messages inlineStack referringStack cxt groupDepth prefixes].
  erewrite bind_done by apply store_block_last.
  reflexivity.
Qed.

(** The same marker modifier while [delayDepth] is not positive:
    [#expand] calls its [expand]. *)
Lemma MODIFIER_marker_expanded (fuel : nat) (p : Z) (nm r : string)
  (x : string * DefId) (g : ExpandHook) (cx' : ParseContext)
  ms top below ins rf cx gd pf :
  let st := mkState (mkScanner p (MODIFIER_BLOCK_OPEN ++ nm ++ MODIFIER_CLOSE_SIGN ++ r))
                    ms (top :: below) ins rf cx gd pf in
  let node := head_node block (snd x) p (p + 2 + slen nm + 1) in
  find_accept (p_block pf) (mkScanner (p + 2) (nm ++ MODIFIER_CLOSE_SIGN ++ r))
  = (Some x, mkScanner (p + 2 + slen nm) (MODIFIER_CLOSE_SIGN ++ r)) ->
  has (flags (definition_of (snd x))) ModifierFlags.Marker = true ->
  beforeParseContent (definition_of (snd x)) = None ->
  afterParseContent (definition_of (snd x)) = None ->
  delayContentExpansion (definition_of (snd x)) = false ->
  prepareExpand (definition_of (snd x)) = None ->
  expand (definition_of (snd x)) = Some g ->
  g node cx = (Some [], node, cx') ->
  delayDepth cx <= 0 ->
  MODIFIER (S (S (S fuel))) block st
  = Done true
      (mkState (mkScanner (p + 2 + slen nm + 1) r) ms
         (push_block top (ModifierNode (set_expansion node (Some []))) :: below)
         ins rf cx' gd (sorted_prefixes (config cx'))).
Proof.
  intros st node Hfind Hmark Hb Ha Hd Hp Hx Hg Hdelay. unfold st. clear st.
  cbn [MODIFIER].
  erewrite bind_done
    by (apply (MODIFIER_head_simple fuel block); exact Hfind).
  cbv beta iota. rewrite Hmark.
  unfold def_of. cbn [m_mod definition].
  rewrite Hb. erewrite bind_done by reflexivity. cbv beta.
  cbn [m_mod definition]. rewrite Hd. cbn [when].
  erewrite bind_done by reflexivity. cbv beta.
  erewrite bind_done by reflexivity. cbv beta iota.
  cbn [m_mod definition]. rewrite Hd, Ha. cbn [when].
  erewrite bind_done by reflexivity. cbv beta.
  erewrite bind_done by reflexivity. cbv beta.
  erewrite bind_done.
  2: { unfold expand_node, expand_with.
       erewrite bind_done by reflexivity. cbv beta.
       cbn [m_expansion].
       unfold addBlockNode, set_blockStack.
       cbn [blockStack scanner messages inlineStack referringStack cxt groupDepth
            prefixes].
       replace (delayDepth cx >? 0) with false
         by (symmetry; rewrite Z.gtb_ltb; apply Z.ltb_ge; exact Hdelay).
       cbn [andb].
       unfold expand_content. cbn [m_content List.length].
       change ((0 <? Z.of_nat 0) && (0 >? 0))%bool with false.
       cbv iota.
       erewrite bind_done by reflexivity. cbv beta.
       unfold def_of. cbn [m_mod definition].
       rewrite Hp. cbn [call_hook].
       erewrite bind_done by reflexivity. cbv beta.
       cbn [m_mod definition].
       rewrite Hx.
       erewrite bind_done
         by (erewrite bind_done by reflexivity; cbv beta; cbn [cxt];
             unfold node, head_node in Hg; rewrite Hg; reflexivity).
       cbv beta iota.
       cbn [m_expansion set_expansion List.length].
       change (Z.of_nat 0 =? 0) with true. cbv iota.
       reflexivity. }
  cbv beta iota.
  unfold set_prefixes, set_cxt.
  cbn [blockStack scanner messages inlineStack referringStack cxt groupDepth prefixes].
  erewrite bind_done by apply store_block_last.
  reflexivity.
Qed.

Ltac norm_delay :=
  match goal with
  | |- ?m ?st = _ =>
      let v := eval cbv [set_scanner set_messages set_blockStack set_inlineStack
                         set_referringStack set_cxt set_groupDepth set_prefixes
                         set_delayDepth scanner messages blockStack inlineStack
                         referringStack cxt groupDepth prefixes config delayDepth
                         store] in st in
      change st with v
  end.

(** A modifier whose definition delays the expansion of its content, in
    front of a marker modifier: the marker is parsed with [delayDepth]
    raised, so it is not expanded; then [delayDepth] is taken back, and
    the modifier itself is expanded. *)
Lemma MODIFIER_delays_content (fuel : nat) (p : Z) (nmD nmE r : string)
  (xD xE : string * DefId) (f : ExpandHook) (c' : ParseContext)
  (cfg : Configuration) (sto : Store) ms top below ins rf gd pf :
  let inner := (MODIFIER_BLOCK_OPEN ++ nmE ++ MODIFIER_CLOSE_SIGN ++ r)%string in
  let q := p + 2 + slen nmD + 1 in
  let e := q + 2 + slen nmE + 1 in
  let child := head_node block (snd xE) q e in
  let parsed :=
    mkModifier block (Registered (snd xD)) (Build_PositionRange p q) [] p e None
               [ModifierNode child] None in
  find_accept (p_block pf) (mkScanner (p + 2) (nmD ++ MODIFIER_CLOSE_SIGN ++ inner))
  = (Some xD, mkScanner (p + 2 + slen nmD) (MODIFIER_CLOSE_SIGN ++ inner)) ->
  find_accept (p_block pf) (mkScanner (q + 2) (nmE ++ MODIFIER_CLOSE_SIGN ++ r))
  = (Some xE, mkScanner (q + 2 + slen nmE) (MODIFIER_CLOSE_SIGN ++ r)) ->
  flags (definition_of (snd xD)) = ModifierFlags.Normal ->
  beforeParseContent (definition_of (snd xD)) = None ->
  afterParseContent (definition_of (snd xD)) = None ->
  delayContentExpansion (definition_of (snd xD)) = true ->
  alwaysTryExpand (definition_of (snd xD)) = false ->
  prepareExpand (definition_of (snd xD)) = None ->
  expand (definition_of (snd xD)) = Some f ->
  f parsed (mkContext cfg 0 sto) = (Some [], parsed, c') ->
  has (flags (definition_of (snd xE))) ModifierFlags.Marker = true ->
  beforeParseContent (definition_of (snd xE)) = None ->
  afterParseContent (definition_of (snd xE)) = None ->
  delayContentExpansion (definition_of (snd xE)) = false ->
  alwaysTryExpand (definition_of (snd xE)) = false ->
  MODIFIER (S (S (S (S (S fuel))))) block
    (mkState (mkScanner p (MODIFIER_BLOCK_OPEN ++ nmD ++ MODIFIER_CLOSE_SIGN ++ inner))
             ms (top :: below) ins rf (mkContext cfg 0 sto) gd pf)
  = Done true
      (mkState (mkScanner e r) ms
         (push_block top (ModifierNode (set_expansion parsed (Some []))) :: below)
         ins rf c' gd (sorted_prefixes (config c'))).
Proof.
  intros inner q e child parsed HfD HfE HflD HbD HaD HdD HalD HpD HxD Hf
         HmE HbE HaE HdE HalE.
  cbn [MODIFIER].
  erewrite bind_done
    by (apply (MODIFIER_head_simple (S (S fuel)) block); exact HfD).
  cbv beta iota zeta.
  unfold def_of. cbn [m_mod definition].
  rewrite HflD.
  change (has ModifierFlags.Normal ModifierFlags.Marker) with false.
  change (has ModifierFlags.Normal ModifierFlags.Preformatted) with false.
  cbv iota.
  rewrite HbD. erewrite bind_done by reflexivity. cbv beta.
  cbn [m_mod definition]. rewrite HdD. cbn [when].
  erewrite bind_done by reflexivity. cbv beta.
  fold q.
  norm_delay.
  erewrite bind_done.
  2: { erewrite bind_done by reflexivity. cbv beta.
       norm_delay.
       erewrite bind_done
         by (apply WARN_IF_MORE_NEWLINES_THAN_none; [lia | reflexivity]).
       cbv beta.
       erewrite bind_done by reflexivity. cbv beta.
       unfold inner at 1. unfold isEOF at 1.
       cbn [scanner rest append MODIFIER_BLOCK_OPEN].
       cbn [negb when].
       erewrite bind_done.
       2: { cbn [BLOCK_ENTITY].
            erewrite bind_done by reflexivity. cbv beta.
            unfold inner at 1. unfold isEOF at 1.
            cbn [scanner rest append MODIFIER_BLOCK_OPEN negb].
            erewrite bind_done by reflexivity. cbv beta.
            erewrite bind_done by reflexivity. cbv beta.
            unfold inner at 1. unfold peek at 1.
            cbn [scanner rest append MODIFIER_BLOCK_OPEN strip_prefix].
            rewrite !Ascii.eqb_refl. cbv iota.
            erewrite bind_done
              by (apply MODIFIER_marker_delayed; try eassumption;
                  cbn [delayDepth]; lia).
            reflexivity. }
       cbv beta.
       erewrite bind_done.
       2: { unfold endBlock.
            erewrite bind_done by reflexivity. cbv beta.
            cbn [blockStack push_block]. cbv zeta.
            erewrite bind_done by reflexivity. cbv beta.
            norm_delay.
            erewrite bind_done by apply store_block_last.
            reflexivity. }
       reflexivity. }
  cbv beta iota.
  cbn [set_end set_content m_type m_mod m_head m_arguments m_start m_end m_state
       m_content m_expansion app position scanner definition].
  fold e. fold child.
  change (mkModifier block (Registered (snd xD)) (Build_PositionRange p q) [] p e
                     None [ModifierNode child] None) with parsed.
  rewrite HdD, HaD. cbn [when].
  erewrite bind_done by reflexivity. cbv beta.
  erewrite bind_done by reflexivity. cbv beta.
  norm_delay.
  change (set_end
            (set_content
               (mkModifier block (Registered (snd xD)) (Build_PositionRange p q) []
                           p (-1) None [] None)
               [ModifierNode child]) e) with parsed.
  change (0 + 1 + -1) with 0.
  erewrite bind_done.
  2: { unfold expand_node, expand_with.
       erewrite bind_done by reflexivity. cbv beta.
       change (m_expansion parsed) with (@None (list Node)). cbv iota.
       cbn [cxt delayDepth]. change (0 >? 0) with false. cbn [andb].
       unfold expand_content.
       change ((0 <? Z.of_nat (List.length (m_content parsed))) && false)%bool
         with false.
       cbv iota.
       erewrite bind_done by reflexivity. cbv beta.
       change (def_of parsed) with (definition_of (snd xD)).
       rewrite HpD. cbn [call_hook].
       erewrite bind_done by reflexivity. cbv beta.
       change (def_of parsed) with (definition_of (snd xD)).
       rewrite HxD.
       erewrite bind_done
         by (erewrite bind_done by reflexivity; cbv beta; cbn [cxt]; rewrite Hf;
             reflexivity).
       cbv beta iota.
       change (m_expansion (set_expansion parsed (Some []))) with (Some (@nil Node)).
       cbv iota.
       change (Z.of_nat (List.length (@nil Node)) =? 0) with true. cbv iota.
       reflexivity. }
  cbv beta iota.
  norm_delay.
  erewrite bind_done by apply store_block_last.
  reflexivity.

Qed.

(** C6.  While [delayDepth] is positive, [#expand] leaves a node whose
    definition is not [alwaysTryExpand] as it is: the expansion stays
    undefined, the call returns true and nothing else changes.  The
    content of a node whose definition has [delayContentExpansion] is
    reparsed with [delayDepth] one higher, and [delayDepth] is taken back
    afterwards.  Under hooks that leave [delayDepth] alone, every call of
    [#expand] and of [MODIFIER] ends with the [delayDepth] it started
    with, and [parse] ends with [delayDepth] 0.  [MODIFIER] parses the
    content of a modifier whose definition has [delayContentExpansion]
    with [delayDepth] raised, and takes it back before it expands the
    modifier itself: a marker modifier in that content, whose [expand]
    would be called were it parsed at [delayDepth] 0, is stored without
    expansion and its hooks are not called, while the enclosing modifier
    is expanded by its own [expand]. *)
Theorem delay_discipline :
  (forall d, definition_sound keeps_delay any_message (definition_of d)) ->
  forall (node : Modifier) (depth : Z) (st : PState),
    (forall fuel,
        m_expansion node = None -> 0 < delayDepth (cxt st) ->
        alwaysTryExpand (def_of node) = false ->
        expand_node fuel node depth st = Done (true, node) st)
    /\ (forall rp,
          m_content node <> [] -> 0 < depth ->
          beforeParseContent (def_of node) = None ->
          delayContentExpansion (def_of node) = true ->
          expand_content rp node depth st
          = match rp (m_content node) depth (set_cxt st (shift_delay 1 (cxt st))) with
            | Done (_, content) st' =>
                call_hook (afterParseContent (def_of node)) (set_content node content)
                          (set_cxt st' (shift_delay (-1) (cxt st')))
            | Thrown => Thrown
            | OutOfFuel => OutOfFuel
            end)
    /\ (0 <= depth ->
        exists r st',
          expand_node (reparse_fuel (limit st) depth) node depth st = Done r st'
          /\ delayDepth (cxt st') = delayDepth (cxt st))
    /\ (forall type,
          in_sync st -> names_ok (config (cxt st)) ->
          peek (modifier_open type) (scanner st) = true ->
          blockStack st <> [] -> (type = inline -> inlineStack st <> []) ->
          exists ok st',
            MODIFIER (10 * remaining st + 1 + reparse_fuel (limit st) 0) type st
            = Done ok st'
            /\ delayDepth (cxt st') = delayDepth (cxt st))
    /\ (forall src c store0,
          names_ok c ->
          exists doc,
            parse (parse_fuel src c) src c store0 = Returns doc
            /\ delayDepth (doc_context doc) = 0)
    /\ (forall (fuel : nat) (p : Z) (nmD nmE r : string) (xD xE : string * DefId)
               (f : ExpandHook) (c' : ParseContext) (cfg : Configuration)
               (sto : Store) ms top below ins rf gd pf,
          let inner := (MODIFIER_BLOCK_OPEN ++ nmE ++ MODIFIER_CLOSE_SIGN ++ r)%string in
          let q := p + 2 + slen nmD + 1 in
          let e := q + 2 + slen nmE + 1 in
          let child := head_node block (snd xE) q e in
          let parsed :=
            mkModifier block (Registered (snd xD)) (Build_PositionRange p q) [] p e
                       None [ModifierNode child] None in
          find_accept (p_block pf)
                      (mkScanner (p + 2) (nmD ++ MODIFIER_CLOSE_SIGN ++ inner))
          = (Some xD, mkScanner (p + 2 + slen nmD) (MODIFIER_CLOSE_SIGN ++ inner)) ->
          find_accept (p_block pf)
                      (mkScanner (q + 2) (nmE ++ MODIFIER_CLOSE_SIGN ++ r))
          = (Some xE, mkScanner (q + 2 + slen nmE) (MODIFIER_CLOSE_SIGN ++ r)) ->
          flags (definition_of (snd xD)) = ModifierFlags.Normal ->
          beforeParseContent (definition_of (snd xD)) = None ->
          afterParseContent (definition_of (snd xD)) = None ->
          delayContentExpansion (definition_of (snd xD)) = true ->
          alwaysTryExpand (definition_of (snd xD)) = false ->
          prepareExpand (definition_of (snd xD)) = None ->
          expand (definition_of (snd xD)) = Some f ->
          f parsed (mkContext cfg 0 sto) = (Some [], parsed, c') ->
          has (flags (definition_of (snd xE))) ModifierFlags.Marker = true ->
          beforeParseContent (definition_of (snd xE)) = None ->
          afterParseContent (definition_of (snd xE)) = None ->
          delayContentExpansion (definition_of (snd xE)) = false ->
          alwaysTryExpand (definition_of (snd xE)) = false ->
          MODIFIER (S (S (S (S (S fuel))))) block
            (mkState
               (mkScanner p (MODIFIER_BLOCK_OPEN ++ nmD ++ MODIFIER_CLOSE_SIGN ++ inner))
               ms (top :: below) ins rf (mkContext cfg 0 sto) gd pf)
          = Done true
              (mkState (mkScanner e r) ms
                 (push_block top (ModifierNode (set_expansion parsed (Some [])))
                  :: below)
                 ins rf c' gd (sorted_prefixes (config c'))))
    /\ (forall (fuel : nat) (p : Z) (nm r : string) (x : string * DefId)
               (g : ExpandHook) (cx cx' : ParseContext) ms top below ins rf gd pf,
          let st0 :=
            mkState (mkScanner p (MODIFIER_BLOCK_OPEN ++ nm ++ MODIFIER_CLOSE_SIGN ++ r))
                    ms (top :: below) ins rf cx gd pf in
          let marker := head_node block (snd x) p (p + 2 + slen nm + 1) in
          find_accept (p_block pf) (mkScanner (p + 2) (nm ++ MODIFIER_CLOSE_SIGN ++ r))
          = (Some x, mkScanner (p + 2 + slen nm) (MODIFIER_CLOSE_SIGN ++ r)) ->
          has (flags (definition_of (snd x))) ModifierFlags.Marker = true ->
          beforeParseContent (definition_of (snd x)) = None ->
          afterParseContent (definition_of (snd x)) = None ->
          delayContentExpansion (definition_of (snd x)) = false ->
          alwaysTryExpand (definition_of (snd x)) = false ->
          prepareExpand (definition_of (snd x)) = None ->
          expand (definition_of (snd x)) = Some g ->
          g marker cx = (Some [], marker, cx') ->
          (0 < delayDepth cx ->
           MODIFIER (S (S (S fuel))) block st0
           = Done true
               (mkState (mkScanner (p + 2 + slen nm + 1) r) ms
                  (push_block top (ModifierNode marker) :: below)
                  ins rf cx gd pf))
          /\ (delayDepth cx <= 0 ->
              MODIFIER (S (S (S fuel))) block st0
              = Done true
                  (mkState (mkScanner (p + 2 + slen nm + 1) r) ms
                     (push_block top (ModifierNode (set_expansion marker (Some [])))
                      :: below)
                     ins rf cx' gd (sorted_prefixes (config cx'))))).
Proof.
  intros Hs node depth st.
  split; [|split; [|split; [|split; [|split; [|split]]]]].
  - intros fuel. apply expand_skipped.
  - intros rp. apply expand_content_delayed.
  - intros Hd.
    pose proof (expand_node_steps keeps_delay any_message keeps_delay_refl
                  keeps_delay_trans keeps_delay_limit keeps_delay_delay
                  any_message_refer Hs depth _ node st Hd (le_n _)) as H.
    apply wp_done in H. destruct H as (r & st' & E & H).
    exists r, st'. split; [exact E|].
    apply expanded_core in H.
    destruct H as ((_ & _ & [_ HK] & _) & _). exact HK.
  - intros type Hsync Hn Hp Hb Hi.
    destruct (descent_terminates keeps_delay any_message keeps_delay_refl
                keeps_delay_trans keeps_delay_limit keeps_delay_delay
                any_message_refer Hs keeps_delay_names (limit st)
                (10 * remaining st + 1 + reparse_fuel (limit st) 0)) as (HM & _).
    specialize (HM type st).
    apply wp_done in HM.
    + destruct HM as (ok & st' & E & H & _).
      exists ok, st'. split; [exact E|].
      destruct H as (_ & _ & _ & _ & [_ HK] & _). exact HK.
    + unfold ready. auto.
    + exact Hp.
    + unfold bshape. destruct (blockStack st); [congruence | discriminate].
    + intros Ht. specialize (Hi Ht). unfold ishape.
      destruct (inlineStack st); [congruence | discriminate].
    + unfold bound. lia.
  - intros src c store0 Hn.
    destruct (parse_returns keeps_delay any_message keeps_delay_refl
                keeps_delay_trans keeps_delay_limit keeps_delay_delay
                any_message_refer Hs keeps_delay_names src c store0 Hn)
      as (doc & E & [_ HK]).
    exists doc. split; [exact E | exact HK].
  - intros. eapply MODIFIER_delays_content; eassumption.
  - intros fuel p nm r x g cx cx' ms top below ins rf gd pf st0 marker
           Hfind Hmark Hb Ha Hd Halways Hp Hx Hg.
    split; intros Hdelay.
    + apply MODIFIER_marker_delayed; assumption.
    + apply (MODIFIER_marker_expanded fuel p nm r x g cx'); assumption.
Qed.

End Model.

(** * Fix suggestions (messages.ts) and line positions (util.ts) *)

(** [String.prototype.substring] on integral indices: both indices are
    clamped to the string, and swapped when the first is the greater. *)
Definition clamp_index (s : string) (i : Z) : nat :=
  Z.to_nat (Z.min (Z.max i 0) (slen s)).

Definition js_substring (s : string) (a b : Z) : string :=
  let a' := clamp_index s a in
  let b' := clamp_index s b in
  substring (Nat.min a' b') (Nat.max a' b' - Nat.min a' b') s.

(** [s.substring(a)]. *)
Definition js_substring_from (s : string) (a : Z) : string :=
  js_substring s a (slen s).

(** The character at an index, [None] outside the string. *)
Definition char_at (s : string) (i : Z) : option ascii :=
  if i <? 0 then None else String.get (Z.to_nat i) s.

(** [apply(src, cursor)] of the fix of an [AddThingMessage] at [pos]
    that adds [what]: the new source and the new cursor. *)
Definition AddThing_apply (pos : Z) (what : string) (src : string) (cursor : Z)
  : string * Z :=
  let newCursor := if cursor <? pos then cursor else cursor + slen what in
  ((js_substring src 0 pos ++ what ++ js_substring_from src pos)%string, newCursor).

(** [apply(src, cursor)] of the fix of a [RemoveThingMessage] at [pos]
    of length [len]. *)
Definition RemoveThing_apply (pos len : Z) (src : string) (cursor : Z)
  : string * Z :=
  let newCursor :=
    if ((cursor <? pos + len) && (cursor >=? pos))%bool then pos else cursor - len in
  ((js_substring src 0 pos ++ js_substring_from src (pos + len))%string, newCursor).

(** [apply(src, cursor)] of the fix of an [UnknownModifierMessage] at
    [pos]. *)
Definition UnknownModifier_apply (pos : Z) (src : string) (cursor : Z)
  : string * Z :=
  let newCursor := if cursor <? pos then cursor else cursor + 1 in
  ((js_substring src 0 pos ++ backslash ++ js_substring_from src pos)%string,
   newCursor).

(** The fixes of [NewBlockShouldBeOnNewlineMessage] and
    [ContentShouldBeOnNewlineMessage] add a line break; the fix of
    [UnnecessaryNewlineMessage] removes the range of the message. *)
Definition NewBlockShouldBeOnNewline_apply (pos : Z) := AddThing_apply pos NL.
Definition ContentShouldBeOnNewline_apply (pos : Z) := AddThing_apply pos NL.
Definition UnnecessaryNewline_apply (pos len : Z) := RemoveThing_apply pos len.

Lemma string_length_app (a b : string) :
  String.length (a ++ b) = (String.length a + String.length b)%nat.
Proof. induction a as [|c a IH]; simpl; congruence. Qed.

Lemma substring_all (s : string) : substring 0 (String.length s) s = s.
Proof. induction s as [|c s IH]; simpl; congruence. Qed.

Lemma substring_none (s : string) (n : nat) : substring n 0 s = EmptyString.
Proof.
  revert n. induction s as [|c s IH]; intros [|n]; simpl; auto.
Qed.

Lemma substring_suffix (a b : string) (m : nat) :
  substring (String.length a) m (a ++ b) = substring 0 m b.
Proof. induction a as [|c a IH]; simpl; auto. Qed.

Lemma split_at (s : string) (n : nat) :
  (n <= String.length s)%nat ->
  exists a b, s = (a ++ b)%string /\ String.length a = n.
Proof.
  revert n. induction s as [|c s IH]; intros n Hn.
  - exists EmptyString, EmptyString. simpl in *. split; [reflexivity | lia].
  - destruct n as [|n].
    + exists EmptyString, (String c s). auto.
    + destruct (IH n) as (a & b & -> & Ha); [simpl in Hn; lia|].
      exists (String c a), b. simpl. split; [reflexivity | lia].
Qed.

Lemma js_substring_prefix (a b : string) :
  js_substring (a ++ b) 0 (slen a) = a.
Proof.
  unfold js_substring, clamp_index, slen.
  rewrite string_length_app.
  replace (Z.to_nat (Z.min (Z.max 0 0) (Z.of_nat (String.length a + String.length b))))
    with O by lia.
  replace (Z.to_nat (Z.min (Z.max (Z.of_nat (String.length a)) 0)
                       (Z.of_nat (String.length a + String.length b))))
    with (String.length a) by lia.
  rewrite Nat.min_0_l, Nat.max_0_l, Nat.sub_0_r. apply substring_prefix.
Qed.

Lemma js_substring_suffix (a b : string) :
  js_substring_from (a ++ b) (slen a) = b.
Proof.
  unfold js_substring_from, js_substring, clamp_index, slen.
  rewrite string_length_app.
  replace (Z.to_nat (Z.min (Z.max (Z.of_nat (String.length a)) 0)
                       (Z.of_nat (String.length a + String.length b))))
    with (String.length a) by lia.
  replace (Z.to_nat (Z.min (Z.max (Z.of_nat (String.length a + String.length b)) 0)
                       (Z.of_nat (String.length a + String.length b))))
    with (String.length a + String.length b)%nat by lia.
  rewrite Nat.min_l, Nat.max_r by lia.
  replace (String.length a + String.length b - String.length a)%nat
    with (String.length b) by lia.
  rewrite substring_suffix. apply substring_all.
Qed.

Lemma slen_nonneg (s : string) : 0 <= slen s.
Proof. unfold slen. lia. Qed.

Lemma split_at_position (s : string) (pos : Z) :
  0 <= pos <= slen s ->
  exists a b, s = (a ++ b)%string /\ slen a = pos.
Proof.
  intros H. destruct (split_at s (Z.to_nat pos)) as (a & b & Hs & Ha).
  - unfold slen in H. lia.
  - exists a, b. split; [exact Hs|]. unfold slen. lia.
Qed.

Lemma char_at_app_l (a b : string) (i : Z) :
  0 <= i < slen a -> char_at (a ++ b) i = char_at a i.
Proof.
  intros H. unfold char_at. destruct (Z.ltb_spec i 0); [lia|].
  symmetry. apply append_correct1. unfold slen in H. lia.
Qed.

Lemma char_at_app_r (a b : string) (i : Z) :
  slen a <= i -> char_at (a ++ b) i = char_at b (i - slen a).
Proof.
  intros H. unfold char_at, slen in *.
  destruct (Z.ltb_spec i 0); [lia|]. destruct (Z.ltb_spec (i - Z.of_nat (String.length a)) 0); [lia|].
  rewrite (append_correct2 a b).
  f_equal. lia.
Qed.

(** X15.  The fix of an [AddThingMessage] at a position inside the
    source puts [what] between the text before and the text behind that
    position and changes nothing else; a cursor that stands on a
    character still stands on that character afterwards; removing the
    added range with the fix of a [RemoveThingMessage] gives the source
    back, and the cursor too when it stood at or behind the position.
    The fix of an [UnknownModifierMessage] does the same with a
    backslash. *)
Theorem AddThing_apply_inserts (pos : Z) (what src : string) (cursor : Z) :
  0 <= pos <= slen src ->
  exists before behind,
    src = (before ++ behind)%string
    /\ slen before = pos
    /\ fst (AddThing_apply pos what src cursor) = (before ++ what ++ behind)%string
    /\ (0 <= cursor < slen src ->
        char_at (fst (AddThing_apply pos what src cursor))
                (snd (AddThing_apply pos what src cursor))
        = char_at src cursor)
    /\ fst (RemoveThing_apply pos (slen what)
              (fst (AddThing_apply pos what src cursor))
              (snd (AddThing_apply pos what src cursor)))
       = src
    /\ (pos <= cursor ->
        snd (RemoveThing_apply pos (slen what)
               (fst (AddThing_apply pos what src cursor))
               (snd (AddThing_apply pos what src cursor)))
        = cursor)
    /\ UnknownModifier_apply pos src cursor = AddThing_apply pos backslash src cursor.
Proof.
  intros Hpos.
  destruct (split_at_position src pos Hpos) as (a & b & -> & Ha).
  exists a, b. split; [reflexivity|]. split; [exact Ha|].
  assert (Hfst : fst (AddThing_apply pos what (a ++ b) cursor)
                 = (a ++ what ++ b)%string).
  { unfold AddThing_apply. cbn [fst]. rewrite <- Ha.
    rewrite js_substring_prefix, js_substring_suffix. reflexivity. }
  split; [exact Hfst|]. split; [|split; [|split]].
  - intros Hc. rewrite Hfst. unfold AddThing_apply. cbn [snd].
    destruct (Z.ltb_spec cursor pos).
    + rewrite !char_at_app_l by lia. reflexivity.
    + pose proof (slen_nonneg what).
      rewrite (char_at_app_r a b) by lia.
      rewrite (char_at_app_r a (what ++ b)) by lia.
      rewrite (char_at_app_r what b) by lia.
      f_equal. lia.
  - rewrite Hfst. unfold RemoveThing_apply. cbn [fst]. rewrite <- Ha.
    rewrite js_substring_prefix.
    replace (a ++ what ++ b)%string with ((a ++ what) ++ b)%string
      by apply string_app_assoc.
    rewrite <- slen_app, js_substring_suffix. reflexivity.
  - intros Hc. unfold RemoveThing_apply, AddThing_apply. cbn [snd].
    pose proof (slen_nonneg what).
    destruct (Z.ltb_spec cursor pos); [lia|].
    destruct (Z.ltb_spec (cursor + slen what) (pos + slen what)); [lia|].
    cbn [andb]. lia.
  - reflexivity.
Qed.

(** X16.  The fix of a [RemoveThingMessage] whose range lies inside the
    source removes exactly that range.  A cursor behind the range still
    stands on its character afterwards, and a cursor inside the range
    is put where the range began; a cursor in front of the range is
    moved to the left by the length of the range all the same. *)
Theorem RemoveThing_apply_removes (pos len : Z) (src : string) (cursor : Z) :
  0 <= pos -> 0 <= len -> pos + len <= slen src ->
  exists before removed behind,
    src = (before ++ removed ++ behind)%string
    /\ slen before = pos /\ slen removed = len
    /\ fst (RemoveThing_apply pos len src cursor) = (before ++ behind)%string
    /\ (pos + len <= cursor < slen src ->
        char_at (fst (RemoveThing_apply pos len src cursor))
                (snd (RemoveThing_apply pos len src cursor))
        = char_at src cursor)
    /\ (pos <= cursor < pos + len ->
        snd (RemoveThing_apply pos len src cursor) = pos)
    /\ (cursor < pos ->
        snd (RemoveThing_apply pos len src cursor) = cursor - len).
Proof.
  intros Hpos Hlen Hend.
  destruct (split_at_position src pos) as (a & bc & -> & Ha); [lia|].
  rewrite slen_app in Hend.
  destruct (split_at_position bc len) as (b & c & -> & Hb); [lia|].
  exists a, b, c. split; [reflexivity|]. split; [exact Ha|]. split; [exact Hb|].
  assert (Hfst : fst (RemoveThing_apply pos len (a ++ b ++ c) cursor)
                 = (a ++ c)%string).
  { unfold RemoveThing_apply. cbn [fst]. rewrite <- Ha at 1.
    rewrite js_substring_prefix.
    replace (a ++ b ++ c)%string with ((a ++ b) ++ c)%string
      by apply string_app_assoc.
    replace (pos + len) with (slen (a ++ b)) by (rewrite slen_app; lia).
    rewrite js_substring_suffix. reflexivity. }
  split; [exact Hfst|]. split; [|split].
  - intros Hc. rewrite Hfst. unfold RemoveThing_apply. cbn [snd].
    destruct (Z.ltb_spec cursor (pos + len)); [lia|]. cbn [andb].
    rewrite (char_at_app_r a c) by lia.
    rewrite (char_at_app_r a (b ++ c)) by lia.
    rewrite (char_at_app_r b c) by lia.
    f_equal. lia.
  - intros Hc. unfold RemoveThing_apply. cbn [snd].
    destruct (Z.ltb_spec cursor (pos + len)); [|lia].
    destruct (Z.geb_spec cursor pos); [reflexivity | lia].
  - intros Hc. unfold RemoveThing_apply. cbn [snd].
    destruct (Z.geb_spec cursor pos); [lia|].
    rewrite andb_false_r. reflexivity.
Qed.

(** JavaScript numbers as far as [linePositions] needs them: an integer
    or [Infinity]. *)
Inductive num :=
| Finite (z : Z)
| Infinity.

(** [x > pos] for an integral [pos]. *)
Definition num_gtb (x : num) (pos : Z) : bool :=
  match x with
  | Finite z => z >? pos
  | Infinity => true
  end.

(** A JavaScript string is a sequence of UTF-16 code units, and a
    position in it counts code units.  The string iterator behind
    [[...src]] yields code points: a high surrogate that is followed by a
    low surrogate is one element with it, every other code unit is an
    element of its own. *)
Definition is_high_surrogate (u : Z) : bool := (55296 <=? u) && (u <=? 56319).
Definition is_low_surrogate (u : Z) : bool := (56320 <=? u) && (u <=? 57343).

Fixpoint spread (src : list Z) : list (list Z) :=
  match src with
  | [] => []
  | u :: r =>
      match r with
      | v :: r' =>
          if is_high_surrogate u && is_low_surrogate v
          then [u; v] :: spread r'
          else [u] :: spread r
      | [] => [[u]]
      end
  end.

(** [x == '\n']. *)
Definition is_newline_element (x : list Z) : bool :=
  match x with
  | [u] => u =? 10
  | _ => false
  end.

(** util.ts, [linePositions]: the entries that the elements from index
    [i] on add, and the whole list. *)
Fixpoint line_starts (elements : list (list Z)) (i : Z) : list num :=
  match elements with
  | [] => []
  | x :: r =>
      if is_newline_element x then Finite (i + 1) :: line_starts r (i + 1)
      else line_starts r (i + 1)
  end.

Definition linePositions (src : list Z) : list num :=
  Finite 0 :: line_starts (spread src) 0 ++ [Infinity].

(** The loop of [pos2lc] in [debugDumpDocument], from index [i] on:
    [previous] is [lines[i-1]] and [lines] holds [lines[i]] and what
    follows; the result is [line] and [linepos]. *)
Fixpoint pos2lc_loop (previous : num) (lines : list num) (i : Z) (pos : Z)
  : Z * num :=
  match lines with
  | [] => (-1, Finite 0)
  | x :: lines' =>
      if num_gtb x pos then (i, previous)
      else pos2lc_loop x lines' (i + 1) pos
  end.

(** [pos2lc]: the line and the column that [l${line}c${pos - linepos + 1}]
    prints.  [None] stands for a [linepos] that is not finite. *)
Definition pos2lc (src : list Z) (pos : Z) : option (Z * Z) :=
  match linePositions src with
  | [] => Some (-1, pos - 0 + 1)
  | first :: lines =>
      match pos2lc_loop first lines 1 pos with
      | (line, Finite linepos) => Some (line, pos - linepos + 1)
      | (_, Infinity) => None
      end
  end.

(** The number of elements of [l] that are a newline. *)
Fixpoint count_newline_elements (l : list (list Z)) : Z :=
  match l with
  | [] => 0
  | x :: l' => (if is_newline_element x then 1 else 0) + count_newline_elements l'
  end.

Lemma firstn_cons_Z {A : Type} (x : A) (l : list A) (n : Z) :
  firstn (Z.to_nat n) (x :: l)
  = if n <=? 0 then [] else x :: firstn (Z.to_nat (n - 1)) l.
Proof.
  destruct (Z.leb_spec n 0).
  - replace (Z.to_nat n) with O by lia. reflexivity.
  - replace (Z.to_nat n) with (S (Z.to_nat (n - 1))) by lia. reflexivity.
Qed.

Lemma pos2lc_loop_spec (els : list (list Z)) :
  forall k ps line pos,
    exists before lastline,
      firstn (Z.to_nat (pos - k)) els = before ++ lastline
      /\ count_newline_elements lastline = 0
      /\ (before = [] \/ exists b, before = b ++ [[10]])
      /\ pos2lc_loop (Finite ps) (line_starts els k ++ [Infinity]) line pos
         = (line + count_newline_elements before,
            Finite (match before with
                    | [] => ps
                    | _ => k + Z.of_nat (List.length before)
                    end)).
Proof.
  induction els as [|x r IH]; intros k ps line pos.
  - exists [], []. rewrite firstn_nil. simpl.
    split; [reflexivity|]. split; [reflexivity|]. split; [auto|].
    f_equal. lia.
  - rewrite firstn_cons_Z. cbn [line_starts].
    destruct (is_newline_element x) eqn:En.
    + assert (Hx : x = [10]).
      { destruct x as [|u [|v x]]; try discriminate.
        cbn [is_newline_element] in En. apply Z.eqb_eq in En. subst u. reflexivity. }
      subst x. cbn [app pos2lc_loop num_gtb].
      destruct (Z.gtb_spec (k + 1) pos) as [Hg|Hg].
      * exists [], [].
        destruct (Z.leb_spec (pos - k) 0); [|lia]. simpl.
        split; [reflexivity|]. split; [reflexivity|]. split; [auto|].
        f_equal. lia.
      * destruct (Z.leb_spec (pos - k) 0); [lia|].
        destruct (IH (k + 1) (k + 1) (line + 1) pos)
          as (before & lastline & Hs & Hl & Hb & Hrun).
        exists ([10] :: before), lastline.
        replace (pos - k - 1) with (pos - (k + 1)) by lia. rewrite Hs.
        split; [reflexivity|]. split; [exact Hl|]. split.
        { right. destruct Hb as [->|(b & ->)].
          - exists []. reflexivity.
          - exists ([10] :: b). reflexivity. }
        rewrite Hrun. cbn [count_newline_elements]. rewrite En.
        cbn [List.length].
        apply (f_equal2 pair); [lia|]. f_equal.
        destruct before; cbn [List.length]; lia.
    + destruct (IH (k + 1) ps line pos)
        as (before & lastline & Hs & Hl & Hb & Hrun).
      rewrite Hrun.
      replace (pos - (k + 1)) with (pos - k - 1) in Hs by lia.
      destruct (Z.leb_spec (pos - k) 0).
      * exists [], [].
        split; [reflexivity|]. split; [reflexivity|]. split; [auto|].
        replace (Z.to_nat (pos - k - 1)) with O in Hs by lia.
        cbn [firstn] in Hs. destruct before; [|discriminate].
        reflexivity.
      * destruct Hb as [->|(b & ->)].
        -- exists [], (x :: lastline). cbn [app] in *.
           rewrite Hs. split; [reflexivity|]. split.
           { cbn [count_newline_elements]. rewrite En. exact Hl. }
           split; [auto|]. reflexivity.
        -- exists (x :: b ++ [[10]]), lastline. rewrite Hs.
           split; [reflexivity|]. split; [exact Hl|]. split.
           { right. exists (x :: b). reflexivity. }
           cbn [count_newline_elements]. rewrite En.
           destruct (b ++ [[10]]) eqn:Eb; [destruct b; discriminate|].
           cbn [List.length].
           apply (f_equal2 pair); [lia|]. f_equal. lia.
Qed.

Lemma spread_units (src : list Z) :
  Forall (fun u => is_high_surrogate u = false) src ->
  spread src = map (fun u => [u]) src.
Proof.
  induction 1 as [|u r Hu _ IH]; [reflexivity|].
  cbn [spread map]. rewrite Hu. cbn [andb]. rewrite IH.
  destruct r; reflexivity.
Qed.

Lemma pos2lc_loop_before (els : list (list Z)) (k ps line pos : Z) :
  pos <= k ->
  pos2lc_loop (Finite ps) (line_starts els k ++ [Infinity]) line pos
  = (line, Finite ps).
Proof.
  intros H.
  destruct (pos2lc_loop_spec els k ps line pos)
    as (before & lastline & Hs & _ & _ & Hrun).
  replace (Z.to_nat (pos - k)) with O in Hs by lia.
  cbn [firstn] in Hs. destruct before; [|discriminate].
  rewrite Hrun. cbn [count_newline_elements]. f_equal. lia.
Qed.

(** X17.  [pos2lc] of [debugDumpDocument] reads its position as an index
    into the code points of the source, which is what [linePositions]
    counts: for every position, the line is one more than the number of
    newlines among the code points in front of that index, and the column
    is the distance from the code point behind the last of those newlines
    (from the beginning of the source when there is none), counted from
    1; the last entry [Infinity] of [linePositions] makes it find a line
    for every position.  In a source without a high surrogate the code
    points are the code units, so the index is the UTF-16 offset that
    positions are.  Behind a surrogate pair the two differ: when the
    source begins with two code units and a newline, the offset 2 of the
    newline is printed as line 1, column 3, unless the two code units are
    a surrogate pair, and then as line 2, column 1. *)
Theorem pos2lc_counts_newlines (src : list Z) (pos : Z) :
  (exists before lastline,
     firstn (Z.to_nat pos) (spread src) = before ++ lastline
     /\ count_newline_elements lastline = 0
     /\ (before = [] \/ exists b, before = b ++ [[10]])
     /\ pos2lc src pos
        = Some (1 + count_newline_elements before,
                pos - Z.of_nat (List.length before) + 1))
  /\ (Forall (fun u => is_high_surrogate u = false) src ->
      spread src = map (fun u => [u]) src)
  /\ (forall h l r,
        is_high_surrogate h = true -> is_low_surrogate l = true ->
        src = h :: l :: 10 :: r ->
        pos2lc src 2 = Some (2, 1))
  /\ (forall a b r,
        is_high_surrogate a = false -> is_high_surrogate b = false ->
        a <> 10 -> b <> 10 ->
        src = a :: b :: 10 :: r ->
        pos2lc src 2 = Some (1, 3)).
Proof.
  assert (Hs : forall r, exists t, spread (10 :: r) = [10] :: t).
  { intros r. cbn [spread]. destruct r as [|v r']; [eexists; reflexivity|].
    replace (is_high_surrogate 10) with false by reflexivity.
    cbn [andb]. eexists. reflexivity. }
  split; [|split; [|split]].
  - destruct (pos2lc_loop_spec (spread src) 0 0 1 pos)
      as (before & lastline & Hsub & Hl & Hb & Hrun).
    exists before, lastline.
    replace (pos - 0) with pos in Hsub by lia.
    split; [exact Hsub|]. split; [exact Hl|]. split; [exact Hb|].
    unfold pos2lc, linePositions. rewrite Hrun.
    destruct before; cbn [List.length]; [reflexivity|].
    f_equal.
  - apply spread_units.
  - intros h l r Hh Hl ->.
    unfold pos2lc, linePositions.
    assert (E : spread (h :: l :: 10 :: r) = [h; l] :: spread (10 :: r)).
    { change (spread (h :: l :: 10 :: r))
        with (if is_high_surrogate h && is_low_surrogate l
              then [h; l] :: spread (10 :: r)
              else [h] :: spread (l :: 10 :: r)).
      rewrite Hh, Hl. reflexivity. }
    rewrite E. clear E.
    destruct (Hs r) as [t ->].
    change (line_starts ([h; l] :: [10] :: t) 0)
      with (Finite 2 :: line_starts t 2).
    cbn [app pos2lc_loop num_gtb]. change (2 >? 2) with false. cbv iota.
    rewrite pos2lc_loop_before by lia. reflexivity.
  - intros a b r Ha Hb Hna Hnb ->.
    unfold pos2lc, linePositions.
    assert (E : spread (a :: b :: 10 :: r) = [a] :: [b] :: spread (10 :: r)).
    { change (spread (a :: b :: 10 :: r))
        with (if is_high_surrogate a && is_low_surrogate b
              then [a; b] :: spread (10 :: r)
              else [a] :: spread (b :: 10 :: r)).
      rewrite Ha. cbn [andb].
      change (spread (b :: 10 :: r))
        with (if is_high_surrogate b && is_low_surrogate 10
              then [b; 10] :: spread r
              else [b] :: spread (10 :: r)).
      rewrite Hb. reflexivity. }
    rewrite E. clear E.
    destruct (Hs r) as [t ->].
    cbn [line_starts is_newline_element].
    apply Z.eqb_neq in Hna, Hnb. rewrite Hna, Hnb.
    change (10 =? 10) with true. cbv iota.
    cbn [app pos2lc_loop num_gtb].
    replace (0 + 1 + 1 + 1 >? 2) with true by reflexivity.
    reflexivity.
Qed.

(** The integers on which [&] and [|] of JavaScript are [Z.land] and
    [Z.lor]. *)
Definition int32 (z : Z) : Prop := - 2 ^ 31 <= z < 2 ^ 31.

Lemma land_subset (v f : Z) :
  Z.land v f = f <-> forall n, 0 <= n -> Z.testbit f n = true -> Z.testbit v n = true.
Proof.
  split.
  - intros H n Hn Hf. rewrite <- H in Hf. rewrite Z.land_spec in Hf.
    apply andb_prop in Hf. tauto.
  - intros H. apply Z.bits_inj'. intros n Hn. rewrite Z.land_spec.
    destruct (Z.testbit f n) eqn:E.
    + rewrite (H n Hn E). reflexivity.
    + apply andb_false_r.
Qed.

(** X18.  On 32-bit flag values, [has] tests a union of flags exactly
    when it tests each of them, a value to which flags were added has
    them, and whatever has a set of flags has every subset of it; every
    value has the empty set [ModifierFlags.Normal], so [has] cannot tell
    a normal modifier from a preformatted one or a marker. *)
Theorem has_is_inclusion (v f g : Z) :
  int32 v -> int32 f -> int32 g ->
  has v (Z.lor f g) = (has v f && has v g)%bool
  /\ has (Z.lor v f) f = true
  /\ (has v f = true -> has f g = true -> has v g = true)
  /\ has v ModifierFlags.Normal = true.
Proof.
  intros _ _ _. unfold has.
  split; [|split; [|split]].
  - apply eq_true_iff_eq. rewrite andb_true_iff, !Z.eqb_eq, !land_subset.
    split.
    + intros H. split; intros n Hn Hb; apply (H n Hn); rewrite Z.lor_spec, Hb;
        [reflexivity | apply orb_true_r].
    + intros [H1 H2] n Hn Hb. rewrite Z.lor_spec in Hb.
      apply orb_prop in Hb. destruct Hb; auto.
  - apply Z.eqb_eq, land_subset. intros n Hn Hb. rewrite Z.lor_spec, Hb.
    apply orb_true_r.
  - rewrite !Z.eqb_eq, !land_subset. intros H1 H2 n Hn Hb. auto.
  - unfold ModifierFlags.Normal. rewrite Z.land_0_r. reflexivity.
Qed.

(** * A fix applied to the source it was reported for *)

Section Fixes.

Variables DefId InterpId NodeState Store : Type.
Variable definition_of : DefId -> ModifierDefinition DefId InterpId NodeState Store.
Variable interpolator_of :
  InterpId -> ArgumentInterpolatorDefinition DefId InterpId Store.

(** X19.  When [PARAGRAPH] reports newlines behind the blank line that
    ends a paragraph, the fix of the message removes exactly the blank
    characters behind that line; on the source so fixed, [PARAGRAPH]
    stores no message and makes the same text node, and the paragraph
    ends where the removed characters began. *)
Theorem UnnecessaryNewline_fix_removes_warning (fuel : nat)
  (before first : string) (more : list (string * string))
  (ws skipped rest' : string) (cursor : Z)
  (ms : list Message) (top : BlockContainer DefId InterpId NodeState)
  (below : list (BlockContainer DefId InterpId NodeState))
  (ins : list (InlineContainer DefId InterpId NodeState))
  (rf : list PositionRange) (cx : ParseContext DefId InterpId Store) (gd : Z)
  (pf : Prefixes DefId InterpId) :
  first <> EmptyString ->
  all_chars plain_char first = true ->
  Forall (fun l => continues gd l = true) more ->
  all_chars is_whitespace ws = true ->
  all_chars is_blank skipped = true ->
  0 < count_chars is_newline skipped ->
  ends_blank_run rest' = true ->
  (String.length first + String.length (lines_source more) + 3 < fuel)%nat ->
  let p := slen before in
  let body := (first ++ lines_source more ++ NL ++ ws ++ NL)%string in
  let b := p + slen body in
  let text := TextNode DefId InterpId NodeState p
                (p + slen first + slen (lines_source more))
                (first ++ lines_text more) in
  let state r := mkState DefId InterpId NodeState Store (mkScanner p r) ms
                   (top :: below) ins rf cx gd pf in
  let run := PARAGRAPH DefId InterpId NodeState Store definition_of interpolator_of
               fuel in
  run (state (body ++ skipped ++ rest')%string)
  = Done _ _ _ _ _ tt
      (mkState _ _ _ _ (mkScanner (b + slen skipped) rest')
         (ms ++ [refer (UnnecessaryNewlineMessage b (slen skipped)) rf])
         (push_block _ _ _ top (ParagraphNode _ _ _ p (b + slen skipped) [text])
          :: below)
         ins rf cx gd pf)
  /\ fst (UnnecessaryNewline_apply b (slen skipped)
            (before ++ body ++ skipped ++ rest')%string cursor)
     = (before ++ body ++ rest')%string
  /\ run (state (body ++ rest')%string)
     = Done _ _ _ _ _ tt
         (mkState _ _ _ _ (mkScanner b rest') ms
            (push_block _ _ _ top (ParagraphNode _ _ _ p b [text]) :: below)
            ins rf cx gd pf).
Proof.
  intros Hne Hfirst Hmore Hw Hs Hcount He Hf p body b text state run.
  assert (Hbody : forall x,
            (body ++ x)%string = (first ++ lines_source more ++ NL ++ ws ++ NL ++ x)%string).
  { intros x. unfold body. rewrite !string_app_assoc. reflexivity. }
  assert (Hb : b = p + (slen first + slen (lines_source more)) + 1 + slen ws + 1).
  { unfold b, body. rewrite !slen_app. change (slen NL) with 1. lia. }
  split; [|split].
  - unfold run, state. rewrite Hbody.
    rewrite PARAGRAPH_lines_run by assumption. cbv zeta.
    replace (count_chars is_newline skipped >? 0) with true
      by (symmetry; rewrite Z.gtb_ltb; apply Z.ltb_lt; exact Hcount).
    rewrite <- Hb. unfold text.
    replace (p + (slen first + slen (lines_source more)))
      with (p + slen first + slen (lines_source more)) by lia.
    reflexivity.
  - unfold UnnecessaryNewline_apply, RemoveThing_apply. cbn [fst].
    replace (before ++ body ++ skipped ++ rest')%string
      with ((before ++ body) ++ skipped ++ rest')%string
      by (rewrite !string_app_assoc; reflexivity).
    replace b with (slen (before ++ body)) by (rewrite slen_app; reflexivity).
    rewrite js_substring_prefix.
    replace ((before ++ body) ++ skipped ++ rest')%string
      with (((before ++ body) ++ skipped) ++ rest')%string
      by (rewrite !string_app_assoc; reflexivity).
    replace (slen (before ++ body) + slen skipped)
      with (slen ((before ++ body) ++ skipped)) by (rewrite !slen_app; reflexivity).
    rewrite js_substring_suffix. rewrite string_app_assoc. reflexivity.
  - unfold run, state. rewrite Hbody.
    pose proof (PARAGRAPH_lines_run DefId InterpId NodeState Store definition_of
                  interpolator_of fuel first more ws EmptyString rest' p ms top
                  below ins rf cx gd pf Hne Hfirst Hmore Hw eq_refl He Hf) as Hrun.
    cbv zeta in Hrun. cbn [append count_chars Z.gtb Z.compare] in Hrun.
    change (slen "") with 0 in Hrun. rewrite app_nil_r, !Z.add_0_r in Hrun.
    rewrite Hrun. rewrite <- Hb. unfold text.
    replace (p + (slen first + slen (lines_source more)))
      with (p + slen first + slen (lines_source more)) by lia.
    reflexivity.
Qed.

(** X20.  A block modifier that opens behind the text of a line ends the
    paragraph in front of it and is reported, and nothing of it is
    consumed.  The fix of the message puts a line break in front of the
    modifier; on the source so fixed, [PARAGRAPH] stores no message,
    makes the same text node and ends the paragraph behind the line
    break, again in front of the modifier. *)
Theorem NewBlockShouldBeOnNewline_fix_removes_warning (fuel : nat)
  (before first tail : string) (cursor : Z)
  (ms : list Message) (top : BlockContainer DefId InterpId NodeState)
  (below : list (BlockContainer DefId InterpId NodeState))
  (ins : list (InlineContainer DefId InterpId NodeState))
  (rf : list PositionRange) (cx : ParseContext DefId InterpId Store) (gd : Z)
  (pf : Prefixes DefId InterpId) :
  first <> EmptyString ->
  all_chars plain_char first = true ->
  (String.length first + 3 < fuel)%nat ->
  let p := slen before in
  let b := p + slen first in
  let block := (MODIFIER_BLOCK_OPEN ++ tail)%string in
  let text := TextNode DefId InterpId NodeState p b first in
  let state r := mkState DefId InterpId NodeState Store (mkScanner p r) ms
                   (top :: below) ins rf cx gd pf in
  let run := PARAGRAPH DefId InterpId NodeState Store definition_of interpolator_of
               fuel in
  run (state (first ++ block)%string)
  = Done _ _ _ _ _ tt
      (mkState _ _ _ _ (mkScanner b block)
         (ms ++ [refer (NewBlockShouldBeOnNewlineMessage b) rf])
         (push_block _ _ _ top (ParagraphNode _ _ _ p b [text]) :: below)
         ins rf cx gd pf)
  /\ fst (NewBlockShouldBeOnNewline_apply b (before ++ first ++ block)%string cursor)
     = (before ++ first ++ NL ++ block)%string
  /\ run (state (first ++ NL ++ block)%string)
     = Done _ _ _ _ _ tt
         (mkState _ _ _ _ (mkScanner (b + 1) block) ms
            (push_block _ _ _ top (ParagraphNode _ _ _ p (b + 1) [text]) :: below)
            ins rf cx gd pf).
Proof.
  intros Hne Hfirst Hf p b block text state run.
  split; [|split].
  - apply PARAGRAPH_before_block; assumption.
  - unfold NewBlockShouldBeOnNewline_apply, AddThing_apply. cbn [fst].
    replace (before ++ first ++ block)%string
      with ((before ++ first) ++ block)%string
      by (rewrite !string_app_assoc; reflexivity).
    replace b with (slen (before ++ first)) by (rewrite slen_app; reflexivity).
    rewrite js_substring_prefix, js_substring_suffix, string_app_assoc.
    reflexivity.
  - apply PARAGRAPH_line_before_block; assumption.
Qed.

End Fixes.

(** * Instances

    A configuration with a block modifier that expands to an invocation
    of itself, a plain block modifier, a block modifier that delays the
    expansion of its content, and the interpolator [$(] ... [)]. *)

Module Examples.

(** The node state of [DefineBlockMod]. *)
Record DefineState := mkDefineState {
  ds_name : option string;
  ds_slotName : string;
  ds_args : list string
}.

Inductive Builtin :=
| Self
| Normal
| Delayed
| Custom (name : string).

Definition ExNode : Type := Node Builtin unit DefineState.
Definition ExModifier : Type := Modifier Builtin unit DefineState.
Definition ExContext : Type := ParseContext Builtin unit unit.
Definition ExState : Type := PState Builtin unit DefineState unit.
Definition ExDefinition : Type := ModifierDefinition Builtin unit DefineState unit.

Definition self_invocation : ExModifier := invocation Builtin unit DefineState block Self.

Definition plain (name : string) (delay always : bool) : ExDefinition :=
  mkDefinition Builtin unit DefineState unit name ModifierFlags.Normal delay always
               None None None None None None.

Definition definition_of (d : Builtin) : ExDefinition :=
  match d with
  | Self =>
      mkDefinition Builtin unit DefineState unit "self" ModifierFlags.Normal
                   false false None None None None None
                   (Some (fun node c =>
                            (Some [ModifierNode Builtin unit DefineState self_invocation],
                             node, c)))
  | Normal => plain "normal" false false
  | Delayed => plain "delayed" true false
  | Custom n => plain n false false
  end.

Definition interpolator_of (i : unit)
  : ArgumentInterpolatorDefinition Builtin unit unit :=
  mkInterpolator _ _ _ "$(" ")" false None.

Definition example_config : Configuration Builtin unit :=
  mkConfig Builtin unit
           [("self", Self); ("normal", Normal); ("delayed", Delayed)] [] []
           [("$(", tt)] 10.

Definition example_state (src : string) : ExState :=
  initial_state Builtin unit DefineState unit src example_config tt.

Definition example_parse (src : string) :=
  parse Builtin unit DefineState unit definition_of interpolator_of
        (parse_fuel Builtin unit src example_config) src example_config tt.

Lemma definitions_keep_delay (d : Builtin) :
  definition_sound Builtin unit DefineState unit
    (keeps_delay Builtin unit unit) any_message (definition_of d).
Proof.
  unfold definition_sound, hook_sound, expand_sound.
  destruct d; simpl; (split; [|split; [|split; [|split; [|split]]]]);
    try discriminate.
  intros f node c [= <-]. simpl. apply keeps_delay_refl.
Qed.

Lemma definitions_well_behaved (d : Builtin) :
  definition_sound Builtin unit DefineState unit
    (well_behaved Builtin unit unit) any_message (definition_of d).
Proof.
  unfold definition_sound, hook_sound, expand_sound.
  destruct d; simpl; (split; [|split; [|split; [|split; [|split]]]]);
    try discriminate.
  intros f node c [= <-]. simpl. apply well_behaved_refl.
Qed.


Lemma example_names_ok : names_ok Builtin unit example_config.
Proof. repeat constructor. discriminate. Qed.

(** ** The reparse limit *)



(** ** Termination *)

Lemma self_reference_parsed :
  exists doc,
    example_parse "[.self] $(x) [.normal:$(a):b] c"
    = Returns Builtin unit DefineState unit doc
    /\ reparseDepthLimit _ _ (config _ _ _ (doc_context _ _ _ _ doc)) = 10.
Proof.
  exact (proj1 (parse_terminates Builtin unit DefineState unit definition_of
                  interpolator_of definitions_well_behaved
                  "[.self] $(x) [.normal:$(a):b] c" example_config tt
                  example_names_ok)).
Defined.

(** An interpolator whose name is the empty string: it is accepted at
    every position without moving the cursor. *)
Definition unnamed_interpolator (i : unit)
  : ArgumentInterpolatorDefinition Builtin unit unit :=
  mkInterpolator _ _ _ "" ")" false None.

Definition unnamed_config : Configuration Builtin unit :=
  mkConfig Builtin unit [("a", Normal)] [] [] [("", tt)] 10.

(** No amount of fuel is enough: the recursion of the parser on [src]
    has no end. *)
Definition never_returns (src : string) (c : Configuration Builtin unit) : Prop :=
  forall fuel,
    parse Builtin unit DefineState unit definition_of unnamed_interpolator
          fuel src c tt
    = Unfinished Builtin unit DefineState unit.

Lemma bind_out_of_fuel {A B : Type}
  (m : M Builtin unit DefineState unit A)
  (k : A -> M Builtin unit DefineState unit B) (st : ExState) :
  m st = OutOfFuel _ _ _ _ A ->
  bind _ _ _ _ m k st = OutOfFuel _ _ _ _ B.
Proof. unfold bind. intros ->. reflexivity. Qed.

Lemma bind_step {A B : Type}
  (m : M Builtin unit DefineState unit A)
  (k : A -> M Builtin unit DefineState unit B) (st st' : ExState) (a : A) :
  m st = Done _ _ _ _ A a st' ->
  k a st' = OutOfFuel _ _ _ _ B ->
  bind _ _ _ _ m k st = OutOfFuel _ _ _ _ B.
Proof. unfold bind. intros -> H. exact H. Qed.

Ltac run_out :=
  repeat (eapply bind_step; [reflexivity|]; cbv beta iota zeta;
          cbn [orb andb negb]; cbv beta iota zeta).

(** The state of the parser in front of [x]] with the unnamed
    interpolator in the prefix table. *)
Definition at_x (st : ExState) : Prop :=
  rest (scanner _ _ _ _ st) = "x]"%string
  /\ p_interpolator _ _ (prefixes _ _ _ _ st) = [(""%string, tt)].

Lemma interpolated_argument_diverges (k : nat) :
  forall pos content posEnd st,
    at_x st ->
    ARGUMENT_CONTENT_loop Builtin unit DefineState unit unnamed_interpolator
      k (Some ")"%string) pos content posEnd st
    = OutOfFuel _ _ _ _ _.
Proof.
  induction k as [|k IH]; intros pos content posEnd st [Hr Hp]; [reflexivity|].
  destruct st as [[p rs] ms bs ins rf cx gd [pb ps pi pint]].
  simpl in Hr, Hp. subst rs pint.
  cbn [ARGUMENT_CONTENT_loop].
  run_out.
  apply bind_out_of_fuel. apply IH. split; reflexivity.
Qed.

Lemma argument_diverges (k : nat) (st : ExState) :
  at_x st ->
  ARGUMENT_CONTENT Builtin unit DefineState unit unnamed_interpolator k None st
  = OutOfFuel _ _ _ _ _.
Proof.
  intros [Hr Hp].
  destruct st as [[p rs] ms bs ins rf cx gd [pb ps pi pint]].
  simpl in Hr, Hp. subst rs pint.
  destruct k as [|k]; [reflexivity|].
  unfold ARGUMENT_CONTENT. cbn [ARGUMENT_CONTENT_loop].
  run_out.
  apply bind_out_of_fuel. apply interpolated_argument_diverges. split; reflexivity.
Qed.

Lemma arguments_loop_diverges (k : nat) (first : bool)
  (args : list (ModifierArgument unit)) (st : ExState) :
  at_x st ->
  ARGUMENTS_loop Builtin unit DefineState unit unnamed_interpolator k first args st
  = OutOfFuel _ _ _ _ _.
Proof.
  intros H. destruct k as [|k]; [reflexivity|].
  cbn [ARGUMENTS_loop]. apply bind_out_of_fuel. apply argument_diverges. exact H.
Qed.

Definition unnamed_state : ExState :=
  initial_state Builtin unit DefineState unit "[.a x]" unnamed_config tt.

Lemma head_diverges (k : nat) :
  MODIFIER_head Builtin unit DefineState unit definition_of unnamed_interpolator
    k block unnamed_state
  = OutOfFuel _ _ _ _ _.
Proof.
  unfold MODIFIER_head. run_out.
  apply bind_out_of_fuel. unfold ARGUMENTS. run_out.
  apply arguments_loop_diverges. split; reflexivity.
Qed.

Lemma modifier_diverges (k : nat) :
  MODIFIER Builtin unit DefineState unit definition_of unnamed_interpolator
    k block unnamed_state
  = OutOfFuel _ _ _ _ _.
Proof.
  destruct k as [|k]; [reflexivity|].
  cbn [MODIFIER]. apply bind_out_of_fuel. apply head_diverges.
Qed.

Lemma block_entity_diverges (k : nat) :
  BLOCK_ENTITY Builtin unit DefineState unit definition_of unnamed_interpolator
    k unnamed_state
  = OutOfFuel _ _ _ _ _.
Proof.
  destruct k as [|k]; [reflexivity|].
  cbn [BLOCK_ENTITY]. run_out.
  apply bind_out_of_fuel. apply modifier_diverges.
Qed.

Lemma document_diverges (k : nat) :
  DOCUMENT Builtin unit DefineState unit definition_of unnamed_interpolator
    k unnamed_state
  = OutOfFuel _ _ _ _ _.
Proof.
  unfold DOCUMENT. eapply bind_step; [reflexivity|].
  destruct k as [|k]; [reflexivity|].
  cbn [DOCUMENT_loop]. run_out.
  apply bind_out_of_fuel. apply block_entity_diverges.
Qed.

(** With a block modifier [a] and an interpolator without a name
    registered, [parse] does not return on [[.a x]]: in front of [x] the
    interpolator is accepted, and the argument it opens begins at the
    same place. *)
Lemma unnamed_interpolator_diverges : never_returns "[.a x]" unnamed_config.
Proof.
  intros fuel. unfold parse.
  change (initial_state Builtin unit DefineState unit "[.a x]" unnamed_config tt)
    with unnamed_state.
  rewrite document_diverges. reflexivity.
Qed.

(** ** Stripping *)

(** [[.normal] hello]: [normal] has no [expand], so its node carries no
    expansion, and [stripDocument] keeps it. *)
Lemma strip_keeps_unexpanded_modifier :
  match example_parse "[.normal] hello" with
  | Returns _ _ _ _ doc =>
      root_content _ _ _ (doc_root _ _ _ _ (stripDocument _ _ _ _ doc))
      = [ModifierNode _ _ _
           (mkModifier _ _ _ _ block (Registered _ Normal) (Build_PositionRange 0 9)
              [] 0 15 None
              [ParagraphNode _ _ _ 10 15 [TextNode _ _ _ 10 15 "hello"]] None)]
      /\ forallb (modifier_free _ _ _)
           (root_content _ _ _ (doc_root _ _ _ _ (stripDocument _ _ _ _ doc)))
         = false
  | _ => False
  end.
Proof. vm_compute. split; reflexivity. Qed.

(** ** Lookup *)

(** [em] and [emph] are registered, the shorter name first; in front of
    [[.emphasis]] the head of [MODIFIER] creates the node of [emph]. *)
Definition lookup_config : Configuration Builtin unit :=
  mkConfig Builtin unit
           [("em", Custom "em"); ("emph", Custom "emph")] [] []
           [("$(", tt)] 10.

Definition lookup_state : ExState :=
  initial_state Builtin unit DefineState unit "[.emphasis]" lookup_config tt.

Lemma emph_before_em :
  exists node marker st',
    MODIFIER_head Builtin unit DefineState unit definition_of interpolator_of
      11 block lookup_state
    = Done _ _ _ _ _ (node, marker) st'
    /\ m_mod _ _ _ _ node = Registered _ (Custom "emph")
    /\ m_start _ _ _ _ node = 0.
Proof.
  destruct (longest_match_lookup Builtin unit DefineState unit
              definition_of interpolator_of block lookup_state
              ("em"%string, Custom "em") ("emph"%string, Custom "emph"))
    as (x & sc' & _ & _ & _ & _ & _ & Heq & Hhead & _).
  - reflexivity.
  - reflexivity.
  - simpl. left. reflexivity.
  - simpl. right. left. reflexivity.
  - reflexivity.
  - reflexivity.
  - reflexivity.
  - destruct Heq as [_ Heq].
    { intros y [<-|[<-|[]]] _; vm_compute; discriminate. }
    rewrite Heq in Hhead.
    + destruct (Hhead 11%nat) as (node & marker & st' & E & H1 & _ & H3).
      * repeat constructor. discriminate.
      * vm_compute. lia.
      * exists node, marker, st'. split; [exact E|]. split; [exact H1 | exact H3].
    + simpl. repeat constructor; simpl; intuition discriminate.
Defined.

(** ** Escapes *)


(** ** Referred messages *)

(** [Outer] expands to a node of [Inner], [Inner] to a node of
    [Reporter], and [prepareExpand] of [Reporter] returns one message. *)
Inductive Wrapper :=
| Outer
| Inner
| Reporter.

Definition wrapper_node (w : Wrapper) (s e : Z) : Modifier Wrapper unit DefineState :=
  mkModifier _ _ _ _ block (Registered _ w) (Build_PositionRange s e) [] s e
             None [] None.

Definition report : Message := CustomMessage 1 30 10 "reported".

Definition wrapper_definition (w : Wrapper)
  : ModifierDefinition Wrapper unit DefineState unit :=
  match w with
  | Outer =>
      mkDefinition _ _ _ _ "outer" ModifierFlags.Normal false false
                   None None None None None
                   (Some (fun node c =>
                            (Some [ModifierNode _ _ _ (wrapper_node Inner 10 20)],
                             node, c)))
  | Inner =>
      mkDefinition _ _ _ _ "inner" ModifierFlags.Normal false false
                   None None None None None
                   (Some (fun node c =>
                            (Some [ModifierNode _ _ _ (wrapper_node Reporter 30 40)],
                             node, c)))
  | Reporter =>
      mkDefinition _ _ _ _ "reporter" ModifierFlags.Normal false false
                   None None None None
                   (Some (fun node c => ([report], node, c)))
                   None
  end.

Definition wrapper_config : Configuration Wrapper unit :=
  mkConfig _ _ [("outer", Outer); ("inner", Inner); ("reporter", Reporter)] [] []
           [] 10.

Definition wrapper_state (stack : list PositionRange)
  : PState Wrapper unit DefineState unit :=
  mkState _ _ _ _ (mkScanner 0 "") [] [BRoot _ _ _ (mkRoot _ _ _ 0 (-1) [])] []
          stack (mkContext _ _ _ wrapper_config 0 tt) 0
          (sorted_prefixes _ _ wrapper_config).

(** The message of [Reporter] below [Inner] below [Outer] is wrapped for
    [Inner], and outside that for [Outer]. *)
Lemma report_referred_twice :
  messages _ _ _ _
    (match expand_node Wrapper unit DefineState unit wrapper_definition 1
             (wrapper_node Inner 10 20) 1
             (wrapper_state [Build_PositionRange 0 5]) with
     | Done _ _ _ _ _ _ st' => st'
     | _ => wrapper_state []
     end)
  = [ReferredMessage (ReferredMessage report 10 10) 0 5]
  /\ messages _ _ _ _
       (match expand_node Wrapper unit DefineState unit wrapper_definition 3
                (wrapper_node Outer 0 5) 0 (wrapper_state []) with
        | Done _ _ _ _ _ _ st' => st'
        | _ => wrapper_state []
        end)
     = [ReferredMessage (ReferredMessage report 10 10) 0 5].
Proof.
  destruct (message_referral_chain Wrapper unit DefineState unit wrapper_definition)
    as (_ & _ & H & _).
  split.
  - rewrite (H 0%nat (wrapper_node Inner 10 20) (wrapper_node Reporter 30 40) 1
               (wrapper_state [Build_PositionRange 0 5])
               (fun node c =>
                  (Some [ModifierNode _ _ _ (wrapper_node Reporter 30 40)], node, c))
               (fun node c => ([report], node, c)) [report]
               (mkContext _ _ _ wrapper_config 0 tt)
               (mkContext _ _ _ wrapper_config 0 tt));
      try reflexivity.
    vm_compute. discriminate.
  - reflexivity.
Defined.

(** ** Unknown modifiers *)

Lemma unknown_head :
  exists node st' added,
    MODIFIER_head Builtin unit DefineState unit definition_of interpolator_of
      2 block (example_state "[.unknown] hello")
    = Done _ _ _ _ _ (node, false) st'
    /\ m_mod _ _ _ _ node = UnknownModifier _ block
    /\ messages _ _ _ _ st' = added
    /\ List.length (filter is_unknown_modifier added) = 1%nat
    /\ position (scanner _ _ _ _ st') = 10.
Proof.
  destruct (proj1 (unknown_modifier Builtin unit DefineState unit definition_of
                     interpolator_of 0 block (example_state "[.unknown] hello")
                     eq_refl
                     ltac:(vm_compute; repeat constructor)))
    as (node & st' & added & Hrun & Hmod & _ & _ & _ & Hhead & Hmsg & Hone & _ & Hsc).
  exists node, st', added.
  split; [exact Hrun|]. split; [exact Hmod|]. split; [exact Hmsg|].
  split; [exact Hone|].
  vm_compute in Hsc. destruct Hsc as [_ Hsc].
  injection Hsc as Hsc. unfold scanner. rewrite <- Hsc. reflexivity.
Defined.

(** ** Delayed expansion *)

(** A state inside the content of one delaying modifier. *)
Definition delayed_state : ExState :=
  set_cxt _ _ _ _ (example_state "")
          (mkContext Builtin unit unit example_config 1 tt).

(** [hold] delays the expansion of its content and expands to nothing;
    [mark] is a marker that expands to nothing. *)
Inductive Delaying :=
| Holder
| Mark.

Definition delaying_definition (d : Delaying)
  : ModifierDefinition Delaying unit DefineState unit :=
  match d with
  | Holder =>
      mkDefinition _ _ _ _ "hold" ModifierFlags.Normal true false
                   None None None None None
                   (Some (fun node c => (Some [], node, c)))
  | Mark =>
      mkDefinition _ _ _ _ "mark" ModifierFlags.Marker false false
                   None None None None None
                   (Some (fun node c => (Some [], node, c)))
  end.

Definition delaying_config : Configuration Delaying unit :=
  mkConfig _ _ [("hold", Holder); ("mark", Mark)] [] [] [] 10.

Lemma delaying_definitions_keep_delay (d : Delaying) :
  definition_sound Delaying unit DefineState unit
    (keeps_delay Delaying unit unit) any_message (delaying_definition d).
Proof.
  unfold definition_sound, hook_sound, expand_sound.
  destruct d; simpl; (split; [|split; [|split; [|split; [|split]]]]);
    try discriminate;
    intros f node c [= <-]; simpl; apply keeps_delay_refl.
Qed.

Definition mark_node : Modifier Delaying unit DefineState :=
  mkModifier _ _ _ _ block (Registered _ Mark) (Build_PositionRange 7 14) []
             7 (-1) None [] None.

Definition hold_node : Modifier Delaying unit DefineState :=
  mkModifier _ _ _ _ block (Registered _ Holder) (Build_PositionRange 0 7) []
             0 14 None [ModifierNode _ _ _ mark_node] (Some []).

(** Under a positive [delayDepth] the self-invoking modifier is left as
    it is, and the parse of a delaying modifier around it ends with
    [delayDepth] 0.  In [[.hold][.mark]] the marker is parsed inside the
    delayed content: it is stored without an expansion, and [hold] itself
    is expanded. *)
Lemma delayed_self_reference :
  expand_node Builtin unit DefineState unit definition_of 0 self_invocation 0
    delayed_state
  = Done _ _ _ _ _ (true, self_invocation) delayed_state
  /\ (exists doc,
        example_parse "[.delayed] [.self]" = Returns _ _ _ _ doc
        /\ delayDepth _ _ _ (doc_context _ _ _ _ doc) = 0)
  /\ MODIFIER Delaying unit DefineState unit delaying_definition
       (fun _ => mkInterpolator _ _ _ "$(" ")" false None) 5 block
       (initial_state Delaying unit DefineState unit "[.hold][.mark]"
          delaying_config tt)
     = Done _ _ _ _ _ true
         (mkState _ _ _ _ (mkScanner 14 "") []
            [BRoot _ _ _ (mkRoot _ _ _ 0 (-1) [ModifierNode _ _ _ hold_node])]
            [] [] (mkContext _ _ _ delaying_config 0 tt) 0
            (sorted_prefixes _ _ delaying_config)).
Proof.
  pose proof (delay_discipline Builtin unit DefineState unit definition_of
                interpolator_of definitions_keep_delay self_invocation 0
                delayed_state) as (Hskip & _ & _ & _ & Hparse & _).
  pose proof (delay_discipline Delaying unit DefineState unit delaying_definition
                (fun _ => mkInterpolator _ _ _ "$(" ")" false None)
                delaying_definitions_keep_delay mark_node 0
                (initial_state Delaying unit DefineState unit "" delaying_config tt))
    as (_ & _ & _ & _ & _ & Hcontent & _).
  split; [|split].
  - apply Hskip; [reflexivity | reflexivity | reflexivity].
  - exact (Hparse "[.delayed] [.self]"%string example_config tt example_names_ok).
  - apply (Hcontent 0%nat 0 "hold"%string "mark"%string ""%string
             ("hold"%string, Holder) ("mark"%string, Mark)
             (fun node c => (Some [], node, c))
             (mkContext _ _ _ delaying_config 0 tt) delaying_config tt
             [] (BRoot _ _ _ (mkRoot _ _ _ 0 (-1) [])) [] [] [] 0
             (sorted_prefixes _ _ delaying_config));
      reflexivity.
Defined.

(** ** Definitions made by the document *)

Definition example_custom
  (t : ModType) (n : string) (args : list string) (slot : string)
  (content : list ExNode) : Builtin :=
  Custom n.

(** A [define-block] node that names [normal], which is registered. *)
Definition redefinition : ExModifier :=
  mkModifier _ _ _ _ system (Registered _ Delayed) (Build_PositionRange 0 22)
             [mkArgument unit 15 21 [ArgText unit 15 21 "normal"]]
             0 22 (Some (mkDefineState (Some "normal"%string) "" []))
             [] None.

(** Called without [immediate], [prepareExpand] reports nothing although
    the name is registered; called with it, it reports
    [NameAlreadyDefined]. *)
Lemma redefinition_unreported :
  DefineBlockMod_prepareExpand Builtin unit DefineState unit ds_name
    redefinition (mkContext _ _ _ example_config 0 tt) false
  = Some []
  /\ defined_name Builtin unit DefineState ds_name redefinition = Some "normal"%string
  /\ registry_has "normal" (blockModifiers _ _ example_config) = true
  /\ DefineBlockMod_prepareExpand Builtin unit DefineState unit ds_name
       redefinition (mkContext _ _ _ example_config 0 tt) true
     = Some [NameAlreadyDefinedMessage 15 6 "normal"].
Proof. vm_compute. repeat split; reflexivity. Qed.

(** [expand] with [immediate] on that node replaces the entry of
    [normal]; the tables [#expand] leaves offer the new definition. *)
Lemma redefinition_registered :
  fst (DefineBlockMod_expand Builtin unit DefineState unit ds_name ds_args
         ds_slotName example_custom redefinition
         (mkContext _ _ _ example_config 0 tt) true)
  = Some []
  /\ blockModifiers _ _
       (config _ _ _
          (snd (DefineBlockMod_expand Builtin unit DefineState unit ds_name ds_args
                  ds_slotName example_custom redefinition
                  (mkContext _ _ _ example_config 0 tt) true)))
     = [("self"%string, Self); ("delayed"%string, Delayed);
        ("normal"%string, Custom "normal")].
Proof. vm_compute. split; reflexivity. Qed.

(** A definition whose [prepareExpand] and [expand] are those of
    [DefineBlockMod], called with [immediate] set; [prepareExpand] is
    only called on nodes that have an argument. *)
Definition define_block : ExDefinition :=
  mkDefinition Builtin unit DefineState unit "define-block" ModifierFlags.Normal
    true true None None None None
    (Some (fun node c =>
             (match DefineBlockMod_prepareExpand Builtin unit DefineState unit
                      ds_name node c true with
              | Some msgs => msgs
              | None => []
              end, node, c)))
    (Some (fun node c =>
             (fst (DefineBlockMod_expand Builtin unit DefineState unit ds_name
                     ds_args ds_slotName example_custom node c true),
              node,
              snd (DefineBlockMod_expand Builtin unit DefineState unit ds_name
                     ds_args ds_slotName example_custom node c true)))).

Definition defining (d : Builtin) : ExDefinition :=
  match d with
  | Delayed => define_block
  | _ => definition_of d
  end.

(** [#expand] on the node that redefines [normal]: the collision is
    reported, the entry is replaced, and the table of block modifiers is
    sorted again. *)
Lemma redefinition_expanded :
  exists st',
    expand_node Builtin unit DefineState unit defining 0 redefinition 0
      (example_state "")
    = Done _ _ _ _ _ (true, set_expansion _ _ _ redefinition (Some [])) st'
    /\ p_block _ _ (prefixes _ _ _ _ st')
       = [("delayed"%string, Delayed); ("normal"%string, Custom "normal");
          ("self"%string, Self)]
    /\ messages _ _ _ _ st' = [NameAlreadyDefinedMessage 15 6 "normal"].
Proof.
  destruct (proj2 (proj2 (proj2 (proj2 (proj2 (proj2 (proj2
              (define_block_registers Builtin unit DefineState unit defining
                 ds_name ds_args ds_slotName example_custom redefinition
                 (mkContext _ _ _ example_config 0 tt))))))))
              0%nat Delayed (example_state "") _ _
              [NameAlreadyDefinedMessage 15 6 "normal"]
              eq_refl eq_refl eq_refl eq_refl eq_refl eq_refl eq_refl eq_refl
              eq_refl)
    as (st' & Hrun & Hc & Hp & _ & Hm & _).
  exists st'. split; [exact Hrun|]. split.
  - rewrite Hp, Hc. reflexivity.
  - rewrite Hm. reflexivity.
Defined.

(** ** Content without modifiers *)

(** A paragraph reparsed at depth 10 under the limit 10 counts as one
    more level. *)
Lemma paragraph_at_the_limit :
  let nodes : list ExNode := [ParagraphNode _ _ _ 0 5 [TextNode _ _ _ 0 5 "hello"]] in
  reparse Builtin unit DefineState unit definition_of 2 nodes 10 (example_state "")
  = Done _ _ _ _ _ (false, nodes) (example_state "").
Proof.
  intros nodes.
  apply (reparse_without_modifiers Builtin unit DefineState unit definition_of 2
           nodes 10 (example_state "")).
  - reflexivity.
  - vm_compute. lia.
Defined.

(** ** The end of the input *)

Lemma unclosed_modifier_balanced :
  let src := "[.normal] a [.self" in
  exists st' r,
    DOCUMENT Builtin unit DefineState unit definition_of interpolator_of
      (parse_fuel Builtin unit src example_config) (example_state src)
    = Done _ _ _ _ _ tt st'
    /\ rest (scanner _ _ _ _ st') = ""
    /\ blockStack _ _ _ _ st' = [BRoot _ _ _ r]
    /\ inlineStack _ _ _ _ st' = []
    /\ referringStack _ _ _ _ st' = []
    /\ example_parse src
       = Returns _ _ _ _ (mkDocument _ _ _ _ r (cxt _ _ _ _ st') (messages _ _ _ _ st')).
Proof.
  exact (parse_ends_balanced Builtin unit DefineState unit definition_of
           interpolator_of definitions_well_behaved "[.normal] a [.self"
           example_config tt example_names_ok).
Defined.

Lemma blank_lines_parsed :
  parse Builtin unit DefineState unit definition_of interpolator_of 1
        (" " ++ NL ++ NL ++ "  ") example_config tt
  = Returns _ _ _ _
      (mkDocument _ _ _ _ (mkRoot _ _ _ 0 (-1) []) (mkContext _ _ _ example_config 0 tt) []).
Proof.
  apply (blank_source_is_empty Builtin unit DefineState unit definition_of
           interpolator_of 0 (" " ++ NL ++ NL ++ "  ") example_config tt).
  reflexivity.
Defined.

(** ** Plain text *)

Lemma hello_world_parsed :
  parse Builtin unit DefineState unit definition_of interpolator_of 16
        "hello world" example_config tt
  = Returns _ _ _ _
      (mkDocument _ _ _ _
         (mkRoot _ _ _ 0 (-1)
            [ParagraphNode _ _ _ 0 11 [TextNode _ _ _ 0 11 "hello world"]])
         (mkContext _ _ _ example_config 0 tt) []).
Proof.
  apply (plain_text_paragraph Builtin unit DefineState unit definition_of
           interpolator_of 16 "hello world" example_config tt).
  - reflexivity.
  - reflexivity.
  - reflexivity.
  - simpl. lia.
Defined.

(** ** Arguments *)

Lemma two_arguments :
  ARGUMENTS Builtin unit DefineState unit interpolator_of 5 (example_state ":a:b]")
  = Done _ _ _ _ _
      [mkArgument _ 1 2 [ArgText _ 1 2 "a"]; mkArgument _ 3 4 [ArgText _ 3 4 "b"]]
      (set_scanner _ _ _ _ (example_state ":a:b]") (mkScanner 4 "]")).
Proof.
  apply (ARGUMENTS_segments Builtin unit DefineState unit interpolator_of 5 true
           ["a"; "b"] "]" (example_state ":a:b]")).
  - discriminate.
  - repeat constructor.
  - reflexivity.
  - discriminate.
  - reflexivity.
  - simpl. lia.
Defined.

(** ** Preformatted text *)

(** A group of preformatted text: two lines, the first with a bracket
    and a backslash, the second indented. *)
Definition verbatim_source : string :=
  (":--" ++ NL ++ "[x] " ++ backslash ++ NL ++ "  y" ++ NL ++ "--:")%string.

Lemma verbatim_line :
  let st := example_state verbatim_source in
  PRE_PARAGRAPH Builtin unit DefineState unit 11 st
  = Done _ _ _ _ _ tt
      (mkState _ _ _ _ (mkScanner 17 "") []
         [BRoot _ _ _
            (mkRoot _ _ _ 0 (-1)
               [PreNode _ _ _ 0 17 4 13
                  ("[x] " ++ backslash ++ NL ++ "  y")%string])]
         [] [] (cxt _ _ _ _ st) 0 (prefixes _ _ _ _ st)).
Proof.
  intros st.
  destruct (PRE_PARAGRAPH_verbatim Builtin unit DefineState unit) as [H _].
  apply (H 11%nat true true ""%string ("[x] " ++ backslash)%string
           [("  "%string, "y"%string)]
           ""%string ""%string st (BRoot _ _ _ (mkRoot _ _ _ 0 (-1) [])) []).
  - reflexivity.
  - reflexivity.
  - repeat constructor.
  - reflexivity.
  - reflexivity.
  - discriminate.
  - discriminate.
  - discriminate.
  - reflexivity.
  - vm_compute. lia.
Defined.

(** ** Clone *)

(** Two interpolators: the definition of [true] carries an [expand]
    function, that of [false] none. *)
Definition expanding_interpolator (b : bool)
  : ArgumentInterpolatorDefinition Builtin bool unit :=
  mkInterpolator _ _ _ "$(" ")" false
                 (if b then Some (fun s _ _ => Some s) else None).

(** A modifier node with a state and one argument, an interpolation of
    [b]. *)
Definition interpolated (t : ModType) (b : bool) : Node Builtin bool DefineState :=
  ModifierNode _ _ _
    (mkModifier _ _ _ _ t (Registered _ Normal) (Build_PositionRange 0 9)
       [mkArgument _ 3 7 [ArgInterp _ b (mkArgument _ 5 6 [ArgText _ 5 6 "x"]) 5 7]]
       0 9 (Some (mkDefineState None "" [])) [] None).

Lemma clone_throws_on_expand :
  cloneNode Builtin bool DefineState unit expanding_interpolator
            (interpolated block true) = None
  /\ exists n',
       cloneNode Builtin bool DefineState unit expanding_interpolator
                 (interpolated block false) = Some n'
       /\ stateless _ _ _ n' = true
       /\ n' <> interpolated block false.
Proof.
  split.
  - apply (cloneNode_removes_state Builtin bool DefineState unit
             expanding_interpolator (interpolated block true)).
    reflexivity.
  - destruct (cloneNode_removes_state Builtin bool DefineState unit
                expanding_interpolator (interpolated block false)) as [_ H].
    destruct (H _ eq_refl) as (_ & Hs & Hfix & _).
    eexists. split; [reflexivity|]. split; [exact Hs|].
    intros E. apply Hfix in E. discriminate.
Defined.

Definition uncloneable_system_node : Modifier Builtin bool DefineState :=
  mkModifier _ _ _ _ system (Registered _ Normal) (Build_PositionRange 0 9)
    [mkArgument _ 3 7 [ArgInterp _ true (mkArgument _ 5 6 [ArgText _ 5 6 "x"]) 5 7]]
    0 9 (Some (mkDefineState None "" [])) [] None.

Definition stateless_clone : Node Builtin bool DefineState :=
  ModifierNode _ _ _
    (mkModifier _ _ _ _ block (Registered _ Normal) (Build_PositionRange 0 9)
       [mkArgument _ 3 7 [ArgInterp _ false (mkArgument _ 5 6 [ArgText _ 5 6 "x"]) 5 7]]
       0 9 None [] None).

Lemma stripped_system_node_cloned :
  cloneNode Builtin bool DefineState unit expanding_interpolator
            (ModifierNode _ _ _ uncloneable_system_node) = None
  /\ map_option
       (cloneNode Builtin bool DefineState unit expanding_interpolator)
       (stripNode _ _ _ (ModifierNode _ _ _ uncloneable_system_node)) = Some []
  /\ map_option
       (cloneNode Builtin bool DefineState unit expanding_interpolator)
       (stripNode _ _ _ (interpolated block false))
     = Some [stateless_clone].
Proof.
  destruct (strip_commutes_with_clone Builtin bool DefineState unit
              expanding_interpolator) as (H1 & _ & H3).
  split; [|split].
  - exact (proj1 (H3 uncloneable_system_node eq_refl eq_refl)).
  - exact (proj2 (H3 uncloneable_system_node eq_refl eq_refl)).
  - exact (H1 (interpolated block false) stateless_clone eq_refl).
Defined.

(** ** Fix suggestions *)

Lemma closing_bracket_added :
  exists before behind,
    "[.a b" = (before ++ behind)%string
    /\ slen before = 5
    /\ fst (AddThing_apply 5 "]" "[.a b" 2) = (before ++ "]" ++ behind)%string
    /\ (0 <= 2 < slen "[.a b" ->
        char_at (fst (AddThing_apply 5 "]" "[.a b" 2))
                (snd (AddThing_apply 5 "]" "[.a b" 2))
        = char_at "[.a b" 2)
    /\ fst (RemoveThing_apply 5 (slen "]")
              (fst (AddThing_apply 5 "]" "[.a b" 2))
              (snd (AddThing_apply 5 "]" "[.a b" 2)))
       = "[.a b"
    /\ (5 <= 2 ->
        snd (RemoveThing_apply 5 (slen "]")
               (fst (AddThing_apply 5 "]" "[.a b" 2))
               (snd (AddThing_apply 5 "]" "[.a b" 2)))
        = 2)
    /\ UnknownModifier_apply 5 "[.a b" 2 = AddThing_apply 5 backslash "[.a b" 2.
Proof.
  apply (AddThing_apply_inserts 5 "]" "[.a b" 2). vm_compute. split; discriminate.
Defined.

Lemma cursor_before_removed_text :
  exists before removed behind,
    "abcdef" = (before ++ removed ++ behind)%string
    /\ slen before = 2 /\ slen removed = 3
    /\ fst (RemoveThing_apply 2 3 "abcdef" 1) = (before ++ behind)%string
    /\ (2 + 3 <= 1 < slen "abcdef" ->
        char_at (fst (RemoveThing_apply 2 3 "abcdef" 1))
                (snd (RemoveThing_apply 2 3 "abcdef" 1))
        = char_at "abcdef" 1)
    /\ (2 <= 1 < 2 + 3 -> snd (RemoveThing_apply 2 3 "abcdef" 1) = 2)
    /\ (1 < 2 -> snd (RemoveThing_apply 2 3 "abcdef" 1) = 1 - 3).
Proof.
  apply (RemoveThing_apply_removes 2 3 "abcdef" 1); vm_compute; discriminate.
Defined.

(** ** Flags *)

Lemma preformatted_marker_flags :
  has 3 (Z.lor 1 2) = (has 3 1 && has 3 2)%bool
  /\ has (Z.lor 3 1) 1 = true
  /\ (has 3 1 = true -> has 1 2 = true -> has 3 2 = true)
  /\ has 3 ModifierFlags.Normal = true.
Proof.
  apply (has_is_inclusion 3 1 2); unfold int32; lia.
Defined.

(** ** Paragraphs *)

(** Two lines, a blank line and one more newline. *)
Lemma two_lines_and_a_warning :
  exists st',
    PARAGRAPH Builtin unit DefineState unit definition_of interpolator_of 20
      (example_state ("one" ++ NL ++ "  two" ++ NL ++ NL ++ NL ++ "three"))
    = Done _ _ _ _ _ tt st'
    /\ blockStack _ _ _ _ st'
       = [BRoot _ _ _
            (mkRoot _ _ _ 0 (-1)
               [ParagraphNode _ _ _ 0 12
                  [TextNode _ _ _ 0 9 ("one" ++ NL ++ "two")]])]
    /\ messages _ _ _ _ st' = [UnnecessaryNewlineMessage 11 1].
Proof.
  eexists. split.
  - apply (PARAGRAPH_lines Builtin unit DefineState unit definition_of
             interpolator_of 20 "one" [("  ", "two")] "" NL "three"
             (example_state ("one" ++ NL ++ "  two" ++ NL ++ NL ++ NL ++ "three"))
             (BRoot _ _ _ (mkRoot _ _ _ 0 (-1) [])) []).
    + discriminate.
    + reflexivity.
    + repeat constructor.
    + reflexivity.
    + reflexivity.
    + reflexivity.
    + reflexivity.
    + reflexivity.
    + vm_compute. lia.
  - split; reflexivity.
Defined.

Lemma two_paragraphs_parsed :
  parse Builtin unit DefineState unit definition_of interpolator_of 30
        ("one" ++ NL ++ "  two" ++ NL ++ NL ++ "three" ++ NL ++ NL)
        example_config tt
  = Returns _ _ _ _
      (mkDocument _ _ _ _
         (mkRoot _ _ _ 0 (-1)
            [ParagraphNode _ _ _ 0 11 [TextNode _ _ _ 0 9 ("one" ++ NL ++ "two")];
             ParagraphNode _ _ _ 11 18 [TextNode _ _ _ 11 16 "three"]])
         (mkContext _ _ _ example_config 0 tt) []).
Proof.
  apply (paragraphs_parsed Builtin unit DefineState unit definition_of
           interpolator_of 30 [("one", [("  ", "two")]); ("three", [])]
           example_config tt).
  - reflexivity.
  - vm_compute. lia.
Defined.

Lemma group_of_one_paragraph :
  exists st',
    MAYBE_GROUPED_PARAGRAPH Builtin unit DefineState unit definition_of
      interpolator_of 20
      (example_state (":--" ++ NL ++ "one" ++ NL ++ NL ++ "--:"))
    = Done _ _ _ _ _ tt st'
    /\ blockStack _ _ _ _ st'
       = [BRoot _ _ _
            (mkRoot _ _ _ 0 (-1)
               [ParagraphNode _ _ _ 4 9 [TextNode _ _ _ 4 7 "one"]])]
    /\ messages _ _ _ _ st' = []
    /\ groupDepth _ _ _ _ st' = 0.
Proof.
  eexists. split.
  - apply (MAYBE_GROUPED_PARAGRAPH_group Builtin unit DefineState unit definition_of
             interpolator_of 20 [("one", [])] true ""
             (example_state (":--" ++ NL ++ "one" ++ NL ++ NL ++ "--:"))
             (BRoot _ _ _ (mkRoot _ _ _ 0 (-1) [])) []).
    + vm_compute. discriminate.
    + reflexivity.
    + reflexivity.
    + reflexivity.
    + vm_compute. lia.
  - repeat split; reflexivity.
Defined.

(** ** Escaped characters in arguments *)

Lemma escaped_bracket_in_argument :
  ARGUMENT_CONTENT Builtin unit DefineState unit interpolator_of 5 None
    (example_state "a\]b]")
  = Done _ _ _ _ _
      (mkArgument _ 0 4
         [ArgText _ 0 1 "a"; ArgEscaped _ 0 2 "]"; ArgText _ 3 4 "b"], false)
      (set_scanner _ _ _ _ (example_state "a\]b]") (mkScanner 4 "]")).
Proof.
  apply (ARGUMENT_CONTENT_escaped Builtin unit DefineState unit interpolator_of 5
           "a" "]"%char "b" "]" (example_state "a\]b]")).
  - reflexivity.
  - reflexivity.
  - reflexivity.
  - reflexivity.
  - vm_compute. lia.
Defined.

(** ** A fix applied *)

Lemma third_newline_removed :
  exists st1 st2,
    PARAGRAPH Builtin unit DefineState unit definition_of interpolator_of 10
      (example_state ("one" ++ NL ++ NL ++ NL ++ "two"))
    = Done _ _ _ _ _ tt st1
    /\ messages _ _ _ _ st1 = [UnnecessaryNewlineMessage 5 1]
    /\ fst (UnnecessaryNewline_apply 5 1 ("one" ++ NL ++ NL ++ NL ++ "two") 0)
       = ("one" ++ NL ++ NL ++ "two")%string
    /\ PARAGRAPH Builtin unit DefineState unit definition_of interpolator_of 10
         (example_state ("one" ++ NL ++ NL ++ "two"))
       = Done _ _ _ _ _ tt st2
    /\ messages _ _ _ _ st2 = [].
Proof.
  destruct (UnnecessaryNewline_fix_removes_warning Builtin unit DefineState unit
              definition_of interpolator_of 10 "" "one" [] "" NL "two" 0 []
              (BRoot _ _ _ (mkRoot _ _ _ 0 (-1) [])) [] [] []
              (mkContext _ _ _ example_config 0 tt) 0
              (sorted_prefixes _ _ example_config))
    as (H1 & H2 & H3).
  - discriminate.
  - reflexivity.
  - constructor.
  - reflexivity.
  - reflexivity.
  - vm_compute. reflexivity.
  - reflexivity.
  - vm_compute. lia.
  - eexists _, _. split; [exact H1|]. split; [reflexivity|].
    split; [exact H2|]. split; [exact H3|]. reflexivity.
Defined.

Lemma line_break_before_block :
  exists st1 st2,
    PARAGRAPH Builtin unit DefineState unit definition_of interpolator_of 10
      (example_state "text[.normal] a")
    = Done _ _ _ _ _ tt st1
    /\ messages _ _ _ _ st1 = [NewBlockShouldBeOnNewlineMessage 4]
    /\ fst (NewBlockShouldBeOnNewline_apply 4 "text[.normal] a" 0)
       = ("text" ++ NL ++ "[.normal] a")%string
    /\ PARAGRAPH Builtin unit DefineState unit definition_of interpolator_of 10
         (example_state ("text" ++ NL ++ "[.normal] a"))
       = Done _ _ _ _ _ tt st2
    /\ messages _ _ _ _ st2 = [].
Proof.
  destruct (NewBlockShouldBeOnNewline_fix_removes_warning Builtin unit DefineState
              unit definition_of interpolator_of 10 "" "text" "normal] a" 0 []
              (BRoot _ _ _ (mkRoot _ _ _ 0 (-1) [])) [] [] []
              (mkContext _ _ _ example_config 0 tt) 0
              (sorted_prefixes _ _ example_config))
    as (H1 & H2 & H3).
  - discriminate.
  - reflexivity.
  - vm_compute. lia.
  - eexists _, _. split; [exact H1|]. split; [reflexivity|].
    split; [exact H2|]. split; [exact H3|]. reflexivity.
Defined.

(** ** Line positions *)

(** The code units of U+1F600, a newline and [b]; and of [ab], a newline
    and [c]. *)
Lemma surrogate_pair_shifts_lines :
  pos2lc [55357; 56832; 10; 98] 2 = Some (2, 1)
  /\ pos2lc [97; 98; 10; 99] 2 = Some (1, 3).
Proof.
  split.
  - destruct (pos2lc_counts_newlines [55357; 56832; 10; 98] 2) as (_ & _ & H & _).
    apply (H 55357 56832 [98]); reflexivity.
  - destruct (pos2lc_counts_newlines [97; 98; 10; 99] 2) as (_ & _ & _ & H).
    apply (H 97 98 [99]); try reflexivity; discriminate.
Defined.

End Examples.
